(** * ts-tailwindplus-downloader: the extraction core, embedded and verified

    The first part embeds the TypeScript sources, module by module:
    - [Js]            how template literals print numbers and booleans;
    - [FormatClass]   models/format.ts (the [Format] value object);
    - [Reflecting]    models/reflecting-array.ts (the alternating iterable);
    - [FormatManager] downloader/format-manager.ts ([generateFormats]);
    - [Unauth]        worker/unauthenticated.ts (the [formatsToUse] filter);
    - [Output]        downloader/output.ts (merge, count, deduplicate) on
                      component data as trees;
    - [Downloader], [Worker], [Pool]
                      downloader/downloader.ts and worker/worker.ts
                      ([processJobResult], the job loop, workers in any order);
    - [Auth]          downloader/auth.ts ([retryGoto], [resilientLogin], [login]);
    - [Store], [StoreMerge]
                      output.ts once more, over an explicit store of objects,
                      for the statements about mutation and object identity;
    - [PageFunctions], [Authenticated], [DownloadPasses]
                      browser/page-functions.ts, worker/authenticated.ts and
                      the passes of [_processFormats];
    - [DirectoryOutput], [JsonSorting]
                      the directory writer of output.ts and
                      utils/json-sorting.ts;
    - [Discovery], [DiscoveryLoop]
                      downloader/discovery.ts (the URL file, the retry loop);
    - [FormatControls], [FormatSwitch]
                      format-manager.ts once more ([readCurrentFormat],
                      [setFormat]);
    - [SessionCheck], [Lifecycle], [Logging], [Cli]
                      the session check of auth.ts, [start] of downloader.ts,
                      logger.ts and the paths of index.ts.
    The second part states and proves the properties.

    Numbers: every [number] the modelled code touches is an integer
    (versions come from [parseInt] or from the configuration, retry counts
    start at 0 and are incremented), so [number] is [Z] and its string
    conversion is the decimal one (as JavaScript prints integers below
    10^21). *)

From Stdlib Require Import List String Ascii ZArith Bool Lia Arith.
From Stdlib Require Import Permutation.
From Stdlib Require Decimal DecimalString DecimalZ DecimalPos.
Import ListNotations.

Local Open Scope string_scope.
Local Open Scope list_scope.

(* ================================================================== *)
(** * Strings as JavaScript builds them                                *)
(* ================================================================== *)

Module Js.

(** [String(n)] / [`${n}`] for an integral number below 10^21 in absolute
    value (from there on JavaScript prints an exponent). *)
Definition string_of_number (z : Z) : string :=
  DecimalString.NilEmpty.string_of_int (Z.to_int z).

(** [`${b}`] for a boolean. *)
Definition string_of_boolean (b : bool) : string :=
  if b then "true" else "false".

(** [free c s]: the character [c] does not occur in [s]. *)
Fixpoint free (c : ascii) (s : string) : bool :=
  match s with
  | EmptyString => true
  | String a s' => negb (Ascii.eqb a c) && free c s'
  end.

Definition is_digit (a : ascii) : bool :=
  let n := nat_of_ascii a in (48 <=? n)%nat && (n <=? 57)%nat.

Fixpoint all_digits (s : string) : bool :=
  match s with
  | EmptyString => true
  | String a s' => is_digit a && all_digits s'
  end.

(** What may follow a number inside a key: nothing, or a character that
    is not a digit. *)
Definition stops_digits (s : string) : bool :=
  match s with
  | EmptyString => true
  | String a _ => negb (is_digit a)
  end.

(** The property names every ordinary object ([{}], an object literal)
    inherits from [Object.prototype]: [obj[key]] finds them although the
    object has no property of its own under the name. All but [__proto__]
    are functions; [obj['__proto__']] is [Object.prototype] itself, and
    [obj['__proto__'] = v] sets the prototype instead of adding a
    property. *)
Definition prototype_names : list string :=
  [ "constructor"; "__defineGetter__"; "__defineSetter__"; "hasOwnProperty";
    "__lookupGetter__"; "__lookupSetter__"; "isPrototypeOf";
    "propertyIsEnumerable"; "toString"; "valueOf"; "__proto__";
    "toLocaleString" ].

Definition inherited (key : string) : bool :=
  existsb (String.eqb key) prototype_names.

End Js.

(* ================================================================== *)
(** * models/format.ts                                                 *)
(* ================================================================== *)

(** [FormatOptions] and the three public fields of the frozen [Format]
    object; [mode] is [string | null]. *)
Record Format : Type := mkFormat {
  framework : string;
  version : Z;
  mode : option string
}.

Module FormatClass.
Local Open Scope string_scope.

(** The private [_stringValue] the constructor computes:
    "react-v4-light", or "html-v3" when [mode === null]. *)
Definition _stringValue (f : Format) : string :=
  match mode f with
  | None => framework f ++ "-v" ++ Js.string_of_number (version f)
  | Some m => framework f ++ "-v" ++ Js.string_of_number (version f) ++ "-" ++ m
  end.

Definition valueOf (f : Format) : string := _stringValue f.
Definition toString (f : Format) : string := _stringValue f.

(** [equals(other)]: [other instanceof Format] holds for every value of
    the type, what is left is the comparison of the two string keys. *)
Definition equals (this other : Format) : bool :=
  String.eqb (_stringValue this) (_stringValue other).

(** The part of the key that follows the version: empty for [null],
    "-mode" otherwise. *)
Definition mode_tail (m : option string) : string :=
  match m with None => "" | Some s => String "-" s end.

(** Agreement on all three dimensions. *)
Definition same_dimensions (a b : Format) : Prop :=
  framework a = framework b /\ version a = version b /\ mode a = mode b.

End FormatClass.

(* ================================================================== *)
(** * models/reflecting-array.ts                                       *)
(* ================================================================== *)

Module Reflecting.

(** The private field [_direction: 1 | -1]. *)
Inductive Direction : Type :=
| Forward   (* 1 *)
| Backward. (* -1 *)

Record ReflectingArray (T : Type) : Type := mkReflectingArray {
  _items : list T;
  _direction : Direction
}.
Arguments mkReflectingArray {T} _ _.
Arguments _items {T} _.
Arguments _direction {T} _.

(** [new ReflectingArray(...items)]: the direction starts at 1. *)
Definition new {T} (items : list T) : ReflectingArray T :=
  mkReflectingArray items Forward.

(** The values one run of the generator yields: [yield* this._items]
    when the direction is 1, else the index loop from [length - 1] down
    to 0. *)
Definition yielded {T} (ra : ReflectingArray T) : list T :=
  match _direction ra with
  | Forward => _items ra
  | Backward => rev (_items ra)
  end.

(** The last statement of the generator: flip the direction for the next
    traversal. *)
Definition flipped {T} (ra : ReflectingArray T) : ReflectingArray T :=
  mkReflectingArray (_items ra)
    (match _direction ra with Forward => Backward | Backward => Forward end).

(** [for (const x of ra) body]: a loop without [break] runs the generator
    to its end, so the body sees [yielded ra] in order and the array is
    left flipped. The body works on a state [S] that does not hold [ra]. *)
Definition for_of {T S} (ra : ReflectingArray T) (body : T -> S -> S) (s : S)
  : ReflectingArray T * S :=
  (flipped ra, fold_left (fun acc x => body x acc) (yielded ra) s).

End Reflecting.

(* ================================================================== *)
(** * downloader/format-manager.ts                                     *)
(* ================================================================== *)

(** [config.download] of [DownloaderConfig]. *)
Record DownloadConfig : Type := mkDownloadConfig {
  frameworks : list string;
  versions : list Z;
  modes : list string
}.

(** [createConfig().download]. *)
Definition defaultDownload : DownloadConfig :=
  mkDownloadConfig ["react"; "vue"; "html"]%string [3; 4]%Z ["system"; "light"; "dark"]%string.

Module FormatManager.
Import Reflecting.

(** [m !== startM] for [startM : string | null]. *)
Definition mode_differs (startM : option string) (m : string) : bool :=
  match startM with
  | None => true
  | Some s => negb (String.eqb m s)
  end.

(** [startM ?? config.download.modes[0]!]. With [startM === null] and an
    empty list the expression is [undefined]: the code goes on and returns
    formats whose mode is [undefined], which are no formats of the declared
    type. That run is not modelled: [None] here, and no statement below is
    about it. *)
Definition first_mode (startM : option string) (config : DownloadConfig) : option string :=
  match startM with
  | Some m => Some m
  | None => hd_error (modes config)
  end.

(** The innermost loop: [for (const m of modes) formats.push(...)]. *)
Definition modes_loop (fw : string) (v : Z)
    (st : ReflectingArray string * list Format) : ReflectingArray string * list Format :=
  let (modesRA, formats) := st in
  for_of modesRA (fun m fs => fs ++ [mkFormat fw v (Some m)]) formats.

(** [for (const v of versions) { for (const m of modes) ... }]. *)
Definition versions_loop (fw : string)
    (st : ReflectingArray Z * (ReflectingArray string * list Format))
  : ReflectingArray Z * (ReflectingArray string * list Format) :=
  let (versionsRA, inner) := st in
  for_of versionsRA (fun v acc => modes_loop fw v acc) inner.

(** The three nested loops from the three freshly built arrays. *)
Definition generate (fws : list string) (vs : list Z) (ms : list string) : list Format :=
  let frameworksRA := new fws in
  let versionsRA := new vs in
  let modesRA := new ms in
  let '(_, (_, (_, formats))) :=
    for_of frameworksRA (fun fw acc => versions_loop fw acc) (versionsRA, (modesRA, [])) in
  formats.

Definition generateFormats (startFormat : Format) (config : DownloadConfig)
  : option (list Format) :=
  let startFw := framework startFormat in
  let startV := version startFormat in
  let startM := mode startFormat in
  match first_mode startM config with
  | None => None
  | Some m0 =>
      Some (generate
              (startFw :: filter (fun f => negb (String.eqb f startFw)) (frameworks config))
              (startV :: filter (fun v => negb (Z.eqb v startV)) (versions config))
              (m0 :: filter (mode_differs startM) (modes config)))
  end.

(** The Cartesian product of the configured value lists. *)
Definition product (config : DownloadConfig) : list Format :=
  flat_map (fun fw =>
    flat_map (fun v =>
      map (fun m => mkFormat fw v (Some m)) (modes config)) (versions config))
    (frameworks config).

End FormatManager.

(** The loops of [generateFormats] written out as the list they push, used
    to state and prove the properties of the sequence. *)
Module FormatTrace.
Import Reflecting.

Definition cell (fw : string) (v : Z) (m : string) : Format :=
  mkFormat fw v (Some m).

(** What one run of the versions loop pushes for framework [fw]. *)
Fixpoint blocks (fw : string) (vs : list Z) (modesRA : ReflectingArray string)
  : list Format :=
  match vs with
  | [] => []
  | v :: vs' => map (cell fw v) (yielded modesRA) ++ blocks fw vs' (flipped modesRA)
  end.

(** What the frameworks loop pushes. *)
Fixpoint rows (fws : list string) (versionsRA : ReflectingArray Z)
    (modesRA : ReflectingArray string) : list Format :=
  match fws with
  | [] => []
  | fw :: fws' =>
      blocks fw (yielded versionsRA) modesRA ++
      rows fws' (flipped versionsRA)
           (Nat.iter (List.length (yielded versionsRA)) flipped modesRA)
  end.

(** The Cartesian product of three value lists, outermost first. *)
Definition grid (fws : list string) (vs : list Z) (ms : list string) : list Format :=
  flat_map (fun fw => flat_map (fun v => map (cell fw v) ms) vs) fws.

Definition last_error {A} (l : list A) : option A := hd_error (rev l).

(** [chain R l]: [R] holds between every element of [l] and its successor. *)
Fixpoint chain {A} (R : A -> A -> Prop) (l : list A) : Prop :=
  match l with
  | a :: (b :: _) as t => R a b /\ chain R t
  | _ => True
  end.

(** Adjacent formats of one framework make a Gray-code step. *)
Definition gray_step (a b : Format) : Prop :=
  framework a = framework b ->
  (version a <> version b /\ mode a = mode b) \/
  (version a = version b /\ mode a <> mode b).

End FormatTrace.

(** The two properties of a generated sequence. *)
Module FormatSequence.
Import FormatManager FormatTrace.

(** The start format is the literal first element, no format occurs twice,
    and the formats are those of the product of the configured lists. *)
Definition starts_at_and_covers (start : Format) (config : DownloadConfig)
    (out : list Format) : Prop :=
  hd_error out = Some start /\
  NoDup out /\
  (forall f, In f out <-> In f (product config)).

(** Every two neighbours of the sequence that share the framework differ
    in exactly one of version and mode. *)
Definition gray_adjacent (out : list Format) : Prop :=
  forall i a b,
    nth_error out i = Some a -> nth_error out (S i) = Some b -> gray_step a b.

End FormatSequence.

(* ================================================================== *)
(** * Keeping the first occurrence                                     *)
(* ================================================================== *)

(** Both "seen" loops of the sources (the [Set] filter of
    unauthenticated.ts and the [Map] loop of output.ts) are meant to keep,
    of the elements that count as the same, the first one. This is that
    collapse, stated without keys: an element is kept exactly when no
    earlier element of the sequence is the same. *)
Module FirstOccurrence.
Section Keep.
Context {A : Type} (same : A -> A -> bool).

Fixpoint keep_first_from (earlier l : list A) : list A :=
  match l with
  | nil => nil
  | x :: rest =>
      if existsb (same x) earlier
      then keep_first_from (earlier ++ [x]) rest
      else x :: keep_first_from (earlier ++ [x]) rest
  end.

Definition keep_first (l : list A) : list A := keep_first_from [] l.
End Keep.

End FirstOccurrence.

(* ================================================================== *)
(** * worker/unauthenticated.ts                                        *)
(* ================================================================== *)

(** A [Set<string>] / the key set of a [Map<string, _>], in insertion order. *)
Module StringSet.
Definition t : Type := list string.
Definition empty : t := [].
Definition has (key : string) (s : t) : bool := existsb (String.eqb key) s.
(** [add] is only called on a key that [has] has just reported absent. *)
Definition add (key : string) (s : t) : t := s ++ [key].
End StringSet.

Module Unauth.
Local Open Scope string_scope.

(** [`${f.framework}-${f.version}`]. *)
Definition pair_key (f : Format) : string :=
  framework f ++ "-" ++ Js.string_of_number (version f).

(** [formats.filter(f => { ... })] with its closure over [seen]. *)
Fixpoint filter_seen (seen : StringSet.t) (formats : list Format) : list Format :=
  match formats with
  | nil => nil
  | f :: rest =>
      let key := pair_key f in
      if StringSet.has key seen then filter_seen seen rest
      else f :: filter_seen (StringSet.add key seen) rest
  end.

(** [formatsToUse] of [extractUnauthenticatedPageData]: the formats
    themselves on a page with mode inputs, the filtered list on a page
    without (eCommerce). *)
Definition formatsToUse (hasModeInputs : bool) (formats : list Format) : list Format :=
  if hasModeInputs then formats else filter_seen StringSet.empty formats.

(** The (framework, version) pair of a format and its comparison. *)
Definition pair_of (f : Format) : string * Z := (framework f, version f).

Definition same_pair (f g : Format) : bool :=
  String.eqb (framework f) (framework g) && Z.eqb (version f) (version g).

(** The collapse in the words of the specification: a format is kept
    exactly when no earlier format of the sequence has its (framework,
    version) pair. *)
Definition first_of_each_pair (formats : list Format) : list Format :=
  FirstOccurrence.keep_first same_pair formats.

(** Keys read back in one way: no framework name contains "-", or no
    version is negative. *)
Definition plain_keys (formats : list Format) : Prop :=
  Forall (fun f => Js.free "-" (framework f) = true) formats \/
  Forall (fun f => (0 <= version f)%Z) formats.

(** The start format of an unauthenticated run ([_runDownload]). *)
Definition unauthenticatedStart : Format := mkFormat "html" 3 (Some "light").

End Unauth.

(* ================================================================== *)
(** * types.ts: component data                                         *)
(* ================================================================== *)

Module SnippetType.
(** [interface Snippet]. *)
Record Snippet : Type := mkSnippet {
  code : string;
  name : string;
  language : string;
  version : Z;
  mode : option string;
  supportsDarkMode : bool;
  preview : string
}.
End SnippetType.

Abbreviation Snippet := SnippetType.Snippet.

(** The values of a component-data tree, told apart the way output.ts tells
    them apart: an object whose [snippets] property is an array is a
    component entry ([ComponentEntry]), any other object is a container
    ([Record<string, ...>]: product, category, subcategory). An object is the
    list of its properties in insertion order (JavaScript lists property
    names that look like array indices first; no statement here depends on
    the order). *)
#[warnings="-register-all"]
Inductive Node : Type :=
| Entry (name : string) (snippets : list Snippet)
| Group (children : list (string * Node)).

(** [Record<string, unknown>] restricted to such values; [ComponentData] is
    the case of four levels. *)
Definition Tree : Type := list (string * Node).

Module Obj.
(** The value of the object's own property [key], [None] when it has none.
    This is [obj[key]] whenever the object has the property or [key] is
    not one of [Js.prototype_names]. *)
Fixpoint get (key : string) (obj : Tree) : option Node :=
  match obj with
  | nil => None
  | (k, v) :: rest => if String.eqb key k then Some v else get key rest
  end.

(** [obj[key] = v] on the object's own properties: an existing property
    keeps its place, a new one comes last. (With [key = '__proto__'] and no
    such property the assignment adds none; the callers treat that case
    before they come here.) *)
Fixpoint set (key : string) (v : Node) (obj : Tree) : Tree :=
  match obj with
  | nil => [(key, v)]
  | (k, w) :: rest =>
      if String.eqb key k then (k, v) :: rest else (k, w) :: set key v rest
  end.

(** No property name occurs twice (true of every JavaScript object). *)
Fixpoint unique_keys (obj : Tree) : bool :=
  match obj with
  | nil => true
  | (k, _) :: rest => negb (existsb (fun kv => String.eqb k (fst kv)) rest) && unique_keys rest
  end.
End Obj.

Module TreeShape.
(** [shaped d n]: [n] is a tree with its entries exactly [d] levels down
    and proper objects all the way. [ComponentData] is [shaped 4] of the
    root object. *)
Fixpoint shaped (d : nat) (n : Node) : bool :=
  match d, n with
  | O, Entry _ _ => true
  | S d', Group cs => Obj.unique_keys cs && forallb (fun kv => shaped d' (snd kv)) cs
  | _, _ => false
  end.

Definition isComponentData (t : Tree) : bool := shaped 4 (Group t).

(** [plain_key key v]: a look-up of [key] in an object that has no such
    property finds nothing that would be taken for [v]'s counterpart: for
    an entry, [key] is inherited by no object; for a container, [key] is
    not [__proto__] (the inherited functions are not objects and are
    replaced like a missing property). *)
Definition plain_key (key : string) (v : Node) : bool :=
  match v with
  | Entry _ _ => negb (Js.inherited key)
  | Group _ => negb (String.eqb key "__proto__")
  end.

(** Every property of the tree, at every level, is under a plain key. *)
Fixpoint plain_names (n : Node) : bool :=
  match n with
  | Entry _ _ => true
  | Group cs => forallb (fun kv => plain_key (fst kv) (snd kv) && plain_names (snd kv)) cs
  end.

(** The node a path of property names leads to. *)
Fixpoint node_at (path : list string) (n : Node) : option Node :=
  match path with
  | nil => Some n
  | k :: rest =>
      match n with
      | Group cs =>
          match Obj.get k cs with
          | Some c => node_at rest c
          | None => None
          end
      | Entry _ _ => None
      end
  end.

(** The snippet list of the leaf at [path]; empty where there is no leaf. *)
Definition snippets_of (n : option Node) : list Snippet :=
  match n with
  | Some (Entry _ ss) => ss
  | _ => nil
  end.

Definition leaf_snippets (path : list string) (t : Tree) : list Snippet :=
  snippets_of (node_at path (Group t)).

Definition is_node (n : option Node) : bool :=
  match n with Some _ => true | None => false end.

(** Whether the tree has a node (container or leaf) at [path]. *)
Definition present (path : list string) (t : Tree) : bool :=
  is_node (node_at path (Group t)).

(** [node_at] below a property that may be missing. *)
Definition node_below (path : list string) (o : option Node) : option Node :=
  match o with
  | Some n => node_at path n
  | None => None
  end.

(** [joins r t s]: at every path, the leaf of [r] carries the snippets of
    the leaf of [t] followed by those of the leaf of [s], and [r] has a
    node wherever [t] or [s] has one. *)
Definition joins (r t s : option Node) : Prop :=
  forall path,
    snippets_of (node_below path r) =
      snippets_of (node_below path t) ++ snippets_of (node_below path s) /\
    is_node (node_below path r) =
      is_node (node_below path t) || is_node (node_below path s).
End TreeShape.

(* ================================================================== *)
(** * downloader/output.ts                                             *)
(* ================================================================== *)

Module Output.
Local Open Scope string_scope.

(** ** mergeComponentData

    The function updates [target] in place; here it returns the updated
    target. It shares no object with [source] that it later writes to:
    a new entry gets a copy of the snippet array, [concat] builds a new
    array, and containers are created as fresh [{}].

    [target[key]] looks the key up in the object and then in
    [Object.prototype]. [None] stands for the runs that raise or leave the
    component-data type:
    - a source entry meeting a target container, or a target that has no
      such property and inherits one ([Js.inherited]): [targetEntry] is
      an object or function without [snippets], and [.concat] on
      [undefined] throws a TypeError;
    - a source container under [__proto__] where the target has no such
      property: [target[key]] is [Object.prototype], which the recursive
      call would write to;
    - a non-empty source container meeting a target entry (the entry
      object would be used as a container). *)

(** The body of [for (const [key, value] of Object.entries(source))],
    given the treatment of one value. *)
Definition merge_entries (merge_value : string -> option Node -> Node -> option Node)
  : Tree -> Tree -> option Tree :=
  fix loop (entries target : Tree) : option Tree :=
    match entries with
    | nil => Some target
    | (key, value) :: rest =>
        match merge_value key (Obj.get key target) value with
        | Some n => loop rest (Obj.set key n target)
        | None => None
        end
    end.

(** What [target[key]] becomes for one [value] of the source;
    [targetEntry] is the target's own property [key]. *)
Fixpoint merge_value (key : string) (targetEntry : option Node) (value : Node)
  : option Node :=
  match value with
  | Entry nm ss =>
      (* Array.isArray(obj['snippets']) *)
      match targetEntry with
      | None =>
          (* const targetEntry = target[key] *)
          if Js.inherited key then None else Some (Entry nm ss)
      | Some (Entry tnm tss) => Some (Entry tnm (tss ++ ss)%list)
      | Some (Group _) => None
      end
  | Group cs =>
      match targetEntry with
      | None =>
          (* !target[key] || typeof target[key] !== 'object' *)
          if String.eqb key "__proto__" then None
          else option_map Group (merge_entries merge_value cs nil)
      | Some (Group tcs) => option_map Group (merge_entries merge_value cs tcs)
      | Some (Entry tnm tss) =>
          match cs with
          | nil => Some (Entry tnm tss)
          | _ :: _ => None
          end
      end
  end.

Definition mergeComponentData (target source : Tree) : option Tree :=
  merge_entries merge_value source target.

(** Merging a list of partial results one after the other, as the
    result-ingestion callback does over a run. *)
Fixpoint merge_all (acc : Tree) (partials : list Tree) : option Tree :=
  match partials with
  | nil => Some acc
  | p :: rest =>
      match mergeComponentData acc p with
      | Some acc' => merge_all acc' rest
      | None => None
      end
  end.

(** ** countComponents *)
Fixpoint countNode (n : Node) : nat :=
  match n with
  | Entry _ _ => 1
  | Group cs => fold_right (fun kv acc => countNode (snd kv) + acc) 0 cs
  end.

Definition countComponents (data : Tree) : nat := countNode (Group data).

(** ** deduplicateEcommerceSnippets *)

(** [`${snippet.name}|${snippet.version}|${snippet.supportsDarkMode}`]. *)
Definition snippet_key (s : Snippet) : string :=
  SnippetType.name s ++ "|" ++ Js.string_of_number (SnippetType.version s) ++ "|"
    ++ Js.string_of_boolean (SnippetType.supportsDarkMode s).

(** [seen : Map<string, Snippet>] in insertion order. *)
Definition SeenMap : Type := list (string * Snippet).

Definition seen_has (key : string) (seen : SeenMap) : bool :=
  existsb (fun kv => String.eqb key (fst kv)) seen.

(** [seen.set(key, snippet)], only reached when the key is absent. *)
Definition seen_set (key : string) (s : Snippet) (seen : SeenMap) : SeenMap :=
  (seen ++ [(key, s)])%list.

(** [for (const snippet of snippets) ...]. *)
Fixpoint seen_loop (snippets : list Snippet) (seen : SeenMap) : SeenMap :=
  match snippets with
  | nil => seen
  | snippet :: rest =>
      let key := snippet_key snippet in
      if seen_has key seen then seen_loop rest seen
      else seen_loop rest (seen_set key snippet seen)
  end.

(** [Array.from(seen.values())] after the loop. *)
Definition dedupSnippets (snippets : list Snippet) : list Snippet :=
  map snd (seen_loop snippets nil).

(** The inner [deduplicate(obj)], on the value of the clone. *)
Fixpoint deduplicate (n : Node) : Node :=
  match n with
  | Entry nm ss => Entry nm (dedupSnippets ss)
  | Group cs => Group (map (fun kv => (fst kv, deduplicate (snd kv))) cs)
  end.

(** [structuredClone] copies the value; the result is the deduplicated
    copy of the root object. *)
Definition deduplicateEcommerceSnippets (data : Tree) : Tree :=
  match deduplicate (Group data) with
  | Group cs => cs
  | Entry _ _ => data
  end.

(** Two snippets share framework name, version and dark-mode flag. *)
Definition variant_of (s : Snippet) : string * Z * bool :=
  (SnippetType.name s, SnippetType.version s, SnippetType.supportsDarkMode s).

Definition same_variant (s t : Snippet) : bool :=
  String.eqb (SnippetType.name s) (SnippetType.name t)
  && Z.eqb (SnippetType.version s) (SnippetType.version t)
  && Bool.eqb (SnippetType.supportsDarkMode s) (SnippetType.supportsDarkMode t).

(** The collapse in the words of the specification. *)
Definition first_of_each_variant (snippets : list Snippet) : list Snippet :=
  FirstOccurrence.keep_first same_variant snippets.

End Output.

(** Small component-data trees used as concrete inputs. *)
Module Samples.
Local Open Scope string_scope.

Definition X : Snippet :=
  SnippetType.mkSnippet "<x/>" "react" "jsx" 4 None true "<x-preview/>".
Definition Y : Snippet :=
  SnippetType.mkSnippet "<y/>" "vue" "html" 4 None true "<y-preview/>".
(** [X] captured once more under another format pass. *)
Definition X' : Snippet :=
  SnippetType.mkSnippet "<x again/>" "react" "jsx" 4 None true "<x-preview/>".

(** The partial result of one page holding one component. *)
Definition page (component : string) (snippets : list Snippet) : Tree :=
  [("Ecommerce",
    Group [("Components",
      Group [("Product Overviews",
        Group [(component, Entry component snippets)])])])].

Definition path_of (component : string) : list string :=
  ["Ecommerce"; "Components"; "Product Overviews"; component].
End Samples.

(* ================================================================== *)
(** * types.ts: jobs; downloader/downloader.ts; worker/worker.ts       *)
(* ================================================================== *)

Module JobType.
(** [type JobStatus]. *)
Inductive JobStatus : Type := pending | processing | completed | failed.

(** [interface Job]; the optional [data] and [error] are [None] when absent. *)
Record Job : Type := mkJob {
  url : string;
  status : JobStatus;
  retryCount : Z;
  data : option Tree;
  error : option string
}.
End JobType.

Module Downloader.
Import JobType.

(** The fields of [TailwindPlusDownloader] that [processJobResult] and the
    workers read and write. Logging is left out: it changes none of them. *)
Record Host : Type := mkHost {
  maxRetries : Z;            (* config.retries.maxRetries *)
  jobQueue : list Job;
  componentData : Tree
}.

Definition with_queue (q : list Job) (this : Host) : Host :=
  mkHost (maxRetries this) q (componentData this).

Definition with_data (t : Tree) (this : Host) : Host :=
  mkHost (maxRetries this) (jobQueue this) t.

(** The retry count of a job lies between 0 and the limit. *)
Definition within_limit (limit : Z) (j : Job) : Prop :=
  (0 <= retryCount j <= limit)%Z.

(** A job whose first attempt timed out. *)
Definition failed_once : Job :=
  mkJob "https://tailwindcss.com/plus/ui-blocks/ecommerce" failed 0 None
        (Some "Timeout 10000ms exceeded").

(** [_populateJobQueue]: one pending job per URL, never retried yet. *)
Definition _populateJobQueue (urls : list string) (this : Host) : Host :=
  with_queue (map (fun u => mkJob u pending 0 None None) urls) this.

(** [processJobResult(job)]. The job is an object shared with the caller:
    the result is the job as the call leaves it, together with the host.
    The job pushed onto the queue is that same object. [None]: the merge
    raised. *)
Definition processJobResult (this : Host) (job : Job) : option (Job * Host) :=
  match status job, data job with
  | completed, Some d =>
      match Output.mergeComponentData (componentData this) d with
      | Some merged => Some (job, with_data merged this)
      | None => None
      end
  | failed, _ =>
      if (retryCount job <? maxRetries this)%Z then
        let job' := mkJob (url job) pending (retryCount job + 1) (data job) None in
        Some (job', with_queue (jobQueue this ++ [job']) this)
      else
        Some (job, this)
  | _, _ => Some (job, this)
  end.

End Downloader.

Module Worker.
Import JobType Downloader.

(** What one extraction attempt comes to: the page data, or the message
    of the error it threw. *)
Inductive Extraction : Type :=
| Extracted (pageData : Tree)
| Threw (message : string).

(** The body of the [try]/[catch] of the job loop, on the job just taken. *)
Definition attempt (outcome : Extraction) (job : Job) : Job :=
  match outcome with
  | Extracted d => mkJob (url job) completed (retryCount job) (Some d) (error job)
  | Threw msg => mkJob (url job) failed (retryCount job) (data job) (Some msg)
  end.

(** One turn of [while (this.host.jobQueue.length > 0)]: [shift], attempt,
    report. [None] when the queue is empty; otherwise the job as reported
    and the host after the report ([None] inside: the report raised). *)
Definition turn (outcome : Extraction) (this : Host) : option (option (Job * Host)) :=
  match jobQueue this with
  | nil => None
  | job :: rest =>
      Some (processJobResult (with_queue rest this) (attempt outcome job))
  end.

(** The job loop against a list of extraction outcomes, one per turn; the
    jobs are returned in the order they were reported, with the host as
    the last completed turn left it. The loop stops at an empty queue, or
    when the outcomes run out; a report that raises ends it as well, with
    the error ([raises] below tells that ending from the others). *)
Fixpoint run (outcomes : list Extraction) (this : Host) : list Job * Host :=
  match outcomes with
  | nil => (nil, this)
  | o :: rest =>
      match turn o this with
      | Some (Some (job, this')) =>
          let (reported, final) := run rest this' in (job :: reported, final)
      | _ => (nil, this)
      end
  end.

(** Whether a report of the loop raises (or its merge leaves the
    component-data type, see [Output.merge_value]). [processJobResult] is
    called after the [try]/[catch] of the loop body, so an error of the
    merge is not caught there: it leaves the loop and [start]. *)
Fixpoint raises (outcomes : list Extraction) (this : Host) : bool :=
  match outcomes with
  | nil => false
  | o :: rest =>
      match turn o this with
      | Some (Some (_, this')) => raises rest this'
      | Some None => true
      | None => false
      end
  end.

End Worker.

(* ================================================================== *)
(** * errors.ts; downloader/auth.ts                                    *)
(* ================================================================== *)

Module Errors.
(** What a [throw] carries: the repository's [DownloaderError], or any
    other error raised by the browser library. *)
Inductive Error : Type :=
| DownloaderError (message : string)
| OtherError (name message : string).
End Errors.

(** The login code talks to a browser page, a clock and a terminal. They are
    given as an environment of answers, indexed by how many times each has
    been asked so far; the counts are the state the code threads. *)
Module Auth.
Import Errors.
Local Open Scope string_scope.

Record Credentials : Type := mkCredentials { email : string; password : string }.

(** The outcome of one [page.goto]. *)
Inductive Navigation : Type :=
| Arrived
| NavigationTimeout                       (* error.name === 'TimeoutError' *)
| NavigationFailed (e : Error).

(** What [Promise.race] over the three detectors settles to, after its
    [.catch]: one of the detectors' values, 'timeout' for a TimeoutError,
    or another error thrown on. *)
Inductive Winner : Type :=
| w_success
| w_bad_credentials
| w_validation_failed
| w_form_not_found
| w_context_destroyed_by_navigation
| w_timeout
| w_rejected (e : Error).

Record Environment : Type := mkEnvironment {
  goto : nat -> Navigation;               (* the n-th [page.goto] *)
  race : nat -> Credentials -> Winner;    (* the n-th submit of the form *)
  now : nat -> Z;                         (* the n-th [Date.now()] *)
  isTTY : bool;                           (* [process.stdin.isTTY] *)
  read : nat -> string                    (* the n-th line typed at a prompt *)
}.

Record Counts : Type := mkCounts {
  gotos : nat;
  submits : nat;
  clockReads : nat;
  reads : nat
}.

Definition start : Counts := mkCounts 0 0 0 0.

(** How a call ends. [OutOfFuel]: the loop was still running when the
    model stopped unrolling it. *)
Inductive Result (A : Type) : Type :=
| Returned (a : A)
| Thrown (e : Error)
| OutOfFuel.
Arguments Returned {A} a.
Arguments Thrown {A} e.
Arguments OutOfFuel {A}.

Definition M (A : Type) : Type := Counts -> Result A * Counts.

Definition ret {A} (a : A) : M A := fun c => (Returned a, c).
Definition throw {A} (e : Error) : M A := fun c => (Thrown e, c).
Definition out_of_fuel {A} : M A := fun c => (OutOfFuel, c).
Definition bind {A B} (m : M A) (k : A -> M B) : M B :=
  fun c =>
    match m c with
    | (Returned a, c') => k a c'
    | (Thrown e, c') => (Thrown e, c')
    | (OutOfFuel, c') => (OutOfFuel, c')
    end.

Declare Scope auth_scope.
Delimit Scope auth_scope with auth.
Notation "x <- m ;; k" := (bind m (fun x => k))
  (at level 100, m at next level, right associativity) : auth_scope.
Notation "m ;;; k" := (bind m (fun _ => k))
  (at level 100, right associativity) : auth_scope.
Local Open Scope auth_scope.

Section WithEnvironment.
Variable env : Environment.

Definition page_goto : M Navigation :=
  fun c => (Returned (goto env (gotos c)),
            mkCounts (S (gotos c)) (submits c) (clockReads c) (reads c)).

Definition submit_and_race (credentials : Credentials) : M Winner :=
  fun c => (Returned (race env (submits c) credentials),
            mkCounts (gotos c) (S (submits c)) (clockReads c) (reads c)).

Definition Date_now : M Z :=
  fun c => (Returned (now env (clockReads c)),
            mkCounts (gotos c) (submits c) (S (clockReads c)) (reads c)).

Definition read_line : M string :=
  fun c => (Returned (read env (reads c)),
            mkCounts (gotos c) (submits c) (clockReads c) (S (reads c))).

(** [retryGoto]: the [for] loop from [attempt] up to [maxRetries], with
    [n] turns left. *)
Fixpoint retryGoto_from (n : nat) (attempt maxRetries : Z) (url : string) : M unit :=
  match n with
  | O => ret tt
  | S n' =>
      nav <- page_goto ;;
      match nav with
      | Arrived => ret tt
      | NavigationFailed e => throw e
      | NavigationTimeout =>
          if (attempt =? maxRetries)%Z then
            throw (DownloaderError
                     ("Navigation to " ++ url ++ " failed after "
                      ++ Js.string_of_number maxRetries ++ " attempts. Please re-run."))
          else retryGoto_from n' (attempt + 1)%Z maxRetries url
      end
  end.

Definition retryGoto (url : string) (maxRetries : Z) : M unit :=
  retryGoto_from (Z.to_nat maxRetries) 1 maxRetries url.

Inductive LoginOutcome : Type := success | bad_credentials | timeout.

(** [resilientLogin]: the [while (Date.now() - startTime < loginTimeout)]
    loop, unrolled at most [fuel] times. *)
Fixpoint resilientLogin_loop (fuel : nat) (startTime loginTimeout : Z)
    (credentials : Credentials) : M LoginOutcome :=
  match fuel with
  | O => out_of_fuel
  | S fuel' =>
      t <- Date_now ;;
      if (t - startTime <? loginTimeout)%Z then
        winner <- submit_and_race credentials ;;
        match winner with
        | w_rejected e => throw e
        | w_form_not_found =>
            throw (DownloaderError
                     "Login failed: could not find the login form on the page.")
        | w_bad_credentials => ret bad_credentials
        | w_success | w_context_destroyed_by_navigation => ret success
        | w_validation_failed | w_timeout =>
            resilientLogin_loop fuel' startTime loginTimeout credentials
        end
      else ret timeout
  end.

Definition resilientLogin (fuel : nat) (loginTimeout : Z) (credentials : Credentials)
  : M LoginOutcome :=
  startTime <- Date_now ;;
  resilientLogin_loop fuel startTime loginTimeout credentials.

(** [String.prototype.toLowerCase] and [trim] on ASCII text. *)
Definition lower (a : ascii) : ascii :=
  let n := nat_of_ascii a in
  if ((65 <=? n) && (n <=? 90))%nat then ascii_of_nat (n + 32) else a.

Fixpoint toLowerCase (s : string) : string :=
  match s with
  | EmptyString => EmptyString
  | String a s' => String (lower a) (toLowerCase s')
  end.

Definition is_space (a : ascii) : bool :=
  let n := nat_of_ascii a in ((9 <=? n) && (n <=? 13) || (n =? 32))%nat.

Fixpoint trimStart (s : string) : string :=
  match s with
  | EmptyString => EmptyString
  | String a s' => if is_space a then trimStart s' else s
  end.

Fixpoint trimEnd (s : string) : string :=
  match s with
  | EmptyString => EmptyString
  | String a s' =>
      match trimEnd s' with
      | EmptyString => if is_space a then EmptyString else String a EmptyString
      | rest => String a rest
      end
  end.

Definition trim (s : string) : string := trimEnd (trimStart s).

Definition promptCredentials : M Credentials :=
  e <- read_line ;;
  p <- read_line ;;
  ret (mkCredentials (trim e) p).

Definition bad_credentials_message : string :=
  "Login failed: bad credentials. Cannot prompt in non-interactive mode.".

(** [login]: the [while (true)] loop, unrolled at most [fuel] times. *)
Fixpoint login_loop (fuel : nat) (loginUrl : string) (maxRetries loginTimeout : Z)
    (credentials : Credentials) : M unit :=
  match fuel with
  | O => out_of_fuel
  | S fuel' =>
      retryGoto loginUrl maxRetries ;;;
      result <- resilientLogin fuel loginTimeout credentials ;;
      match result with
      | success => ret tt
      | bad_credentials =>
          if negb (isTTY env) then throw (DownloaderError bad_credentials_message)
          else
            answer <- read_line ;;
            let answer := toLowerCase answer in
            if String.eqb answer "n" || String.eqb answer "no" then
              throw (DownloaderError "User aborted after failed login attempt.")
            else
              credentials' <- promptCredentials ;;
              login_loop fuel' loginUrl maxRetries loginTimeout credentials'
      | timeout =>
          throw (DownloaderError "Login failed: timed out waiting for login to complete.")
      end
  end.

Definition login (fuel : nat) (loginUrl : string) (maxRetries loginTimeout : Z)
    (initialCredentials : Credentials) : M unit :=
  login_loop fuel loginUrl maxRetries loginTimeout initialCredentials.

End WithEnvironment.

(** A run without a terminal against an account that rejects the
    password on every submit; the clock advances by a second per reading. *)
Definition wrong_password : Environment :=
  mkEnvironment (fun _ => Arrived) (fun _ _ => w_bad_credentials)
                (fun n => (Z.of_nat n * 1000)%Z) false (fun _ => "").

End Auth.

(* ================================================================== *)
(** * downloader/output.ts over a store of objects                     *)
(* ================================================================== *)

(** JavaScript objects have identity and are updated in place. For the
    statements about what a call writes to, the component data lives in a
    store: a list of cells addressed by position, where allocation appends a
    cell and a write replaces one. *)
Module Store.
Local Open Scope string_scope.

Definition Addr : Type := nat.

(** A property value: a string (the [name] of an entry) or a reference. *)
Inductive Value : Type :=
| VStr (s : string)
| VRef (a : Addr).

Inductive Cell : Type :=
| CObj (props : list (string * Value))   (* a container or an entry object *)
| CArr (elems : list Addr)               (* a [snippets] array of snippet objects *)
| CSnip (s : Snippet).                   (* a snippet object; all its fields are primitives *)

Definition Heap : Type := list Cell.

Definition read (h : Heap) (a : Addr) : option Cell := nth_error h a.

Definition alloc (h : Heap) (c : Cell) : Heap * Addr := ((h ++ [c])%list, List.length h).

Fixpoint write (h : Heap) (a : Addr) (c : Cell) : Heap :=
  match h, a with
  | nil, _ => nil
  | _ :: t, O => c :: t
  | x :: t, S a' => x :: write t a' c
  end.

Fixpoint get_prop (key : string) (props : list (string * Value)) : option Value :=
  match props with
  | nil => None
  | (k, v) :: rest => if String.eqb key k then Some v else get_prop key rest
  end.

Fixpoint set_prop (key : string) (v : Value) (props : list (string * Value))
  : list (string * Value) :=
  match props with
  | nil => [(key, v)]
  | (k, w) :: rest =>
      if String.eqb key k then (k, v) :: rest else (k, w) :: set_prop key v rest
  end.

(** [obj['snippets']] when [Array.isArray] holds of it. *)
Definition snippets_array (h : Heap) (props : list (string * Value)) : option (list Addr) :=
  match get_prop "snippets" props with
  | Some (VRef arr) =>
      match read h arr with
      | Some (CArr elems) => Some elems
      | _ => None
      end
  | _ => None
  end.

(** ** structuredClone

    The platform's deep copy: every object reached is copied into a new
    cell. On data in which no object is reached twice this is the
    platform's copy cell for cell; an object reached twice is copied once
    by the platform and once per reference here, which stands for the
    same tree. [fuel] bounds the depth; [None] when it runs out or a
    reference dangles. *)
Section Threaded.
Context {A B : Type} (f : Heap -> A -> option (Heap * B)).

(** [f] over a list, the store threaded from left to right. *)
Fixpoint thread (h : Heap) (l : list A) : option (Heap * list B) :=
  match l with
  | nil => Some (h, nil)
  | x :: rest =>
      match f h x with
      | Some (h1, y) =>
          match thread h1 rest with
          | Some (h2, ys) => Some (h2, y :: ys)
          | None => None
          end
      | None => None
      end
  end.
End Threaded.

Definition clone_value (clone : Heap -> Addr -> option (Heap * Addr))
    (h : Heap) (kv : string * Value) : option (Heap * (string * Value)) :=
  match snd kv with
  | VStr s => Some (h, (fst kv, VStr s))
  | VRef a =>
      match clone h a with
      | Some (h', a') => Some (h', (fst kv, VRef a'))
      | None => None
      end
  end.

Fixpoint structuredClone (fuel : nat) (h : Heap) (a : Addr) : option (Heap * Addr) :=
  match fuel with
  | O => None
  | S fuel' =>
      match read h a with
      | None => None
      | Some (CSnip s) => Some (alloc h (CSnip s))
      | Some (CArr elems) =>
          match thread (structuredClone fuel') h elems with
          | Some (h', elems') => Some (alloc h' (CArr elems'))
          | None => None
          end
      | Some (CObj props) =>
          match thread (clone_value (structuredClone fuel')) h props with
          | Some (h', props') => Some (alloc h' (CObj props'))
          | None => None
          end
      end
  end.

(** ** deduplicateEcommerceSnippets *)

(** [seen : Map<string, Snippet>]: keys and references to snippet objects. *)
Definition SeenRefs : Type := list (string * Addr).

Fixpoint seen_loop (h : Heap) (snippets : list Addr) (seen : SeenRefs) : option SeenRefs :=
  match snippets with
  | nil => Some seen
  | ad :: rest =>
      match read h ad with
      | Some (CSnip snippet) =>
          let key := Output.snippet_key snippet in
          if existsb (fun kv => String.eqb key (fst kv)) seen then seen_loop h rest seen
          else seen_loop h rest (seen ++ [(key, ad)])%list
      | _ => None
      end
  end.

(** The loop [for (const value of Object.values(obj))] of the inner
    [deduplicate]: only objects that are not arrays are visited. *)
Fixpoint visit_values (visit : Heap -> Addr -> option Heap) (h : Heap)
    (values : list Value) : option Heap :=
  match values with
  | nil => Some h
  | VStr _ :: rest => visit_values visit h rest
  | VRef c :: rest =>
      match read h c with
      | None => None
      | Some (CArr _) => visit_values visit h rest
      | Some _ =>
          match visit h c with
          | Some h' => visit_values visit h' rest
          | None => None
          end
      end
  end.

(** The inner [deduplicate(obj)], writing to the store. *)
Fixpoint deduplicate (fuel : nat) (h : Heap) (obj : Addr) : option Heap :=
  match fuel with
  | O => None
  | S fuel' =>
      match read h obj with
      | None => None
      | Some (CObj props) =>
          match snippets_array h props with
          | Some snippets =>
              match seen_loop h snippets nil with
              | Some seen =>
                  (* obj['snippets'] = Array.from(seen.values()) *)
                  let (h', arr) := alloc h (CArr (map snd seen)) in
                  Some (write h' obj (CObj (set_prop "snippets" (VRef arr) props)))
              | None => None
              end
          | None => visit_values (deduplicate fuel') h (map snd props)
          end
      | Some _ => Some h
      end
  end.

(** The exported function: clone, deduplicate the clone, return it. *)
Definition deduplicateEcommerceSnippets (fuel : nat) (h : Heap) (data : Addr)
  : option (Heap * Addr) :=
  match structuredClone fuel h data with
  | Some (h1, cloned) =>
      match deduplicate fuel h1 cloned with
      | Some h2 => Some (h2, cloned)
      | None => None
      end
  | None => None
  end.

(** ** The tree an address stands for *)

(** [tree h a n fp]: in [h] the object at [a] is the tree [n], and [fp]
    lists the addresses of the cells that make it up (its footprint), the
    root first. *)
Definition snippets_at (h : Heap) (addrs : list Addr) (ss : list Snippet) : Prop :=
  Forall2 (fun ad s => read h ad = Some (CSnip s)) addrs ss.

Inductive tree (h : Heap) : Addr -> Node -> list Addr -> Prop :=
| tree_entry a nm ss arr addrs :
    read h a = Some (CObj [("name", VStr nm); ("snippets", VRef arr)]) ->
    read h arr = Some (CArr addrs) ->
    snippets_at h addrs ss ->
    tree h a (Entry nm ss) (a :: arr :: addrs)
| tree_group a props cs fp :
    read h a = Some (CObj props) ->
    trees h props cs fp ->
    tree h a (Group cs) (a :: fp)
with trees (h : Heap) : list (string * Value) -> Tree -> list Addr -> Prop :=
| trees_nil : trees h nil nil nil
| trees_cons k c n fp props cs fps :
    tree h c n fp ->
    trees h props cs fps ->
    trees h ((k, VRef c) :: props) ((k, n) :: cs) (fp ++ fps)%list.

Fixpoint depth (n : Node) : nat :=
  match n with
  | Entry _ _ => 2
  | Group cs => S (fold_right (fun kv d => Nat.max (depth (snd kv)) d) 0 cs)
  end.

(** Reading a tree back out of the store (for concrete stores). *)
Fixpoint read_snippets (h : Heap) (addrs : list Addr) : option (list Snippet) :=
  match addrs with
  | nil => Some nil
  | ad :: rest =>
      match read h ad, read_snippets h rest with
      | Some (CSnip s), Some ss => Some (s :: ss)
      | _, _ => None
      end
  end.

Fixpoint read_children (read_tree : Addr -> option Node) (props : list (string * Value))
  : option Tree :=
  match props with
  | nil => Some nil
  | (k, VRef c) :: rest =>
      match read_tree c, read_children read_tree rest with
      | Some n, Some cs => Some ((k, n) :: cs)
      | _, _ => None
      end
  | (_, VStr _) :: _ => None
  end.

Fixpoint read_tree (fuel : nat) (h : Heap) (a : Addr) : option Node :=
  match fuel with
  | O => None
  | S fuel' =>
      match read h a with
      | Some (CObj props) =>
          match snippets_array h props, get_prop "name" props with
          | Some addrs, Some (VStr nm) => option_map (Entry nm) (read_snippets h addrs)
          | _, _ => option_map Group (read_children (read_tree fuel' h) props)
          end
      | _ => None
      end
  end.

End Store.

(** [mergeComponentData] over the store: it returns nothing and writes to
    the objects of [target]. *)
Module StoreMerge.
Import Store.
Local Open Scope string_scope.

(** [target[key]] is [Object.prototype] itself: the target has no property
    [__proto__] of its own and inherits the accessor. *)
Definition reads_prototype (key : string) (own : option Value) : bool :=
  match own with
  | None => String.eqb key "__proto__"
  | Some _ => false
  end.

(** The body of [for (const [key, value] of Object.entries(source))];
    [merge] is the recursive call. The cells hold the objects' own
    properties; [target[key]] also finds the inherited ones
    ([Js.prototype_names]). [None]: a TypeError (for an entry of the
    source, [target[key]] is an inherited value or an object without a
    [snippets] array), a recursive call that would write to
    [Object.prototype], or a store that does not hold component data. *)
Fixpoint merge_entries (merge : Heap -> Addr -> Addr -> option Heap)
    (h : Heap) (target : Addr) (entries : list (string * Value)) : option Heap :=
  match entries with
  | nil => Some h
  | (_, VStr _) :: rest =>
      (* typeof value !== 'object' *)
      merge_entries merge h target rest
  | (key, VRef obj) :: rest =>
      match read h obj, read h target with
      | Some (CObj oprops), Some (CObj tprops) =>
          match snippets_array h oprops with
          | Some snippets =>
              (* a component entry *)
              match get_prop key tprops with
              | None =>
                  if Js.inherited key then None
                  else
                  match get_prop "name" oprops with
                  | Some nm =>
                      let (h1, arr) := alloc h (CArr snippets) in
                      let (h2, entry) :=
                        alloc h1 (CObj [("name", nm); ("snippets", VRef arr)]) in
                      merge_entries merge
                        (write h2 target (CObj (set_prop key (VRef entry) tprops)))
                        target rest
                  | None => None
                  end
              | Some (VRef targetEntry) =>
                  match read h targetEntry with
                  | Some (CObj eprops) =>
                      match snippets_array h eprops with
                      | Some old =>
                          (* targetEntry.snippets = targetEntry.snippets.concat(...) *)
                          let (h1, arr) := alloc h (CArr (old ++ snippets)%list) in
                          merge_entries merge
                            (write h1 targetEntry
                               (CObj (set_prop "snippets" (VRef arr) eprops)))
                            target rest
                      | None => None
                      end
                  | _ => None
                  end
              | Some (VStr _) => None
              end
          | None =>
              (* a container *)
              match get_prop key tprops with
              | Some (VRef child) =>
                  match merge h child obj with
                  | Some h' => merge_entries merge h' target rest
                  | None => None
                  end
              | own =>
                  if reads_prototype key own then None
                  else
                  (* target[key] = {} *)
                  let (h1, child) := alloc h (CObj nil) in
                  let h2 := write h1 target (CObj (set_prop key (VRef child) tprops)) in
                  match merge h2 child obj with
                  | Some h' => merge_entries merge h' target rest
                  | None => None
                  end
              end
          end
      | _, _ => None
      end
  end.

Fixpoint mergeComponentData (fuel : nat) (h : Heap) (target source : Addr) : option Heap :=
  match fuel with
  | O => None
  | S fuel' =>
      match read h source with
      | Some (CObj entries) => merge_entries (mergeComponentData fuel') h target entries
      | _ => None
      end
  end.

End StoreMerge.

(** What an in-place update of a tree leaves behind. The tree had the
    footprint [fpt] in [h] and has [fpt'] in [h']; [fps] is the footprint of
    the data it was given. No cell is used twice; a cell of the new footprint
    is an old one, a snippet object of the given data, or newly allocated;
    nothing is deallocated; no cell outside the old footprint has been
    written; and snippet objects are never written. *)
Module Effect.
Import Store.

Definition updates (h h' : Heap) (fpt fps fpt' : list Addr) : Prop :=
  NoDup fpt' /\
  (forall x, In x fpt' ->
     In x fpt \/ (In x fps /\ exists s, read h x = Some (CSnip s)) \/
     (List.length h <= x)%nat) /\
  (List.length h <= List.length h')%nat /\
  (forall x, (x < List.length h)%nat -> ~ In x fpt -> read h' x = read h x) /\
  (forall x s, read h x = Some (CSnip s) -> read h' x = Some (CSnip s)).

End Effect.

(** A store holding the accumulator [{}] at address 0 and, at address 7,
    the partial result [Samples.page "Split" [Samples.X]]. *)
Module SampleStore.
Import Store.
Local Open Scope string_scope.

Definition heap : Heap :=
  [ CObj [];
    CSnip Samples.X;
    CArr [1];
    CObj [("name", VStr "Split"); ("snippets", VRef 2)];
    CObj [("Split", VRef 3)];
    CObj [("Product Overviews", VRef 4)];
    CObj [("Components", VRef 5)];
    CObj [("Ecommerce", VRef 6)] ].

Definition accumulator : Addr := 0.
Definition partial : Addr := 7.
Definition partial_footprint : list Addr := [7; 6; 5; 4; 3; 2; 1].

(** The same store with a second partial result for the same component,
    [Samples.page "Split" [Samples.Y; Samples.Y]], at address 15. *)
Definition heap2 : Heap :=
  (heap ++
   [ CSnip Samples.Y;
     CSnip Samples.Y;
     CArr [8; 9];
     CObj [("name", VStr "Split"); ("snippets", VRef 10)];
     CObj [("Split", VRef 11)];
     CObj [("Product Overviews", VRef 12)];
     CObj [("Components", VRef 13)];
     CObj [("Ecommerce", VRef 14)] ])%list.

Definition partial2 : Addr := 15.
End SampleStore.

(** The workers of one pass, taking turns in any order. A worker is either
    between jobs or holds the job it has taken off the queue; [shift] and
    the report are single steps, the extraction in between is where the
    workers interleave. *)
Module Pool.
Import JobType Downloader Worker.

Record State : Type := mkState {
  host : Host;
  held : list (option Job)      (* per worker *)
}.

Fixpoint set_nth {A} (n : nat) (x : A) (l : list A) : list A :=
  match l, n with
  | nil, _ => nil
  | _ :: t, O => x :: t
  | y :: t, S n' => y :: set_nth n' x t
  end.

(** All workers idle, as [Promise.all(workers.map(w => w.start()))] finds them. *)
Definition idle (workers : nat) (this : Host) : State :=
  mkState this (repeat None workers).

Inductive step : State -> State -> Prop :=
| step_take w job rest this hs :
    (* const job = this.host.jobQueue.shift(); job.status = 'processing' *)
    jobQueue this = job :: rest ->
    nth_error hs w = Some None ->
    step (mkState this hs)
         (mkState (with_queue rest this)
                  (set_nth w (Some (mkJob (url job) processing (retryCount job)
                                          (data job) (error job))) hs))
| step_report w job outcome job' this this' hs :
    (* the extraction has settled; this.host.processJobResult(job) *)
    nth_error hs w = Some (Some job) ->
    processJobResult this (attempt outcome job) = Some (job', this') ->
    step (mkState this hs) (mkState this' (set_nth w None hs)).

Inductive steps : State -> State -> Prop :=
| steps_refl s : steps s s
| steps_step s1 s2 s3 : steps s1 s2 -> step s2 s3 -> steps s1 s3.

(** Every job on the queue or in a worker's hands is within the limit. *)
Definition all_within_limit (s : State) : Prop :=
  Forall (within_limit (maxRetries (host s))) (jobQueue (host s)) /\
  Forall (fun o => match o with
                   | Some j => within_limit (maxRetries (host s)) j
                   | None => True
                   end) (held s).

End Pool.

(* ================================================================== *)
(** * format-manager.ts: what a change of format costs                 *)
(* ================================================================== *)

(** [setFormat] changes the framework select, the version select and the
    mode radio one after the other, each only when the value differs. The
    doc comment of [generateFormats] promises an order in which adjacent
    formats differ by at most one setting. *)
Module FormatChange.

(** [a !== b] for [string | null]. *)
Definition mode_neqb (a b : option string) : bool :=
  match a, b with
  | None, None => false
  | Some x, Some y => negb (String.eqb x y)
  | _, _ => true
  end.

(** The settings in which two formats differ, in the order [setFormat]
    goes through them. *)
Inductive Setting : Type := FrameworkSetting | VersionSetting | ModeSetting.

Definition differing (a b : Format) : list Setting :=
  (if String.eqb (framework a) (framework b) then [] else [FrameworkSetting]) ++
  (if Z.eqb (version a) (version b) then [] else [VersionSetting]) ++
  (if mode_neqb (mode a) (mode b) then [ModeSetting] else []).

(** Exactly one of the three settings differs. *)
Definition one_step (a b : Format) : Prop :=
  (framework a <> framework b /\ version a = version b /\ mode a = mode b) \/
  (framework a = framework b /\ version a <> version b /\ mode a = mode b) \/
  (framework a = framework b /\ version a = version b /\ mode a <> mode b).

End FormatChange.

(** [n] complete [for ... of] loops over one [ReflectingArray], each
    collecting what it is given; the result lists the loops in order. *)
Module ReflectingLoops.
Import Reflecting.

Definition collect {T} (st : ReflectingArray T * list (list T))
  : ReflectingArray T * list (list T) :=
  let (ra', seen) := for_of (fst st) (fun x acc => acc ++ [x]) [] in
  (ra', snd st ++ [seen]).

Definition loops {T} (n : nat) (ra : ReflectingArray T)
  : ReflectingArray T * list (list T) :=
  Nat.iter n collect (ra, []).

End ReflectingLoops.

(* ================================================================== *)
(** * worker.ts and downloader.ts: how long the job loop runs           *)
(* ================================================================== *)

Module JobBudget.
Import JobType Downloader Worker.

(** The attempts a job can still get: this one, and one per retry left. *)
Definition remaining (limit : Z) (j : Job) : nat :=
  Z.to_nat (limit + 1 - retryCount j).

Definition budget (limit : Z) (q : list Job) : nat :=
  fold_right (fun j acc => (remaining limit j + acc)%nat) 0%nat q.

Definition is_completed (j : Job) : bool :=
  match status j with completed => true | _ => false end.

(** The page data the reported jobs brought, in the order of the reports. *)
Definition results (reported : list Job) : list Tree :=
  flat_map (fun j => match status j, data j with
                     | completed, Some d => [d]
                     | _, _ => []
                     end) reported.

(** An extraction that returns, returns component data. *)
Definition well_shaped (o : Extraction) : Prop :=
  match o with
  | Extracted d => TreeShape.isComponentData d = true
  | Threw _ => True
  end.

(** The page data is under names that no object inherits (a component is
    not called [constructor], a container not [__proto__]). *)
Definition plainly_named (o : Extraction) : Prop :=
  match o with
  | Extracted d => TreeShape.plain_names (Group d) = true
  | Threw _ => True
  end.

End JobBudget.

(** The workers of one pass, counted: [steps_in n s s'] is a run of [n]
    steps of the pool, in any interleaving. *)
Module PoolRun.
Import JobType Downloader Worker JobBudget Pool.

Inductive steps_in : nat -> State -> State -> Prop :=
| steps_in_O s : steps_in 0 s s
| steps_in_S n s1 s2 s3 : steps_in n s1 s2 -> step s2 s3 -> steps_in (S n) s1 s3.

(** What is left to do: a job on the queue is taken and reported once per
    attempt it can still get, a job in a worker's hands is already taken. *)
Definition held_load (limit : Z) (o : option Job) : nat :=
  match o with
  | Some j => (2 * remaining limit j - 1)%nat
  | None => 0%nat
  end.

Definition load (s : State) : nat :=
  (2 * budget (maxRetries (host s)) (jobQueue (host s)) +
   fold_right (fun o acc => (held_load (maxRetries (host s)) o + acc)%nat) 0%nat (held s))%nat.

End PoolRun.

(* ================================================================== *)
(** * browser/page-functions.ts and worker/authenticated.ts            *)
(* ================================================================== *)

(** The entries and snippets of a tree, in the order [Object.entries]
    lists them. *)
Module TreeWalk.

Fixpoint all_entries (n : Node) : list (string * list Snippet) :=
  match n with
  | Entry nm ss => [(nm, ss)]
  | Group cs => flat_map (fun kv => all_entries (snd kv)) cs
  end.

Definition all_snippets (n : Node) : list Snippet :=
  flat_map snd (all_entries n).

End TreeWalk.

Module PageFunctions.
Local Open Scope string_scope.

(** A snippet as the page data holds it: the seven properties of
    [Snippet] and whatever else Inertia put there. *)
Record RawSnippet : Type := mkRawSnippet {
  fields : Snippet;
  internal : list (string * string)
}.

(** [AuthenticatedComponent]. *)
Record Component : Type := mkComponent {
  c_name : string;
  c_uuid : string;
  c_downloadable : bool;
  c_preview : string;
  c_snippet : RawSnippet
}.

(** [SubcategoryPageData]. *)
Record Subcategory : Type := mkSubcategory {
  s_name : string;
  s_components : list Component;
  s_category : string;         (* category.name *)
  s_product : string           (* category.product.name *)
}.

(** [AuthenticatedDataArgs]. *)
Record AuthenticatedDataArgs : Type := mkArgs {
  a_url : string;
  a_expectedFormat : Format;
  a_ecommerceUrl : string
}.

(** What the predicate finds in the document. *)
Inductive AppState : Type :=
| NoApp                               (* no [div#app] *)
| NoDataPage                          (* no [data-page] attribute *)
| Malformed                           (* [JSON.parse] throws *)
| PageData (subcategory : option Subcategory).
    (* [pageData?.props?.subcategory] with an array of components, if any *)

(** [a === b] for [string | null]. *)
Definition mode_eqb (a b : option string) : bool :=
  match a, b with
  | None, None => true
  | Some x, Some y => String.eqb x y
  | _, _ => false
  end.

Definition expectedMode (args : AuthenticatedDataArgs) : option string :=
  (* args.url.startsWith(args.ecommerceUrl) *)
  if String.prefix (a_ecommerceUrl args) (a_url args) then None
  else mode (a_expectedFormat args).

Definition snippet_valid (args : AuthenticatedDataArgs) (c : Component) : bool :=
  let snippet := fields (c_snippet c) in
  String.eqb (SnippetType.name snippet) (framework (a_expectedFormat args))
  && Z.eqb (SnippetType.version snippet) (version (a_expectedFormat args))
  && mode_eqb (SnippetType.mode snippet) (expectedMode args).

(** [waitForAuthenticatedData(args)]; [None] is [false]. *)
Definition waitForAuthenticatedData (args : AuthenticatedDataArgs) (app : AppState)
  : option Subcategory :=
  match app with
  | PageData (Some subcategory) =>
      match s_components subcategory with
      | [] => None
      | components =>
          if forallb (snippet_valid args) components then Some subcategory else None
      end
  | _ => None
  end.

End PageFunctions.

Module Authenticated.
Import Errors PageFunctions.
Local Open Scope string_scope.

(** [shapeSnippet(raw)]: the seven whitelisted properties. *)
Definition shapeSnippet (raw : RawSnippet) : Snippet :=
  SnippetType.mkSnippet
    (SnippetType.code (fields raw)) (SnippetType.name (fields raw))
    (SnippetType.language (fields raw)) (SnippetType.version (fields raw))
    (SnippetType.mode (fields raw)) (SnippetType.supportsDarkMode (fields raw))
    (SnippetType.preview (fields raw)).

(** How [page.waitForFunction] goes: the predicate is polled on the
    document as it is then, until it returns a value or the time is up;
    or the wait fails with another error. *)
Inductive Waiting : Type :=
| Polls (states : list AppState)
| WaitFailed (e : Error).

Record Visit : Type := mkVisit {
  arrival : option Error;      (* what [page.goto] threw, if it threw *)
  waiting : Waiting
}.

Fixpoint waitForFunction {A} (predicate : AppState -> option A) (states : list AppState)
  : option A :=
  match states with
  | [] => None                 (* TimeoutError *)
  | st :: rest =>
      match predicate st with
      | Some a => Some a
      | None => waitForFunction predicate rest
      end
  end.

(** What the call comes to: component data, an error, or ([Untyped]) an
    object that is returned as [ComponentData] without being a tree of
    containers and entries. *)
Inductive Outcome : Type :=
| Data (componentData : Tree)
| Untyped
| Raised (e : Error).

(** [obj['__proto__'] = entry] adds no property: it makes the entry the
    prototype of the subcategory object, which from then on answers
    [obj['snippets']] with the entry's array. A page with a component of
    that name leaves the loop with such an object. *)
Definition sets_prototype (subcategory : Subcategory) : bool :=
  existsb (fun c => String.eqb (c_name c) "__proto__") (s_components subcategory).

(** The loop over [components], assigning
    [componentData[product][category][subcategory][component.name]], for
    names other than [__proto__]: the subcategory object gets or
    overwrites a property of its own (also under a name it inherits,
    [constructor] say). The three outer names are computed keys of an
    object literal and are properties of the objects themselves whatever
    they are. *)
Definition assign (entries : Tree) (component : Component) : Tree :=
  Obj.set (c_name component)
          (Entry (c_name component) [shapeSnippet (c_snippet component)]) entries.

Definition componentData_of (subcategory : Subcategory) : Tree :=
  [(s_product subcategory,
    Group [(s_category subcategory,
      Group [(s_name subcategory,
        Group (fold_left assign (s_components subcategory) []))])])].

Definition quote : string := String (ascii_of_nat 34) EmptyString.

Definition timeout_message (expectedFormat : Format) (url : string) : string :=
  "Timeout waiting for format " ++ quote ++ FormatClass.toString expectedFormat ++ quote
  ++ " on " ++ url ++ ". "
  ++ "The account format may have been changed manually during download.".

(** [error instanceof Error && error.name === 'TimeoutError']. *)
Definition is_timeout (e : Error) : bool :=
  match e with
  | OtherError name _ => String.eqb name "TimeoutError"
  | DownloaderError _ => false
  end.

(** [extractAuthenticatedPageData(page, url, expectedFormat, config, logger)]
    on a visit of the page. A wait that runs out of polls has timed out.
    The value [waitForFunction] hands over is an object, so the test
    [!subcategory] that follows it never holds. *)
Definition extractAuthenticatedPageData (visit : Visit) (url : string)
    (expectedFormat : Format) (ecommerceUrl : string) : Outcome :=
  match arrival visit with
  | Some e => Raised e
  | None =>
      match waiting visit with
      | WaitFailed e =>
          if is_timeout e
          then Raised (DownloaderError (timeout_message expectedFormat url))
          else Raised e
      | Polls states =>
          match waitForFunction
                  (waitForAuthenticatedData (mkArgs url expectedFormat ecommerceUrl))
                  states with
          | None => Raised (DownloaderError (timeout_message expectedFormat url))
          | Some subcategory =>
              if sets_prototype subcategory then Untyped
              else Data (componentData_of subcategory)
          end
      end
  end.

(** What the worker's [try]/[catch] makes of it. *)
Definition message_of (e : Error) : string :=
  match e with
  | DownloaderError m => m
  | OtherError _ m => m
  end.

Definition as_extraction (o : Outcome) : option Worker.Extraction :=
  match o with
  | Data d => Some (Worker.Extracted d)
  | Raised e => Some (Worker.Threw (message_of e))
  | Untyped => None
  end.

End Authenticated.

(** One pass of the authenticated download: every extraction is a visit of
    a page for the format the account is set to, one that throws or
    returns component data (a page with a component named [__proto__],
    whose data is no tree, is not among them). *)
Module AuthenticatedPass.
Import Authenticated.

Definition visited (expectedFormat : Format) (ecommerceUrl : string)
    (o : Worker.Extraction) : Prop :=
  exists visit url,
    as_extraction (extractAuthenticatedPageData visit url expectedFormat ecommerceUrl)
      = Some o.

(** The snippet is one of the format: its framework and version, and its
    mode or (on eCommerce pages) none. *)
Definition in_format (f : Format) (s : Snippet) : Prop :=
  SnippetType.name s = framework f /\
  SnippetType.version s = version f /\
  (SnippetType.mode s = mode f \/ SnippetType.mode s = None).

End AuthenticatedPass.

(** The components under a property that may be missing. *)
Module Counting.
Definition count_opt (o : option Node) : nat :=
  match o with Some n => Output.countNode n | None => 0 end.
End Counting.

(* ================================================================== *)
(** * downloader/output.ts: the directory output                       *)
(* ================================================================== *)

(** [writeDirectoryOutput] creates directories and writes files. The model
    lists the files [writeComponentFiles] writes, in order: for each the
    arguments handed to [path.join] for its directory, its name and its
    content ([path.join] itself is the platform's). A later write to the
    same file replaces an earlier one. *)
Module DirectoryOutput.
Local Open Scope string_scope.

(** The [switch (snippet.name)]. *)
Definition ext (name : string) : string :=
  if String.eqb name "react" then "jsx"
  else if String.eqb name "vue" then "vue"
  else "html".

(** [snippet.mode ? `-${snippet.mode}` : '']: [null] and the empty string
    are falsy. *)
Definition modePart (mode : option string) : string :=
  match mode with
  | None => ""
  | Some "" => ""
  | Some m => "-" ++ m
  end.

Definition filename (snippet : Snippet) : string :=
  SnippetType.name snippet ++ modePart (SnippetType.mode snippet) ++ "."
    ++ ext (SnippetType.name snippet).

Definition versionDir (snippet : Snippet) : string :=
  "v" ++ Js.string_of_number (SnippetType.version snippet).

Record FileWrite : Type := mkFileWrite {
  snippetDir : list string;    (* path.join(outputDir, ...pathParts, key, versionDir) *)
  file : string;
  content : string
}.

(** The body of the loop for one property [key] with value [value]. *)
Fixpoint writeValue (outputDir : string) (pathParts : list string) (key : string)
    (value : Node) : list FileWrite :=
  match value with
  | Entry _ snippets =>
      map (fun snippet =>
             mkFileWrite (outputDir :: pathParts ++ [key; versionDir snippet])
                         (filename snippet) (SnippetType.code snippet))
          snippets
  | Group children =>
      (* writeComponentFiles(outputDir, obj, [...pathParts, key]) *)
      flat_map (fun kv => writeValue outputDir (pathParts ++ [key]) (fst kv) (snd kv))
               children
  end.

Definition writeComponentFiles (outputDir : string) (data : Tree)
    (pathParts : list string) : list FileWrite :=
  flat_map (fun kv => writeValue outputDir pathParts (fst kv) (snd kv)) data.

(** The two strings computed from a snippet: the name of its version
    directory, which [path.join] is given last, and its file name.
    ([path.join] normalises what it is given, so different strings can
    name one file; which file a string names is not modelled.) *)
Definition target (snippet : Snippet) : string * string :=
  (versionDir snippet, filename snippet).

End DirectoryOutput.

(** Environments used as concrete inputs. *)
Module AuthSamples.
Import Errors Auth.
Local Open Scope string_scope.

(** The login page times out twice, then loads; the form accepts the
    password. *)
Definition slow_page : Environment :=
  mkEnvironment (fun n => if (n <? 2)%nat then NavigationTimeout else Arrived)
                (fun _ _ => w_success)
                (fun n => (Z.of_nat n * 1000)%Z) false (fun _ => "").

(** A terminal and an account that rejects every password. The user
    presses return at the first question, answers the second one with a
    blank and an n, and gives up at the third. *)
Definition rejecting_account : Environment :=
  mkEnvironment (fun _ => Arrived)
                (fun _ _ => w_bad_credentials)
                (fun n => (Z.of_nat n * 1000)%Z) true
                (fun n => match n with
                          | 0 => ""
                          | 1 => "  me@example.com "
                          | 2 => "secret"
                          | 3 => " n"
                          | 4 => "me@example.com"
                          | 5 => "Secret"
                          | 6 => "No"
                          | _ => ""
                          end%nat).

End AuthSamples.

(** The rounds of [login]'s loop on a terminal. *)
Module LoginRounds.
Import Errors Auth.
Local Open Scope string_scope.

(** The credentials of round [i] (from 0), when every round before it
    ended in new credentials typed at the prompt; [r0] lines had been read
    before the first round. Each such round reads three lines: the answer,
    the email and the password. *)
Definition credentials_of_round (env : Environment) (first : Credentials) (r0 i : nat)
  : Credentials :=
  match i with
  | O => first
  | S j => mkCredentials (trim (read env (r0 + 3 * j + 1))) (read env (r0 + 3 * j + 2))
  end.

(** [answer === 'n' || answer === 'no'] on the lower-cased answer. *)
Definition declines (line : string) : bool :=
  let answer := toLowerCase line in
  String.eqb answer "n" || String.eqb answer "no".

End LoginRounds.

(** downloader/discovery.ts: the URL file of [--debug-url-file]. Strings
    are sequences of 8-bit characters, so the model is of files in ASCII,
    where [trim] removes the characters 9 to 13 and 32. *)
Module Discovery.
Import Auth.
Local Open Scope string_scope.

Definition newline : ascii := ascii_of_nat 10.

Fixpoint is_ascii (s : string) : bool :=
  match s with
  | EmptyString => true
  | String a s' => (nat_of_ascii a <? 128)%nat && is_ascii s'
  end.

(** [content.split('\n')]: the pieces between the newlines, one more than
    there are newlines. *)
Fixpoint split (s : string) : list string :=
  match s with
  | EmptyString => [EmptyString]
  | String a s' =>
      if Ascii.eqb a newline then EmptyString :: split s'
      else match split s' with
           | line :: lines => String a line :: lines
           | [] => [String a EmptyString]
           end
  end.

(** [line.length > 0 && !line.startsWith('#')] *)
Definition is_url_line (line : string) : bool :=
  (0 <? String.length line)%nat && negb (String.prefix "#" line).

Definition loadUrlsFromFile (content : string) : list string :=
  filter is_url_line (map trim (split content)).

(** [lines.join('\n')]: the text whose lines are [lines]. *)
Fixpoint join_lines (lines : list string) : string :=
  match lines with
  | [] => EmptyString
  | line :: rest =>
      match rest with
      | [] => line
      | _ :: _ => line ++ String newline (join_lines rest)
      end
  end.

(** A file with the given lines, each ended by a newline. *)
Fixpoint file_of_lines (lines : list string) : string :=
  match lines with
  | [] => EmptyString
  | line :: rest => line ++ String newline (file_of_lines rest)
  end.

End Discovery.

(** downloader/discovery.ts: the retry loop of [discoverUrls]. One turn of
    the loop is the [try] block as a whole: the navigation, the wait for
    the page data and the reading of the URLs; it gives the URLs or throws. *)
Module DiscoveryLoop.
Import Errors.
Local Open Scope string_scope.

Inductive Attempt : Type :=
| Found (urls : list string)
| Failed (msg : string).      (* the message the [catch] block takes from the error *)

(** The [while (attempt <= maxRetries)] loop with [n] turns left; [made]
    counts the navigations so far, [page made] is how the next one goes. *)
Fixpoint discoverUrls_from (page : nat -> Attempt) (n : nat) (attempt maxRetries : Z)
    (made : nat) : (list string + Error) * nat :=
  match n with
  | O => (inr (DownloaderError "URL discovery failed unexpectedly"), made)
  | S n' =>
      match page made with
      | Found urls => (inl urls, S made)
      | Failed msg =>
          let attempt := (attempt + 1)%Z in
          if (maxRetries <? attempt)%Z then
            (inr (DownloaderError
                    ("URL discovery failed after " ++ Js.string_of_number maxRetries
                     ++ " retries: " ++ msg)), S made)
          else discoverUrls_from page n' attempt maxRetries (S made)
      end
  end.

(** The loop runs while [attempt <= maxRetries] and [attempt] grows by one
    in every turn that goes on: there are [maxRetries + 1] turns at most. *)
Definition discoverUrls (page : nat -> Attempt) (maxRetries : Z)
  : (list string + Error) * nat :=
  discoverUrls_from page (Z.to_nat (maxRetries + 1)) 0 maxRetries 0.

(** The listing page fails twice, then shows two pages. *)
Definition flaky_listing : nat -> Attempt :=
  fun n => if (n <? 2)%nat then Failed "Timeout 30000ms exceeded."
           else Found ["https://tailwindcss.com/plus/ui-blocks/marketing/sections/heroes";
                       "https://tailwindcss.com/plus/ui-blocks/marketing/sections/cta-sections"].

End DiscoveryLoop.

(** logger.ts: the [Logger] class. What is written is kept per sink: the
    lines given to [console.log] and [console.error], and the chunks
    written to the log stream. *)
Module Logging.
Local Open Scope string_scope.

Inductive LogLevelValue : Type := DEBUG | INFO | WARN | ERROR.

Definition value (l : LogLevelValue) : Z :=
  match l with DEBUG => 1 | INFO => 2 | WARN => 3 | ERROR => 4 end%Z.

(** [LoggerOptions]; [None] is a property left out. *)
Record LoggerOptions : Type := mkOptions {
  o_debug : option bool;
  o_log : option string;
  o_identifierWidth : option Z
}.

Inductive Destination : Type := to_file | to_console.
Inductive Stream : Type := to_stdout | to_stderr.

Record Logger : Type := mkLogger {
  level : LogLevelValue;
  destination : Destination;
  logPath : option string;
  identifierWidth : Z;
  logStream : option string      (* the path the open stream appends to *)
}.

Record Sinks : Type := mkSinks {
  stdout : list string;
  stderr : list string;
  file : list string
}.

Definition silent : Sinks := mkSinks [] [] [].

(** A string is truthy when it is not empty. *)
Definition truthy (o : option string) : bool :=
  match o with
  | Some (String _ _) => true
  | _ => false
  end.

Definition constructor (options : LoggerOptions) : Logger :=
  let level := match o_debug options with Some true => DEBUG | _ => INFO end in
  let destination := if truthy (o_log options) then to_file else to_console in
  let logPath := o_log options in
  let identifierWidth := match o_identifierWidth options with Some w => w | None => 0%Z end in
  mkLogger level destination logPath identifierWidth
           (if truthy logPath then logPath else None).

Definition levelNames (l : LogLevelValue) : string :=
  match l with
  | DEBUG => "DEBUG"
  | INFO => "INFO "
  | WARN => "WARN "
  | ERROR => "ERROR"
  end.

Definition _log (this : Logger) (l : LogLevelValue) (message : string) (stream : Stream)
    (out : Sinks) : Sinks :=
  if (value l <? value (level this))%Z then out
  else
    let paddedLevel := levelNames l in
    match logStream this with
    | Some _ =>
        mkSinks (stdout out) (stderr out)
                (file out ++ ["[" ++ paddedLevel ++ "] " ++ message ++ String (ascii_of_nat 10) ""])
    | None =>
        let consoleMessage := "[" ++ paddedLevel ++ "] " ++ message in
        match stream with
        | to_stderr => mkSinks (stdout out) (stderr out ++ [consoleMessage]) (file out)
        | to_stdout => mkSinks (stdout out ++ [consoleMessage]) (stderr out) (file out)
        end
    end.

Definition debug (this : Logger) (message : string) := _log this DEBUG message to_stdout.
Definition info (this : Logger) (message : string) := _log this INFO message to_stdout.
Definition warn (this : Logger) (message : string) := _log this WARN message to_stderr.
Definition error (this : Logger) (message : string) := _log this ERROR message to_stderr.

Definition close (this : Logger) : Logger :=
  match logStream this with
  | Some _ => mkLogger (level this) (destination this) (logPath this)
                       (identifierWidth this) None
  | None => this
  end.

Fixpoint spaces (n : nat) : string :=
  match n with O => "" | S n' => String " " (spaces n') end.

(** [s.padEnd(targetLength)] *)
Definition padEnd (s : string) (targetLength : Z) : string :=
  s ++ spaces (Z.to_nat (targetLength - Z.of_nat (String.length s))).

(** The methods of [this.prefix(identifier)]. *)
Definition prefixed (this : Logger) (identifier : string)
    (method : Logger -> string -> Sinks -> Sinks) (message : string) : Sinks -> Sinks :=
  let formattedIdentifier := "[" ++ padEnd identifier (identifierWidth this) ++ "]" in
  method this (formattedIdentifier ++ " " ++ message).

(** A use of the logger: one of the four methods, directly or through a
    prefixed logger, or [close]. *)
Inductive Call : Type :=
| Log (identifier : option string) (l : LogLevelValue) (message : string)
| Close.

Definition method (l : LogLevelValue) : Logger -> string -> Sinks -> Sinks :=
  match l with DEBUG => debug | INFO => info | WARN => warn | ERROR => error end.

Definition call (c : Call) (st : Logger * Sinks) : Logger * Sinks :=
  let (this, out) := st in
  match c with
  | Log None l message => (this, method l this message out)
  | Log (Some identifier) l message => (this, prefixed this identifier (method l) message out)
  | Close => (close this, out)
  end.

Definition run (calls : list Call) (st : Logger * Sinks) : Logger * Sinks :=
  fold_left (fun st c => call c st) calls st.

(** The calls that pass the level of the logger. *)
Definition passes (this : Logger) (c : Call) : bool :=
  match c with
  | Log _ l _ => negb (value l <? value (level this))%Z
  | Close => false
  end.

Definition is_close (c : Call) : bool :=
  match c with Close => true | _ => false end.

(** What a new logger has written after the calls. *)
Definition output (options : LoggerOptions) (calls : list Call) : Sinks :=
  snd (run calls (constructor options, silent)).

Definition written (out : Sinks) : nat :=
  (List.length (stdout out) + List.length (stderr out) + List.length (file out))%nat.

Definition stdout_line (line : string) : Prop :=
  String.prefix "[DEBUG] " line = true \/ String.prefix "[INFO ] " line = true.

Definition stderr_line (line : string) : Prop :=
  String.prefix "[WARN ] " line = true \/ String.prefix "[ERROR] " line = true.

(** The text a call hands to [_log]. *)
Definition text (this : Logger) (identifier : option string) (message : string) : string :=
  match identifier with
  | None => message
  | Some i => ("[" ++ padEnd i (identifierWidth this) ++ "]") ++ " " ++ message
  end.

(** The stream each method names. *)
Definition stream_of (l : LogLevelValue) : Stream :=
  match l with DEBUG | INFO => to_stdout | WARN | ERROR => to_stderr end.

Definition no_debug_line (line : string) : Prop := String.prefix "[DEBUG]" line = false.

End Logging.

(** index.ts: how [parseArgs] settles the output path and the log path. *)
Module Cli.
Local Open Scope string_scope.

(** [s.endsWith(suffix)] *)
Fixpoint endsWith (s suffix : string) : bool :=
  String.eqb s suffix ||
  match s with
  | EmptyString => false
  | String _ s' => endsWith s' suffix
  end.

(** [s.replace(/\.json$/, '.log')]: the match, if there is one, is the
    five characters at the end. *)
Fixpoint replace_json (s : string) : string :=
  if String.eqb s ".json" then ".log"
  else match s with
       | EmptyString => EmptyString
       | String a s' => String a (replace_json s')
       end.

Inductive OutputFormat : Type := json | dir.

(** [argv.log]: the option has no type, so it is [true] for the bare flag,
    a string for a value, and [undefined] when left out. *)
Inductive LogOption : Type :=
| log_undefined
| log_boolean (b : bool)
| log_string (path : string).

Record Argv : Type := mkArgv {
  argv_output : option string;
  argv_outputFormat : OutputFormat;
  argv_log : LogOption
}.

(** The part of [createConfig()] that names the output. *)
Record Names : Type := mkNames {
  outputBase : string;
  version : string
}.

Definition config_output (config : Names) : string :=
  outputBase config ++ "-" ++ version config ++ ".json".

(** [!output] *)
Definition falsy (output : option string) : bool :=
  match output with
  | Some (String _ _) => false
  | _ => true
  end.

Definition resolve_output (config : Names) (argv : Argv) : string :=
  match argv_output argv with
  | Some (String a s) => String a s
  | _ =>
      match argv_outputFormat argv with
      | dir => outputBase config ++ "-" ++ version config
      | json => config_output config
      end
  end.

Definition resolve_log (output : string) (log : LogOption) : LogOption :=
  match log with
  | log_boolean true =>
      log_string (if endsWith output ".json" then replace_json output
                  else output ++ ".log")
  | other => other
  end.

(** The two paths of the options [parseArgs] returns. *)
Definition parseArgs (config : Names) (argv : Argv) : string * LogOption :=
  let output := resolve_output config argv in
  (output, resolve_log output (argv_log argv)).

End Cli.


(** downloader/format-manager.ts: [readCurrentFormat] and [setFormat] on
    the controls of the page. *)
Module FormatControls.
Import Errors Auth.
Local Open Scope string_scope.

Definition digit_value (a : ascii) : Z := (Z.of_nat (nat_of_ascii a) - 48)%Z.

(** The value of the longest run of digits [s] starts with, after the
    digits that gave [acc]. *)
Fixpoint digits_value (acc : Z) (s : string) : Z :=
  match s with
  | EmptyString => acc
  | String a s' =>
      if Js.is_digit a then digits_value (10 * acc + digit_value a)%Z s' else acc
  end.

(** [parseInt(s, 10)] on ASCII text: white space, a sign, digits;
    whatever follows the digits is ignored. [None] is [NaN]. The value is
    the integer the digits denote: for a safe integer ([safe] below) this
    is the number JavaScript computes; beyond, JavaScript rounds to the
    nearest number it has, and the statements leave those inputs out.
    On text that is not ASCII, JavaScript also skips the white space of
    Unicode before the number. *)
Definition parseInt (s : string) : option Z :=
  let s := trimStart s in
  let '(sign, s) :=
    match s with
    | String "-" rest => ((-1)%Z, rest)
    | String "+" rest => (1%Z, rest)
    | _ => (1%Z, s)
    end in
  match s with
  | String a _ => if Js.is_digit a then Some (sign * digits_value 0 s)%Z else None
  | EmptyString => None
  end.

(** [Number.isSafeInteger]: the integers every one of which is a number
    of its own, printed by [String] in plain decimal digits. *)
Definition safe (z : Z) : Prop := (- (2 ^ 53 - 1) <= z <= 2 ^ 53 - 1)%Z.

(** What [locator.inputValue()] comes to. *)
Inductive InputValue : Type :=
| Value (v : string)
| NoValue (e : Error).

(** The three controls as a read finds them. The mode is read with
    [.catch(() => null)]: a read that throws gives [None]. *)
Record Controls : Type := mkControls {
  frameworkSelect : InputValue;
  versionSelect : InputValue;
  checkedModeInput : option string
}.

Inductive Read : Type :=
| Shown (f : Format)
| ReadThrew (e : Error).

Definition controls_not_found : Error :=
  DownloaderError "Failed to read format controls: required selectors not found on page".

Definition readCurrentFormat (c : Controls) : Read :=
  match frameworkSelect c with
  | NoValue e => ReadThrew e
  | Value framework =>
      match versionSelect c with
      | NoValue e => ReadThrew e
      | Value versionStr =>
          let mode := checkedModeInput c in
          match framework, parseInt versionStr with
          | String _ _, Some version => Shown (mkFormat framework version mode)
          | _, _ => ReadThrew controls_not_found
          end
      end
  end.

(** After white space and a sign, [s] does not go on with a digit. *)
Definition no_number (s : string) : bool :=
  match trimStart s with
  | String "-" rest | String "+" rest => Js.stops_digits rest
  | other => Js.stops_digits other
  end.

Fixpoint all_space (s : string) : bool :=
  match s with
  | EmptyString => true
  | String a s' => is_space a && all_space s'
  end.

(** The controls of a page that shows the format. *)
Definition showing (f : Format) : Controls :=
  mkControls (Value (framework f)) (Value (Js.string_of_number (version f))) (mode f).

End FormatControls.

Module FormatSwitch.
Import Errors FormatClass FormatChange FormatControls.
Local Open Scope string_scope.

(** What the page does during one [setFormat]: the navigation, the
    [data-page] attribute, the click on the Code button, the controls as
    the first read finds them, how operating each control and waiting for
    its response goes ([None]: the response came), and the controls as the
    verifying read finds them. *)
Inductive Attribute : Type :=
| Attr (v : option string)           (* the value, [None] for [null] *)
| NoAttr (e : Error).                (* [getAttribute] threw *)

Record Page : Type := mkPage {
  arrival : option Error;
  dataPage : Attribute;
  codeButton : option Error;
  controls : Controls;
  change : Setting -> option Error;
  controls_after : Controls
}.

(** How a call ends, and the controls it operated, in order. *)
Inductive Ending : Type :=
| Returns
| Throws (e : Error).

(** [`${urls[0]}`] *)
Definition first_url (urls : list string) : string :=
  match urls with
  | url :: _ => url
  | [] => "undefined"
  end.

(** The three [if]s of the [try] block: the settings to change, given
    the format read and the target. The version is compared after the
    framework is changed and the mode after both, on the interim format,
    which has the version and the mode of the format read. *)
Definition settings_to_change (currentFormat targetFormat : Format) : list Setting :=
  (if negb (String.eqb (framework currentFormat) (framework targetFormat))
   then [FrameworkSetting] else []) ++
  (if negb (Z.eqb (version currentFormat) (version targetFormat))
   then [VersionSetting] else []) ++
  (match mode targetFormat with
   | Some targetMode =>
       if mode_neqb (mode currentFormat) (Some targetMode) then [ModeSetting] else []
   | None => []
   end).

(** Operating the controls one after the other until one throws. *)
Fixpoint operate (page : Page) (todo : list Setting) : list Setting * option Error :=
  match todo with
  | [] => ([], None)
  | setting :: rest =>
      match change page setting with
      | Some e => ([setting], Some e)
      | None => let (done, e) := operate page rest in (setting :: done, e)
      end
  end.

(** The [catch] of [setFormat]. *)
Definition wrapped (targetFormat : Format) (e : Error) : Error :=
  match e with
  | DownloaderError _ => e
  | OtherError _ _ =>
      DownloaderError ("Failed to set format to " ++ toString targetFormat ++ ": "
                       ++ Authenticated.message_of e)
  end.

Definition setFormat (page : Page) (targetFormat : Format) (urls : list string)
  : Ending * list Setting :=
  match arrival page with
  | Some e => (Throws e, [])
  | None =>
      match dataPage page with
      | NoAttr e => (Throws e, [])
      | Attr None | Attr (Some EmptyString) =>
          (Throws (DownloaderError ("No data-page attribute found on " ++ first_url urls)), [])
      | Attr (Some _) =>
          match codeButton page with
          | Some e => (Throws e, [])
          | None =>
              match readCurrentFormat (controls page) with
              | ReadThrew e => (Throws e, [])
              | Shown currentFormat =>
                  if equals currentFormat targetFormat then (Returns, [])
                  else
                    let (done, failure) :=
                      operate page (settings_to_change currentFormat targetFormat) in
                    match failure with
                    | Some e => (Throws (wrapped targetFormat e), done)
                    | None =>
                        match readCurrentFormat (controls_after page) with
                        | ReadThrew e => (Throws (wrapped targetFormat e), done)
                        | Shown verified =>
                            if equals verified targetFormat then (Returns, done)
                            else
                              (Throws (DownloaderError
                                 ("Format verification failed: expected "
                                  ++ toString targetFormat ++ ", got " ++ toString verified)),
                               done)
                        end
                    end
              end
          end
      end
  end.

(** A page that shows react, version 3, light, and follows the controls. *)
Definition obedient (targetFormat : Format) : Page :=
  mkPage None (Attr (Some "{}")) None
         (showing (mkFormat "react" 3 (Some "light")))
         (fun _ => None)
         (showing targetFormat).

End FormatSwitch.

(** utils/json-sorting.ts: [sortSnippetsRecursively], which [writeJsonOutput]
    runs on the component data. What [localeCompare] returns depends on the
    collation of the platform: it is a parameter here. With a consistent
    comparator [Array.prototype.sort] gives the one stable sorted
    arrangement, which is what inserting the elements one by one, from the
    last to the first, before the first element that does not come before
    them, builds. *)
Module JsonSorting.
Local Open Scope Z_scope.

Section WithCollation.
Variable localeCompare : string -> string -> Z.

(** [String(a.mode ?? '')] *)
Definition mode_string (s : Snippet) : string :=
  match SnippetType.mode s with
  | Some m => m
  | None => EmptyString
  end.

(** The comparator given to [sort]. *)
Definition compareSnippets (a b : Snippet) : Z :=
  let nameCompare := localeCompare (SnippetType.name a) (SnippetType.name b) in
  if negb (nameCompare =? 0) then nameCompare
  else
    let aVersion := SnippetType.version a in
    let bVersion := SnippetType.version b in
    if negb (aVersion =? bVersion) then aVersion - bVersion
    else localeCompare (mode_string a) (mode_string b).

Fixpoint insert (x : Snippet) (sorted : list Snippet) : list Snippet :=
  match sorted with
  | [] => [x]
  | y :: rest => if 0 <? compareSnippets x y then y :: insert x rest else x :: sorted
  end.

(** [snippets.sort(compareSnippets)] *)
Definition sort (snippets : list Snippet) : list Snippet :=
  fold_right insert [] snippets.

Fixpoint sortSnippetsRecursively (n : Node) : Node :=
  match n with
  | Entry nm ss => Entry nm (sort ss)
  | Group cs => Group (map (fun kv => (fst kv, sortSnippetsRecursively (snd kv))) cs)
  end.

(** The component data after [sortSnippetsRecursively(componentData)]. *)
Definition sorted_data (data : Tree) : Tree :=
  map (fun kv => (fst kv, sortSnippetsRecursively (snd kv))) data.

(** No snippet comes after a later one. *)
Fixpoint in_order (l : list Snippet) : Prop :=
  match l with
  | [] => True
  | x :: rest => Forall (fun y => compareSnippets x y <= 0) rest /\ in_order rest
  end.

(** No two different snippets of a component compare as equal. *)
Definition separated (data : Tree) : Prop :=
  forall nm ss, In (nm, ss) (TreeWalk.all_entries (Group data)) ->
  forall a b, In a ss -> In b ss -> compareSnippets a b = 0 -> a = b.

End WithCollation.

(** A consistent comparator, as [sort] asks for. *)
Definition consistent {A} (compare : A -> A -> Z) : Prop :=
  (forall a, compare a a = 0) /\
  (forall a b, compare a b < 0 <-> 0 < compare b a) /\
  (forall a b c, compare a b <= 0 -> compare b c <= 0 -> compare a c <= 0).

(** Comparing by one comparator and, where it gives 0, by another. *)
Definition lex {A} (c1 c2 : A -> A -> Z) (a b : A) : Z :=
  if negb (c1 a b =? 0) then c1 a b else c2 a b.

(** The snippets of every component put in another order. *)
Fixpoint rearranged (shuffle : list Snippet -> list Snippet) (n : Node) : Node :=
  match n with
  | Entry nm ss => Entry nm (shuffle ss)
  | Group cs => Group (map (fun kv => (fst kv, rearranged shuffle (snd kv))) cs)
  end.

Definition rearranged_data (shuffle : list Snippet -> list Snippet) (data : Tree) : Tree :=
  map (fun kv => (fst kv, rearranged shuffle (snd kv))) data.

(** The order of the code units, as a collation for ASCII text. *)
Definition code_unit_order (a b : string) : Z :=
  match String.compare a b with
  | Lt => -1
  | Eq => 0
  | Gt => 1
  end.

End JsonSorting.

(** downloader/auth.ts: [validateSession], [resolveCredentials] and
    [ensureAuthenticated], around the login of [Auth]. *)
Module SessionCheck.
Import Errors Auth.
Local Open Scope auth_scope.

(** What [locator.isVisible()] comes to. *)
Inductive Visible : Type :=
| Seen (b : bool)
| NotSeen (e : Error).

(** What the calls find besides the page, the clock and the terminal: the
    two elements looked for after the navigation, the credentials file
    ([None]: missing or not parsed), and what saving the storage state
    throws, if it throws. *)
Record Surroundings : Type := mkSurroundings {
  signInLink : Visible;
  accountButton : Visible;
  credentialsFile : option Credentials;
  storageState : option Error
}.

(** [try { ... } catch { return false }] *)
Definition or_false (m : M bool) : M bool :=
  fun c =>
    match m c with
    | (Thrown _, c') => (Returned false, c')
    | other => other
    end.

Section WithEnvironment.
Variable env : Environment.
Variable around : Surroundings.

Definition validateSession (plusUrl : string) (maxRetries : Z) : M bool :=
  or_false
    (retryGoto env plusUrl maxRetries ;;;
     match signInLink around with
     | NotSeen e => throw e
     | Seen signIn =>
         let isSignInAbsent := negb signIn in
         match accountButton around with
         | NotSeen e => throw e
         | Seen isAccountPresent => ret (isSignInAbsent && isAccountPresent)
         end
     end).

Definition resolveCredentials : M Credentials :=
  match credentialsFile around with
  | Some fromFile => ret fromFile
  | None => promptCredentials env
  end.

(** What became of the session file. [saveSession] catches what saving
    throws. *)
Inductive SessionFile : Type := Untouched | Written | NotWritten.

Definition saveSession : SessionFile :=
  match storageState around with
  | None => Written
  | Some _ => NotWritten
  end.

Definition ensureAuthenticated (fuel : nat) (plusUrl loginUrl : string)
    (maxRetries loginTimeout : Z) : M SessionFile :=
  isValid <- validateSession plusUrl maxRetries ;;
  if isValid then ret Untouched
  else
    credentials <- resolveCredentials ;;
    login env fuel loginUrl maxRetries loginTimeout credentials ;;;
    ret saveSession.

End WithEnvironment.

(** A session that is still valid. *)
Definition signed_in : Surroundings :=
  mkSurroundings (Seen false) (Seen true) None None.

End SessionCheck.

(** downloader.ts: [start], from the check of the output path to [stop]. *)
Module Lifecycle.
Import Errors Auth.
Local Open Scope string_scope.

(** The four steps of the [try] block. *)
Inductive Phase : Type := initializeBrowser | discoverUrls | runDownload | writeOutput.

(** What the prompt comes to. *)
Inductive Answer : Type :=
| Typed (answer : string)
| PromptFailed (e : Error).

(** What a run of [start] meets: whether the output exists, the
    [overwrite] option, the answer at the prompt, what each step throws
    if it throws, and what [stop] throws if it throws. *)
Record Run : Type := mkRun {
  outputExists : bool;
  overwrite : bool;
  answer : Answer;
  failure : Phase -> option Error;
  stop_failure : option Error
}.

Inductive Event : Type :=
| Asked                          (* the overwrite prompt *)
| Began (p : Phase)
| LoggedError (message : string)
| Stopped.

Inductive Ending : Type :=
| Returns
| Throws (e : Error)
| Exits (code : Z).              (* [process.exit(code)]: nothing runs after it *)

(** [answer.trim().toLowerCase().startsWith('y')] *)
Definition consents (answer : string) : bool :=
  String.prefix "y" (toLowerCase (trim answer)).

(** The steps one after the other until one throws. *)
Fixpoint steps (run : Run) (todo : list Phase) : list Event * option Error :=
  match todo with
  | [] => ([], None)
  | p :: rest =>
      match failure run p with
      | Some e => ([Began p], Some e)
      | None => let (events, e) := steps run rest in (Began p :: events, e)
      end
  end.

(** [finally { await this.stop() }]: what [stop] throws takes the place of
    the ending. *)
Definition finally_stop (run : Run) (ending : Ending) : Ending :=
  match stop_failure run with
  | Some e => Throws e
  | None => ending
  end.

Definition lifecycle (run : Run) (asked : list Event) : Ending * list Event :=
  let (events, thrown) :=
    steps run [initializeBrowser; discoverUrls; runDownload; writeOutput] in
  match thrown with
  | Some (DownloaderError message) =>
      (Exits 1, asked ++ events ++ [LoggedError message])
  | Some e => (finally_stop run (Throws e), asked ++ events ++ [Stopped])
  | None => (finally_stop run Returns, asked ++ events ++ [Stopped])
  end%list.

Definition start (run : Run) : Ending * list Event :=
  if outputExists run && negb (overwrite run) then
    match answer run with
    | PromptFailed e => (Throws e, [Asked])
    | Typed answer =>
        if negb (consents answer)
        then (Throws (DownloaderError "Aborted: output already exists"), [Asked])
        else lifecycle run [Asked]
    end
  else lifecycle run [].

End Lifecycle.

(** downloader.ts: [_processFormats] of the authenticated download. In
    every pass the workers run their job loops side by side: a worker
    without a job takes the next one off the queue, a worker whose
    extraction has settled reports it; between two awaits nothing else
    runs, so a pass is a sequence of such steps in any order. *)
Module DownloadPasses.
Import Errors JobType Downloader Worker.

(** Where a worker is in [start] during a pass: at the test of its
    [while] loop, waiting for the extraction of the job it has shifted
    off the queue, or out of the loop (its [start] has returned). *)
Inductive WorkerState : Type :=
| AtLoopTest
| Extracting (job : Job)
| Returned.

Record PassState : Type := mkPassState {
  p_host : Host;
  p_workers : list WorkerState
}.

(** [workers.map(w => w.start())]: every worker reaches its loop. *)
Definition started (workers : nat) (this : Host) : PassState :=
  mkPassState this (repeat AtLoopTest workers).

(** The page of an extraction is visited for the format of the pass, and
    its data, when it has data, is under names that no object inherits. *)
Definition page_visit (format : Format) (ecommerceUrl : string) (o : Extraction) : Prop :=
  AuthenticatedPass.visited format ecommerceUrl o /\ JobBudget.plainly_named o.

(** A step of one worker in a pass whose extractions satisfy [P]: the loop
    test finds a job and shifts it, or finds the queue empty and leaves
    the loop, or the extraction settles and the job is reported. The
    extraction in between is where the workers take turns. A report that
    raises is no step of a pass: the error leaves [start], and
    [Promise.all] rejects. *)
Inductive pass_step (P : Extraction -> Prop) : PassState -> PassState -> Prop :=
| pass_take w job rest this ws :
    nth_error ws w = Some AtLoopTest ->
    jobQueue this = job :: rest ->
    pass_step P (mkPassState this ws)
      (mkPassState (with_queue rest this)
         (Pool.set_nth w (Extracting (mkJob (url job) processing (retryCount job)
                                            (data job) (error job))) ws))
| pass_leave w this ws :
    nth_error ws w = Some AtLoopTest ->
    jobQueue this = [] ->
    pass_step P (mkPassState this ws) (mkPassState this (Pool.set_nth w Returned ws))
| pass_report w job outcome job' this this' ws :
    P outcome ->
    nth_error ws w = Some (Extracting job) ->
    processJobResult this (attempt outcome job) = Some (job', this') ->
    pass_step P (mkPassState this ws) (mkPassState this' (Pool.set_nth w AtLoopTest ws)).

Inductive pass_steps (P : Extraction -> Prop) : PassState -> PassState -> Prop :=
| pass_steps_refl s : pass_steps P s s
| pass_steps_step s1 s2 s3 :
    pass_steps P s1 s2 -> pass_step P s2 s3 -> pass_steps P s1 s3.

(** [this._populateJobQueue(); await Promise.all(workers.map(w => w.start()))]:
    from the populated queue and the workers at their loops to the state
    in which every [start] has returned. *)
Definition pass (P : Extraction -> Prop) (workers : nat) (urls : list string)
    (this this' : Host) : Prop :=
  exists ws,
    pass_steps P (started workers (_populateJobQueue urls this)) (mkPassState this' ws) /\
    Forall (fun w => w = Returned) ws.

(** [Math.min(this.options.workers, this._urls.length)] *)
Definition numWorkers (workers : nat) (urls : list string) : nat :=
  Nat.min workers (List.length urls).

(** [for (const format of this.formats)]: for each format what [setFormat]
    throws, if it throws (which ends the loop), and a pass otherwise. The
    result is the host and what is thrown. *)
Inductive _processFormats (workers : nat) (urls : list string) (ecommerceUrl : string)
  : list (Format * option Error) -> Host -> Host * option Error -> Prop :=
| formats_done this :
    _processFormats workers urls ecommerceUrl [] this (this, None)
| formats_throw format e rest this :
    _processFormats workers urls ecommerceUrl ((format, Some e) :: rest) this (this, Some e)
| formats_pass format rest this this' result :
    pass (page_visit format ecommerceUrl) (numWorkers workers urls) urls this this' ->
    _processFormats workers urls ecommerceUrl rest this' result ->
    _processFormats workers urls ecommerceUrl ((format, None) :: rest) this result.

(** The snippet is of one of the formats asked for: the framework and the
    version of the start format or configured ones, and no mode, the mode
    of the start format, or a configured one. *)
Definition asked_for (startFormat : Format) (config : DownloadConfig) (s : Snippet) : Prop :=
  In (SnippetType.name s) (framework startFormat :: frameworks config) /\
  In (SnippetType.version s) (version startFormat :: versions config) /\
  (SnippetType.mode s = None \/
   exists m, SnippetType.mode s = Some m /\
             (mode startFormat = Some m \/ In m (modes config))).

(** The accumulator is component data and holds [old] snippets and
    snippets of the format of the pass. *)
Definition kept (format : Format) (old : Snippet -> Prop) (this : Host) : Prop :=
  TreeShape.isComponentData (componentData this) = true /\
  forall s, In s (TreeWalk.all_snippets (Group (componentData this))) ->
            old s \/ AuthenticatedPass.in_format format s.

(** While a worker is still in its loop the queue may hold jobs; once
    every [start] has returned it does not. *)
Definition drained (s : PassState) : Prop :=
  Forall (fun w => w = Returned) (p_workers s) ->
  p_workers s = [] \/ jobQueue (p_host s) = [].

End DownloadPasses.

(* ================================================================== *)
(** * Statements and proofs                                            *)
(* ================================================================== *)

Module JsFacts.
Import Js.
Local Open Scope string_scope.

Lemma append_assoc (a b c : string) : (a ++ b) ++ c = a ++ (b ++ c).
Proof. induction a as [|x a IH]; simpl; [reflexivity | now rewrite IH]. Qed.

Lemma append_nil_r (a : string) : a ++ "" = a.
Proof. induction a as [|x a IH]; simpl; [reflexivity | now rewrite IH]. Qed.

Lemma free_append c a b : free c (a ++ b) = free c a && free c b.
Proof.
  induction a as [|x a IH]; simpl; [reflexivity|].
  now rewrite IH, andb_assoc.
Qed.

(** A separator splits a string in one way when the left parts avoid it. *)
Lemma split_at_first c l1 : forall l2 r1 r2,
  free c l1 = true -> free c l2 = true ->
  l1 ++ String c r1 = l2 ++ String c r2 -> l1 = l2 /\ r1 = r2.
Proof.
  induction l1 as [|x l1 IH]; intros [|y l2] r1 r2 H1 H2 E; simpl in *.
  - inversion E; auto.
  - inversion E; subst y. rewrite Ascii.eqb_refl in H2. discriminate.
  - inversion E; subst x. rewrite Ascii.eqb_refl in H1. discriminate.
  - inversion E; subst y.
    apply andb_true_iff in H1 as [_ H1]. apply andb_true_iff in H2 as [_ H2].
    destruct (IH _ _ _ H1 H2 H3) as [-> ->]. auto.
Qed.

(** ... and also when the right parts avoid it. *)
Lemma split_at_last c l1 : forall l2 r1 r2,
  free c r1 = true -> free c r2 = true ->
  l1 ++ String c r1 = l2 ++ String c r2 -> l1 = l2 /\ r1 = r2.
Proof.
  induction l1 as [|x l1 IH]; intros [|y l2] r1 r2 H1 H2 E; simpl in *.
  - inversion E; auto.
  - inversion E; subst. rewrite free_append in H1. simpl in H1.
    rewrite Ascii.eqb_refl in H1. simpl in H1. rewrite andb_false_r in H1. discriminate.
  - inversion E; subst. rewrite free_append in H2. simpl in H2.
    rewrite Ascii.eqb_refl in H2. simpl in H2. rewrite andb_false_r in H2. discriminate.
  - inversion E; subst y.
    destruct (IH _ _ _ H1 H2 H3) as [-> ->]. auto.
Qed.

Lemma digits_then_stop a : forall b t1 t2,
  all_digits a = true -> all_digits b = true ->
  stops_digits t1 = true -> stops_digits t2 = true ->
  a ++ t1 = b ++ t2 -> a = b /\ t1 = t2.
Proof.
  induction a as [|x a IH]; intros [|y b] t1 t2 Ha Hb H1 H2 E; simpl in *.
  - auto.
  - subst t1. simpl in H1. apply andb_true_iff in Hb as [Hy _].
    rewrite Hy in H1. discriminate.
  - subst t2. simpl in H2. apply andb_true_iff in Ha as [Hx _].
    rewrite Hx in H2. discriminate.
  - inversion E; subst y.
    apply andb_true_iff in Ha as [_ Ha]. apply andb_true_iff in Hb as [_ Hb].
    destruct (IH _ _ _ Ha Hb H1 H2 H3) as [-> ->]. auto.
Qed.

Lemma uint_all_digits d : all_digits (DecimalString.NilEmpty.string_of_uint d) = true.
Proof. induction d; simpl; auto. Qed.

Lemma uint_free c d : is_digit c = false -> free c (DecimalString.NilEmpty.string_of_uint d) = true.
Proof.
  intros Hc. induction d; cbn [DecimalString.NilEmpty.string_of_uint free]; auto;
    rewrite IHd, andb_true_r; apply negb_true_iff, Ascii.eqb_neq;
    intros <-; vm_compute in Hc; discriminate.
Qed.

Lemma uint_nonempty p : DecimalString.NilEmpty.string_of_uint (Pos.to_uint p) <> "".
Proof.
  pose proof (DecimalPos.Unsigned.to_uint_nonnil p) as H.
  destruct (Pos.to_uint p); simpl; congruence.
Qed.

Lemma string_of_number_inj z1 z2 :
  string_of_number z1 = string_of_number z2 -> z1 = z2.
Proof.
  unfold string_of_number. intros E.
  apply DecimalZ.to_int_inj.
  pose proof (DecimalString.NilEmpty.isi (Z.to_int z1)) as H1.
  pose proof (DecimalString.NilEmpty.isi (Z.to_int z2)) as H2.
  rewrite E in H1. congruence.
Qed.

(** A printed number is an optional sign followed by a non-empty run of digits. *)
Lemma string_of_number_shape z :
  exists ds, ds <> "" /\ all_digits ds = true /\
    (string_of_number z = ds \/ string_of_number z = String "-" ds).
Proof.
  unfold string_of_number. destruct z as [|p|p]; simpl.
  - exists "0". repeat split; auto. discriminate.
  - exists (DecimalString.NilEmpty.string_of_uint (Pos.to_uint p)).
    split; [apply uint_nonempty|]. split; [apply uint_all_digits|]. auto.
  - exists (DecimalString.NilEmpty.string_of_uint (Pos.to_uint p)).
    split; [apply uint_nonempty|]. split; [apply uint_all_digits|]. auto.
Qed.

(** A printed number followed by the rest of a key is read back in one way. *)
Lemma number_then_stop z1 z2 t1 t2 :
  stops_digits t1 = true -> stops_digits t2 = true ->
  string_of_number z1 ++ t1 = string_of_number z2 ++ t2 -> z1 = z2 /\ t1 = t2.
Proof.
  intros H1 H2 E.
  destruct (string_of_number_shape z1) as (d1 & N1 & D1 & S1).
  destruct (string_of_number_shape z2) as (d2 & N2 & D2 & S2).
  assert (string_of_number z1 = string_of_number z2 /\ t1 = t2) as [Ez Et].
  { destruct S1 as [S1|S1], S2 as [S2|S2]; rewrite S1, S2 in *; simpl in E.
    - apply digits_then_stop in E; tauto.
    - destruct d1 as [|c d1]; [congruence|]. simpl in E, D1. inversion E; subst c.
      discriminate.
    - destruct d2 as [|c d2]; [congruence|]. simpl in E, D2. inversion E; subst c.
      discriminate.
    - inversion E as [E']. apply digits_then_stop in E'; try tauto.
      destruct E' as [-> ->]; auto. }
  split; [now apply string_of_number_inj | assumption].
Qed.

Lemma string_of_number_free c z :
  is_digit c = false -> c <> "-"%char -> free c (string_of_number z) = true.
Proof.
  intros Hd Hm. unfold string_of_number.
  destruct z as [|p|p]; cbn [Z.to_int DecimalString.NilEmpty.string_of_int].
  - change (DecimalString.NilEmpty.string_of_uint Decimal.zero) with (String "0" "").
    cbn [free]. rewrite andb_true_r. apply negb_true_iff, Ascii.eqb_neq.
    intros <-. vm_compute in Hd. discriminate.
  - now apply uint_free.
  - cbn [free]. rewrite uint_free by assumption. rewrite andb_true_r.
    apply negb_true_iff, Ascii.eqb_neq. congruence.
Qed.

End JsFacts.

Module FormatFacts.
Import Js JsFacts FormatClass.
Local Open Scope string_scope.

Lemma stringValue_tail f :
  _stringValue f =
  framework f ++ String "-" (String "v" (string_of_number (version f) ++ mode_tail (mode f))).
Proof.
  unfold _stringValue, mode_tail. destruct (mode f); simpl.
  - reflexivity.
  - now rewrite append_nil_r.
Qed.

Lemma mode_tail_stops m : stops_digits (mode_tail m) = true.
Proof. destruct m; reflexivity. Qed.

Lemma mode_tail_inj m1 m2 : mode_tail m1 = mode_tail m2 -> m1 = m2.
Proof. destruct m1, m2; simpl; intros E; inversion E; auto. Qed.

Lemma same_dimensions_eq a b : same_dimensions a b <-> a = b.
Proof.
  unfold same_dimensions. destruct a, b; simpl. split.
  - intros (-> & -> & ->). reflexivity.
  - intros E. inversion E. auto.
Qed.

Lemma equals_iff_key a b : equals a b = true <-> toString a = toString b.
Proof. unfold equals, toString. apply String.eqb_eq. Qed.

(** Formats that agree on every dimension are always reported equal. *)
Lemma same_dimensions_equals a b : same_dimensions a b -> equals a b = true.
Proof. intros H. apply same_dimensions_eq in H. subst. apply String.eqb_refl. Qed.

(** With no "-" inside the framework names the key determines the format. *)
Lemma stringValue_inj a b :
  free "-" (framework a) = true -> free "-" (framework b) = true ->
  _stringValue a = _stringValue b -> same_dimensions a b.
Proof.
  intros Ha Hb E. rewrite !stringValue_tail in E.
  apply split_at_first in E; auto. destruct E as [Ef E].
  inversion E as [E'].
  apply number_then_stop in E'; auto using mode_tail_stops.
  destruct E' as [Ev Em]. apply mode_tail_inj in Em.
  repeat split; assumption.
Qed.

(** C7 fails as stated: two formats that differ in every dimension share
    the key "react-v3-v4", and [equals] compares keys. *)
Lemma Format_equals_key_collision :
  equals (mkFormat "react-v3" 4 None) (mkFormat "react" 3 (Some "v4")) = true /\
  ~ same_dimensions (mkFormat "react-v3" 4 None) (mkFormat "react" 3 (Some "v4")).
Proof.
  split; [reflexivity|].
  unfold same_dimensions; simpl. intros (E & _). discriminate.
Qed.

(** C7 (amended): [equals] returns [true] exactly when the two canonical
    string keys are equal; the key is built from all three fields, so
    formats that agree on framework, version and mode are always equal;
    and for formats whose framework names contain no "-", [equals] returns
    [true] exactly when framework, version and mode all agree. *)
Theorem Format_equals_iff_same_dimensions (a b : Format) :
  (equals a b = true <-> toString a = toString b) /\
  (same_dimensions a b -> equals a b = true) /\
  (free "-" (framework a) = true -> free "-" (framework b) = true ->
   (equals a b = true <-> same_dimensions a b)).
Proof.
  split; [apply equals_iff_key|]. split; [apply same_dimensions_equals|].
  intros Ha Hb. split.
  - intros E. apply equals_iff_key in E. now apply stringValue_inj.
  - apply same_dimensions_equals.
Qed.

Lemma Format_equals_iff_same_dimensions_witness :
  (equals (mkFormat "react" 4 (Some "light")) (mkFormat "react" 4 None) = true <->
   same_dimensions (mkFormat "react" 4 (Some "light")) (mkFormat "react" 4 None)).
Proof.
  exact (proj2 (proj2 (Format_equals_iff_same_dimensions
                  (mkFormat "react" 4 (Some "light")) (mkFormat "react" 4 None)))
               eq_refl eq_refl).
Defined.

End FormatFacts.

Module ListFacts.

Lemma Permutation_flat_map_list {A B} (f : A -> list B) l l' :
  Permutation l l' -> Permutation (flat_map f l) (flat_map f l').
Proof.
  induction 1; simpl.
  - constructor.
  - now apply Permutation_app_head.
  - rewrite !app_assoc. apply Permutation_app_tail, Permutation_app_comm.
  - etransitivity; eassumption.
Qed.

Lemma Permutation_flat_map_fun {A B} (f g : A -> list B) l :
  (forall x, In x l -> Permutation (f x) (g x)) ->
  Permutation (flat_map f l) (flat_map g l).
Proof.
  induction l as [|a l IH]; simpl; intros H.
  - constructor.
  - apply Permutation_app; [apply H; now left | apply IH; intros; apply H; now right].
Qed.

Lemma NoDup_map_inj {A B} (f : A -> B) l :
  (forall x y, f x = f y -> x = y) -> NoDup l -> NoDup (map f l).
Proof.
  intros Hf. induction 1 as [|a l Hn Hl IH]; simpl; constructor; auto.
  rewrite in_map_iff. intros (y & E & Hy). apply Hf in E. now subst.
Qed.

Lemma NoDup_flat_map {A B} (f : A -> list B) l :
  NoDup l -> (forall x, In x l -> NoDup (f x)) ->
  (forall x y b, In x l -> In y l -> In b (f x) -> In b (f y) -> x = y) ->
  NoDup (flat_map f l).
Proof.
  induction 1 as [|a l Hn Hl IH]; simpl; intros Hf Hd.
  - constructor.
  - apply NoDup_app.
    + apply Hf. now left.
    + apply IH; intros; eauto.
    + intros b Hb Hb'. apply in_flat_map in Hb' as (y & Hy & Hby).
      assert (a = y) by (apply (Hd a y b); auto). now subst.
Qed.

(** Moving a member to the front: the shape of every dimension list
    [generateFormats] builds. *)
Lemma Permutation_front {A} (neqb : A -> bool) (x : A) l :
  (forall y, neqb y = false <-> y = x) ->
  NoDup l -> In x l -> Permutation (x :: filter neqb l) l.
Proof.
  intros Hx. induction 1 as [|a l Hn Hl IH]; intros Hin; [destruct Hin|].
  simpl. destruct (neqb a) eqn:E.
  - destruct Hin as [->|Hin].
    + assert (neqb x = false) by now apply Hx. congruence.
    + etransitivity; [apply perm_swap|]. apply perm_skip. now apply IH.
  - apply Hx in E. subst a. apply perm_skip.
    assert (filter neqb l = l) as ->; [|reflexivity].
    clear IH Hin Hl. induction l as [|b l IHl]; simpl; [reflexivity|].
    destruct (neqb b) eqn:Eb.
    + f_equal. apply IHl. intros H. apply Hn. now right.
    + apply Hx in Eb. subst b. exfalso. apply Hn. now left.
Qed.

Lemma NoDup_front {A} (neqb : A -> bool) (x : A) l :
  (forall y, neqb y = false <-> y = x) ->
  NoDup l -> NoDup (x :: filter neqb l).
Proof.
  intros Hx Hl. constructor.
  - rewrite filter_In. intros [_ E].
    assert (neqb x = false) by now apply Hx. congruence.
  - now apply NoDup_filter.
Qed.

End ListFacts.

Module ReflectingFacts.
Import Reflecting.

Section Traversal.
Context {T : Type}.
Implicit Type ra : ReflectingArray T.

Lemma items_flipped ra : _items (flipped ra) = _items ra.
Proof. reflexivity. Qed.

Lemma flipped_twice ra : flipped (flipped ra) = ra.
Proof. destruct ra as [l []]; reflexivity. Qed.

(** The next traversal runs the previous one backwards. *)
Lemma yielded_flipped ra : yielded (flipped ra) = rev (yielded ra).
Proof.
  destruct ra as [l []]; unfold yielded, flipped; simpl;
    [reflexivity | now rewrite rev_involutive].
Qed.

Lemma yielded_perm ra : Permutation (yielded ra) (_items ra).
Proof.
  destruct ra as [l []]; unfold yielded; simpl;
    [reflexivity | symmetry; apply Permutation_rev].
Qed.

Lemma items_iter_flipped n ra : _items (Nat.iter n flipped ra) = _items ra.
Proof. induction n; simpl; [reflexivity | now rewrite IHn]. Qed.

Lemma yielded_new (l : list T) : yielded (new l) = l.
Proof. reflexivity. Qed.

(** Three traversals of [a; b; c]: forwards, backwards, forwards. *)
Lemma three_traversals (a b c : T) :
  let r0 := new [a; b; c] in
  let r1 := flipped r0 in
  let r2 := flipped r1 in
  yielded r0 = [a; b; c] /\ yielded r1 = [c; b; a] /\ yielded r2 = [a; b; c].
Proof. repeat split. Qed.
End Traversal.

End ReflectingFacts.

Module FormatManagerFacts.
Import Reflecting ReflectingFacts FormatManager FormatTrace ListFacts.

(** ** The loops push exactly [rows] *)

Lemma push_loop fw v ms : forall fs,
  fold_left (fun acc m => acc ++ [mkFormat fw v (Some m)]) ms fs = fs ++ map (cell fw v) ms.
Proof.
  induction ms as [|m ms IH]; intros fs; simpl.
  - now rewrite app_nil_r.
  - rewrite IH, <- app_assoc. reflexivity.
Qed.

Lemma modes_loop_eq fw v ra fs :
  modes_loop fw v (ra, fs) = (flipped ra, fs ++ map (cell fw v) (yielded ra)).
Proof. unfold modes_loop, for_of. now rewrite push_loop. Qed.

Lemma versions_fold fw vs : forall ra fs,
  fold_left (fun acc v => modes_loop fw v acc) vs (ra, fs) =
  (Nat.iter (List.length vs) flipped ra, fs ++ blocks fw vs ra).
Proof.
  induction vs as [|v vs IH]; intros ra fs; cbn [fold_left blocks List.length].
  - simpl. now rewrite app_nil_r.
  - rewrite modes_loop_eq, IH, <- app_assoc, Nat.iter_succ_r. reflexivity.
Qed.

Lemma versions_loop_eq fw rav ram fs :
  versions_loop fw (rav, (ram, fs)) =
  (flipped rav,
   (Nat.iter (List.length (yielded rav)) flipped ram, fs ++ blocks fw (yielded rav) ram)).
Proof. unfold versions_loop, for_of. now rewrite versions_fold. Qed.

Lemma frameworks_fold fws : forall rav ram fs,
  snd (snd (fold_left (fun acc fw => versions_loop fw acc) fws (rav, (ram, fs)))) =
  fs ++ rows fws rav ram.
Proof.
  induction fws as [|fw fws IH]; intros rav ram fs; cbn [fold_left rows].
  - simpl. now rewrite app_nil_r.
  - rewrite versions_loop_eq, IH, <- app_assoc. reflexivity.
Qed.

Lemma generate_rows fws vs ms : generate fws vs ms = rows fws (new vs) (new ms).
Proof.
  unfold generate, for_of.
  pose proof (frameworks_fold (yielded (new fws)) (new vs) (new ms) []) as H.
  destruct (fold_left _ _ _) as [r2 [r3 fs]]. simpl in H. exact H.
Qed.

(** ** The sequence is a rearrangement of the product *)

Lemma blocks_perm fw vs : forall ra,
  Permutation (blocks fw vs ra) (flat_map (fun v => map (cell fw v) (_items ra)) vs).
Proof.
  induction vs as [|v vs IH]; intros ra; simpl.
  - constructor.
  - apply Permutation_app.
    + apply Permutation_map, yielded_perm.
    + rewrite IH. reflexivity.
Qed.

Lemma rows_perm fws : forall rav ram,
  Permutation (rows fws rav ram) (grid fws (_items rav) (_items ram)).
Proof.
  unfold grid. induction fws as [|fw fws IH]; intros rav ram; simpl.
  - constructor.
  - apply Permutation_app.
    + rewrite blocks_perm. apply Permutation_flat_map_list, yielded_perm.
    + rewrite IH, items_flipped, items_iter_flipped. reflexivity.
Qed.

Lemma generate_perm fws vs ms : Permutation (generate fws vs ms) (grid fws vs ms).
Proof. rewrite generate_rows. apply rows_perm. Qed.

Lemma grid_perm fws fws' vs vs' ms ms' :
  Permutation fws fws' -> Permutation vs vs' -> Permutation ms ms' ->
  Permutation (grid fws vs ms) (grid fws' vs' ms').
Proof.
  intros Hf Hv Hm. unfold grid.
  etransitivity; [apply Permutation_flat_map_list, Hf|].
  apply Permutation_flat_map_fun. intros fw _.
  etransitivity; [apply Permutation_flat_map_list, Hv|].
  apply Permutation_flat_map_fun. intros v _.
  now apply Permutation_map.
Qed.

Lemma in_grid f fws vs ms :
  In f (grid fws vs ms) <->
  In (framework f) fws /\ In (version f) vs /\ exists m, mode f = Some m /\ In m ms.
Proof.
  unfold grid. rewrite in_flat_map. split.
  - intros (fw & Hfw & H). apply in_flat_map in H as (v & Hv & H).
    apply in_map_iff in H as (m & <- & Hm). simpl. eauto 6.
  - intros (Hfw & Hv & m & E & Hm). exists (framework f). split; [assumption|].
    apply in_flat_map. exists (version f). split; [assumption|].
    apply in_map_iff. exists m. split; [|assumption].
    destruct f; simpl in *. now subst.
Qed.

Lemma NoDup_grid fws vs ms :
  NoDup fws -> NoDup vs -> NoDup ms -> NoDup (grid fws vs ms).
Proof.
  intros Hf Hv Hm. unfold grid. apply NoDup_flat_map; [assumption| |].
  - intros fw _. apply NoDup_flat_map; [assumption| |].
    + intros v _. apply NoDup_map_inj; [|assumption].
      intros x y E. now inversion E.
    + intros x y b _ _ Hx Hy.
      apply in_map_iff in Hx as (m1 & <- & _). apply in_map_iff in Hy as (m2 & E & _).
      now inversion E.
  - intros x y b _ _ Hx Hy.
    apply in_flat_map in Hx as (v1 & _ & Hx). apply in_map_iff in Hx as (m1 & <- & _).
    apply in_flat_map in Hy as (v2 & _ & Hy). apply in_map_iff in Hy as (m2 & E & _).
    now inversion E.
Qed.

Lemma grid_product config :
  grid (frameworks config) (versions config) (modes config) = product config.
Proof. reflexivity. Qed.

Lemma generate_head fw fws v vs m ms :
  hd_error (generate (fw :: fws) (v :: vs) (m :: ms)) = Some (mkFormat fw v (Some m)).
Proof. rewrite generate_rows. reflexivity. Qed.

Lemma string_neqb_spec (s y : string) : negb (String.eqb y s) = false <-> y = s.
Proof. rewrite negb_false_iff. apply String.eqb_eq. Qed.

Lemma Z_neqb_spec (z y : Z) : negb (Z.eqb y z) = false <-> y = z.
Proof. rewrite negb_false_iff. apply Z.eqb_eq. Qed.

End FormatManagerFacts.

Module ChainFacts.
Import FormatTrace.

Section Chain.
Context {A : Type}.
Implicit Type l : list A.

Lemma last_error_snoc l a : last_error (l ++ [a]) = Some a.
Proof. unfold last_error. now rewrite rev_app_distr. Qed.

Lemma last_error_cons a b l : last_error (a :: b :: l) = last_error (b :: l).
Proof.
  unfold last_error. simpl.
  destruct (rev l ++ [b]) eqn:E; [|reflexivity].
  apply app_eq_nil in E as [_ E]. discriminate.
Qed.

Lemma last_error_in l a : last_error l = Some a -> In a l.
Proof.
  unfold last_error. intros H. apply in_rev.
  destruct (rev l); simpl in H; inversion H. now left.
Qed.

Lemma hd_error_in l a : hd_error l = Some a -> In a l.
Proof. destruct l; simpl; intros H; inversion H. now left. Qed.

Lemma chain_app (R : A -> A -> Prop) l1 : forall l2,
  chain R l1 -> chain R l2 ->
  (forall a b, last_error l1 = Some a -> hd_error l2 = Some b -> R a b) ->
  chain R (l1 ++ l2).
Proof.
  induction l1 as [|a [|b l1] IH]; intros l2 H1 H2 Hb.
  - exact H2.
  - destruct l2 as [|c l2]; [exact I|]. simpl. split; [|exact H2].
    apply Hb; reflexivity.
  - destruct H1 as [Hab H1]. change (R a b /\ chain R ((b :: l1) ++ l2)).
    split; [assumption|]. apply IH; [assumption..|].
    intros x y Hx. apply Hb. now rewrite last_error_cons.
Qed.

Lemma chain_impl (R R' : A -> A -> Prop) l :
  (forall a b, R a b -> R' a b) -> chain R l -> chain R' l.
Proof.
  intros HR. induction l as [|a l IH]; [auto|].
  destruct l as [|b l]; [auto|].
  intros [H1 H2]. split; auto.
Qed.

Lemma NoDup_chain_neq l : NoDup l -> chain (fun x y => x <> y) l.
Proof.
  induction 1 as [|a l Hn Hl IH]; [exact I|].
  destruct l as [|b l]; [exact I|]. split; [|exact IH].
  intros ->. apply Hn. now left.
Qed.

Lemma chain_nth (R : A -> A -> Prop) l : chain R l ->
  forall i a b, nth_error l i = Some a -> nth_error l (S i) = Some b -> R a b.
Proof.
  induction l as [|x [|y l] IH]; intros H i a b Ha Hb.
  - destruct i; discriminate.
  - destruct i as [|[|i]]; discriminate.
  - destruct H as [Hxy H]. destruct i as [|i].
    + simpl in Ha, Hb. inversion Ha; inversion Hb; subst. assumption.
    + apply (IH H i); assumption.
Qed.
End Chain.

Lemma chain_map {A B} (f : A -> B) (R : B -> B -> Prop) l :
  chain (fun x y => R (f x) (f y)) l -> chain R (map f l).
Proof.
  induction l as [|a l IH]; [auto|].
  destruct l as [|b l]; [auto|].
  intros [H1 H2]. split; [assumption|]. apply IH, H2.
Qed.

Lemma last_error_map {A B} (f : A -> B) l :
  last_error (map f l) = option_map f (last_error l).
Proof. unfold last_error. rewrite <- map_rev. now destruct (rev l). Qed.

End ChainFacts.

Module GrayFacts.
Import Reflecting ReflectingFacts FormatManager FormatTrace FormatSequence.
Import ListFacts ChainFacts FormatManagerFacts.

Lemma NoDup_yielded {T} (ra : ReflectingArray T) : NoDup (_items ra) -> NoDup (yielded ra).
Proof. apply Permutation_NoDup. symmetry. apply yielded_perm. Qed.

Lemma in_blocks f fw vs : forall ra, In f (blocks fw vs ra) -> framework f = fw.
Proof.
  induction vs as [|v vs IH]; intros ra; simpl; [tauto|].
  rewrite in_app_iff, in_map_iff. intros [(m & <- & _)|H]; [reflexivity | eauto].
Qed.

Lemma in_rows f fws rav ram : In f (rows fws rav ram) -> In (framework f) fws.
Proof.
  intros H. apply (Permutation_in _ (rows_perm fws rav ram)) in H.
  now apply in_grid in H.
Qed.

(** Inside one framework: the modes run back and forth, the version
    changes only between two runs, where the mode stays. *)
Lemma blocks_chain fw vs : forall ra,
  NoDup vs -> NoDup (_items ra) -> _items ra <> [] ->
  chain gray_step (blocks fw vs ra).
Proof.
  induction vs as [|v vs IH]; intros ra Hvs Hms Hne; [exact I|].
  cbn [blocks]. apply chain_app.
  - apply chain_map.
    apply (chain_impl (fun x y => x <> y)); [|apply NoDup_chain_neq, NoDup_yielded, Hms].
    intros x y Hxy _. right. simpl. split; congruence.
  - apply IH; [now inversion Hvs | assumption..].
  - intros a b Ha Hb. rewrite last_error_map in Ha.
    destruct vs as [|v' vs]; [discriminate|].
    cbn [blocks] in Hb. rewrite yielded_flipped in Hb.
    unfold last_error in Ha.
    destruct (rev (yielded ra)) as [|x r] eqn:E.
    + discriminate.
    + simpl in Ha, Hb. inversion Ha; inversion Hb; subst a b.
      intros _. left. simpl. split; [|reflexivity].
      intros ->. inversion Hvs as [|? ? Hn _]. apply Hn. now left.
Qed.

Lemma rows_chain fws : forall rav ram,
  NoDup fws -> NoDup (_items rav) -> NoDup (_items ram) -> _items ram <> [] ->
  chain gray_step (rows fws rav ram).
Proof.
  induction fws as [|fw fws IH]; intros rav ram Hf Hv Hm Hne; [exact I|].
  cbn [rows]. inversion Hf as [|? ? Hn Hf']; subst. apply chain_app.
  - apply blocks_chain; auto using NoDup_yielded.
  - apply IH; rewrite ?items_flipped, ?items_iter_flipped; assumption.
  - intros a b Ha Hb E. exfalso. apply Hn.
    apply last_error_in, in_blocks in Ha. apply hd_error_in, in_rows in Hb.
    congruence.
Qed.

Lemma generate_gray fws vs m ms :
  NoDup fws -> NoDup vs -> NoDup (m :: ms) -> gray_adjacent (generate fws vs (m :: ms)).
Proof.
  intros Hf Hv Hm i a b. apply chain_nth.
  rewrite generate_rows. apply rows_chain; auto. discriminate.
Qed.

End GrayFacts.

Module GenerateFormatsSpec.
Import Reflecting FormatManager FormatTrace FormatSequence.
Import ListFacts ChainFacts FormatManagerFacts GrayFacts.
Local Open Scope string_scope.
Local Open Scope Z_scope.

Lemma mode_differs_spec (m y : string) : mode_differs (Some m) y = false <-> y = m.
Proof. apply string_neqb_spec. Qed.

(** C1 fails as stated, at three inputs:
    - a start format whose mode is [null] (the default account format of a
      page without mode inputs): the sequence starts at the first
      configured mode, not at the start format;
    - a start framework outside the configured list: the sequence holds
      formats that are not in the product of the configured lists;
    - a configured list with a repeated value: the sequence repeats a
      format. *)
Lemma generateFormats_not_always_product_from_start :
  (exists out, generateFormats (mkFormat "html" 3 None) defaultDownload = Some out /\
               ~ starts_at_and_covers (mkFormat "html" 3 None) defaultDownload out) /\
  (exists out, generateFormats (mkFormat "svelte" 3 (Some "light")) defaultDownload = Some out /\
               ~ starts_at_and_covers (mkFormat "svelte" 3 (Some "light")) defaultDownload out) /\
  (exists out, generateFormats (mkFormat "a" 1 (Some "x"))
                 (mkDownloadConfig ["a"; "b"; "b"] [1] ["x"]) = Some out /\
               ~ starts_at_and_covers (mkFormat "a" 1 (Some "x"))
                   (mkDownloadConfig ["a"; "b"; "b"] [1] ["x"]) out).
Proof.
  split; [|split]; eexists; (split; [vm_compute; reflexivity|]).
  - intros (H & _). discriminate.
  - intros (_ & _ & H).
    assert (In (mkFormat "svelte" 3 (Some "light")) (product defaultDownload)) as Hin
      by (apply H; now left).
    apply (in_grid _ (frameworks defaultDownload)) in Hin. destruct Hin as (Hin & _).
    simpl in Hin. intuition discriminate.
  - intros (_ & H & _).
    apply NoDup_cons_iff in H as [_ H]. apply NoDup_cons_iff in H as [H _].
    apply H. now left.
Qed.

(** C1 (amended): for a start format with a mode (not [null]) and every
    configuration, [generateFormats] returns a sequence whose first element
    is the start format; when the three configured lists have no repeated
    value, no format occurs twice in it; and when the framework, version
    and mode of the start format are among the configured values, its
    formats are exactly those of the Cartesian product of the configured
    lists (under both conditions it is a rearrangement of the product). *)
Theorem generateFormats_start_first_product (start : Format) (config : DownloadConfig)
    (m : string) :
  mode start = Some m ->
  exists out,
    generateFormats start config = Some out /\
    hd_error out = Some start /\
    (NoDup (frameworks config) -> NoDup (versions config) -> NoDup (modes config) ->
     NoDup out) /\
    (In (framework start) (frameworks config) ->
     In (version start) (versions config) ->
     In m (modes config) ->
     (forall f, In f out <-> In f (product config)) /\
     (NoDup (frameworks config) -> NoDup (versions config) -> NoDup (modes config) ->
      Permutation out (product config))).
Proof.
  intros Hm.
  unfold generateFormats, first_mode. rewrite Hm.
  eexists. split; [reflexivity|]. split; [|split].
  - rewrite generate_head. destruct start; simpl in *. now subst.
  - intros Nf Nv Nm.
    apply (Permutation_NoDup (Permutation_sym (generate_perm _ _ _))).
    apply NoDup_grid; apply NoDup_front;
      auto using string_neqb_spec, Z_neqb_spec, mode_differs_spec.
  - intros Hfw Hv Hmi. split.
    + intros f. rewrite <- grid_product.
      split; intros Hin.
      * apply (Permutation_in _ (generate_perm _ _ _)) in Hin.
        apply in_grid in Hin. destruct Hin as (Ha & Hb & Hc).
        apply in_grid. split; [|split].
        -- destruct Ha as [<-|Ha]; [assumption|].
           now apply filter_In in Ha.
        -- destruct Hb as [<-|Hb]; [assumption|].
           now apply filter_In in Hb.
        -- destruct Hc as (x & Hc & Hx). exists x. split; [assumption|].
           destruct Hx as [<-|Hx]; [assumption|].
           now apply filter_In in Hx.
      * apply (Permutation_in _ (Permutation_sym (generate_perm _ _ _))).
        apply in_grid in Hin. destruct Hin as (Ha & Hb & Hc).
        apply in_grid. split; [|split].
        -- destruct (String.eqb (framework f) (framework start)) eqn:E.
           ++ left. symmetry. now apply String.eqb_eq.
           ++ right. apply filter_In. split; [assumption|]. now rewrite E.
        -- destruct (Z.eqb (version f) (version start)) eqn:E.
           ++ left. symmetry. now apply Z.eqb_eq.
           ++ right. apply filter_In. split; [assumption|]. now rewrite E.
        -- destruct Hc as (x & Hc & Hx). exists x. split; [assumption|].
           destruct (String.eqb x m) eqn:E.
           ++ left. symmetry. now apply String.eqb_eq.
           ++ right. apply filter_In. split; [assumption|].
              simpl. now rewrite E.
    + intros Nf Nv Nm.
      rewrite generate_perm, <- grid_product. apply grid_perm.
      * apply Permutation_front; auto using string_neqb_spec.
      * apply Permutation_front; auto using Z_neqb_spec.
      * apply Permutation_front; auto using mode_differs_spec.
Qed.

Lemma generateFormats_start_first_product_witness :
  exists out,
    generateFormats (mkFormat "html" 3 (Some "light")) defaultDownload = Some out /\
    starts_at_and_covers (mkFormat "html" 3 (Some "light")) defaultDownload out /\
    Permutation out (product defaultDownload).
Proof.
  destruct (generateFormats_start_first_product
              (mkFormat "html" 3 (Some "light")) defaultDownload "light" eq_refl)
    as (out & E & Hhd & Hnd & Hprod).
  assert (NoDup (frameworks defaultDownload)) as Nf
    by (repeat constructor; simpl; intuition discriminate).
  assert (NoDup (versions defaultDownload)) as Nv
    by (repeat constructor; simpl; intuition discriminate).
  assert (NoDup (modes defaultDownload)) as Nm
    by (repeat constructor; simpl; intuition discriminate).
  destruct Hprod as (Hin & Hperm); [simpl; tauto ..|].
  exists out. split; [exact E|]. split.
  - split; [exact Hhd|]. split; [now apply Hnd|exact Hin].
  - now apply Hperm.
Defined.

(** C2 fails as stated, at two inputs: from a start format whose mode is
    [null] the first configured mode is traversed twice in a row, and a
    configured list with a repeated value repeats a format; in both the
    two neighbours share the framework and differ in nothing. *)
Lemma generateFormats_not_always_gray :
  (exists out, generateFormats (mkFormat "html" 3 None) defaultDownload = Some out /\
               ~ gray_adjacent out) /\
  (exists out, generateFormats (mkFormat "a" 1 (Some "x"))
                 (mkDownloadConfig ["a"] [1] ["x"; "y"; "y"]) = Some out /\
               ~ gray_adjacent out).
Proof.
  split; eexists; (split; [vm_compute; reflexivity|]).
  - intros H. specialize (H 0%nat _ _ eq_refl eq_refl eq_refl).
    simpl in H. destruct H as [[H _]|[_ H]]; now apply H.
  - intros H. specialize (H 1%nat _ _ eq_refl eq_refl eq_refl).
    simpl in H. destruct H as [[H _]|[_ H]]; now apply H.
Qed.

(** C2 (amended): for a start format with a mode (not [null]) and
    configured lists without repetitions, any two adjacent formats of the
    sequence that share the framework differ in exactly one of version and
    mode. *)
Theorem generateFormats_gray_code (start : Format) (config : DownloadConfig) (m : string) :
  mode start = Some m ->
  NoDup (frameworks config) -> NoDup (versions config) -> NoDup (modes config) ->
  exists out,
    generateFormats start config = Some out /\
    forall i a b,
      nth_error out i = Some a -> nth_error out (S i) = Some b ->
      framework a = framework b ->
      (version a <> version b /\ mode a = mode b) \/
      (version a = version b /\ mode a <> mode b).
Proof.
  intros Hm Nf Nv Nm.
  unfold generateFormats, first_mode. rewrite Hm.
  eexists. split; [reflexivity|].
  apply generate_gray.
  - apply NoDup_front; auto using string_neqb_spec.
  - apply NoDup_front; auto using Z_neqb_spec.
  - apply NoDup_front; auto using mode_differs_spec.
Qed.

Lemma generateFormats_gray_code_witness :
  exists out,
    generateFormats (mkFormat "html" 3 (Some "light")) defaultDownload = Some out /\
    forall i a b,
      nth_error out i = Some a -> nth_error out (S i) = Some b ->
      framework a = framework b ->
      (version a <> version b /\ mode a = mode b) \/
      (version a = version b /\ mode a <> mode b).
Proof.
  apply (generateFormats_gray_code (mkFormat "html" 3 (Some "light")) defaultDownload "light").
  - reflexivity.
  - repeat constructor; simpl; intuition discriminate.
  - repeat constructor; simpl; intuition discriminate.
  - repeat constructor; simpl; intuition discriminate.
Defined.

End GenerateFormatsSpec.

Module FirstOccurrenceFacts.
Import FirstOccurrence.

Section Keep.
Context {A B : Type} (proj : A -> B) (same : A -> A -> bool).
Hypothesis same_iff : forall x y, same x y = true <-> proj x = proj y.

Lemma not_earlier_snoc x y earlier :
  existsb (same x) (earlier ++ [y]) = false <->
  existsb (same x) earlier = false /\ proj x <> proj y.
Proof.
  rewrite existsb_app, orb_false_iff. simpl. rewrite orb_false_r.
  rewrite <- same_iff, not_true_iff_false. reflexivity.
Qed.

(** What is kept comes from the sequence and has no equal before it. *)
Lemma keep_in l : forall earlier x,
  In x (keep_first_from same earlier l) ->
  In x l /\ existsb (same x) earlier = false.
Proof.
  induction l as [|a l IH]; intros earlier x; simpl; [tauto|].
  assert (forall y, In y (keep_first_from same (earlier ++ [a]) l) ->
                    In y l /\ existsb (same y) earlier = false) as IH'.
  { intros y Hy. apply IH in Hy as [Hy E]. apply not_earlier_snoc in E. tauto. }
  destruct (existsb (same a) earlier) eqn:Ea.
  - intros H. apply IH' in H. tauto.
  - intros [<-|H]; [auto|]. apply IH' in H. tauto.
Qed.

(** No two kept elements are the same. *)
Lemma keep_NoDup l : forall earlier,
  NoDup (map proj (keep_first_from same earlier l)).
Proof.
  induction l as [|a l IH]; intros earlier; simpl; [constructor|].
  destruct (existsb (same a) earlier); [apply IH|].
  simpl. constructor; [|apply IH].
  rewrite in_map_iff. intros (y & E & Hy).
  apply keep_in in Hy as [_ Hy]. apply not_earlier_snoc in Hy. tauto.
Qed.

(** Every element has its equal among the earlier or the kept ones. *)
Lemma keep_covers x l : forall earlier,
  In x l ->
  existsb (same x) earlier = true \/
  exists y, In y (keep_first_from same earlier l) /\ proj y = proj x.
Proof.
  induction l as [|a l IH]; intros earlier; simpl; [tauto|].
  intros [->|Hin].
  - destruct (existsb (same x) earlier); [now left|].
    right. exists x. split; [now left | reflexivity].
  - destruct (IH (earlier ++ [a]) Hin) as [H|(y & Hy & E)].
    + rewrite existsb_app in H. apply orb_true_iff in H as [H|H]; [now left|].
      simpl in H. rewrite orb_false_r in H. apply same_iff in H.
      destruct (existsb (same a) earlier) eqn:Ea.
      * left. apply existsb_exists in Ea as (e & He & Ee).
        apply existsb_exists. exists e. split; [assumption|].
        apply same_iff. apply same_iff in Ee. congruence.
      * right. exists a. split; [now left | congruence].
    + right. exists y. split; [|assumption].
      destruct (existsb (same a) earlier); [assumption | now right].
Qed.

(** The kept element of a class is the first of the sequence in it. *)
Lemma keep_find x l : forall earlier,
  existsb (same x) earlier = false ->
  find (same x) (keep_first_from same earlier l) = find (same x) l.
Proof.
  induction l as [|a l IH]; intros earlier Hx; simpl; [reflexivity|].
  destruct (same x a) eqn:Exa.
  - assert (existsb (same a) earlier = false) as ->.
    { apply not_true_iff_false. intros H. apply not_true_iff_false in Hx. apply Hx.
      apply existsb_exists in H as (e & He & Ee). apply existsb_exists.
      exists e. split; [assumption|]. apply same_iff.
      apply same_iff in Ee. apply same_iff in Exa. congruence. }
    simpl. now rewrite Exa.
  - assert (existsb (same x) (earlier ++ [a]) = false) as Hx'.
    { apply not_earlier_snoc. split; [assumption|].
      rewrite <- same_iff. now apply not_true_iff_false. }
    destruct (existsb (same a) earlier); simpl; rewrite ?Exa; now apply IH.
Qed.

(** A sequence without equals is kept whole. *)
Lemma keep_fixed l : forall earlier,
  (forall x, In x l -> existsb (same x) earlier = false) ->
  NoDup (map proj l) ->
  keep_first_from same earlier l = l.
Proof.
  induction l as [|a l IH]; intros earlier Hl Hn; simpl; [reflexivity|].
  rewrite (Hl a) by now left. f_equal.
  inversion Hn as [|? ? Ha Hn']; subst. apply IH; [|assumption].
  intros x Hx. apply not_earlier_snoc. split; [apply Hl; now right|].
  intros E. apply Ha. rewrite <- E. now apply in_map.
Qed.

Lemma keep_first_idempotent l :
  keep_first same (keep_first same l) = keep_first same l.
Proof.
  unfold keep_first. apply keep_fixed; [reflexivity | apply keep_NoDup].
Qed.
End Keep.

(** Only the comparison matters. *)
Lemma keep_first_from_ext {A} (same same' : A -> A -> bool) l :
  (forall x y, same x y = same' x y) ->
  forall earlier, keep_first_from same earlier l = keep_first_from same' earlier l.
Proof.
  intros H. induction l as [|a l IH]; intros earlier; simpl; [reflexivity|].
  rewrite !IH.
  assert (existsb (same a) earlier = existsb (same' a) earlier) as ->; [|reflexivity].
  induction earlier as [|e earlier IHe]; simpl; [reflexivity | now rewrite H, IHe].
Qed.

End FirstOccurrenceFacts.

Module UnauthFacts.
Import Js JsFacts Unauth FormatManager FirstOccurrence FirstOccurrenceFacts.
Local Open Scope string_scope.

Lemma same_pair_iff f g : same_pair f g = true <-> pair_of f = pair_of g.
Proof.
  unfold same_pair, pair_of. rewrite andb_true_iff, String.eqb_eq, Z.eqb_eq.
  split; [intros [-> ->]; reflexivity | intros E; inversion E; auto].
Qed.

Lemma same_pair_key f g : same_pair f g = true -> pair_key f = pair_key g.
Proof. intros H. apply same_pair_iff in H. unfold pair_key. inversion H. congruence. Qed.

Lemma nonneg_number_free z : (0 <= z)%Z -> free "-" (string_of_number z) = true.
Proof.
  intros Hz. unfold string_of_number. destruct z as [|p|p]; [reflexivity| |lia].
  apply uint_free. reflexivity.
Qed.

Lemma pair_key_inj f g :
  (free "-" (framework f) = true /\ free "-" (framework g) = true) \/
  ((0 <= version f)%Z /\ (0 <= version g)%Z) ->
  pair_key f = pair_key g -> pair_of f = pair_of g.
Proof.
  unfold pair_key, pair_of. intros H E.
  change ("-" ++ ?x) with (String "-" x) in E.
  assert (framework f = framework g /\
          string_of_number (version f) = string_of_number (version g)) as [E1 E2].
  { destruct H as [[H1 H2]|[H1 H2]].
    - eapply split_at_first; eauto.
    - eapply split_at_last; eauto using nonneg_number_free. }
  apply string_of_number_inj in E2. congruence.
Qed.

Lemma plain_keys_inj formats f g :
  plain_keys formats -> In f formats -> In g formats ->
  pair_key f = pair_key g -> same_pair f g = true.
Proof.
  intros [H|H] Hf Hg E; rewrite Forall_forall in H;
    apply same_pair_iff, pair_key_inj; auto.
Qed.

Lemma has_iff key seen : StringSet.has key seen = true <-> In key seen.
Proof.
  unfold StringSet.has. rewrite existsb_exists. split.
  - intros (k & Hk & E). apply String.eqb_eq in E. now subst.
  - intros H. exists key. split; [assumption | apply String.eqb_refl].
Qed.

(** The filter over string keys is the collapse over pairs, as long as
    the keys of the formats at hand determine their pairs. *)
Lemma filter_seen_first formats : forall earlier seen,
  (forall f g, In f (earlier ++ formats) -> In g (earlier ++ formats) ->
               pair_key f = pair_key g -> same_pair f g = true) ->
  (forall k, In k seen <-> exists e, In e earlier /\ pair_key e = k) ->
  filter_seen seen formats = keep_first_from same_pair earlier formats.
Proof.
  induction formats as [|f rest IH]; intros earlier seen Hinj Hseen; [reflexivity|].
  cbn [filter_seen keep_first_from].
  assert (StringSet.has (pair_key f) seen = existsb (same_pair f) earlier) as ->.
  { apply eq_true_iff_eq. rewrite has_iff, Hseen, existsb_exists. split.
    - intros (e & He & E). exists e. split; [assumption|].
      apply Hinj; [apply in_app_iff; right; now left | apply in_app_iff; now left | auto].
    - intros (e & He & E). exists e. split; [assumption|].
      symmetry. now apply same_pair_key. }
  assert (forall f0 g, In f0 ((earlier ++ [f]) ++ rest) -> In g ((earlier ++ [f]) ++ rest) ->
                       pair_key f0 = pair_key g -> same_pair f0 g = true) as Hinj'.
  { intros f0 g. rewrite <- !app_assoc. apply Hinj. }
  destruct (existsb (same_pair f) earlier) eqn:Eex.
  - apply IH; [exact Hinj'|].
    intros k. rewrite Hseen. split.
    + intros (e & He & E). exists e. split; [apply in_app_iff; now left | assumption].
    + intros (e & He & E). apply in_app_iff in He as [He|[<-|[]]]; [eauto|].
      apply existsb_exists in Eex as (e' & He' & Ee').
      exists e'. split; [assumption|]. rewrite <- E. symmetry. now apply same_pair_key.
  - f_equal. apply IH; [exact Hinj'|].
    intros k. unfold StringSet.add. rewrite !in_app_iff, Hseen. simpl. split.
    + intros [(e & He & E)|[<-|[]]].
      * exists e. rewrite in_app_iff. auto.
      * exists f. rewrite in_app_iff. simpl. auto.
    + intros (e & He & E). apply in_app_iff in He as [He|[<-|[]]]; eauto.
Qed.

(** C8: on a page without mode inputs the formats are collapsed to the
    first format of every (framework, version) pair, in order, so that
    every pair of the sequence keeps exactly one entry. This holds for all
    sequences whose keys read back in one way (framework names without
    "-", or versions that are not negative); the sequence of an
    unauthenticated run has 18 entries, of which 6 remain. *)
Theorem formatsToUse_first_of_each_pair :
  (forall formats, plain_keys formats ->
     formatsToUse true formats = formats /\
     formatsToUse false formats = first_of_each_pair formats /\
     NoDup (map pair_of (formatsToUse false formats)) /\
     (forall f, In f formats ->
        exists g, In g (formatsToUse false formats) /\ pair_of g = pair_of f) /\
     (forall f, find (same_pair f) (formatsToUse false formats) =
                find (same_pair f) formats)) /\
  (exists formats,
     generateFormats unauthenticatedStart defaultDownload = Some formats /\
     plain_keys formats /\
     List.length formats = 18%nat /\
     List.length (formatsToUse false formats) = 6%nat /\
     map FormatClass.toString (formatsToUse false formats) =
       ["html-v3-light"; "html-v4-dark"; "react-v4-light"; "react-v3-dark";
        "vue-v3-light"; "vue-v4-dark"]).
Proof.
  split.
  - intros formats Hk.
    assert (formatsToUse false formats = first_of_each_pair formats) as E.
    { unfold formatsToUse, first_of_each_pair, keep_first. apply filter_seen_first.
      - simpl. intros f g. now apply plain_keys_inj.
      - intros k. simpl. split; [tauto | intros (e & [] & _)]. }
    split; [reflexivity|]. split; [exact E|]. rewrite E.
    unfold first_of_each_pair, keep_first.
    split; [apply (keep_NoDup pair_of same_pair same_pair_iff)|]. split.
    + intros f Hf.
      destruct (keep_covers pair_of same_pair same_pair_iff f formats [] Hf) as [H|H];
        [discriminate | exact H].
    + intros f. now apply (keep_find pair_of same_pair same_pair_iff).
  - eexists. split; [vm_compute; reflexivity|].
    split; [left; repeat constructor|].
    repeat split.
Qed.

Lemma formatsToUse_first_of_each_pair_witness :
  formatsToUse false [mkFormat "html" 3 (Some "light"); mkFormat "html" 3 (Some "dark");
                      mkFormat "vue" 3 (Some "dark")] =
  first_of_each_pair [mkFormat "html" 3 (Some "light"); mkFormat "html" 3 (Some "dark");
                      mkFormat "vue" 3 (Some "dark")].
Proof.
  refine (proj1 (proj2 (proj1 formatsToUse_first_of_each_pair _ _))).
  left. repeat constructor.
Defined.

End UnauthFacts.

Module TreeFacts.
Import TreeShape.

(** Induction over a tree and the children of its containers. *)
Lemma Node_induction (P : Node -> Prop) :
  (forall nm ss, P (Entry nm ss)) ->
  (forall cs, Forall (fun kv => P (snd kv)) cs -> P (Group cs)) ->
  forall n, P n.
Proof.
  intros HE HG. fix rec 1. intros [nm ss|cs].
  - apply HE.
  - apply HG. induction cs as [|[k c] cs IH]; constructor; [apply rec | exact IH].
Qed.

Lemma get_set_same key v obj : Obj.get key (Obj.set key v obj) = Some v.
Proof.
  induction obj as [|[k w] obj IH]; simpl.
  - now rewrite String.eqb_refl.
  - destruct (String.eqb key k) eqn:E; simpl; rewrite E; auto.
Qed.

Lemma get_set_other key k' v obj :
  k' <> key -> Obj.get k' (Obj.set key v obj) = Obj.get k' obj.
Proof.
  intros Hne. induction obj as [|[k w] obj IH]; simpl.
  - apply String.eqb_neq in Hne. now rewrite Hne.
  - destruct (String.eqb key k) eqn:E; simpl.
    + apply String.eqb_eq in E. subst k.
      apply String.eqb_neq in Hne. now rewrite Hne.
    + now rewrite IH.
Qed.

Lemma key_absent_get key obj :
  existsb (fun kv => String.eqb key (fst kv)) obj = false -> Obj.get key obj = None.
Proof.
  induction obj as [|[k w] obj IH]; simpl; [reflexivity|].
  intros H. apply orb_false_iff in H as [H1 H2]. rewrite H1. auto.
Qed.

Lemma key_absent_set key k' v obj :
  k' <> key ->
  existsb (fun kv => String.eqb k' (fst kv)) (Obj.set key v obj) =
  existsb (fun kv => String.eqb k' (fst kv)) obj.
Proof.
  intros Hne. induction obj as [|[k w] obj IH]; simpl.
  - apply String.eqb_neq in Hne. now rewrite Hne.
  - destruct (String.eqb key k) eqn:E; simpl; [reflexivity | now rewrite IH].
Qed.

Lemma unique_keys_set key v obj :
  Obj.unique_keys obj = true -> Obj.unique_keys (Obj.set key v obj) = true.
Proof.
  induction obj as [|[k w] obj IH]; simpl; [reflexivity|].
  intros H. apply andb_true_iff in H as [H1 H2].
  destruct (String.eqb key k) eqn:E; simpl.
  - now rewrite H1, H2.
  - rewrite IH by assumption. rewrite key_absent_set; [now rewrite H1|].
    intros ->. now rewrite String.eqb_refl in E.
Qed.

Lemma forallb_set (P : Node -> bool) key v obj :
  forallb (fun kv => P (snd kv)) obj = true -> P v = true ->
  forallb (fun kv => P (snd kv)) (Obj.set key v obj) = true.
Proof.
  intros H Hv. induction obj as [|[k w] obj IH]; simpl in *.
  - now rewrite Hv.
  - apply andb_true_iff in H as [H1 H2].
    destruct (String.eqb key k); simpl; [now rewrite Hv, H2 | now rewrite H1, IH].
Qed.

Lemma forallb_get (P : Node -> bool) key obj c :
  forallb (fun kv => P (snd kv)) obj = true -> Obj.get key obj = Some c -> P c = true.
Proof.
  induction obj as [|[k w] obj IH]; simpl; [discriminate|].
  intros H. apply andb_true_iff in H as [H1 H2].
  destruct (String.eqb key k); [intros E; inversion E; now subst | auto].
Qed.

Lemma forallb_set_keyed (P : string -> Node -> bool) key v obj :
  forallb (fun kv => P (fst kv) (snd kv)) obj = true -> P key v = true ->
  forallb (fun kv => P (fst kv) (snd kv)) (Obj.set key v obj) = true.
Proof.
  intros H Hv. induction obj as [|[k w] obj IH]; simpl in *.
  - now rewrite Hv.
  - apply andb_true_iff in H as [H1 H2].
    destruct (String.eqb key k) eqn:E; simpl.
    + apply String.eqb_eq in E. subst k. now rewrite Hv, H2.
    + now rewrite H1, IH.
Qed.

Lemma forallb_get_keyed (P : string -> Node -> bool) key obj c :
  forallb (fun kv => P (fst kv) (snd kv)) obj = true ->
  Obj.get key obj = Some c -> P key c = true.
Proof.
  induction obj as [|[k w] obj IH]; simpl; [discriminate|].
  intros H. apply andb_true_iff in H as [H1 H2].
  destruct (String.eqb key k) eqn:E; [|auto].
  apply String.eqb_eq in E. subst k. intros E; inversion E; now subst.
Qed.

Lemma node_at_group k path cs :
  node_at (k :: path) (Group cs) = node_below path (Obj.get k cs).
Proof. reflexivity. Qed.

Lemma shaped_entry n : shaped 0 n = true -> exists nm ss, n = Entry nm ss.
Proof. destruct n; simpl; [eauto | discriminate]. Qed.

Lemma shaped_group d n :
  shaped (S d) n = true ->
  exists cs, n = Group cs /\ Obj.unique_keys cs = true /\
             forallb (fun kv => shaped d (snd kv)) cs = true.
Proof.
  destruct n; simpl; [discriminate|]. intros H.
  apply andb_true_iff in H. eauto.
Qed.

End TreeFacts.

Module MergeFacts.
Import TreeShape TreeFacts Output.

Lemma joins_nil_r t : joins t t None.
Proof. intros p. simpl. now rewrite app_nil_r, orb_false_r. Qed.

(** The loop over the entries of the source, given the result for one value. *)
Lemma merge_entries_joins d
  (IHd : forall key tgt v,
      (forall t, tgt = Some t -> shaped d t = true) -> shaped d v = true ->
      plain_key key v = true -> plain_names v = true ->
      exists n, merge_value key tgt v = Some n /\ shaped d n = true /\
                joins (Some n) tgt (Some v)) :
  forall es t,
    Obj.unique_keys es = true -> forallb (fun kv => shaped d (snd kv)) es = true ->
    plain_names (Group es) = true ->
    Obj.unique_keys t = true -> forallb (fun kv => shaped d (snd kv)) t = true ->
    exists r, merge_entries merge_value es t = Some r /\
              Obj.unique_keys r = true /\
              forallb (fun kv => shaped d (snd kv)) r = true /\
              forall k, joins (Obj.get k r) (Obj.get k t) (Obj.get k es).
Proof.
  induction es as [|[key value] es IH]; intros t Ues Ses Pes Ut St.
  - exists t. split; [reflexivity|]. split; [assumption|]. split; [assumption|].
    intros k. apply joins_nil_r.
  - simpl in Ues, Ses.
    apply andb_true_iff in Ues as [Hk Ues]. apply negb_true_iff in Hk.
    apply andb_true_iff in Ses as [Sv Ses].
    cbn [plain_names forallb fst snd] in Pes.
    apply andb_true_iff in Pes as [Pv Pes]. apply andb_true_iff in Pv as [Pk Pv].
    destruct (IHd key (Obj.get key t) value) as (n & En & Sn & Jn);
      [|assumption|assumption|assumption|].
    { intros c Hc. eapply forallb_get; eauto. }
    destruct (IH (Obj.set key n t)) as (r & Er & Ur & Sr & Jr);
      auto using unique_keys_set, forallb_set.
    exists r. split; [simpl; now rewrite En|]. split; [assumption|]. split; [assumption|].
    intros k p. specialize (Jr k p).
    change (Obj.get k ((key, value) :: es))
      with (if String.eqb k key then Some value else Obj.get k es).
    destruct (String.eqb k key) eqn:E.
    + apply String.eqb_eq in E. subst k.
      rewrite get_set_same, (key_absent_get _ _ Hk) in Jr. simpl in Jr.
      rewrite app_nil_r, orb_false_r in Jr. destruct Jr as [-> ->]. apply Jn.
    + apply String.eqb_neq in E. rewrite get_set_other in Jr by assumption. exact Jr.
Qed.

(** One value of the source against what the target holds under its key. *)
Lemma merge_value_joins d : forall key tgt v,
  (forall t, tgt = Some t -> shaped d t = true) -> shaped d v = true ->
  plain_key key v = true -> plain_names v = true ->
  exists n, merge_value key tgt v = Some n /\ shaped d n = true /\
            joins (Some n) tgt (Some v).
Proof.
  induction d as [|d IHd]; intros key tgt v Ht Hv Pk Pv.
  - apply shaped_entry in Hv as (nm & ss & ->).
    destruct tgt as [t|].
    + destruct (shaped_entry t (Ht t eq_refl)) as (tnm & tss & ->).
      exists (Entry tnm (tss ++ ss)). repeat split; destruct path; reflexivity.
    + exists (Entry nm ss). simpl in Pk. apply negb_true_iff in Pk.
      split; [simpl; now rewrite Pk|].
      repeat split; destruct path; reflexivity.
  - apply shaped_group in Hv as (cs & -> & Ucs & Scs).
    simpl in Pk. apply negb_true_iff in Pk.
    assert (exists tcs, Obj.unique_keys tcs = true /\
                        forallb (fun kv => shaped d (snd kv)) tcs = true /\
                        (tgt = Some (Group tcs) \/ (tgt = None /\ tcs = nil)))
      as (tcs & Ut & St & Htgt).
    { destruct tgt as [t|].
      - destruct (shaped_group d t (Ht t eq_refl)) as (tcs & -> & Ut & St). eauto.
      - exists nil. auto. }
    assert (merge_value key tgt (Group cs) =
            option_map Group (merge_entries merge_value cs tcs)) as E
      by (destruct Htgt as [->|[-> ->]]; [reflexivity|simpl; now rewrite Pk]).
    destruct (merge_entries_joins d IHd cs tcs Ucs Scs Pv Ut St) as (r & Er & Ur & Sr & Jr).
    exists (Group r). split; [now rewrite E, Er|]. split; [simpl; now rewrite Ur, Sr|].
    intros [|k p].
    + destruct Htgt as [->|[-> ->]]; split; reflexivity.
    + replace (node_below (k :: p) tgt) with (node_below p (Obj.get k tcs))
        by (destruct Htgt as [->|[-> ->]]; reflexivity).
      apply Jr.
Qed.

(** [mergeComponentData] on two trees of one depth. *)
Lemma merge_shaped d target source :
  shaped (S d) (Group target) = true -> shaped (S d) (Group source) = true ->
  plain_names (Group source) = true ->
  exists r, mergeComponentData target source = Some r /\
            shaped (S d) (Group r) = true /\
            (forall path, leaf_snippets path r =
                          leaf_snippets path target ++ leaf_snippets path source) /\
            (forall path, present path r = present path target || present path source).
Proof.
  intros Ht Hs Ps.
  apply shaped_group in Ht as (t' & Et & Ut & St). inversion Et; subst t'.
  apply shaped_group in Hs as (s' & Es & Us & Ss). inversion Es; subst s'.
  destruct (merge_entries_joins d (merge_value_joins d) source target Us Ss Ps Ut St)
    as (r & Er & Ur & Sr & Jr).
  exists r. split; [exact Er|]. split; [simpl; now rewrite Ur, Sr|].
  unfold leaf_snippets, present.
  split; intros [|k p]; try reflexivity; rewrite !node_at_group; apply Jr.
Qed.

(** The names of a merged tree are plain when those of both trees are. *)
Lemma merge_entries_plain cs
  (IH : Forall (fun kv => forall key tgt n,
           merge_value key tgt (snd kv) = Some n ->
           (forall t, tgt = Some t -> plain_key key t && plain_names t = true) ->
           plain_key key (snd kv) && plain_names (snd kv) = true ->
           plain_key key n && plain_names n = true) cs) :
  forall t r,
    merge_entries merge_value cs t = Some r ->
    plain_names (Group t) = true -> plain_names (Group cs) = true ->
    plain_names (Group r) = true.
Proof.
  induction IH as [|[k v] cs Hv _ IHcs]; intros t r E Pt Pcs.
  - simpl in E. now inversion E; subst.
  - cbn [merge_entries] in E. cbn [snd] in Hv.
    destruct (merge_value k (Obj.get k t) v) as [n|] eqn:En; [|discriminate].
    cbn [plain_names forallb fst snd] in Pcs.
    apply andb_true_iff in Pcs as [Pv Pcs].
    apply (IHcs (Obj.set k n t) r E); [|exact Pcs].
    cbn [plain_names] in *.
    apply (forallb_set_keyed (fun key c => plain_key key c && plain_names c));
      [exact Pt|].
    apply (Hv k (Obj.get k t) n En); [|exact Pv].
    intros c Hc.
    exact (forallb_get_keyed (fun key c => plain_key key c && plain_names c)
             k t c Pt Hc).
Qed.

Lemma merge_value_plain v : forall key tgt n,
  merge_value key tgt v = Some n ->
  (forall t, tgt = Some t -> plain_key key t && plain_names t = true) ->
  plain_key key v && plain_names v = true ->
  plain_key key n && plain_names n = true.
Proof.
  induction v as [nm ss|cs IH] using Node_induction; intros key tgt n E Ht Pv.
  - destruct tgt as [[tnm tss|tcs]|]; simpl in E.
    + inversion E; subst. exact (Ht _ eq_refl).
    + discriminate.
    + destruct (Js.inherited key); [discriminate|]. now inversion E; subst.
  - apply andb_true_iff in Pv as [Pk Pv].
    destruct tgt as [[tnm tss|tcs]|]; cbn [merge_value] in E.
    + destruct cs; [|discriminate]. inversion E; subst. exact (Ht _ eq_refl).
    + destruct (merge_entries merge_value cs tcs) as [r|] eqn:Er; [|discriminate].
      inversion E; subst. apply andb_true_iff. split; [exact Pk|].
      specialize (Ht _ eq_refl). apply andb_true_iff in Ht as [_ Pt].
      exact (merge_entries_plain cs IH tcs r Er Pt Pv).
    + destruct (String.eqb key "__proto__"); [discriminate|].
      destruct (merge_entries merge_value cs nil) as [r|] eqn:Er; [|discriminate].
      inversion E; subst. apply andb_true_iff. split; [exact Pk|].
      exact (merge_entries_plain cs IH nil r Er eq_refl Pv).
Qed.

Lemma merge_plain target source r :
  mergeComponentData target source = Some r ->
  plain_names (Group target) = true -> plain_names (Group source) = true ->
  plain_names (Group r) = true.
Proof.
  intros E Pt Ps. apply (merge_entries_plain source) with (t := target); auto.
  apply Forall_forall. intros kv _. apply merge_value_plain.
Qed.

(** Outside the component-data shape the merge can raise: an entry of the
    source under a key where the target holds a container. *)
Lemma merge_entry_into_container_raises :
  mergeComponentData [("Split"%string, Group [])]
                     [("Split"%string, Entry "Split" [Samples.X])] = None.
Proof. reflexivity. Qed.

Lemma merge_all_shaped d partials : forall acc,
  shaped (S d) (Group acc) = true ->
  Forall (fun p => shaped (S d) (Group p) = true) partials ->
  Forall (fun p => plain_names (Group p) = true) partials ->
  exists r, merge_all acc partials = Some r /\
            shaped (S d) (Group r) = true /\
            forall path, leaf_snippets path r =
                         leaf_snippets path acc ++ flat_map (leaf_snippets path) partials.
Proof.
  induction partials as [|p ps IH]; intros acc Ha Hps Pps.
  - exists acc. repeat split; auto. intros path. simpl. now rewrite app_nil_r.
  - inversion Hps as [|? ? Hp Hps']; subst.
    inversion Pps as [|? ? Pp Pps']; subst.
    destruct (merge_shaped d acc p Ha Hp Pp) as (r1 & E1 & S1 & L1 & _).
    destruct (IH r1 S1 Hps' Pps') as (r & E & S & L).
    exists r. split; [simpl; now rewrite E1|]. split; [assumption|].
    intros path. rewrite L, L1. simpl. now rewrite app_assoc.
Qed.

End MergeFacts.

Module MergeSpec.
Import TreeShape TreeFacts Output MergeFacts ListFacts.

(** C4 (a defect of the code): [mergeComponentData] reads [target[key]],
    which also finds what every object inherits from [Object.prototype].
    For a component named [constructor] that the accumulator does not have
    yet, [targetEntry] is the inherited function, not [undefined]: the
    entry is not created and [targetEntry.snippets.concat] throws. For
    partial results whose component names are not among the inherited
    names (and whose containers are not named [__proto__]) the merge does
    what C4 says: on trees of the component-data shape (entries [S d]
    levels down; [ComponentData] is [d = 3]) it succeeds and leaves, at
    every path, the snippets the accumulator's leaf had followed by the
    snippets of the incoming leaf; the result has a node wherever the
    accumulator or the partial result has one, so missing containers and
    entries are created; and two partial results that carry [X] and [Y]
    for one leaf, merged in this order into an accumulator that has
    nothing there, leave [X; Y]. *)
Theorem mergeComponentData_concatenates :
  mergeComponentData [] (Samples.page "constructor" [Samples.X]) = None /\
  (forall d acc partial,
     shaped (S d) (Group acc) = true -> shaped (S d) (Group partial) = true ->
     plain_names (Group partial) = true ->
     exists acc',
       mergeComponentData acc partial = Some acc' /\
       shaped (S d) (Group acc') = true /\
       (forall path, leaf_snippets path acc' =
                     leaf_snippets path acc ++ leaf_snippets path partial) /\
       (forall path, present path acc' = present path acc || present path partial)) /\
  (forall d acc p1 p2 path X Y,
     shaped (S d) (Group acc) = true ->
     shaped (S d) (Group p1) = true -> shaped (S d) (Group p2) = true ->
     plain_names (Group p1) = true -> plain_names (Group p2) = true ->
     leaf_snippets path acc = [] ->
     leaf_snippets path p1 = [X] -> leaf_snippets path p2 = [Y] ->
     exists acc1 acc2,
       mergeComponentData acc p1 = Some acc1 /\
       mergeComponentData acc1 p2 = Some acc2 /\
       leaf_snippets path acc2 = [X; Y]).
Proof.
  split; [reflexivity|]. split.
  - intros d acc partial. apply merge_shaped.
  - intros d acc p1 p2 path X Y Ha H1 H2 P1 P2 La L1 L2.
    destruct (merge_shaped d acc p1 Ha H1 P1) as (acc1 & E1 & S1 & J1 & _).
    destruct (merge_shaped d acc1 p2 S1 H2 P2) as (acc2 & E2 & S2 & J2 & _).
    exists acc1, acc2. split; [assumption|]. split; [assumption|].
    now rewrite J2, J1, La, L1, L2.
Qed.

(** C5 (the same defect of the code): with a component named
    [constructor] among the partial results the merge throws in whatever
    order they are merged, so no order leaves a multiset of snippets. For
    partial results under names that no object inherits, merging them
    into the accumulator succeeds in every order and leaves at every leaf
    the same multiset of snippets (the lists are rearrangements of one
    another); and merging is associative: merging [b] then [c] into [a]
    leaves at every leaf what merging into [a] the result of merging [c]
    into [b] leaves. *)
Theorem merge_order_independent :
  (merge_all [] [Samples.page "constructor" [Samples.X];
                 Samples.page "Split" [Samples.Y]] = None /\
   merge_all [] [Samples.page "Split" [Samples.Y];
                 Samples.page "constructor" [Samples.X]] = None) /\
  (forall d acc partials partials',
     shaped (S d) (Group acc) = true ->
     Forall (fun p => shaped (S d) (Group p) = true) partials ->
     Forall (fun p => plain_names (Group p) = true) partials ->
     Permutation partials partials' ->
     exists r r',
       merge_all acc partials = Some r /\
       merge_all acc partials' = Some r' /\
       forall path, Permutation (leaf_snippets path r) (leaf_snippets path r')) /\
  (forall d a b c,
     shaped (S d) (Group a) = true -> shaped (S d) (Group b) = true ->
     shaped (S d) (Group c) = true ->
     plain_names (Group b) = true -> plain_names (Group c) = true ->
     exists ab ab_c bc a_bc,
       mergeComponentData a b = Some ab /\ mergeComponentData ab c = Some ab_c /\
       mergeComponentData b c = Some bc /\ mergeComponentData a bc = Some a_bc /\
       forall path, leaf_snippets path ab_c = leaf_snippets path a_bc).
Proof.
  split; [split; reflexivity|]. split.
  - intros d acc ps ps' Ha Hps Pps HP.
    assert (Forall (fun p => shaped (S d) (Group p) = true) ps') as Hps'
      by (eapply Permutation_Forall; eauto).
    assert (Forall (fun p => plain_names (Group p) = true) ps') as Pps'
      by (eapply Permutation_Forall; eauto).
    destruct (merge_all_shaped d ps acc Ha Hps Pps) as (r & E & _ & L).
    destruct (merge_all_shaped d ps' acc Ha Hps' Pps') as (r' & E' & _ & L').
    exists r, r'. split; [assumption|]. split; [assumption|].
    intros path. rewrite L, L'.
    apply Permutation_app_head, Permutation_flat_map_list, HP.
  - intros d a b c Ha Hb Hc Pb Pc.
    destruct (merge_shaped d a b Ha Hb Pb) as (ab & E1 & S1 & L1 & _).
    destruct (merge_shaped d ab c S1 Hc Pc) as (ab_c & E2 & _ & L2 & _).
    destruct (merge_shaped d b c Hb Hc Pc) as (bc & E3 & S3 & L3 & _).
    assert (plain_names (Group bc) = true) as Pbc
      by (apply (merge_plain b c bc); assumption).
    destruct (merge_shaped d a bc Ha S3 Pbc) as (a_bc & E4 & _ & L4 & _).
    exists ab, ab_c, bc, a_bc. repeat (split; [assumption|]).
    intros path. now rewrite L2, L1, L4, L3, app_assoc.
Qed.

Lemma mergeComponentData_concatenates_witness :
  exists acc1 acc2,
    mergeComponentData [] (Samples.page "Split" [Samples.X]) = Some acc1 /\
    mergeComponentData acc1 (Samples.page "Split" [Samples.Y]) = Some acc2 /\
    leaf_snippets (Samples.path_of "Split") acc2 = [Samples.X; Samples.Y].
Proof.
  apply (proj2 (proj2 mergeComponentData_concatenates) 3%nat []
           (Samples.page "Split" [Samples.X]) (Samples.page "Split" [Samples.Y])
           (Samples.path_of "Split") Samples.X Samples.Y); reflexivity.
Defined.

Lemma merge_order_independent_witness :
  exists r r',
    merge_all [] [Samples.page "Split" [Samples.X]; Samples.page "Split" [Samples.Y]]
      = Some r /\
    merge_all [] [Samples.page "Split" [Samples.Y]; Samples.page "Split" [Samples.X]]
      = Some r' /\
    forall path, Permutation (leaf_snippets path r) (leaf_snippets path r').
Proof.
  apply (proj1 (proj2 merge_order_independent) 3%nat []).
  - reflexivity.
  - repeat constructor.
  - repeat constructor.
  - apply perm_swap.
Defined.

End MergeSpec.

Module DedupFacts.
Import Js JsFacts TreeShape TreeFacts Output FirstOccurrence FirstOccurrenceFacts.
Local Open Scope string_scope.

Lemma same_variant_iff s t : same_variant s t = true <-> variant_of s = variant_of t.
Proof.
  unfold same_variant, variant_of.
  rewrite !andb_true_iff, String.eqb_eq, Z.eqb_eq, Bool.eqb_true_iff.
  split; [intros [[-> ->] ->]; reflexivity | intros E; inversion E; auto].
Qed.

Lemma string_of_boolean_inj b1 b2 :
  string_of_boolean b1 = string_of_boolean b2 -> b1 = b2.
Proof. destruct b1, b2; simpl; intros E; try reflexivity; discriminate. Qed.

Lemma snippet_key_shape s :
  snippet_key s =
  (SnippetType.name s ++ String "|" (string_of_number (SnippetType.version s)))
    ++ String "|" (string_of_boolean (SnippetType.supportsDarkMode s)).
Proof. unfold snippet_key. now rewrite append_assoc. Qed.

(** The key "name|version|flag" determines the three values: the flag and
    the version are printed without "|". *)
Lemma snippet_key_inj s t : snippet_key s = snippet_key t -> variant_of s = variant_of t.
Proof.
  rewrite !snippet_key_shape. intros E.
  apply split_at_last in E; [|now destruct (SnippetType.supportsDarkMode s)
                              |now destruct (SnippetType.supportsDarkMode t)].
  destruct E as [E Eb]. apply string_of_boolean_inj in Eb.
  apply split_at_last in E;
    [|apply string_of_number_free; [reflexivity | discriminate]
     |apply string_of_number_free; [reflexivity | discriminate]].
  destruct E as [En Ev]. apply string_of_number_inj in Ev.
  unfold variant_of. congruence.
Qed.

Lemma same_variant_key s t : same_variant s t = true <-> snippet_key s = snippet_key t.
Proof.
  rewrite same_variant_iff. split; [|apply snippet_key_inj].
  unfold variant_of, snippet_key. intros E. inversion E. congruence.
Qed.

Lemma seen_has_iff key seen : seen_has key seen = true <-> In key (map fst seen).
Proof.
  unfold seen_has. rewrite existsb_exists, in_map_iff. split.
  - intros (kv & H & E). apply String.eqb_eq in E. eauto.
  - intros (kv & E & H). exists kv. split; [assumption|]. now apply String.eqb_eq.
Qed.

(** The [Map] loop keeps the first snippet of every variant. *)
Lemma seen_loop_first snippets : forall earlier seen,
  (forall k, In k (map fst seen) <-> exists e, In e earlier /\ snippet_key e = k) ->
  map snd (seen_loop snippets seen) =
  (map snd seen ++ keep_first_from same_variant earlier snippets)%list.
Proof.
  induction snippets as [|s rest IH]; intros earlier seen Hseen.
  - simpl. now rewrite app_nil_r.
  - cbn [seen_loop keep_first_from].
    assert (seen_has (snippet_key s) seen = existsb (same_variant s) earlier) as ->.
    { apply eq_true_iff_eq. rewrite seen_has_iff, Hseen, existsb_exists.
      split; intros (e & He & E); exists e; (split; [assumption|]).
      - apply same_variant_key. auto.
      - symmetry. now apply same_variant_key. }
    destruct (existsb (same_variant s) earlier) eqn:Eex.
    + apply IH. intros k. rewrite Hseen. split.
      * intros (e & He & E). exists e. rewrite in_app_iff. auto.
      * intros (e & He & E). apply in_app_iff in He as [He|[<-|[]]]; [eauto|].
        apply existsb_exists in Eex as (e' & He' & Ee').
        exists e'. split; [assumption|]. rewrite <- E. symmetry.
        now apply same_variant_key.
    + rewrite (IH (earlier ++ [s])%list (seen_set (snippet_key s) s seen)).
      * unfold seen_set. rewrite map_app, <- app_assoc. reflexivity.
      * intros k. unfold seen_set. rewrite map_app, !in_app_iff, Hseen. simpl. split.
        -- intros [(e & He & E)|[<-|[]]].
           ++ exists e. rewrite in_app_iff. auto.
           ++ exists s. rewrite in_app_iff. simpl. auto.
        -- intros (e & He & E). apply in_app_iff in He as [He|[<-|[]]]; eauto.
Qed.

Lemma dedupSnippets_first snippets :
  dedupSnippets snippets = first_of_each_variant snippets.
Proof.
  unfold dedupSnippets, first_of_each_variant, keep_first.
  rewrite (seen_loop_first snippets nil nil); [reflexivity|].
  intros k. simpl. split; [tauto | intros (e & [] & _)].
Qed.

Lemma dedupSnippets_idempotent snippets :
  dedupSnippets (dedupSnippets snippets) = dedupSnippets snippets.
Proof.
  rewrite !dedupSnippets_first.
  apply (keep_first_idempotent variant_of same_variant same_variant_iff).
Qed.

Lemma deduplicate_group cs :
  deduplicate (Group cs) = Group (map (fun kv => (fst kv, deduplicate (snd kv))) cs).
Proof. reflexivity. Qed.

Lemma deduplicate_idempotent n : deduplicate (deduplicate n) = deduplicate n.
Proof.
  induction n as [nm ss|cs IH] using Node_induction.
  - simpl. now rewrite dedupSnippets_idempotent.
  - rewrite !deduplicate_group. f_equal. rewrite map_map. apply map_ext_in.
    intros [k c] Hin. rewrite Forall_forall in IH. simpl. f_equal.
    apply (IH (k, c) Hin).
Qed.

Lemma deduplicateEcommerceSnippets_map data :
  deduplicateEcommerceSnippets data =
  map (fun kv => (fst kv, deduplicate (snd kv))) data.
Proof. reflexivity. Qed.

Lemma get_deduplicate key cs :
  Obj.get key (map (fun kv => (fst kv, deduplicate (snd kv))) cs) =
  option_map deduplicate (Obj.get key cs).
Proof.
  induction cs as [|[k c] cs IH]; simpl; [reflexivity|].
  now destruct (String.eqb key k).
Qed.

Lemma node_at_deduplicate path : forall n,
  node_at path (deduplicate n) = option_map deduplicate (node_at path n).
Proof.
  induction path as [|k path IH]; intros n; [reflexivity|].
  destruct n as [nm ss|cs]; simpl; [reflexivity|].
  rewrite get_deduplicate. destruct (Obj.get k cs); simpl; [apply IH | reflexivity].
Qed.

Lemma leaf_snippets_deduplicate path data :
  leaf_snippets path (deduplicateEcommerceSnippets data) =
  dedupSnippets (leaf_snippets path data).
Proof.
  unfold leaf_snippets.
  change (Group (deduplicateEcommerceSnippets data)) with (deduplicate (Group data)).
  rewrite node_at_deduplicate.
  destruct (node_at path (Group data)) as [[nm ss|cs]|]; reflexivity.
Qed.

End DedupFacts.

Module DedupSpec.
Import TreeShape Output FirstOccurrence FirstOccurrenceFacts DedupFacts.

(** C6: within every leaf, [deduplicateEcommerceSnippets] keeps exactly
    the first snippet of every (name, version, dark-mode flag)
    combination, in order: the kept snippets have pairwise different keys,
    each is the first of the list with its key, and every key of the list
    is still there; applying the function twice gives what applying it once
    gives. *)
Theorem deduplicateEcommerceSnippets_first_and_idempotent :
  (forall data,
     deduplicateEcommerceSnippets (deduplicateEcommerceSnippets data) =
     deduplicateEcommerceSnippets data) /\
  (forall data path,
     leaf_snippets path (deduplicateEcommerceSnippets data) =
     first_of_each_variant (leaf_snippets path data)) /\
  (forall snippets,
     dedupSnippets snippets = first_of_each_variant snippets /\
     NoDup (map snippet_key (dedupSnippets snippets)) /\
     (forall s, In s snippets ->
        exists s', In s' (dedupSnippets snippets) /\ snippet_key s' = snippet_key s) /\
     (forall s, find (fun t => String.eqb (snippet_key s) (snippet_key t))
                     (dedupSnippets snippets) =
                find (fun t => String.eqb (snippet_key s) (snippet_key t)) snippets)).
Proof.
  assert (forall s t, String.eqb (snippet_key s) (snippet_key t) = true <->
                      snippet_key s = snippet_key t) as Hk
    by (intros; apply String.eqb_eq).
  split; [|split].
  - intros data. rewrite deduplicateEcommerceSnippets_map.
    rewrite (deduplicateEcommerceSnippets_map data), map_map. simpl.
    apply map_ext. intros [k c]. simpl. now rewrite deduplicate_idempotent.
  - intros data path. now rewrite leaf_snippets_deduplicate, dedupSnippets_first.
  - intros snippets. split; [apply dedupSnippets_first|].
    assert (dedupSnippets snippets =
            keep_first (fun s t => String.eqb (snippet_key s) (snippet_key t)) snippets) as E.
    { rewrite dedupSnippets_first. unfold first_of_each_variant, keep_first.
      apply keep_first_from_ext. intros s t. apply eq_true_iff_eq.
      now rewrite Hk, same_variant_key. }
    rewrite E. unfold keep_first. split; [apply (keep_NoDup snippet_key _ Hk)|]. split.
    + intros s Hs.
      destruct (keep_covers snippet_key _ Hk s snippets [] Hs) as [H|H];
        [discriminate | exact H].
    + intros s. now apply (keep_find snippet_key _ Hk).
Qed.

(** A snippet captured again under a later format pass is dropped, whatever
    its code; the first capture stays. *)
Lemma deduplicate_sample :
  deduplicateEcommerceSnippets
    (Samples.page "Split" [Samples.X; Samples.Y; Samples.X'; Samples.Y]) =
  Samples.page "Split" [Samples.X; Samples.Y].
Proof. reflexivity. Qed.

End DedupSpec.

Module JobFacts.
Import JobType Downloader Worker.
Local Open Scope Z_scope.

Lemma attempt_retryCount o job : retryCount (attempt o job) = retryCount job.
Proof. destruct o; reflexivity. Qed.

(** A report never lowers the retry count, keeps the limit, and whatever
    it puts on the queue is the reported job itself. *)
Lemma processJobResult_limit this job job' this' :
  processJobResult this job = Some (job', this') ->
  maxRetries this' = maxRetries this /\
  retryCount job <= retryCount job' /\
  (within_limit (maxRetries this) job -> within_limit (maxRetries this) job') /\
  (jobQueue this' = jobQueue this \/ jobQueue this' = (jobQueue this ++ [job'])%list).
Proof.
  unfold processJobResult, within_limit.
  destruct (status job) eqn:Es; try (intros E; inversion E; subst; repeat split; auto; lia).
  - destruct (data job) as [d|]; [|intros E; inversion E; subst; repeat split; auto; lia].
    destruct (Output.mergeComponentData _ _); [|discriminate].
    intros E; inversion E; subst. repeat split; auto; lia.
  - destruct (retryCount job <? maxRetries this) eqn:El;
      intros E; inversion E; subst; simpl.
    + apply Z.ltb_lt in El. repeat split; auto; lia.
    + repeat split; auto; lia.
Qed.

Lemma run_limit outcomes : forall this,
  Forall (within_limit (maxRetries this)) (jobQueue this) ->
  Forall (within_limit (maxRetries this)) (fst (run outcomes this)) /\
  Forall (within_limit (maxRetries this)) (jobQueue (snd (run outcomes this))).
Proof.
  induction outcomes as [|o rest IH]; intros this Hq; simpl; [auto|].
  unfold turn. destruct (jobQueue this) as [|job q] eqn:Eq; [simpl; rewrite Eq; auto|].
  destruct (processJobResult (with_queue q this) (attempt o job)) as [[job' this']|] eqn:Ep;
    [|simpl; rewrite Eq; auto].
  inversion Hq as [|? ? Hj Hq']; subst.
  apply processJobResult_limit in Ep as (Em & _ & Hl & Hqueue). simpl in Em, Hl, Hqueue.
  assert (within_limit (maxRetries this) job') as Hj'
    by (apply Hl; unfold within_limit in *; now rewrite attempt_retryCount).
  specialize (IH this'). rewrite Em in IH.
  destruct (run rest this') as [reported final]. simpl in *.
  destruct IH as [IH1 IH2].
  - destruct Hqueue as [->| ->]; [assumption|].
    apply Forall_app. split; [assumption | now constructor].
  - split; [now constructor | assumption].
Qed.

Lemma Forall_set_nth {A} (P : A -> Prop) x l : forall n,
  Forall P l -> P x -> Forall P (Pool.set_nth n x l).
Proof.
  induction l as [|y l IH]; intros [|n] Hl Hx; simpl; auto;
    inversion Hl; subst; constructor; auto.
Qed.

(** Whatever the order in which the workers take and report jobs, the
    limit holds of every job on the queue and in a worker's hands. *)
Lemma step_limit s s' :
  Pool.step s s' -> Pool.all_within_limit s ->
  Pool.all_within_limit s' /\ maxRetries (Pool.host s') = maxRetries (Pool.host s).
Proof.
  unfold Pool.all_within_limit.
  intros Hstep [Hq Hh]. destruct Hstep as [w job rest this hs Eq Ew|w job o job' this this' hs Ew Ep];
    simpl in *.
  - rewrite Eq in Hq. inversion Hq as [|? ? Hj Hq']; subst.
    split; [|reflexivity]. split; [assumption|].
    apply Forall_set_nth; [assumption|]. exact Hj.
  - apply processJobResult_limit in Ep as (Em & _ & Hl & Hqueue).
    assert (within_limit (maxRetries this) job) as Hj.
    { rewrite Forall_forall in Hh. apply (Hh (Some job)). eapply nth_error_In; eauto. }
    assert (within_limit (maxRetries this) job') as Hj'
      by (apply Hl; unfold within_limit in *; now rewrite attempt_retryCount).
    rewrite Em. split; [|reflexivity]. split.
    + destruct Hqueue as [->| ->]; [assumption|].
      apply Forall_app. split; [assumption | now constructor].
    + apply Forall_set_nth; [assumption | exact I].
Qed.

Lemma steps_limit s s' :
  Pool.steps s s' -> Pool.all_within_limit s ->
  Pool.all_within_limit s' /\ maxRetries (Pool.host s') = maxRetries (Pool.host s).
Proof.
  induction 1 as [s|s1 s2 s3 _ IH Hstep]; intros Hs; [auto|].
  destruct (IH Hs) as [H2 E2]. destruct (step_limit _ _ Hstep H2) as [H3 E3].
  split; [assumption | congruence].
Qed.

(** C3: a job reported [failed] with fewer retries than [maxRetries] gets
    its retry count raised by one, its status reset to [pending], its error
    removed, and is pushed (the same job) onto the end of the queue; with
    the retries used up the job and the host are left as they are, so the
    job is not enqueued again. A report never lowers the retry count and
    never takes it beyond [maxRetries]; over a whole run of the job loop on
    a freshly populated queue every reported and every queued job has a
    retry count between 0 and [maxRetries], and so has every job on the
    queue or held by a worker in any interleaving of any number of workers. *)
Theorem processJobResult_retries_failed_job :
  (forall this job,
     status job = failed ->
     exists job' this',
       processJobResult this job = Some (job', this') /\
       (retryCount job < maxRetries this ->
          job' = mkJob (url job) pending (retryCount job + 1) (data job) None /\
          jobQueue this' = (jobQueue this ++ [job'])%list /\
          componentData this' = componentData this /\
          maxRetries this' = maxRetries this) /\
       (~ retryCount job < maxRetries this -> job' = job /\ this' = this) /\
       retryCount job <= retryCount job' /\
       (retryCount job <= maxRetries this -> retryCount job' <= maxRetries this)) /\
  (forall o job, retryCount (attempt o job) = retryCount job) /\
  (forall urls outcomes this,
     0 <= maxRetries this ->
     Forall (within_limit (maxRetries this))
            (fst (run outcomes (_populateJobQueue urls this))) /\
     Forall (within_limit (maxRetries this))
            (jobQueue (snd (run outcomes (_populateJobQueue urls this))))) /\
  (forall workers urls this s,
     0 <= maxRetries this ->
     Pool.steps (Pool.idle workers (_populateJobQueue urls this)) s ->
     Pool.all_within_limit s /\ maxRetries (Pool.host s) = maxRetries this).
Proof.
  split; [|split; [|split]].
  - intros this job Hs. unfold processJobResult. rewrite Hs.
    destruct (retryCount job <? maxRetries this) eqn:El.
    + apply Z.ltb_lt in El. eexists _, _. split; [reflexivity|].
      simpl. repeat split; auto; lia.
    + apply Z.ltb_ge in El. exists job, this. split; [reflexivity|].
      repeat split; auto; lia.
  - apply attempt_retryCount.
  - intros urls outcomes this Hm.
    apply (run_limit outcomes (_populateJobQueue urls this)).
    simpl. apply Forall_forall. intros j Hj.
    apply in_map_iff in Hj as (u & <- & _). unfold within_limit. simpl. lia.
  - intros workers urls this s Hm Hs.
    apply (steps_limit _ _ Hs). split; simpl.
    + apply Forall_forall. intros j Hj.
      apply in_map_iff in Hj as (u & <- & _). unfold within_limit. simpl. lia.
    + apply Forall_forall. intros o Ho. apply repeat_spec in Ho. now subst.
Qed.

Lemma processJobResult_retries_failed_job_witness :
  exists job' this',
    processJobResult (mkHost 3 [] []) failed_once = Some (job', this') /\
    job' = mkJob (url failed_once) pending 1 None None /\
    jobQueue this' = [job'].
Proof.
  destruct (proj1 processJobResult_retries_failed_job (mkHost 3 [] []) failed_once eq_refl)
    as (job' & this' & E & Hlt & _).
  exists job', this'. split; [exact E|].
  destruct (Hlt ltac:(simpl; lia)) as (Hj & Hq & _). split; assumption.
Defined.

(** The scenario of five jobs of which the third fails once: all five are
    completed, the third with one retry, and the queue is drained. *)
Lemma five_jobs_one_retry :
  let page := Samples.page "Split" [Samples.X] in
  let host := _populateJobQueue ["u1"; "u2"; "u3"; "u4"; "u5"]%string (mkHost 3 [] []) in
  let outcomes := [Extracted page; Extracted page; Threw "timeout"%string;
                   Extracted page; Extracted page; Extracted page] in
  map (fun j => (url j, status j, retryCount j)) (fst (run outcomes host)) =
    [("u1", completed, 0); ("u2", completed, 0); ("u3", pending, 1);
     ("u4", completed, 0); ("u5", completed, 0); ("u3", completed, 1)]%string /\
  jobQueue (snd (run outcomes host)) = [].
Proof. split; reflexivity. Qed.

End JobFacts.

Module AuthFacts.
Import Errors Auth.
Local Open Scope Z_scope.

Section WithEnvironment.
Variable env : Environment.

(** A navigation that arrives at once ends [retryGoto] without touching
    the form, the clock or the terminal. *)
Lemma retryGoto_arrives url maxRetries c :
  goto env (gotos c) = Arrived ->
  exists c1, retryGoto env url maxRetries c = (Returned tt, c1) /\
             submits c1 = submits c /\ clockReads c1 = clockReads c /\
             reads c1 = reads c.
Proof.
  intros Hg. unfold retryGoto.
  destruct (Z.to_nat maxRetries) as [|n]; simpl.
  - exists c. auto.
  - unfold bind, page_goto. rewrite Hg. eexists. split; [reflexivity|]. auto.
Qed.

(** Within the time budget, a bad-credentials signal ends
    [resilientLogin] after one submit. *)
Lemma resilientLogin_bad_credentials fuel loginTimeout credentials c :
  now env (S (clockReads c)) - now env (clockReads c) < loginTimeout ->
  race env (submits c) credentials = w_bad_credentials ->
  resilientLogin env (S fuel) loginTimeout credentials c =
  (Returned bad_credentials,
   mkCounts (gotos c) (S (submits c)) (S (S (clockReads c))) (reads c)).
Proof.
  intros Ht Hr. unfold resilientLogin, bind, Date_now. simpl.
  unfold bind, Date_now, submit_and_race. simpl.
  apply Z.ltb_lt in Ht. rewrite Ht. simpl. rewrite Hr. reflexivity.
Qed.

(** One turn of the loop of [login] on a bad-credentials outcome without
    a terminal. *)
Lemma login_loop_bad_credentials fuel url maxRetries loginTimeout credentials c c1 c2 :
  isTTY env = false ->
  retryGoto env url maxRetries c = (Returned tt, c1) ->
  resilientLogin env (S fuel) loginTimeout credentials c1 =
    (Returned bad_credentials, c2) ->
  login_loop env (S fuel) url maxRetries loginTimeout credentials c =
    (Thrown (DownloaderError bad_credentials_message), c2).
Proof.
  intros Htty Hg Hr. cbn [login_loop]. unfold bind at 1. rewrite Hg.
  unfold bind at 1. rewrite Hr. rewrite Htty. reflexivity.
Qed.

(** [retryGoto] always comes to an end, and only navigates. *)
Lemma retryGoto_from_ends url maxRetries n : forall attempt c,
  exists r c1,
    retryGoto_from env n attempt maxRetries url c = (r, c1) /\
    r <> OutOfFuel /\
    submits c1 = submits c /\ clockReads c1 = clockReads c /\ reads c1 = reads c.
Proof.
  induction n as [|n IH]; intros attempt c; cbn [retryGoto_from].
  - exists (Returned tt), c. repeat split. discriminate.
  - unfold bind at 1, page_goto at 1.
    destruct (goto env (gotos c)) as [| |e].
    + eexists _, _. split; [reflexivity|]. repeat split. discriminate.
    + destruct (attempt =? maxRetries).
      * eexists _, _. split; [reflexivity|]. repeat split. discriminate.
      * destruct (IH (attempt + 1) (mkCounts (S (gotos c)) (submits c) (clockReads c) (reads c)))
          as (r & c1 & E & Hr & H1 & H2 & H3).
        exists r, c1. auto.
    + eexists _, _. split; [reflexivity|]. repeat split. discriminate.
Qed.

(** Against a form that always signals bad credentials, [resilientLogin]
    returns after at most one submit. *)
Lemma resilientLogin_one_submit fuel loginTimeout credentials c :
  (forall n cr, race env n cr = w_bad_credentials) ->
  exists r c1,
    resilientLogin env (S fuel) loginTimeout credentials c = (Returned r, c1) /\
    (r = bad_credentials \/ r = timeout) /\
    (submits c1 <= S (submits c))%nat /\ reads c1 = reads c.
Proof.
  intros Hr. unfold resilientLogin, bind, Date_now. cbn [resilientLogin_loop].
  unfold bind, Date_now, submit_and_race. cbn [clockReads gotos submits reads].
  destruct (_ <? loginTimeout).
  - rewrite Hr. eexists _, _. split; [reflexivity|]. simpl. auto.
  - eexists _, _. split; [reflexivity|]. simpl. auto.
Qed.

(** With a terminal and a user who keeps answering "y", the same
    outcome keeps the loop of [login] running. *)
Lemma login_loop_interactive_keeps_asking url maxRetries loginTimeout :
  isTTY env = true ->
  (forall n, goto env n = Arrived) ->
  (forall n m, now env m - now env n < loginTimeout) ->
  (forall n cr, race env n cr = w_bad_credentials) ->
  (forall n, read env n = "y"%string) ->
  forall fuel credentials c,
    fst (login_loop env fuel url maxRetries loginTimeout credentials c) = OutOfFuel.
Proof.
  intros Htty Hg Ht Hr Hy. induction fuel as [|fuel IH]; intros credentials c.
  - reflexivity.
  - destruct (retryGoto_arrives url maxRetries c (Hg _)) as (c1 & E1 & _).
    cbn [login_loop]. unfold bind at 1. rewrite E1.
    unfold bind at 1. rewrite resilientLogin_bad_credentials by auto.
    rewrite Htty. cbn [negb]. unfold bind at 1, read_line at 1. rewrite Hy.
    cbn -[login_loop]. unfold bind at 1, promptCredentials, bind, read_line, ret.
    cbn -[login_loop]. apply IH.
Qed.
End WithEnvironment.

(** C9: when a login attempt comes back with the bad-credentials outcome
    and standard input is no terminal, [login] throws the DownloaderError
    of the non-interactive case at once: the call ends in the state the
    attempt left, without a prompt and without another attempt. In an
    environment whose form always answers with the bad-credentials signal
    (the page is reached, the time budget is not used up before the first
    submit), [login] therefore ends for any amount of unrolling with that
    error after exactly one submit; and whatever the navigation and the
    clock do in such an environment, [login] ends by throwing, after at most
    one submit and without reading from the terminal. *)
Theorem login_bad_credentials_non_interactive :
  (forall env fuel url maxRetries loginTimeout credentials c c1 c2,
     isTTY env = false ->
     retryGoto env url maxRetries c = (Returned tt, c1) ->
     resilientLogin env (S fuel) loginTimeout credentials c1 =
       (Returned bad_credentials, c2) ->
     login env (S fuel) url maxRetries loginTimeout credentials c =
       (Thrown (DownloaderError bad_credentials_message), c2)) /\
  (forall env fuel url maxRetries loginTimeout credentials,
     isTTY env = false ->
     goto env 0 = Arrived ->
     now env 1 - now env 0 < loginTimeout ->
     (forall n cr, race env n cr = w_bad_credentials) ->
     exists c',
       login env (S fuel) url maxRetries loginTimeout credentials start =
         (Thrown (DownloaderError bad_credentials_message), c') /\
       submits c' = 1%nat /\ reads c' = 0%nat) /\
  (forall env fuel url maxRetries loginTimeout credentials c,
     isTTY env = false ->
     (forall n cr, race env n cr = w_bad_credentials) ->
     exists e c',
       login env (S fuel) url maxRetries loginTimeout credentials c = (Thrown e, c') /\
       (submits c' <= S (submits c))%nat /\ reads c' = reads c).
Proof.
  split; [|split].
  - intros. unfold login. eapply login_loop_bad_credentials; eauto.
  - intros env fuel url maxRetries loginTimeout credentials Htty Hg Ht Hr.
    destruct (retryGoto_arrives env url maxRetries start Hg) as (c1 & E1 & Hs & Hc & Hrd).
    simpl in Hs, Hc, Hrd.
    eexists. split.
    + unfold login. eapply login_loop_bad_credentials; [assumption | exact E1 |].
      apply resilientLogin_bad_credentials; [rewrite Hc; exact Ht | apply Hr].
    + simpl. rewrite Hs, Hrd. auto.
  - intros env fuel url maxRetries loginTimeout credentials c Htty Hr.
    unfold login. cbn [login_loop]. unfold bind at 1, retryGoto.
    destruct (retryGoto_from_ends env url maxRetries (Z.to_nat maxRetries) 1 c)
      as (r & c1 & E & Hne & Hs & _ & Hrd).
    rewrite E. destruct r as [[]|e|]; [| |congruence].
    + destruct (resilientLogin_one_submit env fuel loginTimeout credentials c1 Hr)
        as (o & c2 & E2 & Ho & Hs2 & Hrd2).
      unfold bind at 1. rewrite E2.
      destruct Ho as [-> | ->].
      * rewrite Htty. eexists _, c2. split; [reflexivity|]. split; [lia | congruence].
      * eexists _, c2. split; [reflexivity|]. split; [lia | congruence].
    + exists e, c1. split; [reflexivity|]. split; [lia | assumption].
Qed.

Lemma login_bad_credentials_non_interactive_witness :
  exists c',
    login wrong_password 1 "https://tailwindcss.com/plus/login" 3 15000
          (mkCredentials "user@example.com" "wrong") start =
      (Thrown (DownloaderError bad_credentials_message), c') /\
    submits c' = 1%nat /\ reads c' = 0%nat.
Proof.
  apply (proj1 (proj2 login_bad_credentials_non_interactive) wrong_password 0%nat
           "https://tailwindcss.com/plus/login"%string 3 15000
           (mkCredentials "user@example.com" "wrong")).
  - reflexivity.
  - reflexivity.
  - simpl. lia.
  - reflexivity.
Defined.

End AuthFacts.

Module StoreFacts.
Import Store.

(** ** Reading, allocating, writing *)

Lemma read_lt h a c : read h a = Some c -> (a < List.length h)%nat.
Proof. unfold read. intros H. apply nth_error_Some. congruence. Qed.

Lemma read_app_old h ext a : (a < List.length h)%nat -> read (h ++ ext) a = read h a.
Proof. unfold read. intros H. now apply nth_error_app1. Qed.

Lemma read_app_new h c : read (h ++ [c]) (List.length h) = Some c.
Proof. unfold read. rewrite nth_error_app2, Nat.sub_diag by lia. reflexivity. Qed.

Lemma length_write h : forall a c, List.length (write h a c) = List.length h.
Proof. induction h as [|x h IH]; intros [|a] c; simpl; auto. Qed.

Lemma read_write_same h : forall a c,
  (a < List.length h)%nat -> read (write h a c) a = Some c.
Proof.
  unfold read. induction h as [|x h IH]; intros [|a] c H; simpl in *; try lia; auto.
  apply IH. lia.
Qed.

Lemma read_write_other h : forall a b c, a <> b -> read (write h a c) b = read h b.
Proof.
  unfold read. induction h as [|x h IH]; intros [|a] [|b] c H; simpl; auto; try congruence.
Qed.

(** ** Trees in the store *)

Scheme tree_mut := Minimality for tree Sort Prop
  with trees_mut := Minimality for trees Sort Prop.
Combined Scheme tree_trees_ind from tree_mut, trees_mut.

Lemma snippets_at_frame h h' addrs ss :
  (forall x, In x addrs -> read h' x = read h x) ->
  snippets_at h addrs ss -> snippets_at h' addrs ss.
Proof.
  unfold snippets_at. intros Hf H. induction H as [|ad s addrs ss Hr H IH]; constructor.
  - rewrite Hf; [assumption | now left].
  - apply IH. intros x Hx. apply Hf. now right.
Qed.

Lemma snippets_at_lt h addrs ss :
  snippets_at h addrs ss -> forall x, In x addrs -> (x < List.length h)%nat.
Proof.
  unfold snippets_at. induction 1 as [|ad s addrs ss Hr H IH]; intros x Hx.
  - destruct Hx.
  - destruct Hx as [<-|Hx]; [eapply read_lt; eauto | auto].
Qed.

(** A tree only depends on the cells of its footprint. *)
Lemma tree_trees_frame h :
  (forall a n fp, tree h a n fp ->
     forall h', (forall x, In x fp -> read h' x = read h x) -> tree h' a n fp) /\
  (forall props cs fp, trees h props cs fp ->
     forall h', (forall x, In x fp -> read h' x = read h x) -> trees h' props cs fp).
Proof.
  apply tree_trees_ind.
  - intros a nm ss arr addrs Ha Harr Hss h' Hf.
    constructor.
    + rewrite Hf; [assumption | now left].
    + rewrite Hf; [assumption | right; now left].
    + eapply snippets_at_frame; [|exact Hss]. intros x Hx. apply Hf. right. now right.
  - intros a props cs fp Ha _ IH h' Hf. apply (tree_group h' a props cs fp).
    + rewrite Hf; [assumption | now left].
    + apply IH. intros x Hx. apply Hf. now right.
  - intros h' _. constructor.
  - intros k c n fp props cs fps _ IH1 _ IH2 h' Hf. constructor.
    + apply IH1. intros x Hx. apply Hf, in_app_iff. now left.
    + apply IH2. intros x Hx. apply Hf, in_app_iff. now right.
Qed.

Lemma tree_frame h a n fp :
  tree h a n fp ->
  forall h', (forall x, In x fp -> read h' x = read h x) -> tree h' a n fp.
Proof. apply (proj1 (tree_trees_frame h)). Qed.

Lemma trees_frame h props cs fp :
  trees h props cs fp ->
  forall h', (forall x, In x fp -> read h' x = read h x) -> trees h' props cs fp.
Proof. apply (proj2 (tree_trees_frame h)). Qed.

(** Every cell of a footprint exists. *)
Lemma tree_trees_lt h :
  (forall a n fp, tree h a n fp -> forall x, In x fp -> (x < List.length h)%nat) /\
  (forall props cs fp, trees h props cs fp ->
     forall x, In x fp -> (x < List.length h)%nat).
Proof.
  apply tree_trees_ind.
  - intros a nm ss arr addrs Ha Harr Hss x [<-|[<-|Hx]];
      [eapply read_lt; eauto | eapply read_lt; eauto | eapply snippets_at_lt; eauto].
  - intros a props cs fp Ha _ IH x [<-|Hx]; [eapply read_lt; eauto | auto].
  - intros x [].
  - intros k c n fp props cs fps _ IH1 _ IH2 x Hx.
    apply in_app_iff in Hx as [Hx|Hx]; auto.
Qed.

Lemma tree_lt h a n fp :
  tree h a n fp -> forall x, In x fp -> (x < List.length h)%nat.
Proof. apply (proj1 (tree_trees_lt h)). Qed.

Lemma trees_lt h props cs fp :
  trees h props cs fp -> forall x, In x fp -> (x < List.length h)%nat.
Proof. apply (proj2 (tree_trees_lt h)). Qed.

Lemma tree_app h ext a n fp : tree h a n fp -> tree (h ++ ext) a n fp.
Proof.
  intros H. apply (tree_frame h a n fp H).
  intros x Hx. apply read_app_old. eapply tree_lt; eauto.
Qed.

Lemma trees_app h ext props cs fp : trees h props cs fp -> trees (h ++ ext) props cs fp.
Proof.
  intros H. apply (trees_frame h props cs fp H).
  intros x Hx. apply read_app_old. eapply trees_lt; eauto.
Qed.

(** The root of a tree is an object and heads the footprint. *)
Lemma tree_root h a n fp :
  tree h a n fp -> exists props fp', read h a = Some (CObj props) /\ fp = a :: fp'.
Proof. destruct 1; eauto. Qed.

(** A container is not taken for an entry: what it holds under
    "snippets", if anything, is an object. *)
Lemma trees_no_snippets_array h props cs fp :
  trees h props cs fp -> snippets_array h props = None.
Proof.
  unfold snippets_array. induction 1 as [|k c n fp props cs fps Hc _ IH]; [reflexivity|].
  cbn [get_prop]. destruct (String.eqb "snippets" k); [|exact IH].
  apply tree_root in Hc as (p & fp' & -> & _). reflexivity.
Qed.

End StoreFacts.

Module CloneFacts.
Import Store StoreFacts.

Lemma structuredClone_S fuel h a :
  structuredClone (S fuel) h a =
  match read h a with
  | None => None
  | Some (CSnip s) => Some (alloc h (CSnip s))
  | Some (CArr elems) =>
      match thread (structuredClone fuel) h elems with
      | Some (h', elems') => Some (alloc h' (CArr elems'))
      | None => None
      end
  | Some (CObj props) =>
      match thread (clone_value (structuredClone fuel)) h props with
      | Some (h', props') => Some (alloc h' (CObj props'))
      | None => None
      end
  end.
Proof. reflexivity. Qed.

Lemma agree_lt h H x c :
  read H x = read h x -> read h x = Some c -> (x < List.length H)%nat.
Proof. intros E Hc. eapply read_lt. rewrite E. eassumption. Qed.

(** Snippet objects are copied one after the other into new cells. *)
Lemma clone_snippets fuel addrs : forall ss H,
  snippets_at H addrs ss ->
  thread (structuredClone (S fuel)) H addrs =
  Some (H ++ map CSnip ss, seq (List.length H) (List.length ss)).
Proof.
  induction addrs as [|ad addrs IH]; intros ss H Hs; inversion Hs as [|? s ? ss' Hr Hs']; subst.
  - simpl. now rewrite app_nil_r.
  - cbn [thread]. rewrite structuredClone_S, Hr. unfold alloc.
    rewrite (IH ss' (H ++ [CSnip s])).
    + rewrite <- app_assoc, length_app. simpl. rewrite Nat.add_1_r. reflexivity.
    + eapply snippets_at_frame; [|exact Hs'].
      intros x Hx. apply read_app_old. eapply snippets_at_lt; eauto.
Qed.

Lemma snippets_at_fresh ss : forall H post,
  snippets_at (H ++ map CSnip ss ++ post) (seq (List.length H) (List.length ss)) ss.
Proof.
  induction ss as [|s ss IH]; intros H post; [constructor|].
  simpl. constructor.
  - unfold read. rewrite nth_error_app2, Nat.sub_diag by lia. reflexivity.
  - specialize (IH (H ++ [CSnip s]) post).
    rewrite length_app, <- app_assoc in IH. simpl in IH.
    rewrite Nat.add_1_r in IH. exact IH.
Qed.

Lemma depth_child k n (cs : Tree) fuel :
  (depth (Group ((k, n) :: cs)) < S fuel)%nat ->
  (depth n < fuel)%nat /\ (depth (Group cs) < S fuel)%nat.
Proof. simpl. lia. Qed.

(** [structuredClone] of a tree: the store grows by new cells that hold
    the same tree, with no cell used twice. *)
Lemma clone_tree_trees h :
  (forall a n fp, tree h a n fp ->
     forall H, (forall x, In x fp -> read H x = read h x) ->
     forall fuel, (depth n < fuel)%nat ->
     exists ext r fp',
       structuredClone fuel H a = Some (H ++ ext, r) /\
       tree (H ++ ext) r n fp' /\ NoDup fp' /\
       (forall x, In x fp' -> (List.length H <= x)%nat)) /\
  (forall props cs fp, trees h props cs fp ->
     forall H, (forall x, In x fp -> read H x = read h x) ->
     forall fuel, (depth (Group cs) < S fuel)%nat ->
     exists ext props' fp',
       thread (clone_value (structuredClone fuel)) H props = Some (H ++ ext, props') /\
       trees (H ++ ext) props' cs fp' /\ NoDup fp' /\
       (forall x, In x fp' -> (List.length H <= x)%nat)).
Proof.
  apply tree_trees_ind.
  - (* an entry: name, array, snippet objects *)
    intros a nm ss arr addrs Ha Harr Hss H Hf fuel Hd.
    destruct fuel as [|[|[|fuel]]]; simpl in Hd; try lia.
    assert (read H a = Some (CObj [("name"%string, VStr nm); ("snippets"%string, VRef arr)]))
      as Ea by (rewrite Hf; [assumption | now left]).
    assert (read H arr = Some (CArr addrs)) as Earr
      by (rewrite Hf; [assumption | right; now left]).
    assert (snippets_at H addrs ss) as Hss'
      by (eapply snippets_at_frame; [|exact Hss]; intros x Hx; apply Hf; right; now right).
    set (n := List.length ss). set (L := List.length H).
    exists (map CSnip ss ++ [CArr (seq L n)]
            ++ [CObj [("name"%string, VStr nm); ("snippets"%string, VRef (L + n))]]),
           (L + n + 1)%nat, ((L + n + 1)%nat :: (L + n)%nat :: seq L n).
    assert (List.length (H ++ map CSnip ss) = (L + n)%nat) as Len1
      by (rewrite length_app, length_map; reflexivity).
    split; [|split; [|split]].
    + rewrite structuredClone_S, Ea. cbn [thread clone_value snd fst].
      rewrite structuredClone_S, Earr, (clone_snippets fuel addrs ss H Hss').
      unfold alloc. rewrite Len1. cbn [thread].
      rewrite length_app, Len1. simpl List.length.
      rewrite <- !app_assoc. reflexivity.
    + apply tree_entry with (arr := (L + n)%nat) (addrs := seq L n).
      * rewrite !app_assoc. rewrite <- Len1.
        replace (List.length (H ++ map CSnip ss) + 1)%nat
          with (List.length ((H ++ map CSnip ss) ++ [CArr (seq L n)]))
          by (rewrite length_app; simpl; lia).
        rewrite Len1. apply read_app_new.
      * rewrite app_assoc, <- Len1.
        unfold read. rewrite nth_error_app2, Nat.sub_diag by lia. reflexivity.
      * apply snippets_at_fresh.
    + constructor; [|constructor; [|apply seq_NoDup]].
      * simpl. rewrite in_seq. lia.
      * rewrite in_seq. lia.
    + intros x [<-|[<-|Hx]]; try lia. apply in_seq in Hx. lia.
  - (* a container *)
    intros a props cs fp Ha _ IH H Hf fuel Hd.
    destruct fuel as [|fuel]; [simpl in Hd; lia|].
    assert (read H a = Some (CObj props)) as Ea by (rewrite Hf; [assumption | now left]).
    destruct (IH H (fun x Hx => Hf x (or_intror Hx)) fuel Hd)
      as (ext & props' & fp' & Et & Ht & Hn & Hb).
    exists (ext ++ [CObj props']), (List.length (H ++ ext)), (List.length (H ++ ext) :: fp').
    split; [|split; [|split]].
    + rewrite structuredClone_S, Ea, Et. unfold alloc. now rewrite app_assoc.
    + apply tree_group with (props := props').
      * rewrite app_assoc. apply read_app_new.
      * rewrite app_assoc. now apply trees_app.
    + constructor; [|assumption].
      intros Hin. apply (trees_lt _ _ _ _ Ht) in Hin. lia.
    + intros x [<-|Hx]; [rewrite length_app; lia | auto].
  - (* no children *)
    intros H _ fuel _. exists nil, nil, nil. simpl. rewrite app_nil_r.
    repeat split; [constructor | constructor | intros x []].
  - (* a child and the rest *)
    intros k c n fp props cs fps Hc IH1 Hcs IH2 H Hf fuel Hd.
    apply depth_child in Hd as [Hd1 Hd2].
    destruct (IH1 H (fun x Hx => Hf x (proj2 (in_app_iff _ _ _) (or_introl Hx))) fuel Hd1)
      as (ext1 & c' & fp1 & E1 & T1 & N1 & B1).
    assert (forall x, In x fps -> read (H ++ ext1) x = read h x) as Hf2.
    { intros x Hx. rewrite read_app_old; [apply Hf, in_app_iff; now right|].
      pose proof (trees_lt _ _ _ _ Hcs x Hx) as Hlt.
      destruct (read h x) as [cell|] eqn:Ex;
        [|apply nth_error_None in Ex; lia].
      eapply agree_lt; [|exact Ex]. apply Hf, in_app_iff. now right. }
    destruct (IH2 (H ++ ext1) Hf2 fuel Hd2) as (ext2 & props' & fp2 & E2 & T2 & N2 & B2).
    exists (ext1 ++ ext2), ((k, VRef c') :: props'), (fp1 ++ fp2).
    split; [|split; [|split]].
    + cbn [thread clone_value snd fst]. rewrite E1, E2. now rewrite app_assoc.
    + rewrite app_assoc. constructor; [now apply tree_app | assumption].
    + apply NoDup_app; [assumption..|].
      intros x Hx1 Hx2. apply (tree_lt _ _ _ _ T1) in Hx1. apply B2 in Hx2. lia.
    + intros x Hx. apply in_app_iff in Hx as [Hx|Hx]; [auto|].
      apply B2 in Hx. rewrite length_app in Hx. lia.
Qed.

End CloneFacts.

Module StoreDedupFacts.
Import Store StoreFacts.

Lemma deduplicate_S fuel h obj :
  deduplicate (S fuel) h obj =
  match read h obj with
  | None => None
  | Some (CObj props) =>
      match snippets_array h props with
      | Some snippets =>
          match seen_loop h snippets nil with
          | Some seen =>
              let (h', arr) := alloc h (CArr (map snd seen)) in
              Some (write h' obj (CObj (set_prop "snippets" (VRef arr) props)))
          | None => None
          end
      | None => visit_values (deduplicate fuel) h (map snd props)
      end
  | Some _ => Some h
  end.
Proof. reflexivity. Qed.

Lemma NoDup_app_disjoint {A} (l1 l2 : list A) x :
  NoDup (l1 ++ l2) -> In x l1 -> In x l2 -> False.
Proof.
  induction l1 as [|a l1 IH]; simpl; intros Hn H1 H2; [destruct H1|].
  inversion Hn as [|? ? Ha Hn']; subst. destruct H1 as [->|H1]; [|eauto].
  apply Ha, in_app_iff. now right.
Qed.

Lemma existsb_keys {B} key (l : list (string * B)) :
  existsb (fun kv => String.eqb key (fst kv)) l = existsb (String.eqb key) (map fst l).
Proof. induction l as [|kv l IH]; simpl; [reflexivity | now rewrite IH]. Qed.

(** The loop over references follows the loop over snippets. *)
Lemma seen_loop_refines h addrs ss :
  snippets_at h addrs ss ->
  forall seen_h seen_p,
    map fst seen_h = map fst seen_p ->
    snippets_at h (map snd seen_h) (map snd seen_p) ->
    exists seen_h',
      seen_loop h addrs seen_h = Some seen_h' /\
      snippets_at h (map snd seen_h') (map snd (Output.seen_loop ss seen_p)) /\
      (forall x, In x (map snd seen_h') -> In x (map snd seen_h) \/ In x addrs) /\
      (NoDup (map snd seen_h ++ addrs) -> NoDup (map snd seen_h')).
Proof.
  unfold snippets_at.
  induction 1 as [|ad s addrs ss Hr Hs IH]; intros seen_h seen_p Hk Hv.
  - exists seen_h. simpl. rewrite app_nil_r. auto.
  - cbn [seen_loop Output.seen_loop]. rewrite Hr. unfold Output.seen_has.
    rewrite !existsb_keys, Hk.
    destruct (existsb (String.eqb (Output.snippet_key s)) (map fst seen_p)).
    + destruct (IH seen_h seen_p Hk Hv) as (r & E & Hsn & Hin & Hnd).
      exists r. split; [assumption|]. split; [assumption|]. split.
      * intros x Hx. destruct (Hin x Hx); [now left | right; now right].
      * intros Hn. apply Hnd. now apply NoDup_remove_1 in Hn.
    + destruct (IH (seen_h ++ [(Output.snippet_key s, ad)])
                   (Output.seen_set (Output.snippet_key s) s seen_p))
        as (r & E & Hsn & Hin & Hnd).
      * unfold Output.seen_set. rewrite !map_app, Hk. reflexivity.
      * unfold Output.seen_set. rewrite !map_app. apply Forall2_app; [assumption|].
        constructor; [assumption | constructor].
      * exists r. split; [assumption|]. split; [assumption|]. split.
        -- intros x Hx. destruct (Hin x Hx) as [H|H]; [|right; now right].
           rewrite map_app in H. apply in_app_iff in H as [H|[<-|[]]];
             [now left | right; now left].
        -- intros Hn. apply Hnd. rewrite map_app, <- app_assoc. exact Hn.
Qed.

(** The in-place [deduplicate] on a tree whose cells are used once: the
    object stands for the deduplicated tree afterwards, and only cells of
    the tree have been written to; everything else the call did was to
    allocate. *)
Lemma deduplicate_tree_trees h :
  (forall a n fp, tree h a n fp ->
     forall H, (forall x, In x fp -> read H x = read h x) -> NoDup fp ->
     forall fuel, (depth n < fuel)%nat ->
     exists H' fp',
       deduplicate fuel H a = Some H' /\
       tree H' a (Output.deduplicate n) fp' /\ NoDup fp' /\
       (forall x, In x fp' -> In x fp \/ (List.length H <= x)%nat) /\
       (List.length H <= List.length H')%nat /\
       (forall x, (x < List.length H)%nat -> ~ In x fp -> read H' x = read H x)) /\
  (forall props cs fp, trees h props cs fp ->
     forall H, (forall x, In x fp -> read H x = read h x) -> NoDup fp ->
     forall fuel, (depth (Group cs) < S fuel)%nat ->
     exists H' fp',
       visit_values (deduplicate fuel) H (map snd props) = Some H' /\
       trees H' props (map (fun kv => (fst kv, Output.deduplicate (snd kv))) cs) fp' /\
       NoDup fp' /\
       (forall x, In x fp' -> In x fp \/ (List.length H <= x)%nat) /\
       (List.length H <= List.length H')%nat /\
       (forall x, (x < List.length H)%nat -> ~ In x fp -> read H' x = read H x)).
Proof.
  apply tree_trees_ind.
  - (* an entry: a new array takes the place of the old one *)
    intros a nm ss arr addrs Ha Harr Hss H Hf Hn fuel Hd.
    destruct fuel as [|fuel]; [simpl in Hd; lia|].
    assert (read H a = Some (CObj [("name"%string, VStr nm); ("snippets"%string, VRef arr)]))
      as Ea by (rewrite Hf; [assumption | now left]).
    assert (read H arr = Some (CArr addrs)) as Earr
      by (rewrite Hf; [assumption | right; now left]).
    assert (snippets_at H addrs ss) as Hss'
      by (eapply snippets_at_frame; [|exact Hss]; intros x Hx; apply Hf; right; now right).
    destruct (seen_loop_refines H addrs ss Hss' nil nil eq_refl (Forall2_nil _))
      as (seen & Es & Hkept & Hin & Hnd).
    set (kept := map snd seen) in *.
    assert (a < List.length H)%nat as Hla by (eapply read_lt; eauto).
    assert (forall x, In x kept -> In x addrs) as Hsub
      by (intros x Hx; destruct (Hin x Hx) as [[]|]; assumption).
    assert (forall x, In x addrs -> (x < List.length H)%nat) as Hlt
      by (eapply snippets_at_lt; eauto).
    inversion Hn as [|? ? Ha1 Hn1]; subst. inversion Hn1 as [|? ? Ha2 Hn2]; subst.
    exists (write (H ++ [CArr kept]) a
              (CObj [("name"%string, VStr nm); ("snippets"%string, VRef (List.length H))])),
           (a :: List.length H :: kept).
    split; [|split; [|split; [|split; [|split]]]].
    + rewrite deduplicate_S, Ea. unfold snippets_array. cbn [get_prop].
      change (String.eqb "snippets" "name") with false.
      change (String.eqb "snippets" "snippets") with true. cbn iota.
      rewrite Earr, Es. reflexivity.
    + apply tree_entry with (arr := List.length H) (addrs := kept).
      * apply read_write_same. rewrite length_app. lia.
      * rewrite read_write_other by lia. apply read_app_new.
      * eapply snippets_at_frame; [|exact Hkept].
        intros x Hx. rewrite read_write_other.
        -- apply read_app_old. auto.
        -- intros ->. apply Ha1. right. auto.
    + constructor; [|constructor].
      * intros [E|Hx]; [lia|]. apply Ha1. right. auto.
      * intros Hx. apply Hsub, Hlt in Hx. lia.
      * apply Hnd. exact Hn2.
    + intros x [<-|[<-|Hx]]; [left; now left | right; lia | left; right; right; auto].
    + rewrite length_write, length_app. lia.
    + intros x Hx Hnot. rewrite read_write_other.
      * now apply read_app_old.
      * intros ->. apply Hnot. now left.
  - (* a container: its own cell is left alone *)
    intros a props cs fp Ha Hcs IH H Hf Hn fuel Hd.
    destruct fuel as [|fuel]; [simpl in Hd; lia|].
    assert (read H a = Some (CObj props)) as Ea by (rewrite Hf; [assumption | now left]).
    inversion Hn as [|? ? Ha1 Hn1]; subst.
    assert (trees H props cs fp) as HcsH.
    { apply (trees_frame h props cs fp Hcs). intros x Hx. apply Hf. now right. }
    destruct (IH H (fun x Hx => Hf x (or_intror Hx)) Hn1 fuel Hd)
      as (H' & fp' & Ev & Ht & Hn' & Hsub & Hlen & Hsame).
    assert (a < List.length H)%nat as Hla by (eapply read_lt; eauto).
    exists H', (a :: fp').
    split; [|split; [|split; [|split; [|split]]]].
    + rewrite deduplicate_S, Ea, (trees_no_snippets_array _ _ _ _ HcsH). exact Ev.
    + change (Output.deduplicate (Group cs))
        with (Group (map (fun kv => (fst kv, Output.deduplicate (snd kv))) cs)).
      apply tree_group with (props := props); [|assumption].
      rewrite Hsame; assumption.
    + constructor; [|assumption].
      intros Hx. destruct (Hsub a Hx); [contradiction | lia].
    + intros x [<-|Hx]; [left; now left|].
      destruct (Hsub x Hx); [left; now right | now right].
    + assumption.
    + intros x Hx Hnot. apply Hsame; [assumption|]. intros Hin. apply Hnot. now right.
  - (* no children *)
    intros H _ _ fuel _. exists H, nil.
    split; [reflexivity|]. split; [constructor|]. split; [constructor|].
    split; [intros x []|]. split; [lia | auto].
  - (* a child and the rest *)
    intros k c n fp props cs fps Hc IH1 Hcs IH2 H Hf Hn fuel Hd.
    apply CloneFacts.depth_child in Hd as [Hd1 Hd2].
    assert (forall x, In x fps -> (x < List.length H)%nat) as HltH.
    { intros x Hx. pose proof (trees_lt _ _ _ _ Hcs x Hx) as Hlt.
      destruct (read h x) as [cell|] eqn:Ex; [|apply nth_error_None in Ex; lia].
      eapply CloneFacts.agree_lt; [|exact Ex]. apply Hf, in_app_iff. now right. }
    destruct (tree_root _ _ _ _ Hc) as (pc & fpc & Erc & ->).
    assert (read H c = Some (CObj pc)) as EcH
      by (rewrite Hf; [assumption | now left]).
    destruct (IH1 H (fun x Hx => Hf x (proj2 (in_app_iff _ _ _) (or_introl Hx)))
                  (NoDup_app_remove_r _ _ Hn) fuel Hd1)
      as (H1 & fp1 & E1 & T1 & N1 & S1 & L1 & U1).
    assert (forall x, In x fps -> read H1 x = read h x) as Hf2.
    { intros x Hx. rewrite U1; [apply Hf, in_app_iff; now right | auto |].
      intros Hin. exact (NoDup_app_disjoint _ _ x Hn Hin Hx). }
    destruct (IH2 H1 Hf2 (NoDup_app_remove_l _ _ Hn) fuel Hd2)
      as (H2 & fp2 & E2 & T2 & N2 & S2 & L2 & U2).
    assert (forall x, In x fp1 -> ~ In x fps) as Hdis.
    { intros x Hx Hin. destruct (S1 x Hx) as [Hx1|Hx1].
      - exact (NoDup_app_disjoint _ _ x Hn Hx1 Hin).
      - apply HltH in Hin. lia. }
    exists H2, (fp1 ++ fp2).
    split; [|split; [|split; [|split; [|split]]]].
    + cbn [map snd visit_values]. rewrite EcH, E1. exact E2.
    + cbn [map fst snd]. constructor; [|assumption].
      apply (tree_frame H1 _ _ _ T1). intros x Hx.
      apply U2; [eapply tree_lt; eauto | auto].
    + apply NoDup_app; [assumption..|].
      intros x Hx1 Hx2. destruct (S2 x Hx2) as [Hin|Hge].
      * exact (Hdis x Hx1 Hin).
      * apply (tree_lt _ _ _ _ T1) in Hx1. lia.
    + intros x Hx. apply in_app_iff in Hx as [Hx|Hx].
      * destruct (S1 x Hx); [left; apply in_app_iff; now left | now right].
      * destruct (S2 x Hx); [left; apply in_app_iff; now right | right; lia].
    + lia.
    + intros x Hx Hnot. rewrite U2, U1; auto.
      * intros Hin. apply Hnot, in_app_iff. now left.
      * lia.
      * intros Hin. apply Hnot, in_app_iff. now right.
Qed.

End StoreDedupFacts.

Module EffectFacts.
Import Store StoreFacts Effect.

Lemma NoDup_app_iff {A} (l1 l2 : list A) :
  NoDup (l1 ++ l2) <-> NoDup l1 /\ NoDup l2 /\ (forall x, In x l1 -> ~ In x l2).
Proof.
  split.
  - intros H. split; [eapply NoDup_app_remove_r; eauto|].
    split; [eapply NoDup_app_remove_l; eauto|].
    intros x H1 H2. eapply StoreDedupFacts.NoDup_app_disjoint; eauto.
  - intros (H1 & H2 & H3). now apply NoDup_app.
Qed.

Lemma read_write_app h ext a c x :
  (x < List.length h)%nat -> x <> a -> read (write (h ++ ext) a c) x = read h x.
Proof.
  intros Hlt Hne. rewrite read_write_other by congruence. now apply read_app_old.
Qed.

Lemma updates_refl h fpt fps : NoDup fpt -> updates h h fpt fps fpt.
Proof. intros Hn. repeat split; auto. Qed.

(** One update after the other. *)
Lemma updates_trans h h1 h2 F fp F1 fps F2 :
  updates h h1 F fp F1 -> updates h1 h2 F1 fps F2 ->
  (forall x, In x fps -> (x < List.length h)%nat /\ ~ In x F) ->
  updates h h2 F (fp ++ fps) F2.
Proof.
  intros (N1 & B1 & L1 & U1 & S1) (N2 & B2 & L2 & U2 & S2) Hfps.
  split; [assumption|]. split; [|split; [lia|split]].
  - intros x Hx. destruct (B2 x Hx) as [Hin|[[Hin (s & Hs)]|Hge]].
    + destruct (B1 x Hin) as [H|[[H Hsn]|H]]; auto.
      right. left. split; [apply in_app_iff; now left | assumption].
    + right. left. split; [apply in_app_iff; now right|].
      destruct (Hfps x Hin) as [Hlt Hnot]. exists s. rewrite <- U1; assumption.
    + right. right. lia.
  - intros x Hlt Hnot.
    destruct (in_dec Nat.eq_dec x F1) as [Hin|Hout].
    + destruct (B1 x Hin) as [H|[[H (s & Hs)]|H]]; [contradiction| |lia].
      rewrite Hs. apply S2, S1, Hs.
    + rewrite U2; [now apply U1 | lia | assumption].
  - intros x s Hs. apply S2, S1, Hs.
Qed.

(** An update inside a part of a larger footprint is an update of the whole. *)
Lemma updates_frame h h1 fe fps fe' l1 l2 :
  updates h h1 fe fps fe' ->
  NoDup (l1 ++ fe ++ l2) ->
  (forall x, In x (l1 ++ l2) -> (x < List.length h)%nat /\ ~ In x fps) ->
  updates h h1 (l1 ++ fe ++ l2) fps (l1 ++ fe' ++ l2).
Proof.
  intros (N & B & L & U & S) Hn Hl.
  apply NoDup_app_iff in Hn as (N1 & Hn & D1).
  apply NoDup_app_iff in Hn as (Ne & N2 & D2).
  assert (forall x, In x fe' -> ~ In x (l1 ++ l2)) as Hfresh.
  { intros x Hx Hin. destruct (B x Hx) as [H|[[H _]|H]].
    - apply in_app_iff in Hin as [Hin|Hin].
      + apply (D1 x Hin). apply in_app_iff. now left.
      + now apply (D2 x H).
    - now apply (Hl x Hin).
    - apply Hl in Hin. lia. }
  split; [|split; [|split; [assumption|split; [|assumption]]]].
  - apply NoDup_app_iff. split; [assumption|]. split.
    + apply NoDup_app_iff. split; [assumption|]. split; [assumption|].
      intros x Hx Hin. apply (Hfresh x Hx). apply in_app_iff. now right.
    + intros x Hx Hin. apply in_app_iff in Hin as [Hin|Hin].
      * apply (Hfresh x Hin). apply in_app_iff. now left.
      * apply (D1 x Hx). apply in_app_iff. now right.
  - intros x Hx. rewrite !in_app_iff in Hx. rewrite !in_app_iff.
    destruct Hx as [Hx|[Hx|Hx]]; [tauto| |tauto].
    destruct (B x Hx) as [H|[H|H]]; tauto.
  - intros x Hlt Hnot. apply U; [assumption|].
    intros Hin. apply Hnot. rewrite !in_app_iff. tauto.
Qed.

(** Allocating, then writing to an object of the footprint. *)
Lemma updates_write_app h ext a p p' F fps F' :
  In a F -> read h a = Some (CObj p) -> NoDup F' ->
  (forall x, In x F' ->
     In x F \/ (In x fps /\ exists s, read h x = Some (CSnip s)) \/
     (List.length h <= x)%nat) ->
  updates h (write (h ++ ext) a (CObj p')) F fps F'.
Proof.
  intros Ha Hr Hn Hb.
  split; [assumption|]. split; [assumption|]. split; [|split].
  - rewrite length_write, length_app. lia.
  - intros x Hlt Hnot. apply read_write_app; [assumption|]. intros ->. contradiction.
  - intros x s Hs. rewrite read_write_app; [assumption | eapply read_lt; eauto |].
    intros ->. congruence.
Qed.

Lemma updates_weaken h h' F fps fps' F' :
  updates h h' F fps F' -> incl fps fps' -> updates h h' F fps' F'.
Proof.
  intros (N & B & L & U & S) Hi.
  split; [assumption|]. split; [|auto].
  intros x Hx. destruct (B x Hx) as [H|[[H Hs]|H]]; auto.
Qed.

End EffectFacts.

Module StoreMergeFacts.
Import Store StoreFacts TreeShape TreeFacts Effect EffectFacts.
Local Open Scope string_scope.
Local Open Scope list_scope.

(** ** Properties of a container and children of its tree *)

(** What a container holds under a key is what its tree has there. *)
Lemma trees_get h props cs fp key :
  trees h props cs fp ->
  match Obj.get key cs with
  | None => get_prop key props = None
  | Some n =>
      exists c props1 props2 cs1 cs2 fp1 fpc fp2,
        props = props1 ++ (key, VRef c) :: props2 /\
        cs = cs1 ++ (key, n) :: cs2 /\
        fp = fp1 ++ fpc ++ fp2 /\
        trees h props1 cs1 fp1 /\ tree h c n fpc /\ trees h props2 cs2 fp2 /\
        get_prop key props1 = None /\ Obj.get key cs1 = None
  end.
Proof.
  induction 1 as [|k c n fp props cs fps Hc Hcs IH]; [reflexivity|].
  cbn [Obj.get get_prop]. destruct (String.eqb key k) eqn:E.
  - apply String.eqb_eq in E. subst k.
    exists c, nil, props, nil, cs, nil, fp, fps.
    repeat split; auto. constructor.
  - destruct (Obj.get key cs) as [m|]; [|exact IH].
    destruct IH as (c' & p1 & p2 & c1 & c2 & f1 & fc & f2 & -> & -> & -> & T1 & Tc & T2 & G1 & G2).
    exists c', ((k, VRef c) :: p1), p2, ((k, n) :: c1), c2, (fp ++ f1), fc, f2.
    repeat split; auto.
    + now rewrite <- app_assoc.
    + now constructor.
    + cbn [get_prop]. now rewrite E.
    + cbn [Obj.get]. now rewrite E.
Qed.

Lemma trees_join h props1 cs1 fp1 : forall key c n fpc props2 cs2 fp2,
  trees h props1 cs1 fp1 -> tree h c n fpc -> trees h props2 cs2 fp2 ->
  trees h (props1 ++ (key, VRef c) :: props2) (cs1 ++ (key, n) :: cs2) (fp1 ++ fpc ++ fp2).
Proof.
  intros key c n fpc props2 cs2 fp2 H1. induction H1 as [|k c0 n0 fp0 props cs fps Hc0 Hcs IH];
    intros Hc H2.
  - simpl. now constructor.
  - simpl. rewrite <- app_assoc. constructor; auto.
Qed.

Lemma set_prop_found key v props1 : forall w props2,
  get_prop key props1 = None ->
  set_prop key v (props1 ++ (key, w) :: props2) = props1 ++ (key, v) :: props2.
Proof.
  induction props1 as [|[k x] props1 IH]; intros w props2 H; cbn [set_prop get_prop app] in *.
  - now rewrite String.eqb_refl.
  - destruct (String.eqb key k); [discriminate|]. now rewrite IH.
Qed.

Lemma get_prop_found key props1 : forall w props2,
  get_prop key props1 = None ->
  get_prop key (props1 ++ (key, w) :: props2) = Some w.
Proof.
  induction props1 as [|[k x] props1 IH]; intros w props2 H; cbn [get_prop app] in *.
  - now rewrite String.eqb_refl.
  - destruct (String.eqb key k); [discriminate|]. now apply IH.
Qed.

Lemma Obj_set_found key n' cs1 : forall n cs2,
  Obj.get key cs1 = None ->
  Obj.set key n' (cs1 ++ (key, n) :: cs2) = cs1 ++ (key, n') :: cs2.
Proof.
  induction cs1 as [|[k x] cs1 IH]; intros n cs2 H; cbn [Obj.set Obj.get app] in *.
  - now rewrite String.eqb_refl.
  - destruct (String.eqb key k); [discriminate|]. now rewrite IH.
Qed.

(** A new key goes last, in the object and in its tree. *)
Lemma trees_set_new h props cs fp key :
  trees h props cs fp -> Obj.get key cs = None ->
  forall c n fpc, tree h c n fpc ->
    trees h (set_prop key (VRef c) props) (Obj.set key n cs) (fp ++ fpc).
Proof.
  induction 1 as [|k c0 n0 fp0 props cs fps Hc0 Hcs IH]; intros Hg c n fpc Hc.
  - simpl. rewrite <- (app_nil_r fpc). constructor; [assumption | constructor].
  - cbn [Obj.get] in Hg. cbn [set_prop Obj.set].
    destruct (String.eqb key k); [discriminate|].
    rewrite <- app_assoc. constructor; auto.
Qed.

Lemma merge_entries_cons merge h target key obj rest :
  StoreMerge.merge_entries merge h target ((key, VRef obj) :: rest) =
  match read h obj, read h target with
  | Some (CObj oprops), Some (CObj tprops) =>
      match snippets_array h oprops with
      | Some snippets =>
          match get_prop key tprops with
          | None =>
              if Js.inherited key then None
              else
              match get_prop "name" oprops with
              | Some nm =>
                  let (h1, arr) := alloc h (CArr snippets) in
                  let (h2, entry) :=
                    alloc h1 (CObj [("name", nm); ("snippets", VRef arr)]) in
                  StoreMerge.merge_entries merge
                    (write h2 target (CObj (set_prop key (VRef entry) tprops)))
                    target rest
              | None => None
              end
          | Some (VRef targetEntry) =>
              match read h targetEntry with
              | Some (CObj eprops) =>
                  match snippets_array h eprops with
                  | Some old =>
                      let (h1, arr) := alloc h (CArr (old ++ snippets)) in
                      StoreMerge.merge_entries merge
                        (write h1 targetEntry
                           (CObj (set_prop "snippets" (VRef arr) eprops)))
                        target rest
                  | None => None
                  end
              | _ => None
              end
          | Some (VStr _) => None
          end
      | None =>
          match get_prop key tprops with
          | Some (VRef child) =>
              match merge h child obj with
              | Some h' => StoreMerge.merge_entries merge h' target rest
              | None => None
              end
          | own =>
              if StoreMerge.reads_prototype key own then None
              else
              let (h1, child) := alloc h (CObj nil) in
              let h2 := write h1 target (CObj (set_prop key (VRef child) tprops)) in
              match merge h2 child obj with
              | Some h' => StoreMerge.merge_entries merge h' target rest
              | None => None
              end
          end
      end
  | _, _ => None
  end.
Proof. reflexivity. Qed.

Lemma entry_snippets_array h nm arr addrs :
  read h arr = Some (CArr addrs) ->
  snippets_array h [("name", VStr nm); ("snippets", VRef arr)] = Some addrs.
Proof.
  intros E. unfold snippets_array. cbn [get_prop].
  change (String.eqb "snippets" "name") with false.
  change (String.eqb "snippets" "snippets") with true. cbn iota. now rewrite E.
Qed.

Lemma snippets_at_app h a1 s1 a2 s2 :
  snippets_at h a1 s1 -> snippets_at h a2 s2 -> snippets_at h (a1 ++ a2) (s1 ++ s2).
Proof. unfold snippets_at. apply Forall2_app. Qed.

Lemma snippets_at_read h addrs ss :
  snippets_at h addrs ss -> forall x, In x addrs -> exists s, read h x = Some (CSnip s).
Proof.
  unfold snippets_at. induction 1 as [|ad s addrs ss Hr H IH]; intros x Hx.
  - destruct Hx.
  - destruct Hx as [<-|Hx]; eauto.
Qed.

Lemma step_entry_new m H target tprops t fptc k c nm arr addrs ss :
  read H target = Some (CObj tprops) -> trees H tprops t fptc ->
  NoDup (target :: fptc) ->
  read H c = Some (CObj [("name", VStr nm); ("snippets", VRef arr)]) ->
  read H arr = Some (CArr addrs) -> snippets_at H addrs ss ->
  NoDup addrs -> (forall x, In x (target :: fptc) -> ~ In x addrs) ->
  Obj.get k t = None -> Js.inherited k = false ->
  exists H1 tprops1 fptc1,
    (forall rest, StoreMerge.merge_entries m H target ((k, VRef c) :: rest) =
                  StoreMerge.merge_entries m H1 target rest) /\
    read H1 target = Some (CObj tprops1) /\
    trees H1 tprops1 (Obj.set k (Entry nm ss) t) fptc1 /\
    updates H H1 (target :: fptc) (c :: arr :: addrs) (target :: fptc1).
Proof.
  intros Ht Hts Hn Hc Harr Hss Hna Hd Hg Hown.
  set (L := List.length H).
  set (e := CObj [("name", VStr nm); ("snippets", VRef L)]).
  set (tprops1 := set_prop k (VRef (S L)) tprops).
  set (H1 := write (H ++ [CArr addrs; e]) target (CObj tprops1)).
  assert (Hlt : (target < L)%nat) by (eapply read_lt; eauto).
  assert (Hold : forall x, (x < L)%nat -> x <> target -> read H1 x = read H x).
  { intros x Hx Hne. unfold H1. now apply read_write_app. }
  assert (HL : read H1 L = Some (CArr addrs)).
  { unfold H1. rewrite read_write_other by lia.
    change (H ++ [CArr addrs; e]) with (H ++ [CArr addrs] ++ [e]).
    rewrite app_assoc, read_app_old by (rewrite length_app; simpl; lia).
    apply read_app_new. }
  assert (HSL : read H1 (S L) = Some e).
  { unfold H1. rewrite read_write_other by lia.
    change (H ++ [CArr addrs; e]) with (H ++ [CArr addrs] ++ [e]).
    rewrite app_assoc. replace (S L) with (List.length (H ++ [CArr addrs])).
    - apply read_app_new.
    - rewrite length_app. simpl. lia. }
  assert (Hfp : forall x, In x fptc -> (x < L)%nat /\ x <> target).
  { intros x Hx. split; [eapply trees_lt; eauto|]. intros ->.
    inversion Hn; subst. contradiction. }
  assert (Hsrc : forall x, In x addrs -> (x < L)%nat /\ x <> target).
  { intros x Hx. split; [eapply snippets_at_lt; eauto|]. intros ->.
    apply (Hd target); [now left | assumption]. }
  exists H1, tprops1, (fptc ++ S L :: L :: addrs).
  split; [|split; [|split]].
  - intros rest. rewrite merge_entries_cons, Hc, Ht.
    rewrite (entry_snippets_array H nm arr addrs Harr).
    pose proof (trees_get H tprops t fptc k Hts) as G. rewrite Hg in G. rewrite G.
    rewrite Hown.
    cbn [get_prop]. change (String.eqb "name" "name") with true. cbn iota.
    unfold alloc. rewrite length_app, <- app_assoc. cbn [List.length app].
    rewrite Nat.add_1_r. reflexivity.
  - unfold H1. apply read_write_same. rewrite length_app. lia.
  - apply trees_set_new; [|assumption|].
    + apply (trees_frame H tprops t fptc Hts). intros x Hx. apply Hold; now apply Hfp.
    + constructor; [assumption | assumption |].
      * apply (snippets_at_frame H); [|assumption]. intros x Hx. apply Hold; now apply Hsrc.
  - unfold H1.
    apply updates_write_app with (p := tprops); [now left | assumption | |].
    + change (NoDup ((target :: fptc) ++ S L :: L :: addrs)).
      apply NoDup_app_iff. split; [assumption|]. split.
      * constructor; [|constructor; [|assumption]].
        -- intros [E|E]; [lia|]. apply Hsrc in E. lia.
        -- intros E. apply Hsrc in E. lia.
      * intros x Hx [E|[E|E]].
        -- destruct Hx as [<-|Hx]; [lia | apply Hfp in Hx; lia].
        -- destruct Hx as [<-|Hx]; [lia | apply Hfp in Hx; lia].
        -- now apply (Hd x).
    + intros x Hx. change (In x ((target :: fptc) ++ S L :: L :: addrs)) in Hx.
      apply in_app_iff in Hx as [Hx|[Hx|[Hx|Hx]]]; [now left | right; right; lia .. |].
      right. left. split; [right; now right | eapply snippets_at_read; eauto].
Qed.

(** ** One entry of the source *)

Lemma step_entry_concat m H target tprops t fptc k c nm arr addrs ss tnm tss :
  read H target = Some (CObj tprops) -> trees H tprops t fptc ->
  NoDup (target :: fptc) ->
  read H c = Some (CObj [("name", VStr nm); ("snippets", VRef arr)]) ->
  read H arr = Some (CArr addrs) -> snippets_at H addrs ss ->
  NoDup addrs -> (forall x, In x (target :: fptc) -> ~ In x (c :: arr :: addrs)) ->
  Obj.get k t = Some (Entry tnm tss) ->
  exists H1 fptc1,
    (forall rest, StoreMerge.merge_entries m H target ((k, VRef c) :: rest) =
                  StoreMerge.merge_entries m H1 target rest) /\
    read H1 target = Some (CObj tprops) /\
    trees H1 tprops (Obj.set k (Entry tnm (tss ++ ss)) t) fptc1 /\
    updates H H1 (target :: fptc) (c :: arr :: addrs) (target :: fptc1).
Proof.
  intros Ht Hts Hn Hc Harr Hss Hna Hd Hg.
  pose proof (trees_get H tprops t fptc k Hts) as G. rewrite Hg in G.
  destruct G as (te & p1 & p2 & c1 & c2 & f1 & fe & f2 & Ep & Ec & Ef & T1 & Te & T2 & G1 & G2).
  inversion Te as [a nm' ss' tarr taddrs Hte Htarr Htss|]; subst a nm' ss' fe.
  set (L := List.length H).
  set (e := CObj [("name", VStr tnm); ("snippets", VRef L)]).
  set (H1 := write (H ++ [CArr (taddrs ++ addrs)]) te e).
  assert (Hin : forall x, In x (f1 ++ (te :: tarr :: taddrs) ++ f2) ->
                          (x < L)%nat /\ x <> target).
  { intros x Hx. rewrite <- Ef in Hx. split; [exact (trees_lt H tprops t fptc Hts x Hx)|].
    intros ->. inversion Hn; subst. contradiction. }
  assert (Hlt : (te < L)%nat).
  { apply (Hin te). apply in_app_iff. right. now left. }
  assert (Hold : forall x, (x < L)%nat -> x <> te -> read H1 x = read H x).
  { intros x Hx Hne. unfold H1. now apply read_write_app. }
  assert (Nf : NoDup (f1 ++ (te :: tarr :: taddrs) ++ f2)).
  { rewrite <- Ef. now inversion Hn. }
  apply NoDup_app_iff in Nf as (N1 & Nf & D1).
  apply NoDup_app_iff in Nf as (Ne & N2 & D2).
  assert (Hsrc : forall x, In x addrs -> (x < L)%nat /\ ~ In x (te :: tarr :: taddrs)).
  { intros x Hx. split; [exact (snippets_at_lt H addrs ss Hss x Hx)|]. intros E.
    apply (Hd x); [|right; now right]. right. rewrite Ef.
    apply in_app_iff. right. apply in_app_iff. now left. }
  assert (U : updates H H1 (te :: tarr :: taddrs) (c :: arr :: addrs)
                (te :: L :: taddrs ++ addrs)).
  { unfold H1. apply updates_write_app with (p := [("name", VStr tnm); ("snippets", VRef tarr)]);
      [now left | assumption | |].
    - inversion Ne as [|? ? He Ne']; subst. inversion Ne' as [|? ? Ha Nt]; subst.
      constructor; [|constructor].
      + intros [E|E]; [lia|]. apply in_app_iff in E as [E|E].
        * apply He. now right.
        * apply Hsrc in E. apply (proj2 E). now left.
      + intros E. apply in_app_iff in E as [E|E].
        * apply (snippets_at_lt _ _ _ Htss) in E. lia.
        * apply Hsrc in E. lia.
      + apply NoDup_app_iff. split; [assumption|]. split; [assumption|].
        intros x Hx E. apply Hsrc in E. apply (proj2 E). right. now right.
    - intros x [<-|[<-|Hx]]; [left; now left | right; right; lia |].
      apply in_app_iff in Hx as [Hx|Hx].
      + left. right. now right.
      + right. left. split; [right; now right | exact (snippets_at_read H addrs ss Hss x Hx)]. }
  exists H1, (f1 ++ (te :: L :: taddrs ++ addrs) ++ f2).
  split; [|split; [|split]].
  - intros rest. rewrite merge_entries_cons, Hc, Ht.
    rewrite (entry_snippets_array H nm arr addrs Harr).
    rewrite Ep, (get_prop_found k p1 (VRef te) p2 G1), Hte.
    rewrite (entry_snippets_array H tnm tarr taddrs Htarr).
    reflexivity.
  - rewrite Hold; [assumption | eapply read_lt; eauto |].
    intros ->. inversion Hn as [|? ? Hnt Hn']; subst. apply Hnt.
    apply in_app_iff. right. now left.
  - rewrite Ec, (Obj_set_found k _ c1 _ c2 G2), Ep.
    apply trees_join.
    + apply (trees_frame H p1 c1 f1 T1). intros x Hx. apply Hold.
      * apply (Hin x). apply in_app_iff. now left.
      * intros ->. apply (D1 te Hx). apply in_app_iff. left. now left.
    + constructor.
      * unfold H1. apply read_write_same. rewrite length_app. lia.
      * unfold H1. rewrite read_write_other by lia. apply read_app_new.
      * apply snippets_at_app.
        -- apply (snippets_at_frame H); [|assumption]. intros x Hx. apply Hold.
           ++ exact (snippets_at_lt H taddrs tss Htss x Hx).
           ++ intros ->. inversion Ne as [|? ? Hnt Ne']; subst. apply Hnt. right. assumption.
        -- apply (snippets_at_frame H); [|assumption]. intros x Hx. apply Hold.
           ++ now apply Hsrc.
           ++ intros ->. apply Hsrc in Hx. apply (proj2 Hx). now left.
    + apply (trees_frame H p2 c2 f2 T2). intros x Hx. apply Hold.
      * apply (Hin x). apply in_app_iff. right. apply in_app_iff. now right.
      * intros ->. apply (D2 te); [now left | assumption].
  - rewrite Ef.
    change (updates H H1 ((target :: f1) ++ (te :: tarr :: taddrs) ++ f2)
              (c :: arr :: addrs) ((target :: f1) ++ (te :: L :: taddrs ++ addrs) ++ f2)).
    apply updates_frame; [assumption | |].
    + simpl. rewrite Ef in Hn. exact Hn.
    + intros x Hx. split.
      * destruct Hx as [<-|Hx]; [eapply read_lt; eauto|].
        apply (Hin x). rewrite !in_app_iff in *. tauto.
      * apply Hd. destruct Hx as [<-|Hx]; [now left|]. right. rewrite Ef.
        rewrite !in_app_iff in *. tauto.
Qed.

Lemma step_group_existing (R : Tree -> Prop) m H target tprops t fptc k c cprops fps tcs :
  read H target = Some (CObj tprops) -> trees H tprops t fptc ->
  NoDup (target :: fptc) ->
  read H c = Some (CObj cprops) -> snippets_array H cprops = None ->
  (forall x, In x (target :: fptc) -> ~ In x fps) ->
  Obj.get k t = Some (Group tcs) ->
  (forall tc fe, tree H tc (Group tcs) fe -> NoDup fe ->
     (forall x, In x fe -> In x fptc) ->
     exists H1 rc fe',
       m H tc c = Some H1 /\ R rc /\ tree H1 tc (Group rc) fe' /\
       updates H H1 fe fps fe') ->
  exists H1 rc fptc1,
    (forall rest, StoreMerge.merge_entries m H target ((k, VRef c) :: rest) =
                  StoreMerge.merge_entries m H1 target rest) /\
    R rc /\
    read H1 target = Some (CObj tprops) /\
    trees H1 tprops (Obj.set k (Group rc) t) fptc1 /\
    updates H H1 (target :: fptc) fps (target :: fptc1).
Proof.
  intros Ht Hts Hn Hc Hsn Hd Hg Hrec.
  pose proof (trees_get H tprops t fptc k Hts) as G. rewrite Hg in G.
  destruct G as (tc & p1 & p2 & c1 & c2 & f1 & fe & f2 & Ep & Ec & Ef & T1 & Te & T2 & G1 & G2).
  assert (Nf : NoDup (f1 ++ fe ++ f2)) by (rewrite <- Ef; now inversion Hn).
  pose proof Nf as Nf'.
  apply NoDup_app_iff in Nf' as (N1 & Nf' & D1).
  apply NoDup_app_iff in Nf' as (Ne & N2 & D2).
  destruct (Hrec tc fe Te Ne) as (H1 & rc & fe' & Hm & HR & Tr & U).
  { intros x Hx. rewrite Ef, !in_app_iff. tauto. }
  assert (Hin : forall x, In x fptc -> (x < List.length H)%nat /\ x <> target).
  { intros x Hx. split; [exact (trees_lt H tprops t fptc Hts x Hx)|].
    intros ->. inversion Hn; subst. contradiction. }
  assert (Hold : forall x, (x < List.length H)%nat -> ~ In x fe -> read H1 x = read H x).
  { destruct U as (_ & _ & _ & U & _). exact U. }
  exists H1, rc, (f1 ++ fe' ++ f2).
  split; [|split; [assumption|split; [|split]]].
  - intros rest. rewrite merge_entries_cons, Hc, Ht, Hsn.
    rewrite Ep, (get_prop_found k p1 (VRef tc) p2 G1), Hm. reflexivity.
  - rewrite Hold; [assumption | eapply read_lt; eauto |].
    intros E. inversion Hn as [|? ? Hnt Hn']; subst. apply Hnt.
    rewrite !in_app_iff. tauto.
  - rewrite Ec, (Obj_set_found k _ c1 _ c2 G2), Ep.
    apply trees_join; [|assumption|].
    + apply (trees_frame H p1 c1 f1 T1). intros x Hx. apply Hold.
      * apply (Hin x). rewrite Ef, !in_app_iff. tauto.
      * intros E. apply (D1 x Hx). rewrite in_app_iff. tauto.
    + apply (trees_frame H p2 c2 f2 T2). intros x Hx. apply Hold.
      * apply (Hin x). rewrite Ef, !in_app_iff. tauto.
      * intros E. now apply (D2 x E).
  - rewrite Ef.
    change (updates H H1 ((target :: f1) ++ fe ++ f2) fps ((target :: f1) ++ fe' ++ f2)).
    apply updates_frame; [assumption | |].
    + simpl. rewrite Ef in Hn. exact Hn.
    + intros x Hx. split.
      * destruct Hx as [<-|Hx]; [eapply read_lt; eauto|].
        apply (Hin x). rewrite Ef. rewrite !in_app_iff in *. tauto.
      * apply Hd. destruct Hx as [<-|Hx]; [now left|]. right. rewrite Ef.
        rewrite !in_app_iff in *. tauto.
Qed.

Lemma step_group_new (R : Tree -> Prop) m H target tprops t fptc k c cprops fps :
  read H target = Some (CObj tprops) -> trees H tprops t fptc ->
  NoDup (target :: fptc) ->
  read H c = Some (CObj cprops) -> snippets_array H cprops = None ->
  (forall x, In x fps -> (x < List.length H)%nat) ->
  (forall x, In x (target :: fptc) -> ~ In x fps) ->
  Obj.get k t = None -> String.eqb k "__proto__" = false ->
  (forall H2,
     H2 = write (H ++ [CObj nil]) target
            (CObj (set_prop k (VRef (List.length H)) tprops)) ->
     exists H3 rc fL',
       m H2 (List.length H) c = Some H3 /\ R rc /\
       tree H3 (List.length H) (Group rc) fL' /\
       updates H2 H3 [List.length H] fps fL') ->
  exists H3 rc fptc1,
    (forall rest, StoreMerge.merge_entries m H target ((k, VRef c) :: rest) =
                  StoreMerge.merge_entries m H3 target rest) /\
    R rc /\
    read H3 target = Some (CObj (set_prop k (VRef (List.length H)) tprops)) /\
    trees H3 (set_prop k (VRef (List.length H)) tprops) (Obj.set k (Group rc) t) fptc1 /\
    updates H H3 (target :: fptc) fps (target :: fptc1).
Proof.
  intros Ht Hts Hn Hc Hsn Hlt Hd Hg Hown Hrec.
  set (L := List.length H) in *.
  set (tprops1 := set_prop k (VRef L) tprops) in *.
  destruct (Hrec _ eq_refl) as (H3 & rc & fL' & Hm & HR & Tr & U).
  set (H2 := write (H ++ [CObj nil]) target (CObj tprops1)) in *.
  assert (Htl : (target < L)%nat) by (eapply read_lt; eauto).
  assert (Hin : forall x, In x fptc -> (x < L)%nat /\ x <> target).
  { intros x Hx. split; [exact (trees_lt H tprops t fptc Hts x Hx)|].
    intros ->. inversion Hn; subst. contradiction. }
  assert (HL2 : List.length H2 = S L).
  { unfold H2. rewrite length_write, length_app. simpl. lia. }
  assert (U1 : updates H H2 (target :: fptc) nil ((target :: fptc) ++ [L] ++ nil)).
  { unfold H2. apply updates_write_app with (p := tprops); [now left | assumption | |].
    - apply NoDup_app_iff. split; [assumption|]. split; [repeat constructor; intros []|].
      intros x Hx [<-|[]]. destruct Hx as [Hx|Hx]; [lia | apply Hin in Hx; lia].
    - intros x Hx. apply in_app_iff in Hx as [Hx|[<-|[]]]; [now left | right; right; lia]. }
  assert (U2 : updates H2 H3 ((target :: fptc) ++ [L] ++ nil) fps
                 ((target :: fptc) ++ fL' ++ nil)).
  { apply updates_frame; [assumption | exact (proj1 U1) |].
    intros x Hx. rewrite app_nil_r in Hx. split.
    - rewrite HL2. destruct Hx as [<-|Hx]; [lia | apply Hin in Hx; lia].
    - now apply Hd. }
  pose proof (updates_trans H H2 H3 _ _ _ _ _ U1 U2) as U3.
  rewrite app_nil_r in U3. cbn [app] in U3.
  assert (Hold : forall x, (x < S L)%nat -> x <> L -> read H3 x = read H2 x).
  { destruct U as (_ & _ & _ & U & _). intros x Hx Hne. apply U; [lia|].
    intros [E|[]]. congruence. }
  exists H3, rc, (fptc ++ fL').
  split; [|split; [assumption|split; [|split]]].
  - intros rest. rewrite merge_entries_cons, Hc, Ht, Hsn.
    pose proof (trees_get H tprops t fptc k Hts) as G. rewrite Hg in G. rewrite G.
    cbn [StoreMerge.reads_prototype]. rewrite Hown.
    unfold alloc. fold L. fold tprops1. fold H2. rewrite Hm. reflexivity.
  - rewrite Hold by lia. unfold H2. apply read_write_same. rewrite length_app. lia.
  - apply trees_set_new; [|assumption|assumption].
    apply (trees_frame H tprops t fptc Hts). intros x Hx.
    destruct (Hin x Hx) as [Hx1 Hx2].
    rewrite Hold by lia. unfold H2. now apply read_write_app.
  - apply U3. intros x Hx. split; [now apply Hlt|]. intros E. now apply (Hd x).
Qed.

(** ** The whole merge *)

Lemma mergeComponentData_S fuel h target source :
  StoreMerge.mergeComponentData (S fuel) h target source =
  match read h source with
  | Some (CObj entries) =>
      StoreMerge.merge_entries (StoreMerge.mergeComponentData fuel) h target entries
  | _ => None
  end.
Proof. reflexivity. Qed.

Lemma merge_entries_step k n cs t :
  Output.merge_entries Output.merge_value ((k, n) :: cs) t =
  match Output.merge_value k (Obj.get k t) n with
  | Some n1 => Output.merge_entries Output.merge_value cs (Obj.set k n1 t)
  | None => None
  end.
Proof. reflexivity. Qed.

Lemma agree_exists h H x :
  (x < List.length h)%nat -> read H x = read h x -> (x < List.length H)%nat.
Proof.
  unfold read. intros Hlt E. apply nth_error_Some. rewrite E. now apply nth_error_Some.
Qed.

(** The merge in the store follows the merge of the trees: on component
    data of one depth whose cells are all different, the call returns, the
    target holds the merged tree, and the store has only been updated
    within the target. *)
Lemma merge_tree_trees h0 :
  (forall src n fps, tree h0 src n fps ->
     forall scs, n = Group scs ->
     forall fuel d H target t fpt,
       (d < fuel)%nat ->
       shaped (S d) (Group t) = true -> shaped (S d) (Group scs) = true ->
       plain_names (Group scs) = true ->
       (forall x, In x fps -> read H x = read h0 x) ->
       tree H target (Group t) fpt -> NoDup fpt -> NoDup fps ->
       (forall x, In x fpt -> ~ In x fps) ->
       exists H' r fpt',
         StoreMerge.mergeComponentData fuel H target src = Some H' /\
         Output.mergeComponentData t scs = Some r /\
         shaped (S d) (Group r) = true /\
         tree H' target (Group r) fpt' /\
         updates H H' fpt fps fpt') /\
  (forall sprops scs fps, trees h0 sprops scs fps ->
     forall fuel d H target tprops t fptc,
       (d <= fuel)%nat ->
       Obj.unique_keys t = true -> forallb (fun kv => shaped d (snd kv)) t = true ->
       forallb (fun kv => shaped d (snd kv)) scs = true ->
       plain_names (Group scs) = true ->
       (forall x, In x fps -> read H x = read h0 x) ->
       read H target = Some (CObj tprops) -> trees H tprops t fptc ->
       NoDup (target :: fptc) -> NoDup fps ->
       (forall x, In x (target :: fptc) -> ~ In x fps) ->
       exists H' r tprops' fptc',
         StoreMerge.merge_entries (StoreMerge.mergeComponentData fuel) H target sprops
           = Some H' /\
         Output.merge_entries Output.merge_value scs t = Some r /\
         Obj.unique_keys r = true /\
         forallb (fun kv => shaped d (snd kv)) r = true /\
         read H' target = Some (CObj tprops') /\
         trees H' tprops' r fptc' /\
         updates H H' (target :: fptc) fps (target :: fptc')).
Proof.
  apply tree_trees_ind.
  - (* an entry is not component data *)
    intros a nm ss arr addrs _ _ _ scs E. discriminate.
  - (* a container *)
    intros src props cs fp Hsrc Hcs IH scs E fuel d H target t fpt Hd St Ss Ps Ha Tt Nt Ns Dj.
    injection E as <-.
    destruct fuel as [|fuel]; [lia|].
    inversion Tt as [|a tprops t' fptc Ht Hts]; subst a t' fpt.
    apply shaped_group in St as (t' & Et & Ut & St). injection Et as <-.
    apply shaped_group in Ss as (s' & Es & Us & Ss). injection Es as <-.
    destruct (IH fuel d H target tprops t fptc) as (H' & r & tprops' & fptc' & E1 & E2 & Ur & Sr & R' & T' & U');
      try assumption.
    + lia.
    + intros x Hx. apply Ha. now right.
    + now inversion Ns.
    + intros x Hx E. apply (Dj x Hx). now right.
    + exists H', r, (target :: fptc').
      split; [|split; [assumption|split; [|split]]].
      * rewrite mergeComponentData_S, (Ha src (or_introl eq_refl)), Hsrc. exact E1.
      * simpl. now rewrite Ur, Sr.
      * now apply (tree_group H' target tprops' r fptc').
      * apply (updates_weaken H H' _ fp); [assumption|]. intros x Hx. now right.
  - (* no entries left *)
    intros fuel d H target tprops t fptc Hd Ut St Ss Ps Ha Ht Hts Nt Ns Dj.
    exists H, t, tprops, fptc. repeat (split; [assumption || reflexivity|]).
    now apply updates_refl.
  - (* one entry, then the others *)
    intros k c n fp props cs fps Hc IH1 Hcs IH2 fuel d H target tprops t fptc
           Hd Ut St Ss Ps Ha Ht Hts Nt Ns Dj.
    cbn [forallb snd] in Ss. apply andb_true_iff in Ss as [Sn Ss].
    cbn [plain_names forallb fst snd] in Ps. apply andb_true_iff in Ps as [Pn Ps].
    apply andb_true_iff in Pn as [Pk Pn].
    change (plain_names (Group cs) = true) in Ps.
    apply NoDup_app_iff in Ns as (Nfp & Nfps & Dsrc).
    assert (Hlt : forall x, In x (fp ++ fps) -> (x < List.length H)%nat).
    { intros x Hx. apply (agree_exists h0); [|now apply Ha].
      apply in_app_iff in Hx as [Hx|Hx];
        [exact (tree_lt h0 c n fp Hc x Hx) | exact (trees_lt h0 props cs fps Hcs x Hx)]. }
    assert (Htl : (target < List.length H)%nat) by (eapply read_lt; eauto).
    assert (Ha1 : forall x, In x fp -> read H x = read h0 x).
    { intros x Hx. apply Ha, in_app_iff. now left. }
    assert (Dj1 : forall x, In x (target :: fptc) -> ~ In x fp).
    { intros x Hx E. apply (Dj x Hx), in_app_iff. now left. }
    assert (Hc' : tree H c n fp).
    { apply (tree_frame h0 c n fp Hc). exact Ha1. }
    assert (Step : exists H1 n1 tprops1 fptc1,
      (forall rest,
          StoreMerge.merge_entries (StoreMerge.mergeComponentData fuel) H target
            ((k, VRef c) :: rest) =
          StoreMerge.merge_entries (StoreMerge.mergeComponentData fuel) H1 target rest) /\
      Output.merge_value k (Obj.get k t) n = Some n1 /\ shaped d n1 = true /\
      read H1 target = Some (CObj tprops1) /\
      trees H1 tprops1 (Obj.set k n1 t) fptc1 /\
      updates H H1 (target :: fptc) fp (target :: fptc1)).
    { destruct d as [|d'].
      - destruct (shaped_entry n Sn) as (nm & ss & ->).
        inversion Hc' as [a nm' ss' arr addrs Hrc Harr Hss|]; subst a nm' ss' fp.
        assert (Na : NoDup addrs).
        { inversion Nfp as [|? ? _ N']; subst. now inversion N'. }
        destruct (Obj.get k t) as [tn|] eqn:Hg.
        + destruct (shaped_entry tn (forallb_get _ k t tn St Hg)) as (tnm & tss & ->).
          destruct (step_entry_concat (StoreMerge.mergeComponentData fuel)
                      H target tprops t fptc k c nm arr addrs ss tnm tss)
            as (H1 & fptc1 & E1 & R1 & T1 & U1); try assumption.
          exists H1, (Entry tnm (tss ++ ss)), tprops, fptc1.
          repeat (split; [assumption || reflexivity|]). assumption.
        + cbn [plain_key] in Pk. apply negb_true_iff in Pk.
          destruct (step_entry_new (StoreMerge.mergeComponentData fuel)
                      H target tprops t fptc k c nm arr addrs ss)
            as (H1 & tprops1 & fptc1 & E1 & R1 & T1 & U1); try assumption.
          { intros x Hx E. apply (Dj1 x Hx). right. now right. }
          exists H1, (Entry nm ss), tprops1, fptc1.
          split; [assumption|]. split; [cbn [Output.merge_value]; now rewrite Pk|].
          repeat (split; [assumption || reflexivity|]). assumption.
      - destruct (shaped_group d' n Sn) as (scs' & -> & Us' & Ss').
        inversion Hc' as [|a cprops cs' fpc Hrc Hcs']; subst a cs' fp.
        pose proof (trees_no_snippets_array H cprops scs' fpc Hcs') as Hsn.
        destruct (Obj.get k t) as [tn|] eqn:Hg.
        + destruct (shaped_group d' tn (forallb_get _ k t tn St Hg)) as (tcs & -> & Utc & Stc).
          destruct (step_group_existing
                      (fun rc => Output.mergeComponentData tcs scs' = Some rc /\
                                 shaped (S d') (Group rc) = true)
                      (StoreMerge.mergeComponentData fuel)
                      H target tprops t fptc k c cprops (c :: fpc) tcs)
            as (H1 & rc & fptc1 & E1 & [V1 S1] & R1 & T1 & U1); try assumption.
          { intros tc fe Te Ne Hsub.
            destruct (IH1 scs' eq_refl fuel d' H tc tcs fe)
              as (H' & r & fpt' & X1 & X2 & X3 & X4 & X5); try assumption.
            - simpl. now rewrite Utc, Stc.
            - intros x Hx. apply Dj1. right. now apply Hsub.
            - exists H', r, fpt'. auto. }
          exists H1, (Group rc), tprops, fptc1.
          split; [assumption|]. split.
          { cbn [Output.merge_value]. unfold Output.mergeComponentData in V1.
            now rewrite V1. }
          repeat (split; [assumption|]). assumption.
        + cbn [plain_key] in Pk. apply negb_true_iff in Pk.
          destruct (step_group_new
                      (fun rc => Output.mergeComponentData nil scs' = Some rc /\
                                 shaped (S d') (Group rc) = true)
                      (StoreMerge.mergeComponentData fuel)
                      H target tprops t fptc k c cprops (c :: fpc))
            as (H3 & rc & fptc1 & E1 & [V1 S1] & R1 & T1 & U1); try assumption.
          { intros x Hx. apply Hlt, in_app_iff. now left. }
          { intros H2 EH2.
            assert (Hold : forall x, (x < List.length H)%nat -> x <> target ->
                                     read H2 x = read H x).
            { intros x Hx Hne. subst H2. now apply read_write_app. }
            destruct (IH1 scs' eq_refl fuel d' H2 (List.length H) nil [List.length H])
              as (H' & r & fpt' & X1 & X2 & X3 & X4 & X5); try assumption.
            - reflexivity.
            - intros x Hx. rewrite Hold; [now apply Ha1| |].
              + apply Hlt, in_app_iff. now left.
              + intros ->. apply (Dj1 target); [now left | assumption].
            - apply (tree_group H2 (List.length H) nil nil nil); [|constructor].
              subst H2. rewrite read_write_other by lia. apply read_app_new.
            - repeat constructor. intros [].
            - intros x [<-|[]] E.
              assert (List.length H < List.length H)%nat; [|lia].
              apply Hlt, in_app_iff. now left.
            - exists H', r, fpt'. auto. }
          exists H3, (Group rc), (set_prop k (VRef (List.length H)) tprops), fptc1.
          split; [assumption|]. split.
          { cbn [Output.merge_value]. rewrite Pk.
            unfold Output.mergeComponentData in V1. now rewrite V1. }
          repeat (split; [assumption|]). assumption. }
    destruct Step as (H1 & n1 & tprops1 & fptc1 & E1 & V1 & S1 & R1 & T1 & U1).
    pose proof U1 as (N1 & B1 & L1 & Un1 & _).
    destruct (IH2 fuel d H1 target tprops1 (Obj.set k n1 t) fptc1)
      as (H' & r & tprops' & fptc' & E2 & V2 & Ur & Sr & R2 & T2 & U2); try assumption.
    + now apply unique_keys_set.
    + now apply forallb_set.
    + intros x Hx. rewrite Un1.
      * apply Ha, in_app_iff. now right.
      * apply Hlt, in_app_iff. now right.
      * intros E. apply (Dj x E), in_app_iff. now right.
    + intros x Hx E. destruct (B1 x Hx) as [B|[[B _]|B]].
      * apply (Dj x B), in_app_iff. now right.
      * now apply (Dsrc x B).
      * assert (x < List.length H)%nat; [|lia]. apply Hlt, in_app_iff. now right.
    + exists H', r, tprops', fptc'.
      split; [rewrite E1; exact E2|].
      split; [rewrite merge_entries_step, V1; exact V2|].
      repeat (split; [assumption|]).
      apply (updates_trans H H1 H' _ _ _ _ _ U1 U2).
      intros x Hx. split.
      * apply Hlt, in_app_iff. now right.
      * intros E. apply (Dj x E), in_app_iff. now right.
Qed.

(** [mergeComponentData] on component data in the store. When the
    accumulator and the partial result share no object and hold no object
    twice, the call returns, the accumulator object holds the merge of the two
    trees, the partial result is as it was, and only cells of the accumulator
    have been written. Four levels of recursion are enough. *)
Lemma mergeComponentData_in_store h target source t s fpt fps fuel :
  tree h target (Group t) fpt -> tree h source (Group s) fps ->
  isComponentData t = true -> isComponentData s = true ->
  plain_names (Group s) = true ->
  NoDup fpt -> NoDup fps -> (forall x, In x fpt -> ~ In x fps) ->
  (4 <= fuel)%nat ->
  exists h' r fpt',
    StoreMerge.mergeComponentData fuel h target source = Some h' /\
    Output.mergeComponentData t s = Some r /\
    isComponentData r = true /\
    tree h' target (Group r) fpt' /\
    tree h' source (Group s) fps /\
    updates h h' fpt fps fpt'.
Proof.
  intros Tt Ts St Ss Ps Nt Ns Dj Hf.
  destruct (proj1 (merge_tree_trees h) source (Group s) fps Ts s eq_refl
              fuel 3%nat h target t fpt)
    as (h' & r & fpt' & E1 & E2 & Sr & Tr & U); try assumption.
  - reflexivity.
  - exists h', r, fpt'. repeat (split; [assumption|]). split; [|assumption].
    apply (tree_frame h source (Group s) fps Ts).
    intros x Hx. destruct U as (_ & _ & _ & U & _). apply U.
    + exact (tree_lt h source (Group s) fps Ts x Hx).
    + intros E. now apply (Dj x E).
Qed.

End StoreMergeFacts.

Module StoreSpec.
Import Store StoreFacts CloneFacts StoreDedupFacts StoreMergeFacts.

Lemma trees_single h k c n fp :
  tree h c n fp -> trees h [(k, VRef c)] [(k, n)] fp.
Proof.
  intros H. rewrite <- (app_nil_r fp). constructor; [assumption | constructor].
Qed.

Lemma sample_partial_tree :
  tree SampleStore.heap SampleStore.partial
       (Group (Samples.page "Split" [Samples.X])) SampleStore.partial_footprint.
Proof.
  unfold SampleStore.partial, SampleStore.partial_footprint, Samples.page.
  repeat (eapply tree_group; [reflexivity | apply trees_single]).
  apply tree_entry; [reflexivity | reflexivity |].
  repeat constructor.
Qed.

Lemma sample_accumulator_tree :
  tree SampleStore.heap SampleStore.accumulator (Group []) [SampleStore.accumulator].
Proof. apply (tree_group _ _ nil nil nil); [reflexivity | constructor]. Qed.

(** On a concrete store the two readings of output.ts agree: merging two
    partial results into the accumulator object and deduplicating the
    result, then reading the trees back, gives what the functions on trees
    give. *)
Lemma store_and_tree_agree_on_sample :
  let p1 := Samples.page "Split" [Samples.X] in
  let p2 := Samples.page "Split" [Samples.Y; Samples.Y] in
  exists h1 h2 h3 result,
    StoreMerge.mergeComponentData 6 SampleStore.heap2
      SampleStore.accumulator SampleStore.partial = Some h1 /\
    StoreMerge.mergeComponentData 6 h1
      SampleStore.accumulator SampleStore.partial2 = Some h2 /\
    option_map Group (Output.merge_all [] [p1; p2]) = read_tree 6 h2 SampleStore.accumulator /\
    Store.deduplicateEcommerceSnippets 7 h2 SampleStore.accumulator = Some (h3, result) /\
    option_map (fun t => Group (Output.deduplicateEcommerceSnippets t))
               (Output.merge_all [] [p1; p2]) = read_tree 6 h3 result /\
    read_tree 6 h3 SampleStore.accumulator = read_tree 6 h2 SampleStore.accumulator /\
    read_tree 6 h3 SampleStore.partial = Some (Group p1) /\
    read_tree 6 h3 SampleStore.partial2 = Some (Group p2).
Proof.
  eexists _, _, _, _.
  split; [vm_compute; reflexivity|]. split; [vm_compute; reflexivity|].
  split; [vm_compute; reflexivity|]. split; [vm_compute; reflexivity|].
  repeat split.
Qed.

(** C10: [deduplicateEcommerceSnippets] writes to no object that existed
    before the call: every cell of the store reads as before, so the
    argument still stands for the same tree; the object it returns and
    every object below it are new (allocated by the call), and they hold
    the deduplicated tree. [mergeComponentData] is different: it returns
    nothing and writes to the object passed as its target; on the sample
    store the accumulator object reads differently after the call and
    holds the merged data. *)
Theorem deduplicateEcommerceSnippets_does_not_mutate :
  (forall (h : Heap) (data : Addr) (t : Tree) (fp : list Addr) (fuel : nat),
     tree h data (Group t) fp ->
     (depth (Group t) < fuel)%nat ->
     exists h' result fp',
       Store.deduplicateEcommerceSnippets fuel h data = Some (h', result) /\
       (forall x, (x < List.length h)%nat -> read h' x = read h x) /\
       tree h' data (Group t) fp /\
       tree h' result (Group (Output.deduplicateEcommerceSnippets t)) fp' /\
       NoDup fp' /\
       (forall x, In x fp' -> (List.length h <= x)%nat /\ ~ In x fp)) /\
  (exists h',
     StoreMerge.mergeComponentData 6 SampleStore.heap
       SampleStore.accumulator SampleStore.partial = Some h' /\
     read_tree 6 SampleStore.heap SampleStore.accumulator = Some (Group []) /\
     read_tree 6 h' SampleStore.accumulator =
       Some (Group (Samples.page "Split" [Samples.X])) /\
     read h' SampleStore.accumulator <> read SampleStore.heap SampleStore.accumulator).
Proof.
  split.
  - intros h data t fp fuel Ht Hd.
    destruct (proj1 (clone_tree_trees h) data (Group t) fp Ht h (fun x _ => eq_refl) fuel Hd)
      as (ext & r & fp1 & Ec & T1 & N1 & B1).
    destruct (proj1 (deduplicate_tree_trees (h ++ ext)) r (Group t) fp1 T1
                    (h ++ ext) (fun x _ => eq_refl) N1 fuel Hd)
      as (h2 & fp2 & Ed & T2 & N2 & S2 & L2 & U2).
    assert (forall x, (x < List.length h)%nat -> read h2 x = read h x) as Hsame.
    { intros x Hx. rewrite U2.
      - now apply read_app_old.
      - rewrite length_app. lia.
      - intros Hin. apply B1 in Hin. lia. }
    assert (forall x, In x fp2 -> (List.length h <= x)%nat) as Hnew.
    { intros x Hx. destruct (S2 x Hx) as [Hin|Hge].
      - now apply B1.
      - rewrite length_app in Hge. lia. }
    exists h2, r, fp2.
    split; [unfold Store.deduplicateEcommerceSnippets; now rewrite Ec, Ed|].
    split; [exact Hsame|]. split; [|split; [|split]].
    + apply (tree_frame h data (Group t) fp Ht).
      intros x Hx. apply Hsame. eapply tree_lt; eauto.
    + exact T2.
    + exact N2.
    + intros x Hx. split; [now apply Hnew|].
      intros Hin. apply Hnew in Hx. apply (tree_lt _ _ _ _ Ht) in Hin. lia.
  - eexists. split; [vm_compute; reflexivity|].
    split; [reflexivity|]. split; [reflexivity|]. discriminate.
Qed.

Lemma deduplicateEcommerceSnippets_does_not_mutate_witness :
  exists h' result fp',
    Store.deduplicateEcommerceSnippets 7 SampleStore.heap SampleStore.partial
      = Some (h', result) /\
    (forall x, (x < List.length SampleStore.heap)%nat ->
               read h' x = read SampleStore.heap x) /\
    tree h' SampleStore.partial (Group (Samples.page "Split" [Samples.X]))
         SampleStore.partial_footprint /\
    tree h' result
         (Group (Output.deduplicateEcommerceSnippets (Samples.page "Split" [Samples.X])))
         fp' /\
    NoDup fp' /\
    (forall x, In x fp' ->
       (List.length SampleStore.heap <= x)%nat /\ ~ In x SampleStore.partial_footprint).
Proof.
  apply (proj1 deduplicateEcommerceSnippets_does_not_mutate
           SampleStore.heap SampleStore.partial (Samples.page "Split" [Samples.X])
           SampleStore.partial_footprint 7%nat).
  - exact sample_partial_tree.
  - simpl. lia.
Defined.

End StoreSpec.

Module FullGrayFacts.
Import Reflecting ReflectingFacts FormatManager FormatTrace FormatSequence FormatChange.
Import ListFacts ChainFacts FormatManagerFacts GrayFacts.

Lemma last_error_app {A} (l1 l2 : list A) :
  l2 <> [] -> last_error (l1 ++ l2) = last_error l2.
Proof.
  intros H. unfold last_error. rewrite rev_app_distr.
  destruct (rev l2) as [|x r] eqn:E; [|reflexivity].
  exfalso. apply H. apply (f_equal (@rev A)) in E. now rewrite rev_involutive in E.
Qed.

Lemma yielded_nonempty {T} (ra : ReflectingArray T) : _items ra <> [] -> yielded ra <> [].
Proof.
  intros H E. apply H. destruct ra as [l []]; unfold yielded in E; simpl in *.
  - exact E.
  - apply (f_equal (@rev T)) in E. now rewrite rev_involutive in E.
Qed.

Lemma blocks_nonempty fw v vs (ra : ReflectingArray string) :
  _items ra <> [] -> blocks fw (v :: vs) ra <> [].
Proof.
  intros H E. cbn [blocks] in E. apply app_eq_nil in E as [E _].
  apply map_eq_nil in E. now apply (yielded_nonempty ra).
Qed.

(** Where a run over the versions ends: at the last version, and at the
    mode the next traversal of the modes starts from. *)
Lemma blocks_last fw vs : forall (ra : ReflectingArray string) v m,
  last_error vs = Some v ->
  hd_error (yielded (Nat.iter (List.length vs) flipped ra)) = Some m ->
  last_error (blocks fw vs ra) = Some (cell fw v m).
Proof.
  induction vs as [|v0 vs IH]; intros ra v m Hv Hm; [discriminate|].
  destruct vs as [|v1 vs].
  - cbn [blocks]. rewrite app_nil_r, last_error_map.
    simpl in Hm. rewrite yielded_flipped in Hm. unfold last_error in *.
    simpl in Hv. inversion Hv; subst. now rewrite Hm.
  - assert (_items ra <> []) as Hne.
    { intros E. cbn [List.length] in Hm.
      assert (yielded (Nat.iter (S (S (List.length vs))) flipped ra) = []) as Y.
      { pose proof (yielded_perm (Nat.iter (S (S (List.length vs))) flipped ra)) as P.
        rewrite items_iter_flipped, E in P. now apply Permutation_sym, Permutation_nil in P. }
      rewrite Y in Hm. discriminate. }
    change (blocks fw (v0 :: v1 :: vs) ra)
      with (map (cell fw v0) (yielded ra) ++ blocks fw (v1 :: vs) (flipped ra)).
    rewrite last_error_app by (apply blocks_nonempty; now rewrite items_flipped).
    apply IH.
    + now rewrite last_error_cons in Hv.
    + cbn [List.length] in *. rewrite Nat.iter_succ_r in Hm. exact Hm.
Qed.

Lemma blocks_head fw v vs (ra : ReflectingArray string) m :
  hd_error (yielded ra) = Some m ->
  hd_error (blocks fw (v :: vs) ra) = Some (cell fw v m).
Proof.
  intros H. cbn [blocks]. destruct (yielded ra); inversion H; subst. reflexivity.
Qed.

Lemma blocks_one_step fw vs : forall ra,
  NoDup vs -> NoDup (_items ra) -> chain one_step (blocks fw vs ra).
Proof.
  induction vs as [|v vs IH]; intros ra Hvs Hms; [exact I|].
  cbn [blocks]. apply chain_app.
  - apply chain_map.
    apply (chain_impl (fun x y => x <> y)); [|apply NoDup_chain_neq, NoDup_yielded, Hms].
    intros x y Hxy. right. right. simpl. repeat split; congruence.
  - apply IH; [now inversion Hvs | now rewrite items_flipped].
  - intros a b Ha Hb. rewrite last_error_map in Ha.
    destruct vs as [|v' vs]; [discriminate|].
    cbn [blocks] in Hb. rewrite yielded_flipped in Hb.
    unfold last_error in Ha.
    destruct (rev (yielded ra)) as [|x r] eqn:E.
    + discriminate.
    + simpl in Ha, Hb. inversion Ha; inversion Hb; subst a b.
      right. left. simpl. split; [reflexivity|]. split; [|reflexivity].
      intros ->. inversion Hvs as [|? ? Hn _]. apply Hn. now left.
Qed.

(** From one framework to the next the version and the mode stay: the
    versions are traversed backwards from where they ended, and so are the
    modes. *)
Lemma rows_one_step fws : forall rav ram,
  NoDup fws -> NoDup (_items rav) -> NoDup (_items ram) ->
  _items rav <> [] -> _items ram <> [] ->
  chain one_step (rows fws rav ram).
Proof.
  induction fws as [|fw fws IH]; intros rav ram Hf Hv Hm Hnv Hnm; [exact I|].
  cbn [rows]. inversion Hf as [|? ? Hn Hf']; subst. apply chain_app.
  - apply blocks_one_step; auto using NoDup_yielded.
  - apply IH; rewrite ?items_flipped, ?items_iter_flipped; assumption.
  - intros a b Ha Hb.
    destruct fws as [|fw' fws]; [discriminate|].
    cbn [rows] in Hb.
    set (ram' := Nat.iter (List.length (yielded rav)) flipped ram) in *.
    destruct (yielded (flipped rav)) as [|v vs] eqn:Ev.
    { exfalso. apply (yielded_nonempty (flipped rav)); [now rewrite items_flipped | exact Ev]. }
    destruct (yielded ram') as [|m ms] eqn:Em.
    { exfalso. apply (yielded_nonempty ram'); [|exact Em].
      unfold ram'. now rewrite items_iter_flipped. }
    assert (hd_error (blocks fw' (v :: vs) ram' ++
                      rows fws (flipped (flipped rav))
                        (Nat.iter (List.length (v :: vs)) flipped ram')) =
            Some (cell fw' v m)) as Hb'.
    { cbn [blocks]. rewrite Em. reflexivity. }
    rewrite Hb' in Hb. inversion Hb; subst b.
    rewrite (blocks_last fw (yielded rav) ram v m) in Ha.
    + inversion Ha; subst a. left. simpl. split; [|split; reflexivity].
      intros ->. apply Hn. now left.
    + unfold last_error. rewrite <- yielded_flipped, Ev. reflexivity.
    + fold ram'. now rewrite Em.
Qed.

End FullGrayFacts.

Module FormatManagerExtra.
Import Reflecting ReflectingFacts FormatManager FormatTrace FormatSequence FormatChange.
Import ListFacts ChainFacts FormatManagerFacts GrayFacts FullGrayFacts.
Local Open Scope string_scope.

Lemma one_step_differing a b : one_step a b -> List.length (differing a b) = 1%nat.
Proof.
  unfold one_step, differing, mode_neqb.
  intros [(Hf & Hv & Hm)|[(Hf & Hv & Hm)|(Hf & Hv & Hm)]].
  - apply String.eqb_neq in Hf. rewrite Hf, Hv, Z.eqb_refl, Hm.
    destruct (mode b); [rewrite String.eqb_refl|]; reflexivity.
  - apply Z.eqb_neq in Hv. rewrite Hf, String.eqb_refl, Hv, Hm.
    destruct (mode b); [rewrite String.eqb_refl|]; reflexivity.
  - rewrite Hf, String.eqb_refl, Hv, Z.eqb_refl.
    destruct (mode a) as [x|], (mode b) as [y|]; try reflexivity.
    + destruct (String.eqb x y) eqn:E; [|reflexivity].
      apply String.eqb_eq in E. congruence.
    + congruence.
Qed.

(** X1: for a start format with a mode and configured lists without
    repetitions, any two neighbours of the sequence [generateFormats]
    returns differ in exactly one setting, also where the framework
    changes: there the version and the mode stay. Going from one format to
    the next therefore takes one change of a control. *)
Theorem generateFormats_one_setting_per_step (start : Format) (config : DownloadConfig)
    (m : string) :
  mode start = Some m ->
  NoDup (frameworks config) -> NoDup (versions config) -> NoDup (modes config) ->
  exists out,
    generateFormats start config = Some out /\
    forall i a b,
      nth_error out i = Some a -> nth_error out (S i) = Some b ->
      one_step a b /\ List.length (differing a b) = 1%nat.
Proof.
  intros Hm Nf Nv Nm.
  unfold generateFormats, first_mode. rewrite Hm.
  eexists. split; [reflexivity|].
  intros i a b Ha Hb.
  assert (one_step a b) as H.
  { revert i a b Ha Hb. apply chain_nth. rewrite generate_rows.
    apply rows_one_step; try discriminate.
    - apply NoDup_front; auto using string_neqb_spec.
    - apply NoDup_front; auto using Z_neqb_spec.
    - apply NoDup_front; auto using GenerateFormatsSpec.mode_differs_spec. }
  split; [exact H | now apply one_step_differing].
Qed.

Lemma generateFormats_one_setting_per_step_witness :
  exists out,
    generateFormats (mkFormat "html" 3 (Some "light")) defaultDownload = Some out /\
    forall i a b,
      nth_error out i = Some a -> nth_error out (S i) = Some b ->
      one_step a b /\ List.length (differing a b) = 1%nat.
Proof.
  apply (generateFormats_one_setting_per_step
           (mkFormat "html" 3 (Some "light")) defaultDownload "light").
  - reflexivity.
  - repeat constructor; simpl; intuition discriminate.
  - repeat constructor; simpl; intuition discriminate.
  - repeat constructor; simpl; intuition discriminate.
Defined.






End FormatManagerExtra.

Module ReflectingExtra.
Import Reflecting ReflectingFacts ReflectingLoops.

Lemma collect_items {T} (l : list T) : forall acc,
  fold_left (fun acc x => acc ++ [x]) l acc = acc ++ l.
Proof.
  induction l as [|x l IH]; intros acc; simpl.
  - now rewrite app_nil_r.
  - rewrite IH, <- app_assoc. reflexivity.
Qed.

Lemma direction_iter {T} (items : list T) n :
  Nat.iter n flipped (new items) =
  mkReflectingArray items (if Nat.even n then Forward else Backward).
Proof.
  induction n as [|n IH]; [reflexivity|].
  rewrite Nat.iter_succ, IH, Nat.even_succ, <- Nat.negb_even.
  destruct (Nat.even n); reflexivity.
Qed.

Lemma loops_eq {T} (items : list T) n :
  loops n (new items) =
  (Nat.iter n flipped (new items),
   map (fun k => if Nat.even k then items else rev items) (seq 0 n)).
Proof.
  induction n as [|n IH]; [reflexivity|].
  unfold loops in *. rewrite Nat.iter_succ, IH.
  unfold collect, for_of. cbn [fst snd]. rewrite collect_items. cbn [app].
  rewrite seq_S, map_app. cbn [map Nat.add]. f_equal. f_equal. f_equal.
  rewrite direction_iter. unfold yielded. cbn [_direction _items].
  destruct (Nat.even n); reflexivity.
Qed.

(** X3: a [ReflectingArray] alternates. Of [n] complete loops over
    [new ReflectingArray(...items)], the first, third, ... see the items in
    the order given and the second, fourth, ... see them reversed; every
    loop sees every item once, and the items themselves are never changed. *)
Theorem ReflectingArray_alternates {T} (items : list T) (n : nat) :
  snd (loops n (new items)) =
    map (fun k => if Nat.even k then items else rev items) (seq 0 n) /\
  _items (fst (loops n (new items))) = items /\
  (forall seen, In seen (snd (loops n (new items))) -> Permutation seen items).
Proof.
  rewrite loops_eq. cbn [fst snd]. split; [reflexivity|]. split.
  - now rewrite items_iter_flipped.
  - intros seen H. apply in_map_iff in H as (k & <- & _).
    destruct (Nat.even k); [reflexivity | symmetry; apply Permutation_rev].
Qed.

End ReflectingExtra.

Module JobLoopFacts.
Import JobType Downloader Worker JobBudget TreeShape.
Local Open Scope Z_scope.

Lemma remaining_pos limit j : within_limit limit j -> (1 <= remaining limit j)%nat.
Proof. unfold within_limit, remaining. lia. Qed.

Lemma budget_app limit q1 q2 :
  budget limit (q1 ++ q2) = (budget limit q1 + budget limit q2)%nat.
Proof. induction q1 as [|j q1 IH]; simpl; [reflexivity | rewrite IH; lia]. Qed.

Lemma budget_cons limit j q :
  budget limit (j :: q) = (remaining limit j + budget limit q)%nat.
Proof. reflexivity. Qed.

Lemma budget_zero limit q :
  Forall (within_limit limit) q -> budget limit q = 0%nat -> q = [].
Proof.
  destruct 1 as [|j q Hj Hq]; [reflexivity|]. simpl. intros E.
  apply remaining_pos in Hj. lia.
Qed.

Lemma budget_populated limit (urls : list string) :
  budget limit (map (fun u => mkJob u pending 0 None None) urls) =
  (List.length urls * Z.to_nat (limit + 1))%nat.
Proof.
  induction urls as [|u urls IH]; [reflexivity|].
  cbn [map budget fold_right List.length]. fold (budget limit (map (fun u => mkJob u pending 0 None None) urls)).
  rewrite IH. unfold remaining. cbn [retryCount]. rewrite Z.sub_0_r. lia.
Qed.

(** The job loop, from any queue of jobs within the limit. *)
Lemma run_ends outcomes : forall this reported final,
  run outcomes this = (reported, final) ->
  0 <= maxRetries this ->
  Forall (within_limit (maxRetries this)) (jobQueue this) ->
  isComponentData (componentData this) = true ->
  Forall well_shaped outcomes ->
  Forall plainly_named outcomes ->
  raises outcomes this = false /\
  (List.length reported <= budget (maxRetries this) (jobQueue this))%nat /\
  (List.length (filter is_completed reported) + List.length (jobQueue final)
     <= List.length (jobQueue this))%nat /\
  isComponentData (componentData final) = true /\
  Output.merge_all (componentData this) (results reported) = Some (componentData final) /\
  ((budget (maxRetries this) (jobQueue this) <= List.length outcomes)%nat ->
   jobQueue final = []) /\
  (jobQueue final = [] ->
   Forall (fun j => In (url j) (map url reported)) (jobQueue this)).
Proof.
  induction outcomes as [|o rest IH]; intros this reported final Hrun Hm Hq Hs Ho Hp.
  - simpl in Hrun. injection Hrun as <- <-. simpl.
    repeat split; auto; try lia.
    + intros Hb. apply (budget_zero (maxRetries this)); [assumption | lia].
    + intros ->. constructor.
  - cbn [run raises] in *. unfold turn in *. destruct (jobQueue this) as [|job q] eqn:Eq.
    { injection Hrun as <- <-. rewrite Eq. simpl. repeat split; auto. }
    inversion Hq as [|? ? Hjob Hq']; subst.
    inversion Ho as [|? ? Ho1 Ho']; subst.
    inversion Hp as [|? ? Hp1 Hp']; subst.
    pose proof (remaining_pos _ _ Hjob) as Hpos.
    destruct o as [d|msg].
    + (* the extraction returned *)
      simpl in Ho1, Hp1.
      cbn [attempt processJobResult status data with_queue componentData] in *.
      destruct (MergeFacts.merge_shaped 3 (componentData this) d Hs Ho1 Hp1)
        as (merged & Em & Sm & _).
      rewrite Em in *.
      destruct (run rest _) as [rep' fin'] eqn:Er. injection Hrun as <- <-.
      destruct (IH _ _ _ Er) as (R & L & C & S' & M' & B & F); try assumption.
      cbn [maxRetries jobQueue componentData with_data with_queue] in *.
      rewrite budget_cons.
      cbn [List.length filter is_completed status results flat_map data app map url].
      split; [exact R|].
      split; [lia|]. split; [simpl; lia|]. split; [assumption|].
      split; [cbn [Output.merge_all]; rewrite Em; exact M'|].
      split; [intros Hb; apply B; lia|].
      intros E. constructor; [now left|].
      apply (Forall_impl _ (fun j H => or_intror H) (F E)).
    + (* the extraction threw *)
      cbn [attempt processJobResult status data with_queue maxRetries jobQueue retryCount] in *.
      destruct (retryCount job <? maxRetries this) eqn:El.
      * apply Z.ltb_lt in El.
        destruct (run rest _) as [rep' fin'] eqn:Er. injection Hrun as <- <-.
        destruct (IH _ _ _ Er) as (R & L & C & S' & M' & B & F); try assumption.
        { cbn [jobQueue with_queue maxRetries]. apply Forall_app. split; [assumption|].
          constructor; [|constructor]. unfold within_limit in *. simpl. lia. }
        cbn [maxRetries jobQueue componentData with_data with_queue] in *.
        rewrite budget_app in L, B. rewrite length_app in C. simpl in L, B, C.
        unfold remaining in L, B. cbn [retryCount] in L, B.
        unfold remaining in Hpos.
        rewrite budget_cons.
        cbn [List.length filter is_completed status results flat_map data app map url].
        unfold remaining.
        split; [exact R|].
        split; [lia|]. split; [lia|]. split; [assumption|]. split; [exact M'|].
        split; [intros Hb; apply B; lia|].
        intros E. specialize (F E). apply Forall_app in F as [F _].
        constructor; [now left|].
        apply (Forall_impl _ (fun j H => or_intror H) F).
      * destruct (run rest _) as [rep' fin'] eqn:Er. injection Hrun as <- <-.
        destruct (IH _ _ _ Er) as (R & L & C & S' & M' & B & F); try assumption.
        cbn [maxRetries jobQueue componentData with_data with_queue] in *.
        rewrite budget_cons.
        cbn [List.length filter is_completed status results flat_map data app map url].
        split; [exact R|].
        split; [lia|]. split; [simpl; lia|]. split; [assumption|]. split; [exact M'|].
        split; [intros Hb; apply B; lia|].
        intros E. constructor; [now left|].
        apply (Forall_impl _ (fun j H => or_intror H) (F E)).
Qed.

End JobLoopFacts.

Module JobLoopSpec.
Import JobType Downloader Worker JobBudget TreeShape JobLoopFacts.
Local Open Scope Z_scope.

(** X4: the job loop of a worker ends, and nothing is lost on the way.
    From a freshly populated queue, with extractions that return component
    data under names that no object inherits when they return, no report
    raises; the loop reports at most one attempt per URL and allowed retry,
    completes at most one job per URL, and leaves in the accumulator the
    merge of the page data of the completed jobs in the order of their
    reports, which is component data again. Given that many extraction
    outcomes the queue ends empty, and every URL has been attempted. *)
Theorem job_loop_ends (urls : list string) (outcomes : list Extraction) (this : Host)
    (reported : list Job) (final : Host) :
  0 <= maxRetries this ->
  isComponentData (componentData this) = true ->
  Forall well_shaped outcomes ->
  Forall plainly_named outcomes ->
  run outcomes (_populateJobQueue urls this) = (reported, final) ->
  raises outcomes (_populateJobQueue urls this) = false /\
  (List.length reported <= List.length urls * Z.to_nat (maxRetries this + 1))%nat /\
  (List.length (filter is_completed reported) <= List.length urls)%nat /\
  isComponentData (componentData final) = true /\
  Output.merge_all (componentData this) (results reported) = Some (componentData final) /\
  ((List.length urls * Z.to_nat (maxRetries this + 1) <= List.length outcomes)%nat ->
   jobQueue final = [] /\ Forall (fun u => In u (map url reported)) urls).
Proof.
  intros Hm Hs Ho Hp Hrun.
  destruct (run_ends outcomes _ _ _ Hrun) as (R & L & C & S' & M' & B & F); try assumption.
  - cbn [_populateJobQueue with_queue jobQueue maxRetries].
    apply Forall_forall. intros j Hj. apply in_map_iff in Hj as (u & <- & _).
    unfold within_limit. simpl. lia.
  - cbn [_populateJobQueue with_queue jobQueue maxRetries componentData] in *.
    rewrite budget_populated in L, B. rewrite length_map in C.
    split; [exact R|].
    split; [exact L|]. split; [lia|]. split; [exact S'|]. split; [exact M'|].
    intros Hb. specialize (B Hb). split; [exact B|].
    specialize (F B). rewrite Forall_forall in F. apply Forall_forall. intros u Hu.
    apply (F (mkJob u pending 0 None None)). apply in_map_iff. eauto.
Qed.

Lemma job_loop_ends_witness :
  let this := mkHost 1 [] [] in
  let urls := ["https://tailwindcss.com/plus/ui-blocks/a"%string;
               "https://tailwindcss.com/plus/ui-blocks/b"%string] in
  let outcomes := [Threw "Timeout 10000ms exceeded";
                   Extracted (Samples.page "Split" [Samples.X]);
                   Extracted (Samples.page "Split" [Samples.Y]);
                   Threw "unused"] in
  let r := run outcomes (_populateJobQueue urls this) in
  raises outcomes (_populateJobQueue urls this) = false /\
  (List.length (fst r) <= 2 * Z.to_nat (1 + 1))%nat /\
  (List.length (filter is_completed (fst r)) <= 2)%nat /\
  isComponentData (componentData (snd r)) = true /\
  Output.merge_all [] (results (fst r)) = Some (componentData (snd r)) /\
  ((2 * Z.to_nat (1 + 1) <= 4)%nat ->
   jobQueue (snd r) = [] /\ Forall (fun u => In u (map url (fst r))) urls).
Proof.
  intros this urls outcomes r.
  apply (job_loop_ends urls outcomes this (fst r) (snd r)).
  - simpl. lia.
  - reflexivity.
  - repeat constructor.
  - repeat constructor.
  - reflexivity.
Defined.

End JobLoopSpec.

Module PoolRunFacts.
Import JobType Downloader Worker JobBudget Pool PoolRun JobFacts JobLoopFacts.
Local Open Scope Z_scope.

Lemma steps_in_steps n s s' : steps_in n s s' -> steps s s'.
Proof. induction 1; [constructor | econstructor; eauto]. Qed.

Lemma held_sum_set_nth limit hs : forall w old new,
  nth_error hs w = Some old ->
  (fold_right (fun o acc => held_load limit o + acc) 0 (set_nth w new hs) + held_load limit old =
   fold_right (fun o acc => held_load limit o + acc) 0 hs + held_load limit new)%nat.
Proof.
  induction hs as [|h hs IH]; intros [|w] old new H; simpl in *; try discriminate.
  - inversion H; subst. lia.
  - specialize (IH w old new H). lia.
Qed.

Lemma held_sum_idle limit workers :
  fold_right (fun o acc => held_load limit o + acc)%nat 0%nat (repeat None workers) = 0%nat.
Proof. induction workers; simpl; auto. Qed.

(** Every step of the pool leaves less to do. *)
Lemma step_load s s' :
  all_within_limit s -> step s s' -> (load s' < load s)%nat.
Proof.
  intros [Hq Hh] Hstep. destruct Hstep as [w job rest this hs Eq Hw | w job o job' this this' hs Hw Hr];
    cbn [host held] in *.
  - rewrite Eq in Hq. inversion Hq as [|? ? Hjob Hrest]; subst.
    pose proof (remaining_pos _ _ Hjob) as Hpos.
    unfold load. cbn [host held with_queue maxRetries jobQueue]. rewrite Eq, budget_cons.
    pose proof (held_sum_set_nth (maxRetries this) hs w None
                  (Some (mkJob (url job) processing (retryCount job) (data job) (error job))) Hw) as E.
    cbn [held_load] in E. unfold remaining in *. cbn [retryCount] in E. lia.
  - assert (within_limit (maxRetries this) job) as Hjob.
    { rewrite Forall_forall in Hh. apply (Hh (Some job)). eapply nth_error_In; eauto. }
    pose proof (remaining_pos _ _ Hjob) as Hpos.
    pose proof (held_sum_set_nth (maxRetries this) hs w (Some job) None Hw) as E.
    cbn [held_load] in E.
    assert (maxRetries this' = maxRetries this /\
            (2 * budget (maxRetries this) (jobQueue this') + 1 <
             2 * budget (maxRetries this) (jobQueue this) + 2 * remaining (maxRetries this) job)%nat)
      as [Em Hb].
    { unfold processJobResult in Hr. destruct o as [d|msg]; cbn [attempt status data] in Hr.
      - destruct (Output.mergeComponentData _ _); [|discriminate].
        inversion Hr; subst. cbn [with_data maxRetries jobQueue]. split; [reflexivity | lia].
      - cbn [retryCount] in Hr. destruct (retryCount job <? maxRetries this) eqn:El.
        + apply Z.ltb_lt in El. inversion Hr; subst.
          cbn [with_queue maxRetries jobQueue]. split; [reflexivity|].
          rewrite budget_app, budget_cons. unfold remaining in *. cbn [retryCount budget fold_right].
          unfold within_limit in Hjob. lia.
        + inversion Hr; subst. split; [reflexivity | lia]. }
    unfold load. cbn [host held]. rewrite Em. lia.
Qed.

Lemma steps_in_load n s s' :
  all_within_limit s -> steps_in n s s' -> (n + load s' <= load s)%nat.
Proof.
  intros Hs H. induction H as [s|n s1 s2 s3 H12 IH H23]; [lia|].
  specialize (IH Hs).
  assert (all_within_limit s2) as H2.
  { apply (steps_limit _ _ (steps_in_steps _ _ _ H12)). exact Hs. }
  pose proof (step_load _ _ H2 H23). lia.
Qed.

End PoolRunFacts.

Module PoolRunSpec.
Import JobType Downloader Worker JobBudget Pool PoolRun JobFacts JobLoopFacts PoolRunFacts.
Local Open Scope Z_scope.

(** X5: the workers of one pass cannot keep each other busy for ever.
    However many workers take jobs off the queue and report them, in
    whatever order, a pass over a freshly populated queue has at most two
    steps (taking the job, reporting it) per URL and allowed attempt. *)
Theorem pool_run_is_bounded (workers : nat) (urls : list string) (this : Host)
    (n : nat) (s : State) :
  0 <= maxRetries this ->
  steps_in n (idle workers (_populateJobQueue urls this)) s ->
  (n <= 2 * (List.length urls * Z.to_nat (maxRetries this + 1)))%nat.
Proof.
  intros Hm Hs.
  assert (all_within_limit (idle workers (_populateJobQueue urls this))) as H0.
  { split; cbn [idle host held _populateJobQueue with_queue jobQueue maxRetries].
    - apply Forall_forall. intros j Hj. apply in_map_iff in Hj as (u & <- & _).
      unfold within_limit. simpl. lia.
    - apply Forall_forall. intros o Ho. apply repeat_spec in Ho. now subst. }
  pose proof (steps_in_load _ _ _ H0 Hs) as H.
  unfold load at 2 in H.
  cbn [idle host held _populateJobQueue with_queue jobQueue maxRetries] in H.
  rewrite held_sum_idle, budget_populated in H. lia.
Qed.

Lemma pool_run_is_bounded_witness :
  (2 <= 2 * (1 * Z.to_nat (1 + 1)))%nat.
Proof.
  apply (pool_run_is_bounded 1 ["https://tailwindcss.com/plus/ui-blocks/a"%string]
           (mkHost 1 [] []) 2
           (mkState (mkHost 1 [] (Samples.page "Split" [Samples.X])) [None])).
  - simpl. lia.
  - eapply steps_in_S; [eapply steps_in_S; [apply steps_in_O|]|].
    + apply (step_take 0 (mkJob "https://tailwindcss.com/plus/ui-blocks/a" pending 0 None None)
               [] _ [None]); reflexivity.
    + cbn [with_queue set_nth maxRetries componentData url retryCount data error].
      exact (step_report 0
               (mkJob "https://tailwindcss.com/plus/ui-blocks/a" processing 0 None None)
               (Extracted (Samples.page "Split" [Samples.X]))
               (mkJob "https://tailwindcss.com/plus/ui-blocks/a" completed 0
                      (Some (Samples.page "Split" [Samples.X])) None)
               (mkHost 1 [] [])
               (mkHost 1 [] (Samples.page "Split" [Samples.X]))
               [Some (mkJob "https://tailwindcss.com/plus/ui-blocks/a" processing 0 None None)]
               eq_refl eq_refl).
Defined.

End PoolRunSpec.

Module TreeWalkFacts.
Import TreeShape TreeFacts TreeWalk.

Lemma in_set key v obj k n :
  In (k, n) (Obj.set key v obj) -> In (k, n) obj \/ (k = key /\ n = v).
Proof.
  induction obj as [|[k0 w] obj IH]; simpl.
  - intros [E|[]]. inversion E. now right.
  - destruct (String.eqb key k0) eqn:E; simpl.
    + apply String.eqb_eq in E. subst k0. intros [H|H]; [inversion H; now right | left; now right].
    + intros [H|H]; [left; now left|]. destruct (IH H) as [H'|H']; [left; now right | now right].
Qed.

Lemma length_set key v obj :
  (List.length obj <= List.length (Obj.set key v obj) <= S (List.length obj))%nat.
Proof.
  induction obj as [|[k0 w] obj IH]; simpl; [lia|].
  destruct (String.eqb key k0); simpl; lia.
Qed.

Lemma set_nonempty key v obj : Obj.set key v obj <> [].
Proof. destruct obj as [|[k0 w] obj]; simpl; [|destruct (String.eqb key k0)]; discriminate. Qed.

(** Counting the components is counting the entries. *)
Lemma countNode_entries n : Output.countNode n = List.length (all_entries n).
Proof.
  induction n as [nm ss|cs IH] using Node_induction; [reflexivity|].
  cbn [Output.countNode all_entries].
  induction cs as [|[k c] cs IHcs]; [reflexivity|].
  inversion IH as [|? ? Hc Hcs]; subst. cbn [snd] in Hc.
  cbn [fold_right flat_map snd]. rewrite length_app, <- Hc, <- (IHcs Hcs). reflexivity.
Qed.

Lemma get_in (k : string) (obj : Tree) n : Obj.get k obj = Some n -> In (k, n) obj.
Proof.
  induction obj as [|[k0 w] obj IH]; simpl; [discriminate|].
  destruct (String.eqb k k0) eqn:E.
  - apply String.eqb_eq in E. intros H. inversion H; subst. now left.
  - intros H. right. auto.
Qed.

Lemma in_get (k : string) (obj : Tree) n :
  Obj.unique_keys obj = true -> In (k, n) obj -> Obj.get k obj = Some n.
Proof.
  induction obj as [|[k0 w] obj IH]; simpl; [intros _ []|].
  intros U. apply andb_true_iff in U as [U1 U2]. apply negb_true_iff in U1.
  intros [H|H].
  - inversion H; subst. now rewrite String.eqb_refl.
  - destruct (String.eqb k k0) eqn:E; [|auto].
    apply String.eqb_eq in E. subst k0. exfalso.
    assert (existsb (fun kv => String.eqb k (fst kv)) obj = true) as X.
    { apply existsb_exists. exists (k, n). split; [assumption | apply String.eqb_refl]. }
    congruence.
Qed.

(** In a tree with its entries [d] levels down, the entries are the nodes
    the paths of length [d] lead to. *)
Lemma all_entries_paths d : forall n nm ss,
  shaped d n = true ->
  (In (nm, ss) (all_entries n) <->
   exists path, List.length path = d /\ node_at path n = Some (Entry nm ss)).
Proof.
  induction d as [|d IH]; intros n nm ss Hs.
  - apply shaped_entry in Hs as (nm' & ss' & ->). simpl. split.
    + intros [E|[]]. inversion E; subst. exists []. auto.
    + intros (path & Hl & Hp). destruct path; [|discriminate].
      simpl in Hp. inversion Hp. now left.
  - apply shaped_group in Hs as (cs & -> & U & S). cbn [all_entries]. rewrite in_flat_map. split.
    + intros ([k c] & Hin & H). cbn [snd] in H.
      assert (shaped d c = true) as Sc.
      { rewrite forallb_forall in S. apply (S (k, c) Hin). }
      apply (IH c nm ss Sc) in H as (path & Hl & Hp).
      exists (k :: path). split; [simpl; now rewrite Hl|].
      cbn [node_at]. now rewrite (in_get k cs c U Hin).
    + intros (path & Hl & Hp). destruct path as [|k path]; [discriminate|].
      cbn [node_at] in Hp. destruct (Obj.get k cs) as [c|] eqn:G; [|discriminate].
      exists (k, c). pose proof (get_in k cs c G) as Hin. split; [assumption|].
      cbn [snd]. apply IH.
      * rewrite forallb_forall in S. apply (S (k, c) Hin).
      * exists path. split; [simpl in Hl; lia | assumption].
Qed.

End TreeWalkFacts.

Module AuthenticatedFacts.
Import TreeShape TreeFacts TreeWalk TreeWalkFacts PageFunctions Authenticated.
Local Open Scope string_scope.

Lemma mode_eqb_eq a b : mode_eqb a b = true <-> a = b.
Proof.
  destruct a as [x|], b as [y|]; simpl; try (split; [discriminate | congruence]).
  - rewrite String.eqb_eq. split; congruence.
  - tauto.
Qed.

Lemma waitForFunction_some {A} (p : AppState -> option A) states a :
  waitForFunction p states = Some a -> exists st, In st states /\ p st = Some a.
Proof.
  induction states as [|st states IH]; simpl; [discriminate|].
  destruct (p st) as [a'|] eqn:E.
  - intros H. inversion H; subst. exists st. auto.
  - intros H. destruct (IH H) as (st' & Hin & Hp). exists st'. auto.
Qed.

Lemma waitForFunction_none {A} (p : AppState -> option A) states :
  waitForFunction p states = None <-> forall st, In st states -> p st = None.
Proof.
  induction states as [|st states IH]; simpl; [tauto|].
  destruct (p st) as [a'|] eqn:E.
  - split; [discriminate|]. intros H. specialize (H st (or_introl eq_refl)). congruence.
  - rewrite IH. split; [intros H x [<-|Hx]; auto | auto].
Qed.

(** What [waitForAuthenticatedData] lets through. *)
Lemma waitForAuthenticatedData_some args app subcategory :
  waitForAuthenticatedData args app = Some subcategory ->
  app = PageData (Some subcategory) /\
  s_components subcategory <> [] /\
  forall c, In c (s_components subcategory) ->
    SnippetType.name (fields (c_snippet c)) = framework (a_expectedFormat args) /\
    SnippetType.version (fields (c_snippet c)) = version (a_expectedFormat args) /\
    SnippetType.mode (fields (c_snippet c)) = expectedMode args.
Proof.
  unfold waitForAuthenticatedData. destruct app as [| | |[sub|]]; try discriminate.
  destruct (s_components sub) as [|c0 cs] eqn:Ec; [discriminate|].
  destruct (forallb _ _) eqn:F; [|discriminate].
  intros H. inversion H; subst. split; [reflexivity|]. rewrite Ec. split; [discriminate|].
  intros c Hc. rewrite forallb_forall in F. specialize (F c Hc).
  unfold snippet_valid in F. apply andb_true_iff in F as [F Fm].
  apply andb_true_iff in F as [Fn Fv].
  apply String.eqb_eq in Fn. apply Z.eqb_eq in Fv. apply mode_eqb_eq in Fm. auto.
Qed.

(** The loop that assigns the entries. *)
Lemma assigned components : forall acc,
  Obj.unique_keys acc = true ->
  forallb (fun kv => shaped 0 (snd kv)) acc = true ->
  let entries := fold_left assign components acc in
  Obj.unique_keys entries = true /\
  forallb (fun kv => shaped 0 (snd kv)) entries = true /\
  (List.length acc <= List.length entries <= List.length acc + List.length components)%nat /\
  (components <> [] -> entries <> []) /\
  (forall k n, In (k, n) entries ->
     In (k, n) acc \/
     exists c, In c components /\ k = c_name c /\
               n = Entry (c_name c) [shapeSnippet (c_snippet c)]).
Proof.
  induction components as [|c components IH]; intros acc U S; cbn [fold_left].
  - cbn zeta. repeat split; auto; try lia; try (intros H; now elim H).
  - destruct (IH (assign acc c)) as (U' & S' & L' & N' & I').
    { now apply unique_keys_set. }
    { apply forallb_set; [assumption | reflexivity]. }
    pose proof (length_set (c_name c) (Entry (c_name c) [shapeSnippet (c_snippet c)]) acc) as Hl.
    fold (assign acc c) in Hl.
    cbn zeta. split; [exact U'|]. split; [exact S'|]. split; [cbn [List.length]; lia|].
    split.
    + intros _ E. destruct components as [|c' components].
      * simpl in E. unfold assign in E. now apply set_nonempty in E.
      * apply N'; [discriminate | exact E].
    + intros k n H. destruct (I' k n H) as [Hin|(c' & Hc' & E)].
      * apply in_set in Hin as [Hin|[-> ->]]; [now left|].
        right. exists c. split; [now left | auto].
      * right. exists c'. split; [now right | exact E].
Qed.

End AuthenticatedFacts.

Module ExtractionFacts.
Import Errors TreeShape TreeFacts TreeWalk TreeWalkFacts PageFunctions Authenticated.
Import AuthenticatedFacts.
Local Open Scope string_scope.

Lemma entries_of_leaves (es : Tree) :
  forallb (fun kv => shaped 0 (snd kv)) es = true ->
  List.length (all_entries (Group es)) = List.length es /\
  (forall nm ss, In (nm, ss) (all_entries (Group es)) -> exists k, In (k, Entry nm ss) es).
Proof.
  induction es as [|[k n] es IH]; intros S.
  - split; [reflexivity | intros nm ss []].
  - cbn [forallb snd] in S. apply andb_true_iff in S as [Sn S].
    apply shaped_entry in Sn as (nm0 & ss0 & ->).
    destruct (IH S) as [L I]. cbn [all_entries flat_map snd app List.length] in *.
    split; [now rewrite L|].
    intros nm ss [E|H].
    + inversion E; subst. exists k. now left.
    + destruct (I nm ss H) as (k' & Hk'). exists k'. now right.
Qed.

Lemma componentData_of_entries subcategory :
  all_entries (Group (componentData_of subcategory)) =
  all_entries (Group (fold_left assign (s_components subcategory) [])).
Proof.
  unfold componentData_of. cbn [all_entries flat_map snd]. now rewrite !app_nil_r.
Qed.

Lemma shaped_single d k n : shaped (S d) (Group [(k, n)]) = shaped d n.
Proof.
  change (shaped (S d) (Group [(k, n)])) with (true && (shaped d n && true)).
  cbn [andb]. apply andb_true_r.
Qed.

(** The data of a page is component data, one snippet per component. *)
Lemma componentData_of_shape subcategory :
  s_components subcategory <> [] ->
  isComponentData (componentData_of subcategory) = true /\
  (1 <= Output.countComponents (componentData_of subcategory))%nat /\
  (forall nm ss, In (nm, ss) (all_entries (Group (componentData_of subcategory))) ->
     exists c, In c (s_components subcategory) /\ nm = c_name c /\
               ss = [shapeSnippet (c_snippet c)]).
Proof.
  intros Hne.
  destruct (assigned (s_components subcategory) [] eq_refl eq_refl) as (U & S & L & N & I).
  cbn zeta in *.
  destruct (entries_of_leaves _ S) as [Le Ie].
  split; [|split].
  - unfold isComponentData, componentData_of. rewrite !shaped_single.
    change (Obj.unique_keys (fold_left assign (s_components subcategory) []) &&
            forallb (fun kv => shaped 0 (snd kv))
                    (fold_left assign (s_components subcategory) []) = true).
    now rewrite U, S.
  - unfold Output.countComponents. rewrite countNode_entries, componentData_of_entries, Le.
    specialize (N Hne). destruct (fold_left assign (s_components subcategory) []);
      [now elim N | simpl; lia].
  - intros nm ss H. rewrite componentData_of_entries in H.
    destruct (Ie nm ss H) as (k & Hk).
    destruct (I k _ Hk) as [[]|(c & Hc & -> & E)].
    inversion E; subst. exists c. auto.
Qed.

(** What the call has done when it returns data. *)
Lemma extractAuthenticatedPageData_data visit url expectedFormat ecommerceUrl d :
  extractAuthenticatedPageData visit url expectedFormat ecommerceUrl = Data d ->
  isComponentData d = true /\
  (1 <= Output.countComponents d)%nat /\
  (forall nm ss, In (nm, ss) (all_entries (Group d)) ->
     exists s, ss = [s] /\
       SnippetType.name s = framework expectedFormat /\
       SnippetType.version s = version expectedFormat /\
       SnippetType.mode s =
         (if String.prefix ecommerceUrl url then None else mode expectedFormat)).
Proof.
  unfold extractAuthenticatedPageData.
  destruct (arrival visit); [discriminate|].
  destruct (waiting visit) as [states|e]; [|destruct (is_timeout e); discriminate].
  destruct (waitForFunction _ states) as [sub|] eqn:W; [|discriminate].
  destruct (sets_prototype sub); [discriminate|].
  intros E. inversion E; subst d.
  apply waitForFunction_some in W as (st & _ & W).
  apply waitForAuthenticatedData_some in W as (_ & Hne & Hall).
  destruct (componentData_of_shape sub Hne) as (Sh & C & I).
  split; [exact Sh|]. split; [exact C|].
  intros nm ss H. destruct (I nm ss H) as (c & Hc & _ & ->).
  exists (shapeSnippet (c_snippet c)). split; [reflexivity|].
  destruct (Hall c Hc) as (Hn & Hv & Hm). cbn in *. auto.
Qed.

End ExtractionFacts.

Module AuthenticatedSpec.
Import Errors TreeShape TreeFacts TreeWalk TreeWalkFacts PageFunctions Authenticated.
Import AuthenticatedFacts ExtractionFacts.
Local Open Scope string_scope.

(** X6: what [extractAuthenticatedPageData] returns is in the expected
    format. When the call returns component data, the data has at least
    one component, every component has exactly one snippet, and that
    snippet carries the framework and the version of the expected format
    and its mode, or no mode when the URL starts with the eCommerce URL.
    When no poll of the page shows such data before the time is up, the
    call throws the DownloaderError about the timeout: data of another
    format is never returned. The one page whose data is returned without
    being component data is a page with a component named [__proto__]. *)
Theorem extractAuthenticatedPageData_expected_format :
  (forall visit url expectedFormat ecommerceUrl d,
     extractAuthenticatedPageData visit url expectedFormat ecommerceUrl = Data d ->
     isComponentData d = true /\
     (1 <= Output.countComponents d)%nat /\
     (forall nm ss, In (nm, ss) (all_entries (Group d)) ->
        exists s, ss = [s] /\
          SnippetType.name s = framework expectedFormat /\
          SnippetType.version s = version expectedFormat /\
          SnippetType.mode s =
            (if String.prefix ecommerceUrl url then None else mode expectedFormat))) /\
  (forall states url expectedFormat ecommerceUrl,
     (forall st, In st states ->
        waitForAuthenticatedData (mkArgs url expectedFormat ecommerceUrl) st = None) ->
     extractAuthenticatedPageData (mkVisit None (Polls states)) url expectedFormat
       ecommerceUrl =
     Raised (DownloaderError (timeout_message expectedFormat url))) /\
  (forall visit url expectedFormat ecommerceUrl,
     extractAuthenticatedPageData visit url expectedFormat ecommerceUrl = Untyped <->
     exists states subcategory,
       arrival visit = None /\ waiting visit = Polls states /\
       waitForFunction (waitForAuthenticatedData (mkArgs url expectedFormat ecommerceUrl))
         states = Some subcategory /\
       exists c, In c (s_components subcategory) /\ c_name c = "__proto__").
Proof.
  split; [|split].
  - apply extractAuthenticatedPageData_data.
  - intros states url fmt eurl H. unfold extractAuthenticatedPageData. cbn [arrival waiting].
    apply waitForFunction_none in H. now rewrite H.
  - intros visit url fmt eurl. unfold extractAuthenticatedPageData. split.
    + destruct (arrival visit); [discriminate|].
      destruct (waiting visit) as [states|e]; [|destruct (is_timeout e); discriminate].
      destruct (waitForFunction _ states) as [sub|] eqn:W; [|discriminate].
      destruct (sets_prototype sub) eqn:P; [|discriminate].
      intros _. exists states, sub. repeat split; auto.
      unfold sets_prototype in P. apply existsb_exists in P as (c & Hc & E).
      apply String.eqb_eq in E. eauto.
    + intros (states & sub & -> & -> & -> & c & Hc & E).
      replace (sets_prototype sub) with true; [reflexivity|].
      symmetry. unfold sets_prototype. apply existsb_exists. exists c.
      split; [exact Hc|]. now apply String.eqb_eq.
Qed.

Lemma extractAuthenticatedPageData_expected_format_witness :
  let url := "https://tailwindcss.com/plus/ui-blocks/ecommerce/components/product-overviews" in
  let ecommerceUrl := "https://tailwindcss.com/plus/ui-blocks/ecommerce" in
  let expectedFormat := mkFormat "react" 4 (Some "light") in
  let d := Samples.page "Split" [Samples.X] in
  isComponentData d = true /\
  (1 <= Output.countComponents d)%nat /\
  (forall nm ss, In (nm, ss) (all_entries (Group d)) ->
     exists s, ss = [s] /\
       SnippetType.name s = framework expectedFormat /\
       SnippetType.version s = version expectedFormat /\
       SnippetType.mode s =
         (if String.prefix ecommerceUrl url then None else mode expectedFormat)).
Proof.
  intros url ecommerceUrl expectedFormat d.
  apply (proj1 extractAuthenticatedPageData_expected_format
           (mkVisit None
              (Polls [NoDataPage;
                      PageData (Some (mkSubcategory "Product Overviews"
                        [mkComponent "Split" "c0ffee" true "light"
                           (mkRawSnippet Samples.X [("highlighted", "<pre/>")])]
                        "Components" "Ecommerce"))]))
           url expectedFormat ecommerceUrl d).
  reflexivity.
Defined.

End AuthenticatedSpec.

Module PassFacts.
Import JobType Downloader Worker JobBudget TreeShape TreeFacts TreeWalk TreeWalkFacts.
Import MergeFacts JobLoopFacts.

Lemma in_all_snippets s n :
  In s (all_snippets n) <-> exists nm ss, In (nm, ss) (all_entries n) /\ In s ss.
Proof.
  unfold all_snippets. rewrite in_flat_map. split.
  - intros ([nm ss] & H1 & H2). eauto.
  - intros (nm & ss & H1 & H2). exists (nm, ss). auto.
Qed.

(** In a tree with its entries [d] levels down, the snippets are those of
    the leaves that paths lead to. *)
Lemma node_at_entry_depth p : forall n d nm ss,
  node_at p n = Some (Entry nm ss) -> shaped d n = true -> List.length p = d.
Proof.
  induction p as [|k p IH]; intros n d nm ss E Sh.
  - simpl in E. inversion E; subst. destruct d; [reflexivity | discriminate].
  - destruct n as [nm' ss'|cs]; [discriminate|]. cbn [node_at] in E.
    destruct (Obj.get k cs) as [c|] eqn:G; [|discriminate].
    destruct d as [|d]; [discriminate|].
    apply shaped_group in Sh as (cs' & Ecs & _ & Sh). inversion Ecs; subst cs'.
    simpl. f_equal. apply (IH c d nm ss E). eapply forallb_get; eauto.
Qed.

Lemma all_snippets_leaves d t s :
  shaped (S d) (Group t) = true ->
  (In s (all_snippets (Group t)) <-> exists path, In s (leaf_snippets path t)).
Proof.
  intros Sh. rewrite in_all_snippets. split.
  - intros (nm & ss & H & Hs).
    apply (all_entries_paths (S d) _ nm ss Sh) in H as (path & _ & Hp).
    exists path. unfold leaf_snippets. now rewrite Hp.
  - intros (path & H). unfold leaf_snippets in H.
    destruct (node_at path (Group t)) as [[nm ss|cs]|] eqn:E; simpl in H; try contradiction.
    exists nm, ss. split; [|assumption].
    apply (all_entries_paths (S d) _ nm ss Sh). exists path. split; [|assumption].
    exact (node_at_entry_depth path _ _ nm ss E Sh).
Qed.

(** A merge neither loses a snippet nor invents one. *)
Lemma merge_snippets d t p r s :
  shaped (S d) (Group t) = true -> shaped (S d) (Group p) = true ->
  plain_names (Group p) = true ->
  Output.mergeComponentData t p = Some r ->
  (In s (all_snippets (Group r)) <->
   In s (all_snippets (Group t)) \/ In s (all_snippets (Group p))).
Proof.
  intros St Sp Pp E.
  destruct (merge_shaped d t p St Sp Pp) as (r' & E' & Sr & L & _).
  rewrite E in E'. inversion E'; subst r'.
  rewrite (all_snippets_leaves d r s Sr), (all_snippets_leaves d t s St),
          (all_snippets_leaves d p s Sp).
  split.
  - intros (path & H). rewrite L in H. apply in_app_iff in H as [H|H]; eauto.
  - intros [(path & H)|(path & H)]; exists path; rewrite L; apply in_app_iff; auto.
Qed.

Lemma merge_all_snippets d partials : forall acc final s,
  shaped (S d) (Group acc) = true ->
  Forall (fun p => shaped (S d) (Group p) = true) partials ->
  Forall (fun p => plain_names (Group p) = true) partials ->
  Output.merge_all acc partials = Some final ->
  (In s (all_snippets (Group final)) <->
   In s (all_snippets (Group acc)) \/
   exists p, In p partials /\ In s (all_snippets (Group p))).
Proof.
  induction partials as [|p partials IH]; intros acc final s Sa Sp Pp E.
  - simpl in E. inversion E; subst. split; [auto | intros [H|(p & [] & _)]; exact H].
  - inversion Sp as [|? ? Sp1 Sp']; subst. cbn [Output.merge_all] in E.
    inversion Pp as [|? ? Pp1 Pp']; subst.
    destruct (Output.mergeComponentData acc p) as [acc'|] eqn:Em; [|discriminate].
    destruct (merge_shaped d acc p Sa Sp1 Pp1) as (r' & E' & Sr & _).
    rewrite Em in E'. inversion E'; subst r'.
    rewrite (IH acc' final s Sr Sp' Pp' E), (merge_snippets d acc p acc' s Sa Sp1 Pp1 Em).
    split.
    + intros [[H|H]|(q & Hq & H)]; [now left | right; exists p; split; [now left | exact H] |].
      right. exists q. split; [now right | exact H].
    + intros [H|(q & [<-|Hq] & H)]; [left; now left | left; now right |].
      right. exists q. auto.
Qed.

(** The page data of the reported jobs is what extractions returned. *)
Lemma run_results outcomes : forall this reported final,
  run outcomes this = (reported, final) ->
  Forall (fun j => data j = None) (jobQueue this) ->
  Forall (fun d => In (Extracted d) outcomes) (results reported).
Proof.
  induction outcomes as [|o rest IH]; intros this reported final Hrun Hq.
  - simpl in Hrun. injection Hrun as <- <-. constructor.
  - cbn [run] in Hrun. unfold turn in Hrun. destruct (jobQueue this) as [|job q] eqn:Eq.
    { injection Hrun as <- <-. constructor. }
    inversion Hq as [|? ? Hjob Hq']; subst.
    destruct (processJobResult (with_queue q this) (attempt o job)) as [[job' this']|] eqn:Ep.
    + destruct (run rest this') as [rep' fin'] eqn:Er. injection Hrun as <- <-.
      assert (Forall (fun j => data j = None) (jobQueue this') /\
              (forall d, status job' = completed -> data job' = Some d -> o = Extracted d))
        as [Hq'' Hd].
      { unfold processJobResult in Ep. destruct o as [d|msg]; cbn [attempt status data] in Ep.
        - destruct (Output.mergeComponentData _ _); [|discriminate].
          inversion Ep; subst. cbn [with_data with_queue jobQueue]. split; [assumption|].
          simpl. intros d' _ E. now inversion E.
        - cbn [retryCount with_queue maxRetries jobQueue] in Ep.
          destruct (Z.ltb _ _); inversion Ep; subst; cbn [with_queue jobQueue].
          + split; [|discriminate]. apply Forall_app. split; [assumption|].
            constructor; [exact Hjob | constructor].
          + split; [assumption | discriminate]. }
      specialize (IH _ _ _ Er Hq'').
      cbn [results flat_map]. apply Forall_app. split.
      * destruct (status job') eqn:Es; try constructor.
        destruct (data job') as [d|] eqn:Ed; constructor; [|constructor].
        left. apply Hd; reflexivity.
      * apply (Forall_impl _ (fun d H => or_intror H) IH).
    + injection Hrun as <- <-. constructor.
Qed.

End PassFacts.

Module AuthenticatedPassSpec.
Import JobType Downloader Worker JobBudget TreeShape TreeFacts TreeWalk TreeWalkFacts.
Import PageFunctions Authenticated AuthenticatedPass ExtractionFacts JobLoopFacts PassFacts.
Local Open Scope Z_scope.

Lemma visited_well_shaped fmt eurl o : visited fmt eurl o -> well_shaped o.
Proof.
  intros (visit & url & E).
  destruct (extractAuthenticatedPageData visit url fmt eurl) as [d| |e] eqn:Ex;
    simpl in E; inversion E; subst o; [|exact I].
  apply (extractAuthenticatedPageData_data _ _ _ _ _ Ex).
Qed.

(** X7: the job loop of a worker in a pass of the authenticated download
    (a pass run by one worker) only adds snippets of the format of the
    pass. Whatever the pages do (arrive or not, show the data in time or
    not), as long as their data is under names that no object inherits,
    no report of the loop raises, the accumulator is the merge of the data
    of the completed jobs into what it was, it is component data
    afterwards, it holds exactly the snippets it held before and those of
    the completed jobs, and each snippet it did not hold before has the
    framework and the version of the format and its mode, or no mode. *)
Theorem authenticated_pass_adds_the_format (urls : list string)
    (outcomes : list Extraction) (expectedFormat : Format) (ecommerceUrl : string)
    (this : Host) (reported : list Job) (final : Host) :
  0 <= maxRetries this ->
  isComponentData (componentData this) = true ->
  Forall (visited expectedFormat ecommerceUrl) outcomes ->
  Forall plainly_named outcomes ->
  run outcomes (_populateJobQueue urls this) = (reported, final) ->
  raises outcomes (_populateJobQueue urls this) = false /\
  Output.merge_all (componentData this) (results reported) = Some (componentData final) /\
  isComponentData (componentData final) = true /\
  (forall s, In s (all_snippets (Group (componentData final))) <->
             In s (all_snippets (Group (componentData this))) \/
             exists d, In d (results reported) /\ In s (all_snippets (Group d))) /\
  (forall s, In s (all_snippets (Group (componentData final))) ->
             In s (all_snippets (Group (componentData this))) \/
             in_format expectedFormat s).
Proof.
  intros Hm Hs Hv Hp Hrun.
  assert (Forall well_shaped outcomes) as Hw.
  { apply (Forall_impl _ (visited_well_shaped expectedFormat ecommerceUrl) Hv). }
  assert (Forall (within_limit (maxRetries (_populateJobQueue urls this)))
                 (jobQueue (_populateJobQueue urls this))) as Hq.
  { cbn [_populateJobQueue with_queue jobQueue maxRetries].
    apply Forall_forall. intros j Hj. apply in_map_iff in Hj as (u & <- & _).
    unfold within_limit. simpl. lia. }
  destruct (run_ends outcomes _ _ _ Hrun Hm Hq Hs Hw Hp) as (R & _ & _ & Sf & M & _ & _).
  cbn [_populateJobQueue with_queue componentData] in M.
  assert (Forall (fun d => In (Extracted d) outcomes) (results reported)) as Hr.
  { apply (run_results outcomes _ _ _ Hrun).
    cbn [_populateJobQueue with_queue jobQueue].
    apply Forall_forall. intros j Hj. apply in_map_iff in Hj as (u & <- & _). reflexivity. }
  assert (Forall (fun p => shaped 4 (Group p) = true) (results reported)) as Hsh.
  { rewrite Forall_forall in Hr, Hw. apply Forall_forall. intros d Hd.
    apply (Hw (Extracted d)), Hr, Hd. }
  assert (Forall (fun p => plain_names (Group p) = true) (results reported)) as Hpl.
  { rewrite Forall_forall in Hr, Hp. apply Forall_forall. intros d Hd.
    apply (Hp (Extracted d)), Hr, Hd. }
  pose proof (fun s => merge_all_snippets 3 (results reported) (componentData this)
                         (componentData final) s Hs Hsh Hpl M) as Hiff.
  split; [exact R|]. split; [exact M|].
  split; [exact Sf|]. split; [exact Hiff|].
  intros s H. apply Hiff in H as [H|(d & Hd & H)]; [now left|]. right.
  rewrite Forall_forall in Hr, Hv. destruct (Hv _ (Hr d Hd)) as (visit & url & E).
  destruct (extractAuthenticatedPageData visit url expectedFormat ecommerceUrl)
    as [d'| |e] eqn:Ex; [|discriminate|discriminate].
  simpl in E. inversion E; subst d'.
  destruct (extractAuthenticatedPageData_data _ _ _ _ _ Ex) as (_ & _ & Hall).
  apply in_all_snippets in H as (nm & ss & Hin & Hss).
  destruct (Hall nm ss Hin) as (s' & -> & Hn & Hver & Hmode).
  destruct Hss as [<-|[]]. split; [exact Hn|]. split; [exact Hver|].
  rewrite Hmode. destruct (String.prefix ecommerceUrl url); auto.
Qed.

Lemma authenticated_pass_adds_the_format_witness :
  let url :=
    "https://tailwindcss.com/plus/ui-blocks/ecommerce/components/product-overviews"%string in
  let ecommerceUrl := "https://tailwindcss.com/plus/ui-blocks/ecommerce"%string in
  let expectedFormat := mkFormat "react" 4 (Some "light"%string) in
  let outcomes := [Extracted (Samples.page "Split" [Samples.X])] in
  let this := mkHost 3 [] [] in
  let r := run outcomes (_populateJobQueue [url] this) in
  raises outcomes (_populateJobQueue [url] this) = false /\
  Output.merge_all (componentData this) (results (fst r)) = Some (componentData (snd r)) /\
  isComponentData (componentData (snd r)) = true /\
  (forall s, In s (all_snippets (Group (componentData (snd r)))) <->
             In s (all_snippets (Group (componentData this))) \/
             exists d, In d (results (fst r)) /\ In s (all_snippets (Group d))) /\
  (forall s, In s (all_snippets (Group (componentData (snd r)))) ->
             In s (all_snippets (Group (componentData this))) \/
             in_format expectedFormat s).
Proof.
  intros url ecommerceUrl expectedFormat outcomes this r.
  apply (authenticated_pass_adds_the_format [url] outcomes expectedFormat ecommerceUrl
           this (fst r) (snd r)).
  - simpl. lia.
  - reflexivity.
  - constructor; [|constructor].
    exists (mkVisit None
              (Polls [NoDataPage;
                      PageData (Some (mkSubcategory "Product Overviews"
                        [mkComponent "Split" "c0ffee" true "light"
                           (mkRawSnippet Samples.X [])]
                        "Components" "Ecommerce"))])), url.
    reflexivity.
  - repeat constructor.
  - apply surjective_pairing.
Defined.

End AuthenticatedPassSpec.

Module CountFacts.
Import TreeShape TreeFacts TreeWalk TreeWalkFacts Output FirstOccurrence FirstOccurrenceFacts.
Import DedupFacts Counting.

Lemma all_entries_deduplicate n :
  all_entries (deduplicate n) =
  map (fun e => (fst e, dedupSnippets (snd e))) (all_entries n).
Proof.
  induction n as [nm ss|cs IH] using Node_induction; [reflexivity|].
  rewrite deduplicate_group. cbn [all_entries].
  induction cs as [|[k c] cs IHcs]; [reflexivity|].
  inversion IH as [|? ? Hc Hcs]; subst. cbn [snd] in Hc.
  cbn [map flat_map fst snd]. rewrite map_app, Hc, (IHcs Hcs). reflexivity.
Qed.

Lemma dedupSnippets_nonempty ss : ss <> [] -> dedupSnippets ss <> [].
Proof.
  rewrite dedupSnippets_first. destruct ss as [|s ss]; [congruence|].
  intros _. unfold first_of_each_variant, keep_first. simpl. discriminate.
Qed.

Lemma dedupSnippets_in s ss : In s (dedupSnippets ss) -> In s ss.
Proof.
  rewrite dedupSnippets_first. unfold first_of_each_variant, keep_first. intros H.
  now apply (keep_in variant_of same_variant same_variant_iff) in H.
Qed.

Lemma countNode_cons k n (cs : Tree) :
  countNode (Group ((k, n) :: cs)) = countNode n + countNode (Group cs).
Proof. reflexivity. Qed.

Lemma count_set key v obj :
  countNode (Group (Obj.set key v obj)) + count_opt (Obj.get key obj) =
  countNode (Group obj) + countNode v.
Proof.
  induction obj as [|[k w] obj IH]; cbn [Obj.set Obj.get].
  - rewrite countNode_cons. simpl. lia.
  - destruct (String.eqb key k).
    + rewrite !countNode_cons. simpl. lia.
    + rewrite !countNode_cons. lia.
Qed.

Lemma merge_entries_count es :
  Forall (fun kv => forall key tgt n, merge_value key tgt (snd kv) = Some n ->
            count_opt tgt <= countNode n <= count_opt tgt + countNode (snd kv)) es ->
  forall t r, merge_entries merge_value es t = Some r ->
    countNode (Group t) <= countNode (Group r) <= countNode (Group t) + countNode (Group es).
Proof.
  induction 1 as [|[key value] es Hv _ IH]; intros t r E.
  - simpl in E. inversion E; subst. simpl. lia.
  - change (merge_entries merge_value ((key, value) :: es) t)
      with (match merge_value key (Obj.get key t) value with
            | Some n => merge_entries merge_value es (Obj.set key n t)
            | None => None
            end) in E.
    destruct (merge_value key (Obj.get key t) value) as [n|] eqn:Em; [|discriminate].
    specialize (Hv _ _ _ Em). cbn [snd] in Hv. specialize (IH _ _ E).
    pose proof (count_set key n t). rewrite countNode_cons. lia.
Qed.

Lemma merge_value_count v : forall key tgt n,
  merge_value key tgt v = Some n ->
  count_opt tgt <= countNode n <= count_opt tgt + countNode v.
Proof.
  induction v as [nm ss|cs IH] using Node_induction; intros key tgt n E.
  - destruct tgt as [[tnm tss|tcs]|]; simpl in E;
      try destruct (Js.inherited key); inversion E; subst; simpl; lia.
  - destruct tgt as [[tnm tss|tcs]|]; cbn [merge_value] in E.
    + destruct cs; inversion E; subst. simpl. lia.
    + destruct (merge_entries merge_value cs tcs) as [r|] eqn:Er; inversion E; subst.
      apply (merge_entries_count cs IH) in Er. exact Er.
    + destruct (String.eqb key "__proto__"); [discriminate|].
      destruct (merge_entries merge_value cs []) as [r|] eqn:Er; inversion E; subst.
      apply (merge_entries_count cs IH) in Er. simpl in *. lia.
Qed.

End CountFacts.

Module CountSpec.
Import TreeShape TreeFacts TreeWalk TreeWalkFacts Output FirstOccurrence FirstOccurrenceFacts.
Import DedupFacts Counting CountFacts.

Lemma Forall2_map_l {A B} (R : B -> A -> Prop) (f : A -> B) (l : list A) :
  (forall x, In x l -> R (f x) x) -> Forall2 R (map f l) l.
Proof.
  induction l as [|x l IH]; intros H; constructor.
  - apply H. now left.
  - apply IH. intros y Hy. apply H. now right.
Qed.

Lemma all_entries_dedup data :
  all_entries (Group (deduplicateEcommerceSnippets data)) =
  map (fun e => (fst e, dedupSnippets (snd e))) (all_entries (Group data)).
Proof.
  rewrite <- all_entries_deduplicate, deduplicate_group, deduplicateEcommerceSnippets_map.
  reflexivity.
Qed.

(** X8: deduplication never loses a component. [deduplicateEcommerceSnippets]
    returns data with the same number of components ([countComponents],
    the metadata's component count, is the same before and after), under
    the same names in the same order; every snippet it keeps was there
    before, and a component that had snippets keeps at least one. *)
Theorem deduplicateEcommerceSnippets_keeps_components (data : Tree) :
  countComponents (deduplicateEcommerceSnippets data) = countComponents data /\
  map fst (all_entries (Group (deduplicateEcommerceSnippets data))) =
    map fst (all_entries (Group data)) /\
  Forall2 (fun after before =>
             incl (snd after) (snd before) /\ (snd before <> [] -> snd after <> []))
          (all_entries (Group (deduplicateEcommerceSnippets data)))
          (all_entries (Group data)).
Proof.
  split; [|split].
  - unfold countComponents. rewrite !countNode_entries, all_entries_dedup.
    apply length_map.
  - rewrite all_entries_dedup, map_map. reflexivity.
  - rewrite all_entries_dedup. apply Forall2_map_l. intros [nm ss] _. cbn [snd fst]. split.
    + intros s. apply dedupSnippets_in.
    + apply dedupSnippets_nonempty.
Qed.

Lemma NoDup_map_eq {A B} (f : A -> B) (l : list A) a b :
  NoDup (map f l) -> In a l -> In b l -> f a = f b -> a = b.
Proof.
  induction l as [|x l IH]; intros Hn Ha Hb E; [destruct Ha|].
  inversion Hn as [|? ? Hx Hn']; subst.
  destruct Ha as [->|Ha], Hb as [->|Hb]; auto.
  - exfalso. apply Hx. rewrite E. now apply in_map.
  - exfalso. apply Hx. rewrite <- E. now apply in_map.
Qed.

(** X9: deduplication keeps one snippet per framework name, version and
    dark-mode flag in every component, with or without modes: the key of
    the [Map] does not hold the mode, and [deduplicate] visits every entry.
    So after it no component holds two snippets that differ only in their
    mode (or their code): of the captures of one framework and version in
    the light, dark and system modes the first one is what stays. *)
Theorem deduplicateEcommerceSnippets_one_per_variant :
  (forall data path,
     NoDup (map variant_of (leaf_snippets path (deduplicateEcommerceSnippets data)))) /\
  (forall data path a b,
     In a (leaf_snippets path (deduplicateEcommerceSnippets data)) ->
     In b (leaf_snippets path (deduplicateEcommerceSnippets data)) ->
     SnippetType.name a = SnippetType.name b ->
     SnippetType.version a = SnippetType.version b ->
     SnippetType.supportsDarkMode a = SnippetType.supportsDarkMode b ->
     a = b) /\
  (forall a b rest,
     same_variant a b = true ->
     dedupSnippets (a :: b :: rest) = dedupSnippets (a :: rest)).
Proof.
  assert (forall data path,
     NoDup (map variant_of (leaf_snippets path (deduplicateEcommerceSnippets data)))) as H.
  { intros data path. rewrite leaf_snippets_deduplicate, dedupSnippets_first.
    apply (keep_NoDup variant_of same_variant same_variant_iff). }
  split; [exact H|]. split.
  - intros data path a b Ha Hb En Ev Ed.
    apply (NoDup_map_eq variant_of _ a b (H data path) Ha Hb).
    unfold variant_of. now rewrite En, Ev, Ed.
  - intros a b rest E. unfold dedupSnippets. cbn [seen_loop seen_has existsb seen_set app fst].
    apply same_variant_key in E. rewrite <- E, String.eqb_refl. reflexivity.
Qed.

Lemma deduplicateEcommerceSnippets_one_per_variant_witness :
  let light := SnippetType.mkSnippet "<a class=light/>" "react" "jsx" 4 (Some "light"%string)
                 true "light" in
  let dark := SnippetType.mkSnippet "<a class=dark/>" "react" "jsx" 4 (Some "dark"%string)
                true "light" in
  dedupSnippets [light; dark] = dedupSnippets [light].
Proof.
  intros light dark.
  apply (proj2 (proj2 deduplicateEcommerceSnippets_one_per_variant) light dark []).
  reflexivity.
Defined.

Lemma get_app_absent key (t : Tree) v :
  existsb (fun kv => String.eqb key (fst kv)) t = false ->
  Obj.get key t = None /\ Obj.set key v t = t ++ [(key, v)].
Proof.
  induction t as [|[k0 w] t IH]; simpl; [auto|].
  intros H. apply orb_false_iff in H as [H1 H2]. rewrite H1.
  destruct (IH H2) as [-> ->]. auto.
Qed.

Lemma unique_keys_middle (t : Tree) key v es :
  Obj.unique_keys (t ++ (key, v) :: es) = true ->
  existsb (fun kv => String.eqb key (fst kv)) t = false /\
  Obj.unique_keys ((t ++ [(key, v)]) ++ es) = true.
Proof.
  intros U. split; [|now rewrite <- app_assoc].
  induction t as [|[k0 w] t IH]; [reflexivity|].
  cbn [app Obj.unique_keys] in U. apply andb_true_iff in U as [U1 U2].
  apply negb_true_iff in U1. rewrite existsb_app in U1. apply orb_false_iff in U1 as [_ U1].
  cbn [existsb fst] in *. apply orb_false_iff in U1 as [U1 _].
  rewrite (IH U2), orb_false_r. rewrite String.eqb_sym. exact U1.
Qed.

(** The loop appends what the target does not have. *)
Lemma merge_entries_fresh es : forall t,
  Obj.unique_keys (t ++ es) = true ->
  Forall (fun kv => merge_value (fst kv) None (snd kv) = Some (snd kv)) es ->
  merge_entries merge_value es t = Some (t ++ es).
Proof.
  induction es as [|[key value] es IH]; intros t U H.
  - simpl. now rewrite app_nil_r.
  - inversion H as [|? ? Hv Hes]; subst. cbn [fst snd] in Hv.
    destruct (unique_keys_middle t key value es U) as [Ha U'].
    destruct (get_app_absent key t value Ha) as [G S].
    change (merge_entries merge_value ((key, value) :: es) t)
      with (match merge_value key (Obj.get key t) value with
            | Some n => merge_entries merge_value es (Obj.set key n t)
            | None => None
            end).
    rewrite G, Hv, S, (IH _ U' Hes), <- app_assoc. reflexivity.
Qed.

Lemma merge_value_fresh d : forall key v,
  shaped d v = true -> plain_key key v = true -> plain_names v = true ->
  merge_value key None v = Some v.
Proof.
  induction d as [|d IH]; intros key v Sv Pk Pv.
  - apply shaped_entry in Sv as (nm & ss & ->).
    simpl in Pk. apply negb_true_iff in Pk. simpl. now rewrite Pk.
  - apply shaped_group in Sv as (cs & -> & U & Sc). cbn [merge_value].
    simpl in Pk. apply negb_true_iff in Pk. rewrite Pk.
    rewrite (merge_entries_fresh cs []); [reflexivity | exact U |].
    apply Forall_forall. intros [k c] Hin. cbn [fst snd].
    cbn [plain_names] in Pv. rewrite forallb_forall in Pv.
    specialize (Pv (k, c) Hin). cbn [fst snd] in Pv.
    apply andb_true_iff in Pv as [Pkc Pc].
    apply IH; [|assumption|assumption].
    rewrite forallb_forall in Sc. apply (Sc (k, c) Hin).
Qed.

(** X10: merging and the component count. On component data, with a
    partial result under names that no object inherits, the merge returns,
    never lowers the number of components of the accumulator, and adds at
    most the number of components of the partial result. Merging an empty
    partial result changes nothing, and merging such a partial result into
    an empty accumulator gives that data. *)
Theorem mergeComponentData_count :
  (forall target source,
     isComponentData target = true -> isComponentData source = true ->
     plain_names (Group source) = true ->
     exists merged,
       mergeComponentData target source = Some merged /\
       countComponents target <= countComponents merged
         <= countComponents target + countComponents source) /\
  (forall target, mergeComponentData target [] = Some target) /\
  (forall source, isComponentData source = true ->
                  plain_names (Group source) = true ->
                  mergeComponentData [] source = Some source).
Proof.
  split; [|split].
  - intros target source St Ss Ps.
    destruct (MergeFacts.merge_shaped 3 target source St Ss Ps) as (merged & E & _).
    exists merged. split; [exact E|].
    unfold mergeComponentData in E.
    apply (merge_entries_count source) in E; [exact E|].
    apply Forall_forall. intros [k v] _. cbn [snd]. apply merge_value_count.
  - reflexivity.
  - intros source Sh Ps. unfold isComponentData in Sh.
    apply shaped_group in Sh as (cs & E & U & Sc). inversion E; subst cs.
    unfold mergeComponentData. rewrite (merge_entries_fresh source []); [reflexivity | exact U |].
    apply Forall_forall. intros [k c] Hin. cbn [fst snd].
    cbn [plain_names] in Ps. rewrite forallb_forall in Ps.
    specialize (Ps (k, c) Hin). cbn [fst snd] in Ps.
    apply andb_true_iff in Ps as [Pk Pc].
    apply (merge_value_fresh 3); [|assumption|assumption].
    rewrite forallb_forall in Sc. apply (Sc (k, c) Hin).
Qed.

Lemma mergeComponentData_count_witness :
  exists merged,
    mergeComponentData (Samples.page "Split" [Samples.X])
                       (Samples.page "Split" [Samples.Y]) = Some merged /\
    countComponents (Samples.page "Split" [Samples.X])
      <= countComponents merged
      <= countComponents (Samples.page "Split" [Samples.X])
         + countComponents (Samples.page "Split" [Samples.Y]).
Proof.
  apply (proj1 mergeComponentData_count
           (Samples.page "Split" [Samples.X]) (Samples.page "Split" [Samples.Y]));
    reflexivity.
Defined.

End CountSpec.

Module DirectoryOutputFacts.
Import TreeShape TreeFacts TreeWalk TreeWalkFacts DirectoryOutput Js JsFacts.
Local Open Scope string_scope.

Lemma writeValue_group out parts key cs :
  writeValue out parts key (Group cs) = writeComponentFiles out cs (parts ++ [key])%list.
Proof. reflexivity. Qed.

Lemma all_snippets_cons k c (cs : Tree) :
  all_snippets (Group ((k, c) :: cs)) = (all_snippets c ++ all_snippets (Group cs))%list.
Proof. unfold all_snippets. cbn [all_entries flat_map snd]. apply flat_map_app. Qed.

(** One file per snippet, in the order of the data. *)
Lemma writeValue_content out n : forall parts key,
  map content (writeValue out parts key n) = map SnippetType.code (all_snippets n).
Proof.
  induction n as [nm ss|cs IH] using Node_induction; intros parts key.
  - cbn [writeValue]. rewrite map_map. unfold all_snippets. simpl.
    rewrite app_nil_r. reflexivity.
  - cbn [writeValue]. generalize (parts ++ [key])%list as parts'. intros parts'.
    induction cs as [|[k c] cs IHcs]; [reflexivity|].
    inversion IH as [|? ? Hc Hcs]; subst. cbn [snd] in Hc.
    cbn [flat_map fst snd]. rewrite all_snippets_cons, !map_app, Hc, (IHcs Hcs).
    reflexivity.
Qed.

(** The files written are those of the snippets of the entries, each in
    the directory its path and its version make. *)
Lemma writeComponentFiles_in d : forall data out parts w,
  shaped (S d) (Group data) = true ->
  (In w (writeComponentFiles out data parts) <->
   exists path nm ss sn,
     List.length path = S d /\
     node_at path (Group data) = Some (Entry nm ss) /\ In sn ss /\
     w = mkFileWrite (out :: parts ++ path ++ [versionDir sn])%list
                     (filename sn) (SnippetType.code sn)).
Proof.
  induction d as [|d IH]; intros data out parts w Sh;
    apply shaped_group in Sh as (cs & E & U & Sc); inversion E; subst cs;
    unfold writeComponentFiles; rewrite in_flat_map.
  - split.
    + intros ([k n] & Hin & Hw). cbn [fst snd] in Hw.
      assert (shaped 0 n = true) as Sn by (rewrite forallb_forall in Sc; apply (Sc (k, n) Hin)).
      apply shaped_entry in Sn as (nm & ss & ->). cbn [writeValue] in Hw.
      apply in_map_iff in Hw as (sn & <- & Hsn).
      exists [k], nm, ss, sn. split; [reflexivity|]. split; [|split; [assumption|reflexivity]].
      cbn [node_at]. now rewrite (in_get k data _ U Hin).
    + intros (path & nm & ss & sn & Hl & Hp & Hsn & ->).
      destruct path as [|k [|? ?]]; try discriminate.
      cbn [node_at] in Hp. destruct (Obj.get k data) as [n|] eqn:G; [|discriminate].
      inversion Hp; subst n. exists (k, Entry nm ss). split; [now apply get_in|].
      cbn [fst snd writeValue]. apply in_map_iff. exists sn. auto.
  - split.
    + intros ([k n] & Hin & Hw). cbn [fst snd] in Hw.
      assert (shaped (S d) n = true) as Sn
        by (rewrite forallb_forall in Sc; apply (Sc (k, n) Hin)).
      destruct (shaped_group d n Sn) as (cs & -> & _).
      rewrite writeValue_group in Hw.
      apply (IH cs out (parts ++ [k])%list w Sn) in Hw
        as (path & nm & ss & sn & Hl & Hp & Hsn & ->).
      exists (k :: path), nm, ss, sn. split; [simpl; now rewrite Hl|]. split; [|split].
      * cbn [node_at]. now rewrite (in_get k data _ U Hin).
      * assumption.
      * rewrite <- app_assoc. reflexivity.
    + intros (path & nm & ss & sn & Hl & Hp & Hsn & ->).
      destruct path as [|k path]; [discriminate|].
      cbn [node_at] in Hp. destruct (Obj.get k data) as [n|] eqn:G; [|discriminate].
      pose proof (get_in k data n G) as Hin.
      assert (shaped (S d) n = true) as Sn
        by (rewrite forallb_forall in Sc; apply (Sc (k, n) Hin)).
      destruct (shaped_group d n Sn) as (cs & -> & _).
      exists (k, Group cs). split; [assumption|]. cbn [fst snd].
      rewrite writeValue_group. apply (IH cs out (parts ++ [k])%list _ Sn).
      exists path, nm, ss, sn. split; [simpl in Hl; lia|]. split; [assumption|].
      split; [assumption|]. rewrite <- app_assoc. reflexivity.
Qed.

(** ** File names *)

Lemma ext_free name : free "." (ext name) = true.
Proof. unfold ext. destruct (String.eqb name "react"), (String.eqb name "vue"); reflexivity. Qed.

Lemma ext_dash_free name : free "-" (ext name) = true.
Proof. unfold ext. destruct (String.eqb name "react"), (String.eqb name "vue"); reflexivity. Qed.

Lemma modePart_cases m :
  modePart m = "" \/ exists rest, modePart m = String "-" rest /\ m = Some rest /\ rest <> "".
Proof.
  destruct m as [[|c s]|]; [now left | right | now left].
  exists (String c s). repeat split. discriminate.
Qed.

Lemma filename_eq a b :
  free "-" (SnippetType.name a) = true -> free "-" (SnippetType.name b) = true ->
  filename a = filename b ->
  SnippetType.name a = SnippetType.name b /\
  modePart (SnippetType.mode a) = modePart (SnippetType.mode b).
Proof.
  intros Fa Fb E. unfold filename in E.
  rewrite <- (append_assoc (SnippetType.name a)), <- (append_assoc (SnippetType.name b)) in E.
  change ((SnippetType.name a ++ modePart (SnippetType.mode a)) ++
            String "." (ext (SnippetType.name a)) =
          (SnippetType.name b ++ modePart (SnippetType.mode b)) ++
            String "." (ext (SnippetType.name b))) in E.
  apply split_at_last in E as [E _]; try apply ext_free.
  destruct (modePart_cases (SnippetType.mode a)) as [Ma|(ra & Ma & _)],
           (modePart_cases (SnippetType.mode b)) as [Mb|(rb & Mb & _)];
    rewrite Ma, Mb in *.
  - rewrite !append_nil_r in E. auto.
  - rewrite append_nil_r in E. exfalso.
    rewrite E, free_append in Fa. simpl in Fa. now rewrite andb_false_r in Fa.
  - rewrite append_nil_r in E. exfalso.
    rewrite <- E, free_append in Fb. simpl in Fb. now rewrite andb_false_r in Fb.
  - apply split_at_first in E as [-> ->]; auto.
Qed.

Lemma versionDir_eq a b :
  versionDir a = versionDir b -> SnippetType.version a = SnippetType.version b.
Proof.
  unfold versionDir. intros E. inversion E as [E']. now apply string_of_number_inj.
Qed.

End DirectoryOutputFacts.

Module DirectoryOutputSpec.
Import TreeShape TreeFacts TreeWalk TreeWalkFacts DirectoryOutput Js JsFacts.
Import DirectoryOutputFacts.
Local Open Scope string_scope.

Lemma writeComponentFiles_content out data : forall parts,
  map content (writeComponentFiles out data parts) =
  map SnippetType.code (all_snippets (Group data)).
Proof.
  unfold writeComponentFiles. induction data as [|[k c] data IH]; intros parts; [reflexivity|].
  cbn [flat_map fst snd]. rewrite all_snippets_cons, !map_app, writeValue_content, IH.
  reflexivity.
Qed.

(** X11: the directory output has one file per snippet. [writeComponentFiles]
    writes the code of every snippet of the data, in the order of the data,
    one write per snippet. On component data a file is written exactly for
    each snippet of each component, into the directory made of the output
    directory, the four names that lead to the component (product,
    category, subcategory, component) and [v] followed by the version. *)
Theorem writeComponentFiles_one_file_per_snippet :
  (forall outputDir data,
     map content (writeComponentFiles outputDir data []) =
     map SnippetType.code (all_snippets (Group data))) /\
  (forall outputDir data w,
     isComponentData data = true ->
     (In w (writeComponentFiles outputDir data []) <->
      exists path nm ss sn,
        List.length path = 4%nat /\
        node_at path (Group data) = Some (Entry nm ss) /\ In sn ss /\
        w = mkFileWrite (outputDir :: path ++ [versionDir sn])%list
                        (filename sn) (SnippetType.code sn))).
Proof.
  split.
  - intros. apply writeComponentFiles_content.
  - intros outputDir data w Sh. apply (writeComponentFiles_in 3 data outputDir [] w Sh).
Qed.

Lemma writeComponentFiles_one_file_per_snippet_witness :
  In (mkFileWrite ["out"; "Ecommerce"; "Components"; "Product Overviews"; "Split"; "v4"]
                  "react.jsx" "<x/>")
     (writeComponentFiles "out" (Samples.page "Split" [Samples.X]) []) <->
  exists path nm ss sn,
    List.length path = 4%nat /\
    node_at path (Group (Samples.page "Split" [Samples.X])) = Some (Entry nm ss) /\
    In sn ss /\
    mkFileWrite ["out"; "Ecommerce"; "Components"; "Product Overviews"; "Split"; "v4"]
                "react.jsx" "<x/>" =
    mkFileWrite ("out" :: path ++ [versionDir sn])%list (filename sn) (SnippetType.code sn).
Proof.
  apply (proj2 writeComponentFiles_one_file_per_snippet "out"
           (Samples.page "Split" [Samples.X])).
  reflexivity.
Defined.

(** X12: which snippets get the same directory and file name. For
    snippets whose framework names hold no "-", the version directory
    name and the file name computed for two snippets (the strings handed
    to [path.join]) are the same exactly when the snippets agree on the
    framework name, on the version and on the mode (no mode and the empty
    mode count as the same). Two snippets of a component that agree on the
    three are written to the same path, whatever their code or dark-mode
    flag: the second write replaces the first. With a "-" in a framework
    name two different frameworks get the same strings. *)
Theorem directory_output_file_names :
  (forall a b,
     free "-" (SnippetType.name a) = true -> free "-" (SnippetType.name b) = true ->
     (target a = target b <->
      SnippetType.name a = SnippetType.name b /\
      SnippetType.version a = SnippetType.version b /\
      modePart (SnippetType.mode a) = modePart (SnippetType.mode b))) /\
  (forall outputDir pathParts key nm a b,
     SnippetType.name a = SnippetType.name b ->
     SnippetType.version a = SnippetType.version b ->
     modePart (SnippetType.mode a) = modePart (SnippetType.mode b) ->
     exists dir f,
       writeValue outputDir pathParts key (Entry nm [a; b]) =
       [mkFileWrite dir f (SnippetType.code a); mkFileWrite dir f (SnippetType.code b)]) /\
  (exists a b, SnippetType.name a <> SnippetType.name b /\ target a = target b).
Proof.
  split; [|split].
  - intros a b Fa Fb. unfold target. split.
    + intros E. apply pair_equal_spec in E as [Ev Ef].
      apply versionDir_eq in Ev. apply (filename_eq a b Fa Fb) in Ef as [En Em]. auto.
    + intros (En & Ev & Em). unfold versionDir, filename. now rewrite En, Ev, Em.
  - intros outputDir pathParts key nm a b En Ev Em.
    exists (outputDir :: pathParts ++ [key; versionDir a])%list, (filename a).
    cbn [writeValue map]. unfold versionDir, filename. now rewrite En, Ev, Em.
  - exists (SnippetType.mkSnippet "" "x-a" "html" 4 None false ""),
           (SnippetType.mkSnippet "" "x" "html" 4 (Some "a") false "").
    split; [discriminate | reflexivity].
Qed.

Lemma directory_output_file_names_witness :
  target Samples.X = target Samples.X' <->
  SnippetType.name Samples.X = SnippetType.name Samples.X' /\
  SnippetType.version Samples.X = SnippetType.version Samples.X' /\
  modePart (SnippetType.mode Samples.X) = modePart (SnippetType.mode Samples.X').
Proof.
  apply (proj1 directory_output_file_names Samples.X Samples.X'); reflexivity.
Defined.

End DirectoryOutputSpec.

Module AuthRetryFacts.
Import Errors Auth.
Local Open Scope Z_scope.

Section WithEnvironment.
Variable env : Environment.

(** [k] timeouts, then the page loads. *)
Lemma retryGoto_from_arrives url maxRetries k : forall n attempt c,
  attempt + Z.of_nat n = maxRetries + 1 ->
  (k < n)%nat ->
  (forall i, (i < k)%nat -> goto env (gotos c + i) = NavigationTimeout) ->
  goto env (gotos c + k) = Arrived ->
  retryGoto_from env n attempt maxRetries url c =
  (Returned tt, mkCounts (gotos c + k + 1) (submits c) (clockReads c) (reads c)).
Proof.
  induction k as [|k IH]; intros n attempt c Ha Hk Ht Hg.
  - destruct n as [|n]; [lia|]. cbn [retryGoto_from]. unfold bind, page_goto.
    rewrite Nat.add_0_r in Hg. rewrite Hg, Nat.add_0_r, Nat.add_1_r. reflexivity.
  - destruct n as [|n]; [lia|]. cbn [retryGoto_from]. unfold bind at 1, page_goto at 1.
    pose proof (Ht 0%nat ltac:(lia)) as H0. rewrite Nat.add_0_r in H0. rewrite H0.
    assert ((attempt =? maxRetries) = false) as -> by (apply Z.eqb_neq; lia).
    rewrite (IH n (attempt + 1)); cbn [gotos submits clockReads reads].
    + f_equal. f_equal. lia.
    + lia.
    + lia.
    + intros i Hi. replace (S (gotos c) + i)%nat with (gotos c + S i)%nat by lia.
      apply Ht. lia.
    + replace (S (gotos c) + k)%nat with (gotos c + S k)%nat by lia. exact Hg.
Qed.

(** [k] timeouts, then another failure. *)
Lemma retryGoto_from_fails url maxRetries e k : forall n attempt c,
  attempt + Z.of_nat n = maxRetries + 1 ->
  (k < n)%nat ->
  (forall i, (i < k)%nat -> goto env (gotos c + i) = NavigationTimeout) ->
  goto env (gotos c + k) = NavigationFailed e ->
  retryGoto_from env n attempt maxRetries url c =
  (Thrown e, mkCounts (gotos c + k + 1) (submits c) (clockReads c) (reads c)).
Proof.
  induction k as [|k IH]; intros n attempt c Ha Hk Ht Hg.
  - destruct n as [|n]; [lia|]. cbn [retryGoto_from]. unfold bind, page_goto.
    rewrite Nat.add_0_r in Hg. rewrite Hg, Nat.add_0_r, Nat.add_1_r. reflexivity.
  - destruct n as [|n]; [lia|]. cbn [retryGoto_from]. unfold bind at 1, page_goto at 1.
    pose proof (Ht 0%nat ltac:(lia)) as H0. rewrite Nat.add_0_r in H0. rewrite H0.
    assert ((attempt =? maxRetries) = false) as -> by (apply Z.eqb_neq; lia).
    rewrite (IH n (attempt + 1)); cbn [gotos submits clockReads reads].
    + f_equal. f_equal. lia.
    + lia.
    + lia.
    + intros i Hi. replace (S (gotos c) + i)%nat with (gotos c + S i)%nat by lia.
      apply Ht. lia.
    + replace (S (gotos c) + k)%nat with (gotos c + S k)%nat by lia. exact Hg.
Qed.

(** Nothing but timeouts. *)
Lemma retryGoto_from_gives_up url maxRetries n : forall attempt c,
  attempt + Z.of_nat (S n) = maxRetries + 1 ->
  (forall i, (i <= n)%nat -> goto env (gotos c + i) = NavigationTimeout) ->
  retryGoto_from env (S n) attempt maxRetries url c =
  (Thrown (DownloaderError
             ("Navigation to " ++ url ++ " failed after "
              ++ Js.string_of_number maxRetries ++ " attempts. Please re-run.")%string),
   mkCounts (gotos c + n + 1) (submits c) (clockReads c) (reads c)).
Proof.
  induction n as [|n IH]; intros attempt c Ha Ht.
  - cbn [retryGoto_from]. unfold bind, page_goto.
    pose proof (Ht 0%nat ltac:(lia)) as H0. rewrite Nat.add_0_r in H0. rewrite H0.
    assert ((attempt =? maxRetries) = true) as -> by (apply Z.eqb_eq; lia).
    unfold throw. f_equal. f_equal. lia.
  - cbn [retryGoto_from]. unfold bind at 1, page_goto at 1.
    pose proof (Ht 0%nat ltac:(lia)) as H0. rewrite Nat.add_0_r in H0. rewrite H0.
    assert ((attempt =? maxRetries) = false) as -> by (apply Z.eqb_neq; lia).
    change (retryGoto_from env (S n) (attempt + 1) maxRetries url
              (mkCounts (S (gotos c)) (submits c) (clockReads c) (reads c)) =
            (Thrown (DownloaderError
               ("Navigation to " ++ url ++ " failed after "
                ++ Js.string_of_number maxRetries ++ " attempts. Please re-run.")%string),
             mkCounts (gotos c + S n + 1) (submits c) (clockReads c) (reads c))).
    rewrite (IH (attempt + 1)); cbn [gotos submits clockReads reads].
    + f_equal. f_equal. lia.
    + lia.
    + intros i Hi. replace (S (gotos c) + i)%nat with (gotos c + S i)%nat by lia.
      apply Ht. lia.
Qed.

End WithEnvironment.

End AuthRetryFacts.

Module AuthRetrySpec.
Import Errors Auth AuthRetryFacts.
Local Open Scope Z_scope.

(** X13: [retryGoto] navigates at most [maxRetries] times. After [k]
    timeouts ([k] less than [maxRetries]) a navigation that succeeds ends
    it, [k + 1] navigations made, and a navigation that fails otherwise is
    thrown on as it is, without another try. When every navigation times
    out it throws the DownloaderError about the failed navigation after
    exactly [maxRetries] of them. With [maxRetries] zero or negative it
    returns at once without having navigated at all. It never touches the
    form, the clock or the terminal. *)
Theorem retryGoto_attempts (env : Environment) (url : string) (maxRetries : Z) (c : Counts) :
  (forall k,
     Z.of_nat k < maxRetries ->
     (forall i, (i < k)%nat -> goto env (gotos c + i) = NavigationTimeout) ->
     goto env (gotos c + k) = Arrived ->
     retryGoto env url maxRetries c =
     (Returned tt, mkCounts (gotos c + k + 1) (submits c) (clockReads c) (reads c))) /\
  (forall k e,
     Z.of_nat k < maxRetries ->
     (forall i, (i < k)%nat -> goto env (gotos c + i) = NavigationTimeout) ->
     goto env (gotos c + k) = NavigationFailed e ->
     retryGoto env url maxRetries c =
     (Thrown e, mkCounts (gotos c + k + 1) (submits c) (clockReads c) (reads c))) /\
  (1 <= maxRetries ->
   (forall i, Z.of_nat i < maxRetries -> goto env (gotos c + i) = NavigationTimeout) ->
   retryGoto env url maxRetries c =
   (Thrown (DownloaderError
              ("Navigation to " ++ url ++ " failed after "
               ++ Js.string_of_number maxRetries ++ " attempts. Please re-run.")%string),
    mkCounts (gotos c + Z.to_nat maxRetries) (submits c) (clockReads c) (reads c))) /\
  (maxRetries <= 0 -> retryGoto env url maxRetries c = (Returned tt, c)).
Proof.
  unfold retryGoto. split; [|split; [|split]].
  - intros k Hk Ht Hg. apply retryGoto_from_arrives; try assumption; lia.
  - intros k e Hk Ht Hg. apply retryGoto_from_fails; try assumption; lia.
  - intros Hm Ht. destruct (Z.to_nat maxRetries) as [|n] eqn:En; [lia|].
    rewrite (retryGoto_from_gives_up env url maxRetries n 1 c).
    + f_equal. f_equal. lia.
    + lia.
    + intros i Hi. apply Ht. lia.
  - intros Hm. replace (Z.to_nat maxRetries) with 0%nat by lia. reflexivity.
Qed.

Lemma retryGoto_attempts_witness :
  retryGoto AuthSamples.slow_page "https://tailwindcss.com/plus/login" 3 start =
  (Returned tt, mkCounts 3 0 0 0).
Proof.
  apply (proj1 (retryGoto_attempts AuthSamples.slow_page
                  "https://tailwindcss.com/plus/login" 3 start) 2%nat).
  - lia.
  - intros [|[|i]] Hi; [reflexivity | reflexivity | lia].
  - reflexivity.
Defined.

End AuthRetrySpec.

Module LoginFacts.
Import Errors Auth.
Local Open Scope Z_scope.

Section WithEnvironment.
Variable env : Environment.
Hypothesis clock_advances : forall n, now env n < now env (S n).

(** The loop ends before the time budget is used up one millisecond per
    turn. *)
Lemma resilientLogin_loop_ends startTime loginTimeout credentials fuel : forall c,
  (Z.to_nat (loginTimeout - (now env (clockReads c) - startTime)) < fuel)%nat ->
  exists r c1,
    resilientLogin_loop env fuel startTime loginTimeout credentials c = (r, c1) /\
    r <> OutOfFuel /\
    (submits c1 <= submits c +
                   Z.to_nat (loginTimeout - (now env (clockReads c) - startTime)))%nat /\
    gotos c1 = gotos c /\ reads c1 = reads c.
Proof.
  induction fuel as [|fuel IH]; intros c Hf; [lia|].
  cbn [resilientLogin_loop]. unfold bind at 1, Date_now at 1.
  destruct (now env (clockReads c) - startTime <? loginTimeout) eqn:Et.
  - apply Z.ltb_lt in Et.
    unfold bind at 1, submit_and_race at 1. cbn [gotos submits clockReads reads].
    set (c2 := mkCounts (gotos c) (S (submits c)) (S (clockReads c)) (reads c)).
    pose proof (clock_advances (clockReads c)) as Hc.
    assert (exists r c1,
              resilientLogin_loop env fuel startTime loginTimeout credentials c2 = (r, c1) /\
              r <> OutOfFuel /\
              (submits c1 <= submits c +
                 Z.to_nat (loginTimeout - (now env (clockReads c) - startTime)))%nat /\
              gotos c1 = gotos c /\ reads c1 = reads c) as Hrec.
    { destruct (IH c2) as (r & c1 & E & Hr & Hs & Hg & Hrd).
      - unfold c2. cbn [clockReads]. lia.
      - exists r, c1. split; [exact E|]. split; [exact Hr|].
        unfold c2 in Hs, Hg, Hrd. cbn [submits clockReads gotos reads] in Hs, Hg, Hrd.
        split; [lia | auto]. }
    destruct (race env (submits c) credentials);
      try exact Hrec;
      (eexists _, _; split; [reflexivity|]; split; [discriminate|];
       unfold c2; cbn [submits gotos reads]; split; [lia | auto]).
  - eexists _, _. split; [reflexivity|]. split; [discriminate|].
    cbn [submits gotos reads]. split; [lia | auto].
Qed.

End WithEnvironment.

End LoginFacts.

Module LoginSpec.
Import Errors Auth LoginFacts.
Local Open Scope Z_scope.

(** X14: [resilientLogin] does not wait for ever. With a clock that
    advances from one reading to the next (by a millisecond at least), the
    call ends: it returns one of its three outcomes or throws, after at
    most [loginTimeout] submits of the form, and without navigating or
    reading from the terminal. (Unrolling the loop [loginTimeout] + 1 times
    is enough.) *)
Theorem resilientLogin_ends (env : Environment) (fuel : nat) (loginTimeout : Z)
    (credentials : Credentials) (c : Counts) :
  (forall n, now env n < now env (S n)) ->
  (Z.to_nat loginTimeout < fuel)%nat ->
  exists r c1,
    resilientLogin env fuel loginTimeout credentials c = (r, c1) /\
    r <> OutOfFuel /\
    (submits c1 <= submits c + Z.to_nat loginTimeout)%nat /\
    gotos c1 = gotos c /\ reads c1 = reads c.
Proof.
  intros Hclock Hf. unfold resilientLogin, bind at 1, Date_now at 1.
  set (c0 := mkCounts (gotos c) (submits c) (S (clockReads c)) (reads c)).
  pose proof (Hclock (clockReads c)) as Hc.
  destruct (resilientLogin_loop_ends env Hclock (now env (clockReads c)) loginTimeout
              credentials fuel c0) as (r & c1 & E & Hr & Hs & Hg & Hrd).
  - unfold c0. cbn [clockReads]. lia.
  - exists r, c1. split; [exact E|]. split; [exact Hr|].
    unfold c0 in Hs, Hg, Hrd. cbn [submits clockReads gotos reads] in Hs, Hg, Hrd.
    split; [lia | auto].
Qed.

Lemma resilientLogin_ends_witness :
  exists r c1,
    resilientLogin wrong_password 3001 3000 (mkCredentials "me@example.com" "wrong") start
      = (r, c1) /\
    r <> OutOfFuel /\
    (submits c1 <= submits start + Z.to_nat 3000)%nat /\
    gotos c1 = gotos start /\ reads c1 = reads start.
Proof.
  apply (resilientLogin_ends wrong_password 3001 3000
           (mkCredentials "me@example.com" "wrong") start).
  - intros n. unfold wrong_password. cbn [now]. rewrite Nat2Z.inj_succ. lia.
  - lia.
Defined.

End LoginSpec.

Module LoginRoundFacts.
Import Errors Auth LoginRounds.
Local Open Scope Z_scope.

Section WithEnvironment.
Variable env : Environment.
Variables (loginUrl : string) (maxRetries loginTimeout : Z).
Hypothesis pages_load : forall n, goto env n = Arrived.
Hypothesis one_try : 1 <= maxRetries.
Hypothesis clock_slow : forall n, now env (S n) - now env n < loginTimeout.

Lemma retryGoto_loads c :
  retryGoto env loginUrl maxRetries c =
  (Returned tt, mkCounts (S (gotos c)) (submits c) (clockReads c) (reads c)).
Proof.
  unfold retryGoto. destruct (Z.to_nat maxRetries) as [|n] eqn:E; [lia|].
  cbn [retryGoto_from]. unfold bind, page_goto. rewrite pages_load. reflexivity.
Qed.

(** One submit settles [resilientLogin] when the race is not one of the
    two outcomes that fill the form again. *)
Lemma resilientLogin_first_submit fuel credentials c :
  resilientLogin env (S fuel) loginTimeout credentials c =
  match race env (submits c) credentials with
  | w_rejected e =>
      (Thrown e, mkCounts (gotos c) (S (submits c)) (S (S (clockReads c))) (reads c))
  | w_form_not_found =>
      (Thrown (DownloaderError "Login failed: could not find the login form on the page."),
       mkCounts (gotos c) (S (submits c)) (S (S (clockReads c))) (reads c))
  | w_bad_credentials =>
      (Returned bad_credentials,
       mkCounts (gotos c) (S (submits c)) (S (S (clockReads c))) (reads c))
  | w_success | w_context_destroyed_by_navigation =>
      (Returned success,
       mkCounts (gotos c) (S (submits c)) (S (S (clockReads c))) (reads c))
  | w_validation_failed | w_timeout =>
      resilientLogin_loop env fuel (now env (clockReads c)) loginTimeout credentials
        (mkCounts (gotos c) (S (submits c)) (S (S (clockReads c))) (reads c))
  end.
Proof.
  unfold resilientLogin, bind at 1, Date_now at 1.
  cbn [resilientLogin_loop]. unfold bind at 1, Date_now at 1.
  cbn [gotos submits clockReads reads].
  pose proof (clock_slow (clockReads c)) as Hc. apply Z.ltb_lt in Hc. rewrite Hc.
  unfold bind at 1, submit_and_race at 1. cbn [gotos submits clockReads reads].
  destruct (race env (submits c) credentials); reflexivity.
Qed.

Hypothesis terminal : isTTY env = true.

(** A round that ends in rejected credentials. *)
Lemma login_loop_rejected fuel credentials c :
  race env (submits c) credentials = w_bad_credentials ->
  login_loop env (S fuel) loginUrl maxRetries loginTimeout credentials c =
  if declines (read env (reads c)) then
    (Thrown (DownloaderError "User aborted after failed login attempt."),
     mkCounts (S (gotos c)) (S (submits c)) (S (S (clockReads c))) (S (reads c)))
  else
    login_loop env fuel loginUrl maxRetries loginTimeout
      (mkCredentials (trim (read env (S (reads c)))) (read env (S (S (reads c)))))
      (mkCounts (S (gotos c)) (S (submits c)) (S (S (clockReads c))) (S (S (S (reads c))))).
Proof.
  intros Hr. cbn [login_loop]. unfold bind at 1. rewrite retryGoto_loads.
  unfold bind at 1. rewrite resilientLogin_first_submit.
  cbn [gotos submits clockReads reads]. rewrite Hr, terminal. cbn [negb].
  unfold bind at 1, read_line at 1. cbn [gotos submits clockReads reads].
  unfold declines.
  destruct (String.eqb (toLowerCase (read env (reads c))) "n"
            || String.eqb (toLowerCase (read env (reads c))) "no"); reflexivity.
Qed.

(** A round that ends in a successful login. *)
Lemma login_loop_accepted fuel credentials c :
  race env (submits c) credentials = w_success ->
  login_loop env (S fuel) loginUrl maxRetries loginTimeout credentials c =
  (Returned tt, mkCounts (S (gotos c)) (S (submits c)) (S (S (clockReads c))) (reads c)).
Proof.
  intros Hr. cbn [login_loop]. unfold bind at 1. rewrite retryGoto_loads.
  unfold bind at 1. rewrite resilientLogin_first_submit.
  cbn [gotos submits clockReads reads]. rewrite Hr. reflexivity.
Qed.

(** [k] rounds of rejected credentials, each followed by an answer that
    does not decline. *)
Lemma login_loop_rounds first r0 k : forall fuel j c,
  reads c = (r0 + 3 * j)%nat ->
  (forall i, (i < k)%nat ->
     race env (submits c + i) (credentials_of_round env first r0 (j + i))
       = w_bad_credentials /\
     declines (read env (r0 + 3 * (j + i))) = false) ->
  login_loop env (k + fuel) loginUrl maxRetries loginTimeout
    (credentials_of_round env first r0 j) c =
  login_loop env fuel loginUrl maxRetries loginTimeout
    (credentials_of_round env first r0 (j + k))
    (mkCounts (gotos c + k) (submits c + k) (clockReads c + 2 * k) (reads c + 3 * k)).
Proof.
  induction k as [|k IH]; intros fuel j c Hr H.
  - cbn [Nat.add]. replace (j + 0)%nat with j by lia. f_equal.
    destruct c; cbn [gotos submits clockReads reads]. f_equal; lia.
  - change (S k + fuel)%nat with (S (k + fuel)).
    destruct (H 0%nat ltac:(lia)) as [Hb Hd]. rewrite !Nat.add_0_r in Hd.
    replace (submits c + 0)%nat with (submits c) in Hb by lia.
    replace (j + 0)%nat with j in Hb by lia.
    rewrite login_loop_rejected by exact Hb.
    rewrite Hr, Hd.
    replace (mkCredentials (trim (read env (S (r0 + 3 * j))))
                           (read env (S (S (r0 + 3 * j)))))
      with (credentials_of_round env first r0 (S j)).
    2:{ cbn [credentials_of_round]. repeat f_equal; lia. }
    rewrite (IH fuel (S j)); cbn [gotos submits clockReads reads].
    + f_equal; [f_equal; lia | f_equal; lia].
    + lia.
    + intros i Hi. destruct (H (S i) ltac:(lia)) as [Hb' Hd'].
      replace (S (submits c) + i)%nat with (submits c + S i)%nat by lia.
      replace (S j + i)%nat with (j + S i)%nat by lia. split; assumption.
Qed.

End WithEnvironment.

End LoginRoundFacts.

Module LoginRoundSpec.
Import Errors Auth LoginRounds LoginRoundFacts.
Local Open Scope Z_scope.

(** X15: [login] on a terminal keeps asking. Let the login page load, the
    clock stay within the login timeout between two readings, and the
    first [k] submits be answered by the bad-credentials message, each
    followed by an answer other than n or no (in any case of the letters:
    an empty line, a y, also an n with a blank before it). Round [i] submits
    the credentials typed after round [i - 1], the email trimmed and the
    password as typed. Then
    - if submit [k] is rejected too and the answer is n or no, [login]
      throws the user-aborted error and has read 3k + 1 lines;
    - if submit [k] succeeds, [login] returns and has read 3k lines;
    in both cases after k + 1 navigations and k + 1 submits. *)
Theorem login_asks_until_declined (env : Environment) (loginUrl : string)
    (maxRetries loginTimeout : Z) (first : Credentials) (k fuel : nat) (c : Counts) :
  isTTY env = true ->
  1 <= maxRetries ->
  (forall n, goto env n = Arrived) ->
  (forall n, now env (S n) - now env n < loginTimeout) ->
  (forall i, (i < k)%nat ->
     race env (submits c + i) (credentials_of_round env first (reads c) i)
       = w_bad_credentials /\
     declines (read env (reads c + 3 * i)) = false) ->
  (k < fuel)%nat ->
  (race env (submits c + k) (credentials_of_round env first (reads c) k)
     = w_bad_credentials ->
   declines (read env (reads c + 3 * k)) = true ->
   login env fuel loginUrl maxRetries loginTimeout first c =
   (Thrown (DownloaderError "User aborted after failed login attempt."),
    mkCounts (gotos c + k + 1) (submits c + k + 1) (clockReads c + 2 * k + 2)
             (reads c + 3 * k + 1))) /\
  (race env (submits c + k) (credentials_of_round env first (reads c) k) = w_success ->
   login env fuel loginUrl maxRetries loginTimeout first c =
   (Returned tt,
    mkCounts (gotos c + k + 1) (submits c + k + 1) (clockReads c + 2 * k + 2)
             (reads c + 3 * k))).
Proof.
  intros Ht Hm Hg Hc Hk Hf.
  assert (login env fuel loginUrl maxRetries loginTimeout first c =
          login_loop env (S (fuel - S k)) loginUrl maxRetries loginTimeout
            (credentials_of_round env first (reads c) k)
            (mkCounts (gotos c + k) (submits c + k) (clockReads c + 2 * k)
                      (reads c + 3 * k))) as E.
  { unfold login. replace fuel with (k + S (fuel - S k))%nat at 1 by lia.
    change first with (credentials_of_round env first (reads c) 0) at 1.
    rewrite (login_loop_rounds env loginUrl maxRetries loginTimeout Hg Hm Hc Ht
               first (reads c) k (S (fuel - S k)) 0%nat c).
    - reflexivity.
    - lia.
    - intros i Hi. cbn [Nat.add]. apply Hk. exact Hi. }
  split.
  - intros Hb Hd. rewrite E.
    rewrite (login_loop_rejected env loginUrl maxRetries loginTimeout Hg Hm Hc Ht)
      by exact Hb.
    cbn [gotos submits clockReads reads]. rewrite Hd.
    f_equal. f_equal; lia.
  - intros Hs. rewrite E.
    rewrite (login_loop_accepted env loginUrl maxRetries loginTimeout Hg Hm Hc)
      by exact Hs.
    cbn [gotos submits clockReads reads]. f_equal. f_equal; lia.
Qed.

Lemma login_asks_until_declined_witness :
  login AuthSamples.rejecting_account 3 "https://tailwindcss.com/plus/login" 3 15000
        (mkCredentials "me@example.com" "wrong") start =
  (Thrown (DownloaderError "User aborted after failed login attempt."),
   mkCounts 3 3 6 7).
Proof.
  apply (proj1 (login_asks_until_declined AuthSamples.rejecting_account
                  "https://tailwindcss.com/plus/login" 3 15000
                  (mkCredentials "me@example.com" "wrong") 2 3 start
                  eq_refl ltac:(lia) (fun _ => eq_refl)
                  ltac:(intros n; cbn [now AuthSamples.rejecting_account];
                        rewrite Nat2Z.inj_succ; lia)
                  ltac:(intros i Hi; split; [reflexivity|];
                        destruct i as [|[|i]]; [reflexivity | reflexivity | lia])
                  ltac:(lia))); reflexivity.
Defined.

End LoginRoundSpec.

Module TrimFacts.
Import Auth.

Lemma trimStart_head s :
  trimStart s = EmptyString \/
  exists a t, trimStart s = String a t /\ is_space a = false.
Proof.
  induction s as [|a s IH]; [left; reflexivity|].
  cbn [trimStart]. destruct (is_space a) eqn:E; [exact IH|].
  right. exists a, s. split; [reflexivity | exact E].
Qed.

Lemma trimEnd_head a s :
  is_space a = false -> exists t, trimEnd (String a s) = String a t.
Proof.
  intros E. cbn [trimEnd]. destruct (trimEnd s) as [|b r].
  - rewrite E. eexists; reflexivity.
  - eexists; reflexivity.
Qed.

Lemma trimEnd_idempotent s : trimEnd (trimEnd s) = trimEnd s.
Proof.
  induction s as [|a s IH]; [reflexivity|].
  cbn [trimEnd]. destruct (trimEnd s) as [|b r] eqn:E.
  - destruct (is_space a) eqn:Ea; [reflexivity|].
    cbn [trimEnd]. rewrite Ea. reflexivity.
  - change (trimEnd (String a (String b r))) with
      (match trimEnd (String b r) with
       | EmptyString => if is_space a then EmptyString else String a EmptyString
       | rest => String a rest
       end).
    rewrite IH. reflexivity.
Qed.

Lemma trim_idempotent s : trim (trim s) = trim s.
Proof.
  unfold trim. destruct (trimStart_head s) as [E | (a & t & E & Ea)]; rewrite E.
  - reflexivity.
  - destruct (trimEnd_head a t Ea) as [u Eu]. rewrite Eu.
    cbn [trimStart]. rewrite Ea. rewrite <- Eu. apply trimEnd_idempotent.
Qed.

Lemma free_trimStart c s : Js.free c s = true -> Js.free c (trimStart s) = true.
Proof.
  induction s as [|a s IH]; [reflexivity|].
  intros H. cbn [trimStart]. destruct (is_space a); [|exact H].
  cbn [Js.free] in H. apply andb_true_iff in H as [_ H]. auto.
Qed.

Lemma free_trimEnd c s : Js.free c s = true -> Js.free c (trimEnd s) = true.
Proof.
  induction s as [|a s IH]; [reflexivity|].
  intros H. cbn [Js.free] in H. apply andb_true_iff in H as [Ha H].
  specialize (IH H). cbn [trimEnd]. destruct (trimEnd s) as [|b r].
  - destruct (is_space a); [reflexivity|]. cbn [Js.free]. now rewrite Ha.
  - cbn [Js.free] in *. now rewrite Ha, IH.
Qed.

Lemma free_trim c s : Js.free c s = true -> Js.free c (trim s) = true.
Proof. intros H. apply free_trimEnd, free_trimStart, H. Qed.

(** What [trim] returns neither starts nor ends with white space. *)
Lemma trim_head s a t : trim s = String a t -> is_space a = false.
Proof.
  unfold trim. destruct (trimStart_head s) as [E | (b & u & E & Eb)]; rewrite E.
  - discriminate.
  - destruct (trimEnd_head b u Eb) as [v Ev]. rewrite Ev. intros H.
    injection H as <- _. exact Eb.
Qed.

End TrimFacts.

Module DiscoveryFacts.
Import Auth Discovery TrimFacts.

Lemma split_nonempty s : split s <> [].
Proof.
  destruct s as [|a s]; cbn [split]; [discriminate|].
  destruct (Ascii.eqb a newline); [discriminate|].
  destruct (split s); discriminate.
Qed.

Lemma split_free s : Forall (fun line => Js.free newline line = true) (split s).
Proof.
  induction s as [|a s IH]; cbn [split].
  - constructor; [reflexivity | constructor].
  - destruct (Ascii.eqb a newline) eqn:E.
    + constructor; [reflexivity | exact IH].
    + destruct (split s) as [|line lines].
      * constructor; [|constructor]. cbn [Js.free]. now rewrite E.
      * inversion IH as [|x l Hl Hr]; subst. constructor; [|exact Hr].
        cbn [Js.free]. now rewrite E, Hl.
Qed.

Lemma split_line s : Js.free newline s = true -> split s = [s].
Proof.
  induction s as [|a s IH]; [reflexivity|].
  intros H. cbn [Js.free] in H. apply andb_true_iff in H as [Ha H].
  cbn [split]. apply negb_true_iff in Ha. rewrite Ha, (IH H). reflexivity.
Qed.

Lemma split_app a b :
  split (a ++ String newline b) = (split a ++ split b)%list.
Proof.
  induction a as [|x a IH].
  - cbn [append split]. rewrite Ascii.eqb_refl. reflexivity.
  - change (String x a ++ String newline b)%string
      with (String x (a ++ String newline b)).
    cbn [split]. destruct (Ascii.eqb x newline); rewrite IH.
    + reflexivity.
    + pose proof (split_nonempty a) as Hne.
      destruct (split a) as [|line lines]; [now elim Hne|]. reflexivity.
Qed.

Lemma loadUrlsFromFile_app a b :
  loadUrlsFromFile (a ++ String newline b) =
  (loadUrlsFromFile a ++ loadUrlsFromFile b)%list.
Proof.
  unfold loadUrlsFromFile. rewrite split_app, map_app, filter_app. reflexivity.
Qed.

Lemma loadUrlsFromFile_line line :
  Js.free newline line = true -> trim line = line -> is_url_line line = true ->
  loadUrlsFromFile line = [line].
Proof.
  intros Hf Ht Hu. unfold loadUrlsFromFile. rewrite (split_line line Hf).
  cbn [map filter]. rewrite Ht, Hu. reflexivity.
Qed.

Lemma loadUrlsFromFile_file lines :
  Forall (fun line => Js.free newline line = true /\ trim line = line /\
                      is_url_line line = true) lines ->
  loadUrlsFromFile (file_of_lines lines) = lines.
Proof.
  induction 1 as [|line rest (Hf & Ht & Hu) _ IH]; [reflexivity|].
  cbn [file_of_lines]. rewrite loadUrlsFromFile_app, IH.
  rewrite (loadUrlsFromFile_line line Hf Ht Hu). reflexivity.
Qed.

Lemma loadUrlsFromFile_clean content :
  Forall (fun line => Js.free newline line = true /\ trim line = line /\
                      is_url_line line = true) (loadUrlsFromFile content).
Proof.
  unfold loadUrlsFromFile. apply Forall_forall. intros line Hin.
  apply filter_In in Hin as [Hin Hu]. apply in_map_iff in Hin as (l & <- & Hl).
  pose proof (split_free content) as Hf. rewrite Forall_forall in Hf.
  split; [apply free_trim, Hf, Hl|]. split; [apply trim_idempotent | exact Hu].
Qed.

End DiscoveryFacts.

Module DiscoverySpec.
Import Auth Discovery TrimFacts DiscoveryFacts.

(** [split] gives the lines of the text: joined by newlines they are the
    text again. *)
Lemma join_lines_split content : join_lines (split content) = content.
Proof.
  induction content as [|a s IH]; [reflexivity|].
  cbn [split]. pose proof (split_nonempty s) as Hne.
  destruct (Ascii.eqb a newline) eqn:E.
  - apply Ascii.eqb_eq in E. subst a.
    destruct (split s) as [|line lines]; [now elim Hne|].
    cbn [join_lines] in *. now rewrite IH.
  - destruct (split s) as [|line lines]; [now elim Hne|].
    destruct lines as [|l2 lines]; cbn [join_lines] in *; now rewrite <- IH.
Qed.

(** The URLs of a text given by its lines. *)
Lemma loadUrlsFromFile_join lines :
  lines <> [] -> Forall (fun line => Js.free newline line = true) lines ->
  loadUrlsFromFile (join_lines lines) = filter is_url_line (map trim lines).
Proof.
  induction lines as [|line rest IH]; intros Hne Hf; [now elim Hne|].
  inversion Hf as [|? ? Hl Hr]; subst.
  destruct rest as [|l2 rest].
  - cbn [join_lines]. unfold loadUrlsFromFile. now rewrite (split_line line Hl).
  - change (join_lines (line :: l2 :: rest))
      with (line ++ String newline (join_lines (l2 :: rest)))%string.
    rewrite loadUrlsFromFile_app, (IH ltac:(discriminate) Hr).
    unfold loadUrlsFromFile at 1. rewrite (split_line line Hl).
    change (line :: l2 :: rest) with ([line] ++ (l2 :: rest))%list.
    now rewrite map_app, filter_app.
Qed.

(** X16: [loadUrlsFromFile] on a file of ASCII text (where the white
    space [trim] removes is the white space of the model). The text of
    the file is its lines joined by newlines, and the URLs returned for a
    text given by its lines are, in the order of the lines, the lines
    without the white space around them that are then neither empty nor
    start with a number sign: a URL is returned exactly when it is such a
    line of the file. So every URL returned is not empty, does not start
    with a number sign, neither starts with white space nor changes under
    [trim], and holds no newline. Two files put one after the other with a
    newline between them give the URLs of the first followed by those of
    the second. Writing the returned URLs to a file, one per line, and
    loading that file gives the same URLs. *)
Theorem loadUrlsFromFile_lines (content more : string) :
  is_ascii content = true -> is_ascii more = true ->
  join_lines (split content) = content /\
  (forall lines,
     lines <> [] -> Forall (fun line => Js.free newline line = true) lines ->
     loadUrlsFromFile (join_lines lines) = filter is_url_line (map trim lines)) /\
  (forall url, In url (loadUrlsFromFile content) <->
     exists line, In line (split content) /\ trim line = url /\
                  url <> EmptyString /\ String.prefix "#" url = false) /\
  (forall url, In url (loadUrlsFromFile content) ->
     url <> EmptyString /\ String.prefix "#" url = false /\
     trim url = url /\
     (forall a rest, url = String a rest -> is_space a = false) /\
     Js.free newline url = true) /\
  loadUrlsFromFile (content ++ String newline more) =
    (loadUrlsFromFile content ++ loadUrlsFromFile more)%list /\
  loadUrlsFromFile (file_of_lines (loadUrlsFromFile content)) =
    loadUrlsFromFile content.
Proof.
  intros _ _.
  assert (forall url, is_url_line url = true <->
                      url <> EmptyString /\ String.prefix "#" url = false) as Hurl.
  { intros url. unfold is_url_line. rewrite andb_true_iff, negb_true_iff.
    destruct url as [|a r]; simpl; split; intros [H1 H2]; split; auto;
      try discriminate; try (now elim H1). }
  split; [apply join_lines_split|]. split; [apply loadUrlsFromFile_join|].
  split; [|split; [|split]].
  - intros url. unfold loadUrlsFromFile. rewrite filter_In, in_map_iff, Hurl. split.
    + intros ((line & E & Hin) & Hne & Hp). exists line. auto.
    + intros (line & Hin & E & Hne & Hp). split; [exists line; auto | auto].
  - intros url Hin.
    pose proof (loadUrlsFromFile_clean content) as Hc. rewrite Forall_forall in Hc.
    destruct (Hc url Hin) as (Hf & Ht & Hu).
    apply Hurl in Hu as [Hl Hp].
    split; [exact Hl|]. split; [exact Hp|]. split; [exact Ht|]. split; [|exact Hf].
    intros a rest E. apply (trim_head url a rest). now rewrite Ht.
  - apply loadUrlsFromFile_app.
  - apply loadUrlsFromFile_file, loadUrlsFromFile_clean.
Qed.

Lemma loadUrlsFromFile_lines_witness :
  let content := ("# smoke test" ++ String newline
                  "  https://tailwindcss.com/plus/ui-blocks/marketing/sections/heroes "
                  ++ String newline EmptyString ++ String newline "   # not this one")%string in
  let more := "https://tailwindcss.com/plus/ui-blocks/ecommerce/components/product-overviews"%string in
  loadUrlsFromFile (content ++ String newline more) =
  ["https://tailwindcss.com/plus/ui-blocks/marketing/sections/heroes"%string;
   "https://tailwindcss.com/plus/ui-blocks/ecommerce/components/product-overviews"%string].
Proof.
  intros content more.
  destruct (loadUrlsFromFile_lines content more eq_refl eq_refl)
    as (_ & _ & _ & _ & E & _).
  rewrite E. reflexivity.
Defined.

End DiscoverySpec.

Module DiscoveryLoopFacts.
Import Errors DiscoveryLoop.
Local Open Scope Z_scope.

Section WithPage.
Variable page : nat -> Attempt.

Lemma discoverUrls_from_found maxRetries urls k : forall n attempt made,
  attempt + Z.of_nat n = maxRetries + 1 ->
  (k < n)%nat ->
  (forall i, (i < k)%nat -> exists msg, page (made + i) = Failed msg) ->
  page (made + k) = Found urls ->
  discoverUrls_from page n attempt maxRetries made = (inl urls, (made + k + 1)%nat).
Proof.
  induction k as [|k IH]; intros n attempt made Ha Hk Hf Hu.
  - destruct n as [|n]; [lia|]. cbn [discoverUrls_from].
    rewrite Nat.add_0_r in Hu. rewrite Hu. f_equal. lia.
  - destruct n as [|n]; [lia|]. cbn [discoverUrls_from].
    destruct (Hf 0%nat ltac:(lia)) as [msg Hm]. rewrite Nat.add_0_r in Hm. rewrite Hm.
    cbv zeta. assert ((maxRetries <? attempt + 1) = false) as -> by (apply Z.ltb_ge; lia).
    rewrite (IH n (attempt + 1) (S made)).
    + f_equal. lia.
    + lia.
    + lia.
    + intros i Hi. replace (S made + i)%nat with (made + S i)%nat by lia.
      apply Hf. lia.
    + replace (S made + k)%nat with (made + S k)%nat by lia. exact Hu.
Qed.

Lemma discoverUrls_from_gives_up maxRetries msg n : forall attempt made,
  attempt + Z.of_nat (S n) = maxRetries + 1 ->
  (forall i, (i < n)%nat -> exists m, page (made + i) = Failed m) ->
  page (made + n) = Failed msg ->
  discoverUrls_from page (S n) attempt maxRetries made =
  (inr (DownloaderError
          ("URL discovery failed after " ++ Js.string_of_number maxRetries
           ++ " retries: " ++ msg)%string), (made + n + 1)%nat).
Proof.
  induction n as [|n IH]; intros attempt made Ha Hf Hl.
  - cbn [discoverUrls_from]. rewrite Nat.add_0_r in Hl. rewrite Hl. cbv zeta.
    assert ((maxRetries <? attempt + 1) = true) as -> by (apply Z.ltb_lt; lia).
    f_equal. lia.
  - destruct (Hf 0%nat ltac:(lia)) as [m Hm]. rewrite Nat.add_0_r in Hm.
    change (discoverUrls_from page (S (S n)) attempt maxRetries made) with
      (match page made with
       | Found urls => (@inl (list string) Error urls, S made)
       | Failed msg0 =>
           if maxRetries <? attempt + 1 then
             (inr (DownloaderError
                     ("URL discovery failed after " ++ Js.string_of_number maxRetries
                      ++ " retries: " ++ msg0)%string), S made)
           else discoverUrls_from page (S n) (attempt + 1) maxRetries (S made)
       end).
    rewrite Hm.
    assert ((maxRetries <? attempt + 1) = false) as -> by (apply Z.ltb_ge; lia).
    rewrite (IH (attempt + 1) (S made)).
    + f_equal. lia.
    + lia.
    + intros i Hi. replace (S made + i)%nat with (made + S i)%nat by lia.
      apply Hf. lia.
    + replace (S made + n)%nat with (made + S n)%nat by lia. exact Hl.
Qed.

End WithPage.

End DiscoveryLoopFacts.

Module DiscoveryLoopSpec.
Import Errors DiscoveryLoop DiscoveryLoopFacts.
Local Open Scope Z_scope.

(** X17: [discoverUrls] tries [maxRetries] + 1 times, whatever the error.
    - If the first [k] attempts throw ([k] at most [maxRetries]) and the
      next one finds the URLs, these are returned after [k] + 1
      navigations.
    - If all [maxRetries] + 1 attempts throw, the call throws the
      DownloaderError that names [maxRetries] and carries the message of
      the last error, after [maxRetries] + 1 navigations.
    - With a negative [maxRetries] the loop is not entered: the call throws
      the unexpected-failure error without a navigation. *)
Theorem discoverUrls_attempts (page : nat -> Attempt) (maxRetries : Z) :
  (forall k urls,
     Z.of_nat k <= maxRetries ->
     (forall i, (i < k)%nat -> exists msg, page i = Failed msg) ->
     page k = Found urls ->
     discoverUrls page maxRetries = (inl urls, S k)) /\
  (forall msg,
     0 <= maxRetries ->
     (forall i, Z.of_nat i < maxRetries -> exists m, page i = Failed m) ->
     page (Z.to_nat maxRetries) = Failed msg ->
     discoverUrls page maxRetries =
     (inr (DownloaderError
             ("URL discovery failed after " ++ Js.string_of_number maxRetries
              ++ " retries: " ++ msg)%string), S (Z.to_nat maxRetries))) /\
  (maxRetries < 0 ->
   discoverUrls page maxRetries =
   (inr (DownloaderError "URL discovery failed unexpectedly"), 0%nat)).
Proof.
  split; [|split].
  - intros k urls Hk Hf Hu. unfold discoverUrls.
    rewrite (discoverUrls_from_found page maxRetries urls k _ 0 0%nat).
    + f_equal. lia.
    + lia.
    + lia.
    + exact Hf.
    + exact Hu.
  - intros msg Hm Hf Hl. unfold discoverUrls.
    replace (Z.to_nat (maxRetries + 1)) with (S (Z.to_nat maxRetries)) by lia.
    rewrite (discoverUrls_from_gives_up page maxRetries msg (Z.to_nat maxRetries) 0 0%nat).
    + f_equal. lia.
    + lia.
    + intros i Hi. apply Hf. lia.
    + exact Hl.
  - intros Hm. unfold discoverUrls.
    replace (Z.to_nat (maxRetries + 1)) with 0%nat by lia. reflexivity.
Qed.

Lemma discoverUrls_attempts_witness :
  discoverUrls flaky_listing 3 =
  (inl ["https://tailwindcss.com/plus/ui-blocks/marketing/sections/heroes"%string;
        "https://tailwindcss.com/plus/ui-blocks/marketing/sections/cta-sections"%string],
   3%nat).
Proof.
  apply (proj1 (discoverUrls_attempts flaky_listing 3) 2%nat).
  - lia.
  - intros i Hi. exists "Timeout 30000ms exceeded."%string.
    destruct i as [|[|i]]; [reflexivity | reflexivity | lia].
  - reflexivity.
Defined.

End DiscoveryLoopSpec.

Module LoggingFacts.
Import Logging.

Lemma level_close this : level (close this) = level this.
Proof. unfold close. destruct (logStream this); reflexivity. Qed.

Lemma logStream_close this : logStream (close this) = None.
Proof. unfold close. destruct (logStream this) eqn:E; [reflexivity | exact E]. Qed.

Lemma level_call c this out : level (fst (call c (this, out))) = level this.
Proof.
  destruct c as [[identifier|] l message|]; cbn [call fst]; auto using level_close.
Qed.

Lemma level_run calls : forall this out,
  level (fst (run calls (this, out))) = level this.
Proof.
  induction calls as [|c calls IH]; intros this out; [reflexivity|].
  change (run (c :: calls) (this, out)) with (run calls (call c (this, out))).
  pose proof (level_call c this out) as H.
  destruct (call c (this, out)) as [this' out']. rewrite IH. exact H.
Qed.

Lemma run_cons c calls st : run (c :: calls) st = run calls (call c st).
Proof. reflexivity. Qed.

Lemma run_app before after st : run (before ++ after) st = run after (run before st).
Proof. unfold run. apply fold_left_app. Qed.

Lemma call_log this identifier l message out :
  call (Log identifier l message) (this, out) =
  (this, _log this l (text this identifier message) (stream_of l) out).
Proof.
  destruct identifier as [i|], l; reflexivity.
Qed.

(** Every call that passes the level writes one line, the others none. *)
Lemma run_written calls : forall this out,
  written (snd (run calls (this, out))) =
  (written out + List.length (filter (passes this) calls))%nat.
Proof.
  induction calls as [|c calls IH]; intros this out.
  - cbn. lia.
  - rewrite run_cons. destruct c as [identifier l message|].
    + rewrite call_log, IH. cbn [filter passes]. unfold _log.
      destruct (value l <? value (level this))%Z; cbn [negb]; [lia|].
      destruct (logStream this); [|destruct (stream_of l)];
        unfold written; cbn [stdout stderr file List.length];
        rewrite ?length_app; cbn [List.length]; lia.
    + cbn [call]. rewrite IH. cbn [filter passes].
      f_equal. f_equal. apply filter_ext. intros [i l m|]; [|reflexivity].
      cbn [passes]. now rewrite level_close.
Qed.

Lemma stdout_line_log l message :
  stream_of l = to_stdout ->
  stdout_line ("[" ++ levelNames l ++ "] " ++ message)%string.
Proof.
  destruct l; try discriminate; intros _; [left | right]; cbn;
    rewrite ?Ascii.eqb_refl; destruct message; reflexivity.
Qed.

Lemma stderr_line_log l message :
  stream_of l = to_stderr ->
  stderr_line ("[" ++ levelNames l ++ "] " ++ message)%string.
Proof.
  destruct l; try discriminate; intros _; [left | right]; cbn;
    rewrite ?Ascii.eqb_refl; destruct message; reflexivity.
Qed.

(** The console streams keep their levels apart. *)
Lemma run_streams calls : forall this out,
  Forall stdout_line (stdout out) -> Forall stderr_line (stderr out) ->
  Forall stdout_line (stdout (snd (run calls (this, out)))) /\
  Forall stderr_line (stderr (snd (run calls (this, out)))).
Proof.
  induction calls as [|c calls IH]; intros this out Ho He; [split; assumption|].
  rewrite run_cons. destruct c as [identifier l message|]; [|apply IH; assumption].
  rewrite call_log. unfold _log.
  destruct (value l <? value (level this))%Z; [apply IH; assumption|].
  destruct (logStream this); [apply IH; assumption|].
  destruct (stream_of l) eqn:E; apply IH; cbn [stdout stderr]; try assumption.
  - apply Forall_app. split; [assumption|].
    apply Forall_cons; [|apply Forall_nil]. now apply stdout_line_log.
  - apply Forall_app. split; [assumption|].
    apply Forall_cons; [|apply Forall_nil]. now apply stderr_line_log.
Qed.

(** A logger at level INFO writes no DEBUG line. *)
Lemma run_no_debug calls : forall this out,
  level this <> DEBUG ->
  Forall no_debug_line (stdout out ++ stderr out ++ file out) ->
  Forall no_debug_line (stdout (snd (run calls (this, out)))
                        ++ stderr (snd (run calls (this, out)))
                        ++ file (snd (run calls (this, out)))).
Proof.
  induction calls as [|c calls IH]; intros this out Hl H; [exact H|].
  rewrite run_cons. destruct c as [identifier l message|].
  - rewrite call_log. apply IH; [exact Hl|]. unfold _log.
    destruct (value l <? value (level this))%Z eqn:E; [exact H|].
    assert (l <> DEBUG) as Hd.
    { intros ->. destruct (level this); try discriminate E. now elim Hl. }
    assert (forall tail, no_debug_line ("[" ++ levelNames l ++ "] " ++ tail)%string) as Hline.
    { intros tail. destruct l; [now elim Hd | reflexivity | reflexivity | reflexivity]. }
    rewrite !Forall_app in H. destruct H as (H1 & H2 & H3).
    destruct (logStream this); [|destruct (stream_of l)]; cbn [stdout stderr file];
      rewrite !Forall_app; repeat split; try assumption;
      constructor; [|constructor| |constructor| |constructor]; apply Hline.
  - cbn [call]. apply IH; [now rewrite level_close | exact H].
Qed.

(** With the stream open and no [close], the console stays silent. *)
Lemma run_to_file calls : forall this out path,
  logStream this = Some path -> existsb is_close calls = false ->
  stdout (snd (run calls (this, out))) = stdout out /\
  stderr (snd (run calls (this, out))) = stderr out.
Proof.
  induction calls as [|c calls IH]; intros this out path Hs Hc; [split; reflexivity|].
  rewrite run_cons. cbn [existsb] in Hc. apply orb_false_iff in Hc as [Hc1 Hc2].
  destruct c as [identifier l message|]; [|discriminate Hc1].
  rewrite call_log. destruct (IH this (_log this l (text this identifier message)
                                         (stream_of l) out) path Hs Hc2) as [E1 E2].
  rewrite E1, E2. unfold _log.
  destruct (value l <? value (level this))%Z; [split; reflexivity|].
  rewrite Hs. split; reflexivity.
Qed.

(** Without a stream nothing is written to the file, and none is opened. *)
Lemma run_to_console calls : forall this out,
  logStream this = None ->
  file (snd (run calls (this, out))) = file out.
Proof.
  induction calls as [|c calls IH]; intros this out Hs; [reflexivity|].
  rewrite run_cons. destruct c as [identifier l message|].
  - rewrite call_log, IH by exact Hs. unfold _log.
    destruct (value l <? value (level this))%Z; [reflexivity|].
    rewrite Hs. destruct (stream_of l); reflexivity.
  - cbn [call]. rewrite IH; [reflexivity | apply logStream_close].
Qed.

Lemma constructor_stream options :
  logStream (constructor options) =
  if truthy (o_log options) then o_log options else None.
Proof. reflexivity. Qed.

End LoggingFacts.

Module LoggingSpec.
Import Logging LoggingFacts.

(** X18: where the lines of a new [Logger] go, for any sequence of calls
    of its four methods (directly or through a prefixed logger) and of
    [close].
    - Every call at or above the level of the logger writes exactly one
      line, the others none.
    - Lines given to [console.log] start with the DEBUG or INFO tag, lines
      given to [console.error] with the WARN or ERROR tag.
    - Without the debug option no DEBUG line is written anywhere.
    - With a log path and until [close] is called, nothing is printed on
      the console, warnings and errors included.
    - Without a log path (or with the empty string) nothing is written to
      a file.
    - After [close] the file gets no further line: later lines go to the
      console. *)
Theorem Logger_sinks (options : LoggerOptions) (calls : list Call) :
  written (output options calls) =
    List.length (filter (passes (constructor options)) calls) /\
  Forall stdout_line (stdout (output options calls)) /\
  Forall stderr_line (stderr (output options calls)) /\
  (o_debug options <> Some true ->
   forall line,
     In line (stdout (output options calls) ++ stderr (output options calls)
              ++ file (output options calls)) ->
     String.prefix "[DEBUG]" line = false) /\
  (truthy (o_log options) = true -> existsb is_close calls = false ->
   stdout (output options calls) = [] /\ stderr (output options calls) = []) /\
  (truthy (o_log options) = false -> file (output options calls) = []) /\
  (forall before after,
     calls = before ++ Close :: after ->
     file (output options calls) = file (output options before) /\
     written (output options calls) =
       (written (output options before)
        + List.length (filter (passes (constructor options)) after))%nat).
Proof.
  unfold output. repeat split.
  - rewrite run_written. reflexivity.
  - apply run_streams; constructor.
  - apply run_streams; constructor.
  - intros Hd. apply Forall_forall.
    apply (run_no_debug calls (constructor options) silent); [|constructor].
    unfold constructor. cbn [level].
    destruct (o_debug options) as [[|]|]; [now elim Hd | discriminate | discriminate].
  - destruct (o_log options) as [path|] eqn:E; [|discriminate].
    eapply (run_to_file calls (constructor options) silent path); [|assumption].
    rewrite constructor_stream, E. now rewrite H.
  - destruct (o_log options) as [path|] eqn:E; [|discriminate].
    eapply (run_to_file calls (constructor options) silent path); [|assumption].
    rewrite constructor_stream, E. now rewrite H.
  - intros H. rewrite run_to_console; [reflexivity|].
    rewrite constructor_stream. now rewrite H.
  - subst calls. rewrite run_app, run_cons.
    destruct (run before (constructor options, silent)) as [this out].
    cbn [call snd]. apply run_to_console, logStream_close.
  - subst calls. rewrite run_app, run_cons.
    pose proof (level_run before (constructor options) silent) as Hl.
    destruct (run before (constructor options, silent)) as [this out].
    cbn [call snd fst] in *. rewrite run_written. f_equal. f_equal.
    apply filter_ext. intros [i l m|]; [|reflexivity].
    cbn [passes]. now rewrite level_close, Hl.
Qed.

End LoggingSpec.

Module CliFacts.
Import Cli.
Local Open Scope string_scope.

Lemma length_append (a b : string) :
  String.length (a ++ b) = (String.length a + String.length b)%nat.
Proof. induction a as [|x a IH]; cbn; [reflexivity | now rewrite IH]. Qed.

Lemma endsWith_append base suffix : endsWith (base ++ suffix) suffix = true.
Proof.
  induction base as [|a base IH].
  - cbn [append]. destruct suffix; cbn [endsWith]; now rewrite String.eqb_refl.
  - change (String a base ++ suffix) with (String a (base ++ suffix)).
    cbn [endsWith]. rewrite IH. apply orb_true_r.
Qed.

Lemma endsWith_split s suffix :
  endsWith s suffix = true -> exists base, s = base ++ suffix.
Proof.
  induction s as [|a s IH]; cbn [endsWith]; intros H.
  - rewrite orb_false_r in H. apply String.eqb_eq in H. exists "". now subst.
  - apply orb_true_iff in H as [H|H].
    + apply String.eqb_eq in H. exists "". now subst.
    + destruct (IH H) as [base ->]. exists (String a base). reflexivity.
Qed.

Lemma replace_json_append base : replace_json (base ++ ".json") = base ++ ".log".
Proof.
  induction base as [|a base IH]; [reflexivity|].
  change (String a base ++ ".json") with (String a (base ++ ".json")).
  cbn [replace_json].
  destruct (String.eqb (String a (base ++ ".json")) ".json") eqn:E.
  - apply String.eqb_eq in E. apply (f_equal String.length) in E.
    cbn [String.length] in E. rewrite length_append in E. cbn in E. lia.
  - rewrite IH. reflexivity.
Qed.

Lemma append_neq_lengths (a b : string) :
  String.length a <> String.length b -> a <> b.
Proof. intros H E. now subst. Qed.

End CliFacts.

Module CliSpec.
Import Cli CliFacts.
Local Open Scope string_scope.

(** X19: the log path of the bare [--log] flag. For every output path,
    given or default, the log path [parseArgs] computes is a string that
    ends with .log and differs from the output path, so the log stream is
    never opened on the output; for an output [base].json it is [base].log,
    for any other output it is the output followed by .log. A log path
    given as a value, and a flag left out or negated, are passed on as they
    are. With a version that does not end with .json, the two default
    outputs (file and directory) give the same default log path. *)
Theorem parseArgs_log_path (config : Names) (argv : Argv) :
  (forall log,
     argv_log argv = log_boolean true ->
     snd (parseArgs config argv) = log ->
     exists path,
       log = log_string path /\
       path <> fst (parseArgs config argv) /\
       endsWith path ".log" = true /\
       (forall base, fst (parseArgs config argv) = base ++ ".json" -> path = base ++ ".log") /\
       (endsWith (fst (parseArgs config argv)) ".json" = false ->
        path = fst (parseArgs config argv) ++ ".log")) /\
  (argv_log argv <> log_boolean true -> snd (parseArgs config argv) = argv_log argv) /\
  (falsy (argv_output argv) = true ->
   endsWith (outputBase config ++ "-" ++ version config) ".json" = false ->
   argv_log argv = log_boolean true ->
   snd (parseArgs config argv) =
     log_string (outputBase config ++ "-" ++ version config ++ ".log")).
Proof.
  unfold parseArgs. cbn [fst snd]. split; [|split].
  - intros log Hl <-. rewrite Hl. cbn [resolve_log].
    set (output := resolve_output config argv).
    destruct (endsWith output ".json") eqn:E.
    + destruct (endsWith_split output ".json" E) as [base Hb].
      exists (replace_json output). split; [reflexivity|].
      rewrite Hb, replace_json_append. split; [|split; [|split]].
      * apply append_neq_lengths. rewrite !length_append. cbn. lia.
      * apply endsWith_append.
      * intros base' Hb'. f_equal.
        assert (String.length base = String.length base') as Hlen.
        { apply (f_equal String.length) in Hb'. rewrite !length_append in Hb'.
          cbn in Hb'. lia. }
        clear -Hb' Hlen. revert base' Hb' Hlen.
        induction base as [|a base IH]; intros [|a' base'] Hb' Hlen;
          try discriminate Hlen; [reflexivity|].
        cbn [append] in Hb'. injection Hb' as -> Hb'. f_equal.
        apply IH; [exact Hb' | now injection Hlen].
      * intros H. discriminate H.
    + exists (output ++ ".log"). split; [reflexivity|]. split; [|split; [|split]].
      * apply not_eq_sym, append_neq_lengths. rewrite length_append. cbn. lia.
      * apply endsWith_append.
      * intros base Hb. rewrite Hb, endsWith_append in E. discriminate.
      * reflexivity.
  - intros Hl. destruct (argv_log argv) as [|[|]|path]; try reflexivity. now elim Hl.
  - intros Ho Hv Hl. rewrite Hl. cbn [resolve_log]. unfold resolve_output.
    destruct (argv_output argv) as [[|a s]|]; try discriminate Ho;
      destruct (argv_outputFormat argv).
    all: try (unfold config_output;
              replace (outputBase config ++ "-" ++ version config ++ ".json")
                with ((outputBase config ++ "-" ++ version config) ++ ".json")
                by (now rewrite <- !JsFacts.append_assoc);
              rewrite endsWith_append, replace_json_append;
              now rewrite <- !JsFacts.append_assoc).
    all: rewrite Hv; now rewrite <- !JsFacts.append_assoc.
Qed.

End CliSpec.

Module StoreMergeSpec.
Import Store StoreMerge Effect TreeShape StoreFacts StoreMergeFacts.

(** X20: what [mergeComponentData] writes in the store of objects. Merging
    a partial result into an accumulator that shares no object with it
    (both component data, neither reaching an object twice, the partial
    result under names that no object inherits)
    - returns, and changes no object outside the accumulator: every cell
      that existed and is none of the accumulator's reads as before, the
      objects and arrays of the partial result among them;
    - never changes a snippet object;
    - leaves an accumulator that reaches no object twice, made of its old
      objects, of objects created by the merge, and of snippet objects of
      the partial result: the two share snippets only, never an entry
      object or a [snippets] array, so a later merge into the accumulator
      cannot change the partial result. *)
Theorem mergeComponentData_writes_the_target_only (h : Heap) (target source : Addr)
    (t s : Tree) (fpt fps : list Addr) :
  tree h target (Group t) fpt -> tree h source (Group s) fps ->
  isComponentData t = true -> isComponentData s = true ->
  plain_names (Group s) = true ->
  NoDup fpt -> NoDup fps -> (forall x, In x fpt -> ~ In x fps) ->
  exists h' r fpt',
    StoreMerge.mergeComponentData 4 h target source = Some h' /\
    tree h' target (Group r) fpt' /\
    (forall x, (x < List.length h)%nat -> ~ In x fpt -> read h' x = read h x) /\
    (forall x, In x fps -> read h' x = read h x) /\
    (forall x sn, read h x = Some (CSnip sn) -> read h' x = Some (CSnip sn)) /\
    NoDup fpt' /\
    (forall x, In x fpt' ->
       In x fpt \/ (List.length h <= x)%nat \/
       (In x fps /\ exists sn, read h' x = Some (CSnip sn))) /\
    (forall x, In x fpt' -> In x fps ->
       forall props elems, read h' x <> Some (CObj props) /\ read h' x <> Some (CArr elems)).
Proof.
  intros Tt Ts St Ss Ps Nt Ns Dj.
  destruct (mergeComponentData_in_store h target source t s fpt fps 4%nat
              Tt Ts St Ss Ps Nt Ns Dj (le_n 4))
    as (h' & r & fpt' & E1 & _ & _ & Tr & _ & (Nf & Hin & _ & Hframe & Hsnip)).
  assert (forall x, In x fpt' ->
            In x fpt \/ (List.length h <= x)%nat \/
            (In x fps /\ exists sn, read h' x = Some (CSnip sn))) as Hparts.
  { intros x Hx. destruct (Hin x Hx) as [H|[(H & sn & Hs)|H]]; auto.
    right. right. split; [exact H|]. exists sn. now apply Hsnip. }
  exists h', r, fpt'. repeat (split; [assumption|]).
  split; [|split; [exact Hsnip|split; [exact Nf|split; [exact Hparts|]]]].
  - intros x Hx. apply Hframe.
    + exact (tree_lt h source (Group s) fps Ts x Hx).
    + intros Hxt. exact (Dj x Hxt Hx).
  - intros x Hx Hs props elems.
    destruct (Hparts x Hx) as [H|[H|(_ & sn & Hsn)]].
    + now elim (Dj x H Hs).
    + pose proof (tree_lt h source (Group s) fps Ts x Hs). lia.
    + rewrite Hsn. split; discriminate.
Qed.

Lemma mergeComponentData_writes_the_target_only_witness :
  exists h' r fpt',
    StoreMerge.mergeComponentData 4 SampleStore.heap
      SampleStore.accumulator SampleStore.partial = Some h' /\
    tree h' SampleStore.accumulator (Group r) fpt' /\
    (forall x, (x < List.length SampleStore.heap)%nat ->
               ~ In x [SampleStore.accumulator] -> read h' x = read SampleStore.heap x) /\
    (forall x, In x SampleStore.partial_footprint -> read h' x = read SampleStore.heap x) /\
    (forall x sn, read SampleStore.heap x = Some (CSnip sn) -> read h' x = Some (CSnip sn)) /\
    NoDup fpt' /\
    (forall x, In x fpt' ->
       In x [SampleStore.accumulator] \/ (List.length SampleStore.heap <= x)%nat \/
       (In x SampleStore.partial_footprint /\ exists sn, read h' x = Some (CSnip sn))) /\
    (forall x, In x fpt' -> In x SampleStore.partial_footprint ->
       forall props elems, read h' x <> Some (CObj props) /\ read h' x <> Some (CArr elems)).
Proof.
  apply (mergeComponentData_writes_the_target_only
           SampleStore.heap SampleStore.accumulator SampleStore.partial
           [] (Samples.page "Split" [Samples.X])
           [SampleStore.accumulator] SampleStore.partial_footprint).
  - exact StoreSpec.sample_accumulator_tree.
  - exact StoreSpec.sample_partial_tree.
  - reflexivity.
  - reflexivity.
  - reflexivity.
  - repeat constructor. intros [].
  - unfold SampleStore.partial_footprint.
    repeat (constructor; [simpl; intuition lia|]). constructor.
  - intros x [<-|[]]. unfold SampleStore.partial_footprint, SampleStore.accumulator.
    simpl. intuition lia.
Defined.

End StoreMergeSpec.



Module ParseIntFacts.
Import Auth FormatControls.
Local Open Scope Z_scope.

Lemma digits_value_acc d : forall acc,
  digits_value (Z.pos acc) (DecimalString.NilEmpty.string_of_uint d) =
  Z.pos (Pos.of_uint_acc d acc).
Proof.
  induction d; intros acc;
    cbn [DecimalString.NilEmpty.string_of_uint digits_value Pos.of_uint_acc];
    [reflexivity|..];
    match goal with
    | |- context [Js.is_digit ?a] => change (Js.is_digit a) with true; cbv iota
    end;
    rewrite <- IHd; f_equal; unfold digit_value;
    match goal with
    | |- context [nat_of_ascii ?a] =>
        let v := eval vm_compute in (Z.of_nat (nat_of_ascii a)) in
        change (Z.of_nat (nat_of_ascii a)) with v
    end; lia.
Qed.

Lemma digits_value_uint d :
  digits_value 0 (DecimalString.NilEmpty.string_of_uint d) = Z.of_uint d.
Proof.
  unfold Z.of_uint.
  induction d; cbn [DecimalString.NilEmpty.string_of_uint digits_value Pos.of_uint];
    [reflexivity|..];
    match goal with
    | |- context [Js.is_digit ?a] => change (Js.is_digit a) with true; cbv iota
    end;
    [exact IHd|..];
    cbn [Z.of_N]; rewrite <- digits_value_acc; f_equal.
Qed.

(** The decimal string of a positive number starts with a digit. *)
Lemma uint_head p :
  exists a rest,
    DecimalString.NilEmpty.string_of_uint (Pos.to_uint p) = String a rest /\
    Js.is_digit a = true.
Proof.
  pose proof (JsFacts.uint_nonempty p) as Hn.
  pose proof (JsFacts.uint_all_digits (Pos.to_uint p)) as Hd.
  destruct (DecimalString.NilEmpty.string_of_uint (Pos.to_uint p)) as [|a rest];
    [now elim Hn|].
  exists a, rest. split; [reflexivity|].
  cbn [Js.all_digits] in Hd. now apply andb_true_iff in Hd.
Qed.

Lemma digit_not_space a : Js.is_digit a = true -> is_space a = false.
Proof.
  unfold Js.is_digit, is_space. intros H. apply andb_true_iff in H as [H1 H2].
  apply Nat.leb_le in H1, H2.
  destruct (nat_of_ascii a <=? 13)%nat eqn:E1; [apply Nat.leb_le in E1; lia|].
  rewrite andb_false_r. cbn [orb]. apply Nat.eqb_neq. lia.
Qed.

Lemma digit_not_sign a : Js.is_digit a = true -> a <> "-"%char /\ a <> "+"%char.
Proof. intros H. split; intros ->; discriminate H. Qed.

Lemma parseInt_digits a rest :
  Js.is_digit a = true ->
  parseInt (String a rest) = Some (digits_value 0 (String a rest)).
Proof.
  intros Ha. unfold parseInt. cbn [trimStart]. rewrite (digit_not_space a Ha).
  destruct (digit_not_sign a Ha) as [Hm Hp].
  destruct (Ascii.eqb_spec a "-"%char) as [->|_]; [now elim Hm|].
  destruct (Ascii.eqb_spec a "+"%char) as [->|_]; [now elim Hp|].
  assert (match String a rest with
          | String "-" r => (-1, r)
          | String "+" r => (1, r)
          | _ => (1, String a rest)
          end = (1, String a rest)) as ->.
  { destruct a as [[] [] [] [] [] [] [] []]; try reflexivity;
      [now elim Hp | now elim Hm]. }
  rewrite Ha. f_equal. lia.
Qed.

(** [parseInt(String(z), 10)] is [z]. *)
Lemma parseInt_string_of_number z : parseInt (Js.string_of_number z) = Some z.
Proof.
  unfold Js.string_of_number. destruct z as [|p|p];
    cbn [Z.to_int DecimalString.NilEmpty.string_of_int].
  - reflexivity.
  - destruct (uint_head p) as (a & rest & E & Ha).
    rewrite E, (parseInt_digits a rest Ha), <- E, digits_value_uint.
    unfold Z.of_uint. now rewrite DecimalPos.Unsigned.of_to.
  - destruct (uint_head p) as (a & rest & E & Ha).
    unfold parseInt. cbn [trimStart]. change (is_space "-") with false. cbv iota.
    rewrite E, Ha, <- E, digits_value_uint.
    unfold Z.of_uint. rewrite DecimalPos.Unsigned.of_to. reflexivity.
Qed.

End ParseIntFacts.

Module FormatControlsFacts.
Import Errors Auth FormatControls ParseIntFacts.
Local Open Scope Z_scope.

Lemma digits_value_stop ds tail : forall acc,
  Js.all_digits ds = true -> Js.stops_digits tail = true ->
  digits_value acc (ds ++ tail) = digits_value acc ds.
Proof.
  induction ds as [|a ds IH]; intros acc Hd Ht.
  - cbn [append digits_value]. destruct tail as [|b tail]; [reflexivity|].
    cbn [Js.stops_digits] in Ht. cbn [digits_value].
    apply negb_true_iff in Ht. now rewrite Ht.
  - cbn [Js.all_digits] in Hd. apply andb_true_iff in Hd as [Ha Hd].
    change (String a ds ++ tail)%string with (String a (ds ++ tail)).
    cbn [digits_value]. rewrite Ha. now apply IH.
Qed.

Lemma trimStart_spaces ws s : all_space ws = true -> trimStart (ws ++ s) = trimStart s.
Proof.
  induction ws as [|a ws IH]; intros H; [reflexivity|].
  cbn [all_space] in H. apply andb_true_iff in H as [Ha H].
  change (String a ws ++ s)%string with (String a (ws ++ s)).
  cbn [trimStart]. rewrite Ha. now apply IH.
Qed.

Lemma parseInt_spaces ws s : all_space ws = true -> parseInt (ws ++ s) = parseInt s.
Proof. intros H. unfold parseInt. now rewrite trimStart_spaces. Qed.

(** Text after the number is ignored. *)
Lemma parseInt_tail z tail :
  Js.stops_digits tail = true ->
  parseInt (Js.string_of_number z ++ tail) = Some z.
Proof.
  intros Ht.
  unfold Js.string_of_number. destruct z as [|p|p];
    cbn [Z.to_int DecimalString.NilEmpty.string_of_int].
  - cbn [DecimalString.NilEmpty.string_of_uint].
    change ("0" ++ tail)%string with (String "0" tail).
    rewrite parseInt_digits by reflexivity.
    change (String "0" tail) with ("0" ++ tail)%string.
    now rewrite digits_value_stop.
  - destruct (uint_head p) as (a & rest & E & Ha).
    pose proof (JsFacts.uint_all_digits (Pos.to_uint p)) as Hd.
    pose proof (digits_value_uint (Pos.to_uint p)) as Hv.
    unfold Z.of_uint in Hv. rewrite DecimalPos.Unsigned.of_to in Hv.
    rewrite E in *. change (String a rest ++ tail)%string with (String a (rest ++ tail)).
    rewrite parseInt_digits by exact Ha.
    change (String a (rest ++ tail)) with (String a rest ++ tail)%string.
    rewrite digits_value_stop by assumption. now rewrite Hv.
  - destruct (uint_head p) as (a & rest & E & Ha).
    pose proof (JsFacts.uint_all_digits (Pos.to_uint p)) as Hd.
    pose proof (digits_value_uint (Pos.to_uint p)) as Hv.
    unfold Z.of_uint in Hv. rewrite DecimalPos.Unsigned.of_to in Hv.
    rewrite E in *. unfold parseInt.
    change (String "-" (String a rest) ++ tail)%string
      with (String "-" (String a (rest ++ tail))).
    cbn [trimStart]. change (is_space "-") with false. cbv iota. rewrite Ha.
    change (String a (rest ++ tail)) with (String a rest ++ tail)%string.
    rewrite digits_value_stop by assumption. now rewrite Hv.
Qed.

Lemma parseInt_no_digit s : no_number s = true -> parseInt s = None.
Proof.
  unfold parseInt, no_number. destruct (trimStart s) as [|a rest]; [reflexivity|].
  intros H.
  assert (forall t, Js.stops_digits t = true ->
            match t with
            | String b _ => if Js.is_digit b then Some 0 else None
            | EmptyString => None
            end = @None Z) as Hstop.
  { intros [|b t] Hb; [reflexivity|]. cbn [Js.stops_digits] in Hb.
    apply negb_true_iff in Hb. now rewrite Hb. }
  destruct (Ascii.eqb_spec a "-"%char) as [->|Hm].
  { destruct rest as [|b rest]; [reflexivity|]. cbn [Js.stops_digits] in H.
    apply negb_true_iff in H. now rewrite H. }
  destruct (Ascii.eqb_spec a "+"%char) as [->|Hp].
  { destruct rest as [|b rest]; [reflexivity|]. cbn [Js.stops_digits] in H.
    apply negb_true_iff in H. now rewrite H. }
  assert (match String a rest with
          | String "-" r => (-1, r)
          | String "+" r => (1, r)
          | _ => (1, String a rest)
          end = (1, String a rest)) as E.
  { destruct a as [[] [] [] [] [] [] [] []]; try reflexivity;
      [now elim Hp | now elim Hm]. }
  assert (Js.stops_digits (String a rest) = true) as Hs.
  { destruct a as [[] [] [] [] [] [] [] []]; try exact H;
      [now elim Hp | now elim Hm]. }
  rewrite E. cbn [Js.stops_digits] in Hs. apply negb_true_iff in Hs. now rewrite Hs.
Qed.

Lemma readCurrentFormat_showing f :
  framework f <> EmptyString -> readCurrentFormat (showing f) = Shown f.
Proof.
  intros Hf. unfold readCurrentFormat, showing.
  cbn [frameworkSelect versionSelect checkedModeInput].
  rewrite parseInt_string_of_number.
  destruct f as [[|a fw] v m]; [now elim Hf | reflexivity].
Qed.

Lemma readCurrentFormat_shown c f :
  readCurrentFormat c = Shown f ->
  framework f <> EmptyString /\
  frameworkSelect c = Value (framework f) /\
  (exists versionStr, versionSelect c = Value versionStr /\
                      parseInt versionStr = Some (version f)) /\
  mode f = checkedModeInput c.
Proof.
  unfold readCurrentFormat.
  destruct (frameworkSelect c) as [fw|e]; [|discriminate].
  destruct (versionSelect c) as [vs|e]; [|discriminate].
  destruct fw as [|a fw]; [discriminate|].
  destruct (parseInt vs) as [v|] eqn:E; [|discriminate].
  intros H. injection H as <-. cbn [framework version mode].
  split; [discriminate|]. split; [reflexivity|]. split; [|reflexivity].
  exists vs. auto.
Qed.

End FormatControlsFacts.

Module FormatControlsSpec.
Import Errors Auth FormatControls ParseIntFacts FormatControlsFacts.
Local Open Scope Z_scope.

(** X22: [readCurrentFormat] reads back what the page shows. From controls
    that show a framework (not empty), the decimal string of a version
    that is a safe integer and a mode (or no checked mode input) it
    returns exactly that format; white space before the version and any
    text after it that does not start with a digit are ignored (a select
    value 4-beta reads as version 4). A format with a safe version that it
    returns has a non-empty framework, which is the value of the framework
    control as it is, the mode of the checked input, and the version
    [parseInt] found at the start of the version value. It throws the
    controls-not-found DownloaderError when the framework value is empty
    or the version value (ASCII text) has, after white space and a sign,
    no digit, and throws on what a control threw otherwise. *)
Theorem readCurrentFormat_reads_back :
  (forall f, framework f <> EmptyString -> safe (version f) ->
             readCurrentFormat (showing f) = Shown f) /\
  (forall fw v m ws tail,
     fw <> EmptyString -> safe v ->
     all_space ws = true -> Js.stops_digits tail = true ->
     readCurrentFormat
       (mkControls (Value fw) (Value (ws ++ Js.string_of_number v ++ tail)) m)
     = Shown (mkFormat fw v m)) /\
  (forall c f,
     readCurrentFormat c = Shown f -> safe (version f) ->
     framework f <> EmptyString /\
     frameworkSelect c = Value (framework f) /\
     (exists versionStr, versionSelect c = Value versionStr /\
                         parseInt versionStr = Some (version f)) /\
     mode f = checkedModeInput c) /\
  (forall c e,
     readCurrentFormat c = ReadThrew e ->
     frameworkSelect c = NoValue e \/ versionSelect c = NoValue e \/
     e = controls_not_found) /\
  (forall fw versionStr m,
     fw = EmptyString \/
     (Discovery.is_ascii versionStr = true /\ no_number versionStr = true) ->
     readCurrentFormat (mkControls (Value fw) (Value versionStr) m)
     = ReadThrew controls_not_found).
Proof.
  split; [intros f Hf _; now apply readCurrentFormat_showing|].
  split; [|split; [|split]].
  - intros fw v m ws tail Hf _ Hw Ht. unfold readCurrentFormat.
    cbn [frameworkSelect versionSelect checkedModeInput].
    rewrite (parseInt_spaces ws _ Hw), (parseInt_tail v tail Ht).
    destruct fw; [now elim Hf | reflexivity].
  - intros c f H _. now apply readCurrentFormat_shown.
  - intros c e. unfold readCurrentFormat.
    destruct (frameworkSelect c) as [fw|e1]; [|intros H; injection H as <-; now left].
    destruct (versionSelect c) as [vs|e2];
      [|intros H; injection H as <-; right; now left].
    destruct fw as [|a fw]; [intros H; injection H as <-; now right; right|].
    destruct (parseInt vs); [discriminate|].
    intros H; injection H as <-. now right; right.
  - intros fw versionStr m [->|[_ Hs]]; unfold readCurrentFormat;
      cbn [frameworkSelect versionSelect checkedModeInput]; [reflexivity|].
    rewrite (parseInt_no_digit versionStr Hs). now destruct fw.
Qed.

End FormatControlsSpec.

Module FormatSwitchFacts.
Import Errors FormatClass FormatChange FormatControls FormatSwitch FormatControlsFacts.

Lemma operate_prefix page todo :
  exists rest, todo = (fst (operate page todo) ++ rest)%list.
Proof.
  induction todo as [|setting todo IH]; [now exists []|].
  cbn [operate]. destruct (change page setting) as [e|].
  - exists todo. reflexivity.
  - destruct (operate page todo) as [done failure]. destruct IH as [rest E].
    cbn [fst] in *. exists rest. now rewrite E at 1.
Qed.

Lemma operate_all page todo :
  snd (operate page todo) = None -> fst (operate page todo) = todo.
Proof.
  induction todo as [|setting todo IH]; [reflexivity|].
  cbn [operate]. destruct (change page setting) as [e|]; [discriminate|].
  destruct (operate page todo) as [done failure]. cbn [fst snd] in *.
  intros H. now rewrite IH.
Qed.

Lemma operate_obeyed page todo :
  (forall setting, change page setting = None) -> operate page todo = (todo, None).
Proof.
  intros H. induction todo as [|setting todo IH]; [reflexivity|].
  cbn [operate]. now rewrite H, IH.
Qed.

Lemma wrapped_DownloaderError target e : exists msg, wrapped target e = DownloaderError msg.
Proof. destruct e as [m|n m]; cbn [wrapped]; eauto. Qed.

(** The settings to change are those that differ, each once, framework
    before version before mode. *)
Lemma settings_to_change_differ current target setting :
  In setting (settings_to_change current target) ->
  match setting with
  | FrameworkSetting => framework current <> framework target
  | VersionSetting => version current <> version target
  | ModeSetting => mode target <> None /\ mode current <> mode target
  end.
Proof.
  unfold settings_to_change. intros H.
  apply in_app_or in H as [H|H]; [|apply in_app_or in H as [H|H]].
  - destruct (String.eqb_spec (framework current) (framework target)) as [E|E];
      [destruct H|]. destruct H as [<-|[]]. exact E.
  - destruct (Z.eqb_spec (version current) (version target)) as [E|E];
      [destruct H|]. destruct H as [<-|[]]. exact E.
  - destruct (mode target) as [tm|]; [|destruct H].
    destruct (mode_neqb (mode current) (Some tm)) eqn:E; [|destruct H].
    destruct H as [<-|[]]. split; [discriminate|].
    intros E'. rewrite E' in E. cbn [mode_neqb] in E.
    now rewrite String.eqb_refl in E.
Qed.

End FormatSwitchFacts.

Module FormatSwitchSpec.
Import Errors FormatClass FormatChange FormatControls FormatSwitch.
Import FormatControlsFacts FormatSwitchFacts.

(** X23: [setFormat] returns only when the page shows the target, and
    touches no control without need. Whatever the page does:
    - when the call returns, the last read of the controls (the first one
      if no control was operated, the verifying one otherwise) gave a
      format whose key is the key of the target;
    - the controls operated are an initial part of the settings in which
      the format first read and the target differ, in the order
      framework, version, mode, and all of them when the call returns; a
      setting that agrees is never operated, and none is when the first
      read already gives the key of the target or an earlier step throws;
    - once the controls have been read, whatever is thrown is a
      DownloaderError;
    - for a target with a mode the settings to change are the differing
      ones, so from a format that differs in one setting one control is
      operated;
    - on a page that arrives, shows a format, takes every change and then
      shows the target, the call returns after operating exactly the
      differing settings. *)
Theorem setFormat_verifies (page : Page) (targetFormat : Format) (urls : list string) :
  (fst (setFormat page targetFormat urls) = Returns ->
   exists shown,
     equals shown targetFormat = true /\
     ((readCurrentFormat (controls page) = Shown shown /\
       snd (setFormat page targetFormat urls) = []) \/
      (readCurrentFormat (controls_after page) = Shown shown /\
       exists currentFormat,
         readCurrentFormat (controls page) = Shown currentFormat /\
         snd (setFormat page targetFormat urls)
           = settings_to_change currentFormat targetFormat))) /\
  (forall currentFormat,
     readCurrentFormat (controls page) = Shown currentFormat ->
     (exists rest,
        settings_to_change currentFormat targetFormat
          = (snd (setFormat page targetFormat urls) ++ rest)%list) /\
     (equals currentFormat targetFormat = true ->
      snd (setFormat page targetFormat urls) = []) /\
     (forall setting,
        In setting (snd (setFormat page targetFormat urls)) ->
        match setting with
        | FrameworkSetting => framework currentFormat <> framework targetFormat
        | VersionSetting => version currentFormat <> version targetFormat
        | ModeSetting => mode targetFormat <> None /\
                         mode currentFormat <> mode targetFormat
        end) /\
     (forall e, fst (setFormat page targetFormat urls) = Throws e ->
        arrival page = None -> codeButton page = None ->
        (forall e', dataPage page <> NoAttr e') ->
        exists message, e = DownloaderError message) /\
     (mode targetFormat <> None ->
      settings_to_change currentFormat targetFormat = differing currentFormat targetFormat) /\
     (mode targetFormat <> None -> one_step currentFormat targetFormat ->
      List.length (settings_to_change currentFormat targetFormat) = 1%nat)) /\
  (forall e, (forall currentFormat, readCurrentFormat (controls page) <> Shown currentFormat) \/
             arrival page = Some e \/ codeButton page = Some e \/ dataPage page = NoAttr e ->
     snd (setFormat page targetFormat urls) = []) /\
  (forall currentFormat data,
     framework currentFormat <> EmptyString -> framework targetFormat <> EmptyString ->
     data <> EmptyString ->
     page = mkPage None (Attr (Some data)) None (showing currentFormat) (fun _ => None)
                   (showing targetFormat) ->
     setFormat page targetFormat urls =
       (Returns,
        if equals currentFormat targetFormat then []
        else settings_to_change currentFormat targetFormat)).
Proof.
  assert (forall a b, mode b <> None -> settings_to_change a b = differing a b) as Hdiff.
  { intros a b Hm. unfold settings_to_change, differing.
    destruct (mode b) as [tm|]; [|now elim Hm].
    destruct (String.eqb (framework a) (framework b)),
             (Z.eqb (version a) (version b)); reflexivity. }
  split; [|split; [|split]].
  - unfold setFormat.
    destruct (arrival page); [discriminate|].
    destruct (dataPage page) as [[[|a d]|]|e]; try discriminate.
    destruct (codeButton page); [discriminate|].
    destruct (readCurrentFormat (controls page)) as [current|e] eqn:E1; [|discriminate].
    destruct (equals current targetFormat) eqn:Eq.
    + intros _. exists current. split; [exact Eq|]. left. split; reflexivity.
    + pose proof (operate_all page (settings_to_change current targetFormat)) as Hall.
      destruct (operate page (settings_to_change current targetFormat)) as [done failure].
      cbn [fst snd] in Hall.
      destruct failure as [e|]; [discriminate|].
      destruct (readCurrentFormat (controls_after page)) as [verified|e] eqn:E2;
        [|discriminate].
      destruct (equals verified targetFormat) eqn:Ev; [|discriminate].
      intros _. exists verified. split; [exact Ev|]. right. split; [reflexivity|].
      exists current. split; [reflexivity|]. cbn [snd]. now apply Hall.
  - intros current E1.
    assert (exists rest,
              settings_to_change current targetFormat
                = (snd (setFormat page targetFormat urls) ++ rest)%list) as Hprefix.
    { unfold setFormat.
      destruct (arrival page); [now eexists|].
      destruct (dataPage page) as [[[|a d]|]|e]; try (now eexists).
      destruct (codeButton page); [now eexists|].
      rewrite E1. destruct (equals current targetFormat); [now eexists|].
      pose proof (operate_prefix page (settings_to_change current targetFormat)) as Hp.
      destruct (operate page (settings_to_change current targetFormat)) as [done failure].
      cbn [fst] in Hp.
      destruct failure as [e|]; [exact Hp|].
      destruct (readCurrentFormat (controls_after page)) as [verified|e]; [|exact Hp].
      destruct (equals verified targetFormat); exact Hp. }
    split; [exact Hprefix|]. split; [|split; [|split; [|split]]].
    + intros Eq. unfold setFormat.
      destruct (arrival page); [reflexivity|].
      destruct (dataPage page) as [[[|a d]|]|e]; try reflexivity.
      destruct (codeButton page); [reflexivity|].
      now rewrite E1, Eq.
    + intros setting Hin. destruct Hprefix as [rest Hp].
      apply (settings_to_change_differ current targetFormat setting).
      rewrite Hp. apply in_or_app. now left.
    + intros e. unfold setFormat. intros H Ha Hc Hd. rewrite Ha, Hc, E1 in H.
      destruct (dataPage page) as [[[|a d]|]|e0];
        [injection H as <-; eauto | | injection H as <-; eauto | now elim (Hd e0)].
      destruct (equals current targetFormat); [discriminate|].
      destruct (operate page (settings_to_change current targetFormat)) as [done failure].
      destruct failure as [e1|];
        [injection H as <-; apply wrapped_DownloaderError|].
      destruct (readCurrentFormat (controls_after page)) as [verified|e1];
        [|injection H as <-; apply wrapped_DownloaderError].
      destruct (equals verified targetFormat); [discriminate|].
      injection H as <-. eauto.
    + apply Hdiff.
    + intros Hm Hs. rewrite (Hdiff _ _ Hm).
      now apply FormatManagerExtra.one_step_differing.
  - intros e H. unfold setFormat.
    destruct (arrival page) as [e0|]; [reflexivity|].
    destruct (dataPage page) as [[[|a d]|]|e1]; try reflexivity.
    destruct (codeButton page) as [e2|]; [reflexivity|].
    destruct (readCurrentFormat (controls page)) as [current|e3] eqn:E1; [|reflexivity].
    destruct H as [H|[H|[H|H]]]; try discriminate H. now elim (H current).
  - intros current data Hc Ht Hd ->. unfold setFormat.
    cbn [arrival dataPage codeButton controls controls_after].
    destruct data as [|a d]; [now elim Hd|].
    rewrite (readCurrentFormat_showing current Hc).
    destruct (equals current targetFormat) eqn:Eq; [reflexivity|].
    rewrite operate_obeyed by reflexivity.
    rewrite (readCurrentFormat_showing targetFormat Ht).
    unfold equals. now rewrite String.eqb_refl.
Qed.

Lemma setFormat_verifies_witness :
  setFormat (obedient (mkFormat "react" 4 (Some "light"%string)))
            (mkFormat "react" 4 (Some "light"%string))
            ["https://tailwindcss.com/plus/ui-blocks/marketing/sections/heroes"%string] =
  (Returns, [VersionSetting]).
Proof.
  apply (proj2 (proj2 (proj2
           (setFormat_verifies (obedient (mkFormat "react" 4 (Some "light"%string)))
              (mkFormat "react" 4 (Some "light"%string))
              ["https://tailwindcss.com/plus/ui-blocks/marketing/sections/heroes"%string])))
           (mkFormat "react" 3 (Some "light"%string)) "{}"%string).
  - discriminate.
  - discriminate.
  - discriminate.
  - reflexivity.
Defined.

End FormatSwitchSpec.

Module JsonSortingFacts.
Import JsonSorting TreeWalk TreeFacts.
Local Open Scope Z_scope.

Lemma consistent_zero {A} (c : A -> A -> Z) a b :
  consistent c -> c a b = 0 -> c b a = 0.
Proof.
  intros (_ & Ha & _) E.
  destruct (Z.lt_trichotomy (c b a) 0) as [H|[H|H]]; [|exact H|].
  - apply Ha in H. lia.
  - apply Ha in H. lia.
Qed.

Lemma consistent_ge {A} (c : A -> A -> Z) a b :
  consistent c -> c a b <= 0 -> 0 <= c b a.
Proof.
  intros Hc H. destruct (Z.eq_dec (c a b) 0) as [E|E].
  - rewrite (consistent_zero c a b Hc E). lia.
  - destruct Hc as (_ & Ha & _). assert (c a b < 0) as Hl by lia. apply Ha in Hl. lia.
Qed.

Lemma consistent_le {A} (c : A -> A -> Z) a b :
  consistent c -> 0 <= c a b -> c b a <= 0.
Proof.
  intros Hc H. destruct (Z.eq_dec (c a b) 0) as [E|E].
  - rewrite (consistent_zero c a b Hc E). lia.
  - destruct Hc as (_ & Ha & _). assert (0 < c a b) as Hl by lia. apply Ha in Hl. lia.
Qed.

(** Strictness is kept along a chain. *)
Lemma consistent_strict {A} (c : A -> A -> Z) x y z :
  consistent c -> c x y <= 0 -> c y z <= 0 -> c x y < 0 \/ c y z < 0 -> c x z < 0.
Proof.
  intros Hc H1 H2 Hs. pose proof Hc as (_ & _ & Ht).
  pose proof (Ht x y z H1 H2) as H3.
  destruct (Z.eq_dec (c x z) 0) as [E|E]; [|lia]. exfalso.
  pose proof (consistent_zero c x z Hc E) as E'.
  destruct Hs as [Hs|Hs].
  - assert (c y x <= 0) as H by (apply (Ht y z x); lia).
    pose proof (consistent_ge c y x Hc H). lia.
  - assert (c z y <= 0) as H by (apply (Ht z x y); lia).
    pose proof (consistent_ge c z y Hc H). lia.
Qed.

Lemma lex_consistent {A} (c1 c2 : A -> A -> Z) :
  consistent c1 -> consistent c2 -> consistent (lex c1 c2).
Proof.
  intros H1 H2. pose proof H1 as (R1 & A1 & T1). pose proof H2 as (R2 & A2 & T2).
  unfold lex. split; [|split].
  - intros a. rewrite R1. cbn. apply R2.
  - intros a b. destruct (Z.eqb_spec (c1 a b) 0) as [E|E]; cbn [negb].
    + rewrite (consistent_zero c1 a b H1 E). cbn. apply A2.
    + destruct (Z.eqb_spec (c1 b a) 0) as [E'|E']; cbn [negb].
      * now rewrite (consistent_zero c1 b a H1 E') in E.
      * apply A1.
  - intros a b c.
    destruct (Z.eqb_spec (c1 a b) 0) as [Eab|Eab];
      destruct (Z.eqb_spec (c1 b c) 0) as [Ebc|Ebc]; cbn [negb]; intros Hab Hbc.
    + assert (c1 a c <= 0) as Hle by (apply (T1 a b c); lia).
      assert (c1 c a <= 0) as Hge.
      { apply (T1 c b a); [rewrite (consistent_zero c1 b c H1 Ebc)
                          |rewrite (consistent_zero c1 a b H1 Eab)]; lia. }
      pose proof (consistent_ge c1 c a H1 Hge) as H0.
      assert (c1 a c = 0) as -> by lia. cbn. now apply (T2 a b c).
    + assert (c1 a c < 0) as Hl.
      { apply (consistent_strict c1 a b c H1); lia. }
      destruct (Z.eqb_spec (c1 a c) 0); cbn [negb]; lia.
    + assert (c1 a c < 0) as Hl.
      { apply (consistent_strict c1 a b c H1); lia. }
      destruct (Z.eqb_spec (c1 a c) 0); cbn [negb]; lia.
    + assert (c1 a c < 0) as Hl.
      { apply (consistent_strict c1 a b c H1); lia. }
      destruct (Z.eqb_spec (c1 a c) 0); cbn [negb]; lia.
Qed.

Lemma by_key_consistent {A B} (c : B -> B -> Z) (f : A -> B) :
  consistent c -> consistent (fun a b => c (f a) (f b)).
Proof.
  intros (R & An & T). split; [|split]; intros; [apply R | apply An | eapply T; eauto].
Qed.

Lemma minus_consistent : consistent (fun a b : Z => a - b).
Proof. split; [|split]; intros; lia. Qed.

Section WithCollation.
Variable localeCompare : string -> string -> Z.
Hypothesis collation : consistent localeCompare.

Local Abbreviation compare := (compareSnippets localeCompare).

Lemma compareSnippets_lex a b :
  compare a b =
  lex (fun a b => localeCompare (SnippetType.name a) (SnippetType.name b))
      (lex (fun a b => SnippetType.version a - SnippetType.version b)
           (fun a b => localeCompare (mode_string a) (mode_string b))) a b.
Proof.
  unfold compareSnippets, lex. cbv zeta.
  destruct (negb (localeCompare (SnippetType.name a) (SnippetType.name b) =? 0));
    [reflexivity|].
  destruct (Z.eqb_spec (SnippetType.version a) (SnippetType.version b)) as [E|E];
    destruct (Z.eqb_spec (SnippetType.version a - SnippetType.version b) 0) as [E'|E'];
    cbn [negb]; try reflexivity; lia.
Qed.

Lemma compareSnippets_consistent : consistent compare.
Proof.
  assert (consistent
            (lex (fun a b => localeCompare (SnippetType.name a) (SnippetType.name b))
               (lex (fun a b => SnippetType.version a - SnippetType.version b)
                  (fun a b => localeCompare (mode_string a) (mode_string b))))) as H.
  { apply lex_consistent; [apply (by_key_consistent localeCompare), collation|].
    apply lex_consistent; [apply (by_key_consistent (fun a b : Z => a - b)),
                            minus_consistent|].
    apply (by_key_consistent localeCompare), collation. }
  destruct H as (R & An & T). split; [|split].
  - intros a. rewrite compareSnippets_lex. apply R.
  - intros a b. rewrite !compareSnippets_lex. apply An.
  - intros a b c. rewrite !compareSnippets_lex. apply T.
Qed.

Lemma insert_perm x l : Permutation (insert localeCompare x l) (x :: l).
Proof.
  induction l as [|y l IH]; [reflexivity|]. cbn [insert].
  destruct (0 <? compare x y); [|reflexivity].
  rewrite IH. apply perm_swap.
Qed.

Lemma sort_perm l : Permutation (sort localeCompare l) l.
Proof.
  induction l as [|x l IH]; [reflexivity|].
  cbn [sort fold_right]. fold (sort localeCompare l).
  rewrite insert_perm. now constructor.
Qed.

Lemma insert_in_order x l :
  in_order localeCompare l -> in_order localeCompare (insert localeCompare x l).
Proof.
  pose proof compareSnippets_consistent as Hc. pose proof Hc as (_ & _ & T).
  induction l as [|y l IH]; intros H; [cbn; auto|].
  cbn [insert]. destruct H as [Hy Hl].
  destruct (Z.ltb_spec 0 (compare x y)) as [Hlt|Hge].
  - cbn [in_order]. split; [|now apply IH].
    apply Forall_forall. intros z Hz.
    apply (Permutation_in _ (insert_perm x l)) in Hz. destruct Hz as [<-|Hz].
    + apply (consistent_le compare x y Hc). lia.
    + rewrite Forall_forall in Hy. now apply Hy.
  - cbn [in_order]. split; [|split; assumption].
    constructor; [exact Hge|].
    apply Forall_forall. intros z Hz. rewrite Forall_forall in Hy.
    apply (T x y z Hge). now apply Hy.
Qed.

Lemma sort_in_order l : in_order localeCompare (sort localeCompare l).
Proof.
  induction l as [|x l IH]; [exact I|].
  cbn [sort fold_right]. fold (sort localeCompare l). now apply insert_in_order.
Qed.

Lemma sort_fixed l : in_order localeCompare l -> sort localeCompare l = l.
Proof.
  induction l as [|x l IH]; intros H; [reflexivity|].
  destruct H as [Hx Hl]. cbn [sort fold_right]. fold (sort localeCompare l).
  rewrite (IH Hl). destruct l as [|y l]; [reflexivity|].
  cbn [insert]. inversion Hx as [|? ? Hxy _]; subst.
  destruct (Z.ltb_spec 0 (compare x y)); [lia | reflexivity].
Qed.

(** Two arrangements in order of the same snippets are the same, when no
    two different snippets compare as equal. *)
Lemma in_order_unique l1 : forall l2,
  in_order localeCompare l1 -> in_order localeCompare l2 -> Permutation l1 l2 ->
  (forall a b, In a l1 -> In b l1 -> compare a b = 0 -> a = b) ->
  l1 = l2.
Proof.
  pose proof compareSnippets_consistent as Hc. pose proof Hc as (R & _ & _).
  induction l1 as [|x l1 IH]; intros l2 H1 H2 Hp Hd.
  - apply Permutation_nil in Hp. now subst.
  - destruct l2 as [|y l2]; [apply Permutation_sym, Permutation_nil in Hp; discriminate|].
    destruct H1 as [Hx H1], H2 as [Hy H2].
    assert (compare x y <= 0) as Hxy.
    { assert (In y (x :: l1)) as Hin
        by (apply (Permutation_in _ (Permutation_sym Hp)); now left).
      destruct Hin as [<-|Hin]; [rewrite R; lia|].
      rewrite Forall_forall in Hx. now apply Hx. }
    assert (compare y x <= 0) as Hyx.
    { assert (In x (y :: l2)) as Hin by (apply (Permutation_in _ Hp); now left).
      destruct Hin as [<-|Hin]; [rewrite R; lia|].
      rewrite Forall_forall in Hy. now apply Hy. }
    assert (x = y) as <-.
    { apply Hd; [now left | apply (Permutation_in _ (Permutation_sym Hp)); now left|].
      pose proof (consistent_ge compare y x Hc Hyx). lia. }
    f_equal. apply IH; try assumption.
    + now apply Permutation_cons_inv in Hp.
    + intros a b Ha Hb. apply Hd; now right.
Qed.

Lemma sort_unique l1 l2 :
  Permutation l1 l2 ->
  (forall a b, In a l1 -> In b l1 -> compare a b = 0 -> a = b) ->
  sort localeCompare l1 = sort localeCompare l2.
Proof.
  intros Hp Hd. apply in_order_unique; try apply sort_in_order.
  - rewrite !sort_perm. exact Hp.
  - intros a b Ha Hb. apply Hd; now apply (Permutation_in _ (sort_perm l1)).
Qed.

Lemma all_entries_sorted n :
  all_entries (sortSnippetsRecursively localeCompare n) =
  map (fun e => (fst e, sort localeCompare (snd e))) (all_entries n).
Proof.
  induction n as [nm ss|cs IH] using Node_induction; [reflexivity|].
  cbn [sortSnippetsRecursively all_entries].
  induction cs as [|[k c] cs IHcs]; [reflexivity|].
  inversion IH as [|? ? Hc Hcs]; subst. cbn [snd] in Hc.
  cbn [map flat_map fst snd]. rewrite map_app, Hc, (IHcs Hcs). reflexivity.
Qed.

Lemma sorted_twice n :
  sortSnippetsRecursively localeCompare (sortSnippetsRecursively localeCompare n) =
  sortSnippetsRecursively localeCompare n.
Proof.
  induction n as [nm ss|cs IH] using Node_induction.
  - cbn [sortSnippetsRecursively]. f_equal. apply sort_fixed, sort_in_order.
  - cbn [sortSnippetsRecursively]. f_equal. rewrite map_map. cbn [fst snd].
    induction cs as [|[k c] cs IHcs]; [reflexivity|].
    inversion IH as [|? ? Hc Hcs]; subst. cbn [snd] in Hc.
    cbn [map fst snd]. now rewrite Hc, (IHcs Hcs).
Qed.

Lemma sorted_rearranged shuffle n :
  (forall ss, Permutation (shuffle ss) ss) ->
  (forall nm ss, In (nm, ss) (all_entries n) ->
     forall a b, In a ss -> In b ss -> compare a b = 0 -> a = b) ->
  sortSnippetsRecursively localeCompare (rearranged shuffle n) =
  sortSnippetsRecursively localeCompare n.
Proof.
  intros Hs. induction n as [nm ss|cs IH] using Node_induction; intros Hd.
  - cbn [rearranged sortSnippetsRecursively]. f_equal.
    symmetry. apply sort_unique; [symmetry; apply Hs|].
    apply (Hd nm ss). now left.
  - cbn [rearranged sortSnippetsRecursively]. f_equal. rewrite map_map. cbn [fst snd].
    induction cs as [|[k c] cs IHcs]; [reflexivity|].
    inversion IH as [|? ? Hc Hcs]; subst. cbn [snd] in Hc.
    cbn [map fst snd]. rewrite Hc, (IHcs Hcs); [reflexivity| |].
    + intros nm ss Hin. apply (Hd nm ss). cbn [all_entries flat_map snd].
      apply in_or_app. now right.
    + intros nm ss Hin. apply (Hd nm ss). cbn [all_entries flat_map snd].
      apply in_or_app. now left.
Qed.

End WithCollation.

Lemma ascii_compare_refl a : (a ?= a)%char = Eq.
Proof. unfold Ascii.compare. apply N.compare_refl. Qed.

Lemma string_compare_refl s : String.compare s s = Eq.
Proof.
  induction s as [|a s IH]; [reflexivity|]. cbn [String.compare].
  now rewrite ascii_compare_refl.
Qed.

Lemma string_compare_trans a : forall b c,
  String.compare a b <> Gt -> String.compare b c <> Gt -> String.compare a c <> Gt.
Proof.
  induction a as [|x a IH]; intros [|y b] [|z c]; cbn [String.compare];
    try congruence.
  unfold Ascii.compare.
  destruct (N.compare_spec (N_of_ascii x) (N_of_ascii y)) as [E1|L1|G1];
    destruct (N.compare_spec (N_of_ascii y) (N_of_ascii z)) as [E2|L2|G2];
    try congruence; intros H1 H2.
  - rewrite E1, E2, N.compare_refl. now apply (IH b c).
  - rewrite E1. apply N.compare_lt_iff in L2. now rewrite L2.
  - rewrite <- E2. apply N.compare_lt_iff in L1. now rewrite L1.
  - assert (N_of_ascii x < N_of_ascii z)%N as L by lia.
    apply N.compare_lt_iff in L. now rewrite L.
Qed.

Lemma code_unit_order_consistent : consistent code_unit_order.
Proof.
  unfold code_unit_order. split; [|split].
  - intros a. now rewrite string_compare_refl.
  - intros a b. rewrite (String.compare_antisym b a).
    destruct (String.compare a b); cbn [CompOpp]; lia.
  - intros a b c Hab Hbc.
    pose proof (string_compare_trans a b c) as H.
    destruct (String.compare a b), (String.compare b c), (String.compare a c);
      try lia; exfalso; apply H; congruence.
Qed.

End JsonSortingFacts.

Module JsonSortingSpec.
Import JsonSorting TreeWalk JsonSortingFacts.
Local Open Scope Z_scope.

(** X24: [sortSnippetsRecursively] with a consistent [localeCompare].
    Sorting keeps every component under its name and in its place, with
    the same snippets (each as often as before), now in order: no snippet
    comes after one that follows it, by framework name, then version, then
    mode. Sorting sorted data changes nothing. And the result does not
    depend on the order in which the snippets of a component were
    collected, provided no two different snippets of a component compare
    as equal: putting the snippets of every component in another order
    before sorting gives the same data. *)
Theorem sortSnippetsRecursively_order (localeCompare : string -> string -> Z)
    (data : Tree) :
  consistent localeCompare ->
  Output.countComponents (sorted_data localeCompare data) = Output.countComponents data /\
  Forall2 (fun after before =>
             fst after = fst before /\ Permutation (snd after) (snd before) /\
             in_order localeCompare (snd after))
          (all_entries (Group (sorted_data localeCompare data)))
          (all_entries (Group data)) /\
  sorted_data localeCompare (sorted_data localeCompare data)
    = sorted_data localeCompare data /\
  (forall shuffle,
     (forall ss, Permutation (shuffle ss) ss) ->
     separated localeCompare data ->
     sorted_data localeCompare (rearranged_data shuffle data)
       = sorted_data localeCompare data).
Proof.
  intros Hc.
  assert (all_entries (Group (sorted_data localeCompare data)) =
          map (fun e => (fst e, sort localeCompare (snd e))) (all_entries (Group data)))
    as Hentries.
  { change (Group (sorted_data localeCompare data))
      with (sortSnippetsRecursively localeCompare (Group data)).
    apply all_entries_sorted. }
  split; [|split; [|split]].
  - unfold Output.countComponents. rewrite !TreeWalkFacts.countNode_entries, Hentries.
    apply length_map.
  - rewrite Hentries. apply CountSpec.Forall2_map_l. intros [nm ss] _. cbn [fst snd].
    split; [reflexivity|]. split; [apply sort_perm | now apply sort_in_order].
  - pose proof (sorted_twice localeCompare Hc (Group data)) as H.
    cbn [sortSnippetsRecursively] in H. now injection H.
  - intros shuffle Hs Hd.
    pose proof (sorted_rearranged localeCompare Hc shuffle (Group data) Hs Hd) as H.
    cbn [rearranged sortSnippetsRecursively] in H. now injection H.
Qed.

Lemma sortSnippetsRecursively_order_witness :
  let data := Samples.page "Split" [Samples.Y; Samples.X] in
  Output.countComponents (sorted_data code_unit_order data) = Output.countComponents data /\
  Forall2 (fun after before =>
             fst after = fst before /\ Permutation (snd after) (snd before) /\
             in_order code_unit_order (snd after))
          (all_entries (Group (sorted_data code_unit_order data)))
          (all_entries (Group data)) /\
  sorted_data code_unit_order (sorted_data code_unit_order data)
    = sorted_data code_unit_order data /\
  (forall shuffle,
     (forall ss, Permutation (shuffle ss) ss) ->
     separated code_unit_order data ->
     sorted_data code_unit_order (rearranged_data shuffle data)
       = sorted_data code_unit_order data).
Proof.
  intros data.
  apply (sortSnippetsRecursively_order code_unit_order data code_unit_order_consistent).
Defined.

End JsonSortingSpec.

Module SessionCheckFacts.
Import Errors Auth SessionCheck.
Local Open Scope Z_scope.

Section WithEnvironment.
Variable env : Environment.

(** [retryGoto] ends after at most [n] navigations and does nothing else. *)
Lemma retryGoto_from_bounded url maxRetries n : forall attempt c,
  exists r c1,
    retryGoto_from env n attempt maxRetries url c = (r, c1) /\
    r <> OutOfFuel /\
    (gotos c <= gotos c1 <= gotos c + n)%nat /\
    submits c1 = submits c /\ clockReads c1 = clockReads c /\ reads c1 = reads c.
Proof.
  induction n as [|n IH]; intros attempt c; cbn [retryGoto_from].
  - exists (Returned tt), c. repeat split; try lia. discriminate.
  - unfold bind at 1, page_goto at 1.
    destruct (goto env (gotos c)) as [| |e].
    + eexists _, _. split; [reflexivity|]. cbn [gotos submits clockReads reads].
      repeat split; try lia. discriminate.
    + destruct (attempt =? maxRetries).
      * eexists _, _. split; [reflexivity|]. cbn [gotos submits clockReads reads].
        repeat split; try lia. discriminate.
      * destruct (IH (attempt + 1)
                     (mkCounts (S (gotos c)) (submits c) (clockReads c) (reads c)))
          as (r & c1 & E & Hr & Hg & H1 & H2 & H3).
        cbn [gotos submits clockReads reads] in *.
        exists r, c1. repeat split; auto; lia.
    + eexists _, _. split; [reflexivity|]. cbn [gotos submits clockReads reads].
      repeat split; try lia. discriminate.
Qed.

Lemma validateSession_returns around plusUrl maxRetries c :
  exists isValid c1,
    validateSession env around plusUrl maxRetries c = (Returned isValid, c1) /\
    (gotos c <= gotos c1 <= gotos c + Z.to_nat maxRetries)%nat /\
    submits c1 = submits c /\ clockReads c1 = clockReads c /\ reads c1 = reads c /\
    (isValid = true ->
     signInLink around = Seen false /\ accountButton around = Seen true /\
     retryGoto env plusUrl maxRetries c = (Returned tt, c1)).
Proof.
  unfold validateSession, or_false, bind, retryGoto.
  destruct (retryGoto_from_bounded plusUrl maxRetries (Z.to_nat maxRetries) 1 c)
    as (r & c1 & E & Hr & Hg & H1 & H2 & H3).
  rewrite E. destruct r as [[]|e|]; [| |now elim Hr].
  - destruct (signInLink around) as [signIn|e];
      [|exists false, c1; repeat split; auto; try lia; discriminate].
    destruct (accountButton around) as [account|e];
      [|exists false, c1; repeat split; auto; try lia; discriminate].
    exists (negb signIn && account), c1. repeat split; auto; try lia;
      apply andb_true_iff in H as [Hs Ha]; apply negb_true_iff in Hs; now subst.
  - exists false, c1. repeat split; auto; try lia; discriminate.
Qed.

End WithEnvironment.

End SessionCheckFacts.

Module SessionCheckSpec.
Import Errors Auth SessionCheck SessionCheckFacts.
Local Open Scope Z_scope.

(** X25: a valid session means no login. [validateSession] never throws:
    it returns after at most [maxRetries] navigations, without a submit or
    a read from the terminal, and returns true only when the page was
    reached, the sign-in link is not visible and the account button is; a
    navigation that fails and a visibility check that throws count as an
    invalid session. When it returns true, [ensureAuthenticated] returns
    at once: no credentials are read, nothing is submitted, the session
    file is not touched. Otherwise the credentials come from the file when
    there is one (the terminal is not asked) and from the prompt when not,
    the login runs, and the session is saved only after the login has
    returned: a login that throws is thrown on, and a failure of the saving
    itself does not fail the call. *)
Theorem ensureAuthenticated_valid_session (env : Environment) (around : Surroundings)
    (fuel : nat) (plusUrl loginUrl : string) (maxRetries loginTimeout : Z) (c : Counts) :
  (exists isValid c1,
     validateSession env around plusUrl maxRetries c = (Returned isValid, c1) /\
     (gotos c <= gotos c1 <= gotos c + Z.to_nat maxRetries)%nat /\
     submits c1 = submits c /\ clockReads c1 = clockReads c /\ reads c1 = reads c /\
     (isValid = true ->
      signInLink around = Seen false /\ accountButton around = Seen true /\
      retryGoto env plusUrl maxRetries c = (Returned tt, c1)) /\
     (isValid = true ->
      ensureAuthenticated env around fuel plusUrl loginUrl maxRetries loginTimeout c
        = (Returned Untouched, c1)) /\
     (isValid = false ->
      forall credentials c2,
        resolveCredentials env around c1 = (Returned credentials, c2) ->
        (credentialsFile around = Some credentials /\ c2 = c1 \/
         credentialsFile around = None /\
         credentials = mkCredentials (trim (read env (reads c1)))
                                     (read env (S (reads c1))) /\
         reads c2 = S (S (reads c1))) /\
        ensureAuthenticated env around fuel plusUrl loginUrl maxRetries loginTimeout c =
          match login env fuel loginUrl maxRetries loginTimeout credentials c2 with
          | (Returned _, c3) =>
              (Returned (saveSession around), c3)
          | (Thrown e, c3) => (Thrown e, c3)
          | (OutOfFuel, c3) => (OutOfFuel, c3)
          end)).
Proof.
  destruct (validateSession_returns env around plusUrl maxRetries c)
    as (isValid & c1 & E & Hg & H1 & H2 & H3 & Hv).
  exists isValid, c1. repeat (split; [assumption|]). split.
  - intros ->. unfold ensureAuthenticated, bind at 1. now rewrite E.
  - intros -> credentials c2 Hr. split.
    + unfold resolveCredentials in Hr. destruct (credentialsFile around) as [fromFile|].
      * left. unfold ret in Hr. injection Hr as <- <-. split; reflexivity.
      * right. split; [reflexivity|]. unfold promptCredentials, bind, read_line, ret in Hr.
        cbn [reads gotos submits clockReads] in Hr. injection Hr as <- <-.
        split; reflexivity.
    + unfold ensureAuthenticated, bind at 1. rewrite E. unfold bind at 1. rewrite Hr.
      unfold bind at 1.
      destruct (login env fuel loginUrl maxRetries loginTimeout credentials c2)
        as [[[]|e|] c3]; reflexivity.
Qed.

Lemma ensureAuthenticated_valid_session_witness :
  ensureAuthenticated wrong_password signed_in 3 "https://tailwindcss.com/plus"
    "https://tailwindcss.com/plus/login" 3 15000 start
  = (Returned Untouched, mkCounts 1 0 0 0).
Proof.
  destruct (ensureAuthenticated_valid_session wrong_password signed_in 3
              "https://tailwindcss.com/plus" "https://tailwindcss.com/plus/login"
              3 15000 start)
    as (isValid & c1 & E & _ & _ & _ & _ & _ & Hvalid & _).
  assert (isValid = true /\ c1 = mkCounts 1 0 0 0) as [-> ->].
  { vm_compute in E. injection E as <- <-. split; reflexivity. }
  now apply Hvalid.
Defined.

End SessionCheckSpec.

Module LifecycleFacts.
Import Errors Auth FormatControls TrimFacts Lifecycle.
Local Open Scope string_scope.

Lemma lower_y a : lower a = "y"%char <-> a = "y"%char \/ a = "Y"%char.
Proof.
  destruct a as [[] [] [] [] [] [] [] []]; vm_compute;
    split; intros H; try discriminate H; try (destruct H as [H|H]; discriminate H);
    auto.
Qed.

Lemma trimStart_split s :
  exists ws, all_space ws = true /\ s = ws ++ trimStart s.
Proof.
  induction s as [|a s IH]; [exists ""; split; reflexivity|].
  cbn [trimStart]. destruct (is_space a) eqn:E.
  - destruct IH as (ws & Hw & Hs). exists (String a ws). split.
    + cbn [all_space]. now rewrite E, Hw.
    + cbn [append]. now rewrite <- Hs.
  - exists "". split; reflexivity.
Qed.

Lemma all_space_last ws a :
  all_space ws = true -> is_space a = true -> all_space (ws ++ String a "") = true.
Proof.
  induction ws as [|b ws IH]; intros Hw Ha; cbn [append all_space].
  - now rewrite Ha.
  - cbn [all_space] in Hw. apply andb_true_iff in Hw as [Hb Hw]. rewrite Hb. now apply IH.
Qed.

(** The answers that consent: those whose first character that is not
    white space is a y, small or capital. *)
Lemma consents_iff s :
  consents s = true <->
  exists ws c rest,
    all_space ws = true /\ s = ws ++ String c rest /\ (c = "y"%char \/ c = "Y"%char).
Proof.
  unfold consents, trim. split.
  - intros H. destruct (trimStart_split s) as (ws & Hw & Hs).
    destruct (trimStart_head s) as [E|(a & t & E & Ea)].
    + rewrite E in H. discriminate H.
    + destruct (trimEnd_head a t Ea) as [u Eu]. rewrite E, Eu in H.
      cbn [toLowerCase String.prefix] in H.
      destruct (ascii_dec "y"%char (lower a)) as [El|El]; [|discriminate H].
      exists ws, a, t. split; [exact Hw|]. split; [now rewrite <- E|].
      now apply lower_y.
  - intros (ws & c & rest & Hw & -> & Hc).
    assert (is_space c = false) as Ec by (destruct Hc as [-> | ->]; reflexivity).
    rewrite (FormatControlsFacts.trimStart_spaces ws _ Hw). cbn [trimStart]. rewrite Ec.
    destruct (trimEnd_head c rest Ec) as [u Eu]. rewrite Eu.
    cbn [toLowerCase String.prefix].
    assert (lower c = "y"%char) as -> by now apply lower_y.
    cbn. now destruct (toLowerCase u).
Qed.

Lemma steps_began run todo p :
  In (Began p) (fst (steps run todo)) ->
  In p todo /\
  forall before after, todo = (before ++ p :: after)%list -> ~ In p before ->
                       forall q, In q before -> failure run q = None.
Proof.
  induction todo as [|x todo IH]; cbn [steps fst]; [intros []|].
  destruct (failure run x) as [e|] eqn:Ex.
  - cbn [fst]. intros [H|[]]. injection H as <-. split; [now left|].
    intros [|b before] after E Hn q Hq; [destruct Hq|].
    cbn [app] in E. injection E as <- _. elim Hn. now left.
  - destruct (steps run todo) as [events e] eqn:Es. cbn [fst] in *. intros [H|H].
    + injection H as <-. split; [now left|].
      intros [|b before] after E Hn q Hq; [destruct Hq|].
      cbn [app] in E. injection E as <- _. elim Hn. now left.
    + destruct (IH H) as [Hin Hbefore]. split; [now right|].
      intros [|b before] after E Hn q Hq; [destruct Hq|].
      cbn [app] in E. injection E as <- E. destruct Hq as [<-|Hq]; [exact Ex|].
      apply (Hbefore before after E); [|exact Hq].
      intros Hb. apply Hn. now right.
Qed.

(** The steps up to the first that throws. *)
Lemma steps_first run before p after e :
  (forall q, In q before -> failure run q = None) ->
  failure run p = Some e ->
  steps run (before ++ p :: after) = (map Began (before ++ [p]), Some e).
Proof.
  induction before as [|q before IH]; intros Hb Hp; cbn [app steps map].
  - now rewrite Hp.
  - rewrite (Hb q (or_introl eq_refl)), IH; [reflexivity| |exact Hp].
    intros r Hr. apply Hb. now right.
Qed.

Lemma steps_all run todo :
  (forall q, In q todo -> failure run q = None) ->
  steps run todo = (map Began todo, None).
Proof.
  induction todo as [|q todo IH]; intros H; [reflexivity|]. cbn [steps map].
  rewrite (H q (or_introl eq_refl)), IH; [reflexivity|].
  intros r Hr. apply H. now right.
Qed.

Lemma steps_events run todo :
  (forall e, In e (fst (steps run todo)) -> exists p, e = Began p) /\
  (snd (steps run todo) = None ->
   fst (steps run todo) = map Began todo /\ forall p, In p todo -> failure run p = None) /\
  (forall e, snd (steps run todo) = Some e -> exists p, In p todo /\ failure run p = Some e).
Proof.
  induction todo as [|x todo (IH1 & IH2 & IH3)]; cbn [steps].
  - split; [intros e []|]. split; [|discriminate]. intros _. split; [reflexivity|intros p []].
  - destruct (failure run x) as [e0|] eqn:Ex.
    + cbn [fst snd]. split; [intros e [<-|[]]; eauto|]. split; [discriminate|].
      intros e H. injection H as <-. exists x. split; [now left | exact Ex].
    + destruct (steps run todo) as [events e1]. cbn [fst snd] in *.
      split; [intros e [<-|H]; eauto|]. split.
      * intros H. destruct (IH2 H) as [E Hp]. cbn [map]. rewrite E.
        split; [reflexivity|]. intros p [<-|Hin]; [exact Ex | now apply Hp].
      * intros e H. destruct (IH3 e H) as (p & Hp & Hf). exists p. split; [now right|exact Hf].
Qed.

End LifecycleFacts.

Module LifecycleSpec.
Import Errors Auth FormatControls Lifecycle LifecycleFacts.
Local Open Scope string_scope.

(** What an ending of [start] tells about the run. *)
Lemma start_ending_causes (run : Run) :
  (forall s,
     consents s = true <->
     exists ws c rest,
       all_space ws = true /\ s = ws ++ String c rest /\ (c = "y"%char \/ c = "Y"%char)) /\
  (In (Began writeOutput) (snd (start run)) ->
   (outputExists run = false \/ overwrite run = true \/
    exists s, answer run = Typed s /\ consents s = true) /\
   failure run initializeBrowser = None /\ failure run discoverUrls = None /\
   failure run runDownload = None) /\
  (outputExists run = true -> overwrite run = false ->
   (forall s, answer run = Typed s -> consents s = false) ->
   snd (start run) = [Asked] /\ exists e, fst (start run) = Throws e) /\
  (forall code,
     fst (start run) = Exits code ->
     code = 1%Z /\ ~ In Stopped (snd (start run)) /\
     exists p message,
       failure run p = Some (DownloaderError message) /\
       In (LoggedError message) (snd (start run))) /\
  (fst (start run) = Returns ->
   (forall p, failure run p = None) /\ stop_failure run = None /\
   exists asked,
     snd (start run) =
       (asked ++ map Began [initializeBrowser; discoverUrls; runDownload; writeOutput]
        ++ [Stopped])%list /\
     (asked = [] \/ asked = [Asked])) /\
  (List.length (filter (fun e => match e with Stopped => true | _ => false end)
                       (snd (start run))) <= 1)%nat.
Proof.
  assert (forall asked,
            (forall e, In e asked -> e = Asked) ->
            (In (Began writeOutput) (snd (lifecycle run asked)) ->
             failure run initializeBrowser = None /\ failure run discoverUrls = None /\
             failure run runDownload = None) /\
            (forall code,
               fst (lifecycle run asked) = Exits code ->
               code = 1%Z /\ ~ In Stopped (snd (lifecycle run asked)) /\
               exists p message,
                 failure run p = Some (DownloaderError message) /\
                 In (LoggedError message) (snd (lifecycle run asked))) /\
            (fst (lifecycle run asked) = Returns ->
             (forall p, failure run p = None) /\ stop_failure run = None /\
             snd (lifecycle run asked) =
               (asked ++ map Began [initializeBrowser; discoverUrls; runDownload; writeOutput]
                ++ [Stopped])%list) /\
            (List.length (filter (fun e => match e with Stopped => true | _ => false end)
                                 (snd (lifecycle run asked))) <= 1)%nat) as Hlife.
  { intros asked Hasked. unfold lifecycle.
    pose proof (steps_began run [initializeBrowser; discoverUrls; runDownload; writeOutput]
                  writeOutput) as Hb.
    destruct (steps_events run [initializeBrowser; discoverUrls; runDownload; writeOutput])
      as (He & Hall & Hfail).
    destruct (steps run [initializeBrowser; discoverUrls; runDownload; writeOutput])
      as [events thrown]. cbn [fst snd] in *.
    assert (forall tail, (forall e, In e tail -> e = Stopped \/ exists m, e = LoggedError m) ->
              In (Began writeOutput) (asked ++ events ++ tail)%list ->
              failure run initializeBrowser = None /\ failure run discoverUrls = None /\
              failure run runDownload = None) as Hw.
    { intros tail Ht Hin. apply in_app_or in Hin as [Hin|Hin];
        [apply Hasked in Hin; discriminate|].
      apply in_app_or in Hin as [Hin|Hin];
        [|destruct (Ht _ Hin) as [H|[m H]]; discriminate].
      destruct (Hb Hin) as [_ Hbefore].
      specialize (Hbefore [initializeBrowser; discoverUrls; runDownload] [] eq_refl).
      assert (~ In writeOutput [initializeBrowser; discoverUrls; runDownload]) as Hn
        by (intros [H|[H|[H|[]]]]; discriminate).
      repeat split; apply (Hbefore Hn); cbn; auto. }
    assert (forall tail, filter (fun e => match e with Stopped => true | _ => false end)
                           (asked ++ events ++ tail)%list =
                         filter (fun e => match e with Stopped => true | _ => false end) tail)
      as Hcount.
    { intros tail. rewrite !filter_app.
      assert (forall l, (forall e, In e l -> e <> Stopped) ->
                filter (fun e => match e with Stopped => true | _ => false end) l = [])
        as Hnone.
      { induction l as [|x l IH]; intros H; [reflexivity|]. cbn [filter].
        destruct x; try (apply IH; intros e He'; apply H; now right).
        elim (H Stopped); [now left | reflexivity]. }
      rewrite (Hnone asked), (Hnone events); [reflexivity| |].
      - intros e Hin. destruct (He e Hin) as [p ->]. discriminate.
      - intros e Hin. rewrite (Hasked e Hin). discriminate. }
    destruct thrown as [[message|name message]|].
    - cbn [fst snd]. split; [|split; [|split]].
      + apply Hw. intros e [<-|[]]. right. eauto.
      + intros code H. injection H as <-. split; [reflexivity|]. split.
        * intros Hin. apply in_app_or in Hin as [Hin|Hin];
            [apply Hasked in Hin; discriminate|].
          apply in_app_or in Hin as [Hin|[Hin|[]]]; [|discriminate].
          destruct (He _ Hin) as [p Hp]. discriminate.
        * destruct (Hfail _ eq_refl) as (p & _ & Hp). exists p, message.
          split; [exact Hp|]. apply in_or_app. right. apply in_or_app. right. now left.
      + discriminate.
      + rewrite Hcount. cbn. lia.
    - cbn [fst snd]. split; [|split; [|split]].
      + apply Hw. intros e [<-|[]]. now left.
      + unfold finally_stop. destruct (stop_failure run); discriminate.
      + unfold finally_stop. destruct (stop_failure run); discriminate.
      + rewrite Hcount. cbn. lia.
    - cbn [fst snd]. split; [|split; [|split]].
      + apply Hw. intros e [<-|[]]. now left.
      + unfold finally_stop. destruct (stop_failure run); discriminate.
      + unfold finally_stop. destruct (stop_failure run) as [e|] eqn:Es; [discriminate|].
        intros _. destruct (Hall eq_refl) as [Hev Hnone].
        split; [|split; [reflexivity|]].
        * intros p. apply Hnone. destruct p; cbn; auto.
        * now rewrite Hev.
      + rewrite Hcount. cbn. lia. }
  split; [exact consents_iff|].
  assert (forall e : Event, In e [Asked] -> e = Asked) as H1 by (intros e [<-|[]]; reflexivity).
  assert (forall e : Event, In e [] -> e = Asked) as H0 by (intros e []).
  destruct (Hlife [Asked] H1) as (A1 & A2 & A3 & A4).
  destruct (Hlife [] H0) as (B1 & B2 & B3 & B4).
  unfold start.
  destruct (outputExists run) eqn:Eo; [destruct (overwrite run) eqn:Ev|]; cbn [andb negb].
  - split; [intros H; split; [auto | now apply B1]|].
    split; [discriminate|]. split; [exact B2|]. split; [|exact B4].
    intros H. destruct (B3 H) as (F & S & E). repeat (split; [assumption|]).
    exists []. split; [exact E | now left].
  - destruct (answer run) as [s|e] eqn:Ea.
    + destruct (consents s) eqn:Ec; cbn [negb].
      * split; [intros H; split; [right; right; eauto | now apply A1]|].
        split; [intros _ _ H; specialize (H s eq_refl); congruence|].
        split; [exact A2|]. split; [|exact A4].
        intros H. destruct (A3 H) as (F & S & E). repeat (split; [assumption|]).
        exists [Asked]. split; [exact E | now right].
      * cbn [fst snd]. split; [intros [H|[]]; discriminate|].
        split; [intros _ _ _; split; [reflexivity | eauto]|].
        split; [discriminate|]. split; [discriminate|]. cbn. lia.
    + cbn [fst snd]. split; [intros [H|[]]; discriminate|].
      split; [intros _ _ _; split; [reflexivity | eauto]|].
      split; [discriminate|]. split; [discriminate|]. cbn. lia.
  - split; [intros H; split; [auto | now apply B1]|].
    split; [discriminate|]. split; [exact B2|]. split; [|exact B4].
    intros H. destruct (B3 H) as (F & S & E). repeat (split; [assumption|]).
    exists []. split; [exact E | now left].
Qed.

(** X26: [start] does not overwrite an output without consent, and how it
    ends.
    - The answers that consent are those whose first character that is
      not white space is a y, small or capital; the empty answer does not.
    - The output is written only when it did not exist, or the overwrite
      option is set, or the answer consents, and only after the browser,
      the discovery and the download went through. Without consent the
      call throws before anything else is done.
    - When [start] goes on and the first step to throw throws a
      DownloaderError, the steps up to it are run, its message is logged
      and the process exits with code 1, without [stop] being run; when
      it throws another error, [stop] is run after the steps up to it and
      the error is thrown on (unless [stop] throws itself); when no step
      throws, all four are run, [stop] is run last and [start] returns
      (unless [stop] throws). Conversely an exit comes from a
      DownloaderError of a step, and a return from four steps and a [stop]
      that went through. [stop] is never run twice. *)
Theorem start_asks_before_overwriting (run : Run) :
  (forall s,
     consents s = true <->
     exists ws c rest,
       all_space ws = true /\ s = ws ++ String c rest /\ (c = "y"%char \/ c = "Y"%char)) /\
  (In (Began writeOutput) (snd (start run)) ->
   (outputExists run = false \/ overwrite run = true \/
    exists s, answer run = Typed s /\ consents s = true) /\
   failure run initializeBrowser = None /\ failure run discoverUrls = None /\
   failure run runDownload = None) /\
  (outputExists run = true -> overwrite run = false ->
   (forall s, answer run = Typed s -> consents s = false) ->
   snd (start run) = [Asked] /\ exists e, fst (start run) = Throws e) /\
  (forall code,
     fst (start run) = Exits code ->
     code = 1%Z /\ ~ In Stopped (snd (start run)) /\
     exists p message,
       failure run p = Some (DownloaderError message) /\
       In (LoggedError message) (snd (start run))) /\
  (fst (start run) = Returns ->
   (forall p, failure run p = None) /\ stop_failure run = None /\
   exists asked,
     snd (start run) =
       (asked ++ map Began [initializeBrowser; discoverUrls; runDownload; writeOutput]
        ++ [Stopped])%list /\
     (asked = [] \/ asked = [Asked])) /\
  (List.length (filter (fun e => match e with Stopped => true | _ => false end)
                       (snd (start run))) <= 1)%nat /\
  (forall before p after e,
     [initializeBrowser; discoverUrls; runDownload; writeOutput] = (before ++ p :: after)%list ->
     (forall q, In q before -> failure run q = None) ->
     failure run p = Some e ->
     (outputExists run = false \/ overwrite run = true \/
      exists s, answer run = Typed s /\ consents s = true) ->
     start run =
       match e with
       | DownloaderError message =>
           (Exits 1,
            (if outputExists run && negb (overwrite run) then [Asked] else [])
            ++ map Began (before ++ [p]) ++ [LoggedError message])
       | OtherError _ _ =>
           (match stop_failure run with Some e' => Throws e' | None => Throws e end,
            (if outputExists run && negb (overwrite run) then [Asked] else [])
            ++ map Began (before ++ [p]) ++ [Stopped])
       end%list) /\
  ((forall p, failure run p = None) ->
   (outputExists run = false \/ overwrite run = true \/
    exists s, answer run = Typed s /\ consents s = true) ->
   start run =
     (match stop_failure run with Some e' => Throws e' | None => Returns end,
      (if outputExists run && negb (overwrite run) then [Asked] else [])
      ++ map Began [initializeBrowser; discoverUrls; runDownload; writeOutput]
      ++ [Stopped])%list).
Proof.
  destruct (start_ending_causes run) as (C1 & C2 & C3 & C4 & C5 & C6).
  repeat (split; [assumption|]).
  assert ((outputExists run = false \/ overwrite run = true \/
           exists s, answer run = Typed s /\ consents s = true) ->
          start run =
          lifecycle run (if outputExists run && negb (overwrite run) then [Asked] else []))
    as Hgo.
  { intros Hg. unfold start.
    destruct (outputExists run) eqn:Eo; [|reflexivity].
    destruct (overwrite run) eqn:Ev; [reflexivity|]. cbn [andb negb].
    destruct Hg as [Hg|[Hg|(s & Ea & Ec)]]; try discriminate.
    rewrite Ea, Ec. reflexivity. }
  split.
  - intros before p after e Hall Hbefore Hp Hg. rewrite (Hgo Hg). unfold lifecycle.
    rewrite Hall, (steps_first run before p after e Hbefore Hp).
    destruct e; reflexivity.
  - intros Hnone Hg. rewrite (Hgo Hg). unfold lifecycle.
    rewrite (steps_all run _ (fun q _ => Hnone q)). reflexivity.
Qed.

End LifecycleSpec.

Module DownloadPassesFacts.
Import Errors JobType Downloader Worker JobBudget TreeShape TreeFacts TreeWalk.
Import TreeWalkFacts MergeFacts.
Import PageFunctions Authenticated AuthenticatedPass ExtractionFacts PassFacts.
Import Reflecting FormatManager FormatTrace FormatManagerFacts DownloadPasses.
Local Open Scope Z_scope.

(** What a visit brings is component data of the format. *)
Lemma visited_data format ecommerceUrl d :
  visited format ecommerceUrl (Extracted d) ->
  isComponentData d = true /\
  forall s, In s (all_snippets (Group d)) -> in_format format s.
Proof.
  intros (visit & url & E).
  destruct (extractAuthenticatedPageData visit url format ecommerceUrl)
    as [d'| |e] eqn:Ex; [|discriminate|discriminate].
  simpl in E. inversion E; subst d'.
  destruct (extractAuthenticatedPageData_data _ _ _ _ _ Ex) as (Hs & _ & Hall).
  split; [exact Hs|]. intros s H.
  apply in_all_snippets in H as (nm & ss & Hin & Hss).
  destruct (Hall nm ss Hin) as (s' & -> & Hn & Hver & Hmode).
  destruct Hss as [<-|[]]. split; [exact Hn|]. split; [exact Hver|].
  rewrite Hmode. destruct (String.prefix ecommerceUrl url); auto.
Qed.

Lemma nth_error_set_nth {A} (l : list A) : forall w x y,
  nth_error l w = Some x -> nth_error (Pool.set_nth w y l) w = Some y.
Proof.
  induction l as [|a l IH]; intros [|w] x y E; try discriminate; simpl in *; eauto.
Qed.

Lemma length_set_nth {A} (l : list A) : forall w y,
  List.length (Pool.set_nth w y l) = List.length l.
Proof.
  induction l as [|a l IH]; intros [|w] y; simpl; auto.
Qed.

(** A worker that is not out of its loop keeps the pass from being over. *)
Lemma not_all_returned ws w x y :
  nth_error ws w = Some x -> y <> Returned ->
  ~ Forall (fun v => v = Returned) (Pool.set_nth w y ws).
Proof.
  intros E Hy F. rewrite Forall_forall in F. apply Hy, F.
  apply (nth_error_In _ w). now apply (nth_error_set_nth ws w x).
Qed.

Section OnePass.
Variables (format : Format) (ecommerceUrl : string).
Variable old : Snippet -> Prop.

Lemma report_kept this job outcome :
  kept format old this -> page_visit format ecommerceUrl outcome ->
  exists job' this',
    processJobResult this (attempt outcome job) = Some (job', this') /\
    kept format old this' /\ maxRetries this' = maxRetries this.
Proof.
  intros [Hs Hin] [Hv Hp]. unfold processJobResult.
  destruct outcome as [d|message]; cbn [attempt status data retryCount url].
  - destruct (visited_data format ecommerceUrl d Hv) as [Hd Hf].
    simpl in Hp.
    destruct (merge_shaped 3 (componentData this) d Hs Hd Hp) as (r & E & Sr & _).
    unfold Output.mergeComponentData in *. rewrite E.
    eexists _, _. split; [reflexivity|]. split; [|reflexivity].
    split; [exact Sr|]. cbn [with_data componentData]. intros s H.
    apply (merge_snippets 3 (componentData this) d r s Hs Hd Hp E) in H as [H|H]; auto.
  - destruct (retryCount job <? maxRetries this);
      eexists _, _; (split; [reflexivity|]); split; try reflexivity; split; assumption.
Qed.

Lemma pass_step_kept s s' :
  pass_step (page_visit format ecommerceUrl) s s' ->
  kept format old (p_host s) ->
  kept format old (p_host s') /\ maxRetries (p_host s') = maxRetries (p_host s).
Proof.
  intros Hstep Hk. destruct Hstep as [w job rest this ws Hw Hq
                                     |w this ws Hw Hq
                                     |w job outcome job' this this' ws Hv Hw Hp].
  - cbn [p_host with_queue]. split; [exact Hk | reflexivity].
  - cbn [p_host]. split; [exact Hk | reflexivity].
  - cbn [p_host] in *.
    destruct (report_kept this job outcome Hk Hv) as (j & t & E & Hk' & Hm).
    rewrite Hp in E. injection E as <- <-. split; assumption.
Qed.

Lemma pass_steps_kept s s' :
  pass_steps (page_visit format ecommerceUrl) s s' ->
  kept format old (p_host s) ->
  kept format old (p_host s') /\ maxRetries (p_host s') = maxRetries (p_host s).
Proof.
  induction 1 as [s|s1 s2 s3 _ IH Hstep]; intros Hk; [split; [exact Hk|reflexivity]|].
  destruct (IH Hk) as [Hk2 Hm2].
  destruct (pass_step_kept s2 s3 Hstep Hk2) as [Hk3 Hm3].
  split; [exact Hk3 | congruence].
Qed.

End OnePass.

(** The queue of a pass that is over. *)
Lemma pass_step_drained P s s' : pass_step P s s' -> drained s'.
Proof.
  intros Hstep F.
  destruct Hstep as [w job rest this ws Hw Hq|w this ws Hw Hq
                    |w job outcome job' this this' ws Hv Hw Hp]; cbn [p_workers p_host] in *.
  - exfalso. eapply not_all_returned; [exact Hw| |exact F]. discriminate.
  - now right.
  - exfalso. eapply not_all_returned; [exact Hw| |exact F]. discriminate.
Qed.

Lemma pass_steps_workers P s s' :
  pass_steps P s s' -> List.length (p_workers s') = List.length (p_workers s).
Proof.
  induction 1 as [s|s1 s2 s3 _ IH Hstep]; [reflexivity|]. rewrite <- IH.
  destruct Hstep; cbn [p_workers]; apply length_set_nth.
Qed.

Lemma pass_drained P workers urls this this' :
  pass P workers urls this this' ->
  (1 <= workers)%nat -> jobQueue this' = [].
Proof.
  intros (ws & Hsteps & F) Hw.
  pose proof (pass_steps_workers _ _ _ Hsteps) as Hl.
  cbn [p_workers started] in Hl. rewrite repeat_length in Hl.
  inversion Hsteps as [s E1 E2|s1 s2 s3 _ Hstep E1 E2].
  - subst ws. destruct workers; [lia|]. cbn [repeat] in F.
    inversion F; discriminate.
  - subst s3. destruct (pass_step_drained _ _ _ Hstep F) as [E|E]; [|exact E].
    cbn [p_workers] in E. subst ws. simpl in Hl. lia.
Qed.

(** All passes. *)
Lemma _processFormats_kept workers urls ecommerceUrl rounds this result :
  _processFormats workers urls ecommerceUrl rounds this result ->
  forall old,
    isComponentData (componentData this) = true ->
    (forall s, In s (all_snippets (Group (componentData this))) -> old s) ->
    isComponentData (componentData (fst result)) = true /\
    (forall s, In s (all_snippets (Group (componentData (fst result)))) ->
               old s \/ exists f, In f (map fst rounds) /\ in_format f s) /\
    maxRetries (fst result) = maxRetries this.
Proof.
  induction 1 as [this|format e rest this|format rest this this' result Hpass _ IH];
    intros old Hs Hold; cbn [fst].
  - auto.
  - auto.
  - destruct Hpass as (ws & Hsteps & _).
    destruct (pass_steps_kept format ecommerceUrl old _ _ Hsteps) as [[Hs' Hin'] Hm'].
    { split; [exact Hs|]. cbn [started p_host _populateJobQueue with_queue componentData].
      intros s H. left. now apply Hold. }
    cbn [p_host started _populateJobQueue with_queue maxRetries] in *.
    destruct (IH (fun s => old s \/ in_format format s) Hs' Hin') as (Hsf & Hinf & Hmf).
    split; [exact Hsf|]. split.
    + intros s H. destruct (Hinf s H) as [[H1|H1]|(f & Hf1 & Hf2)].
      * now left.
      * right. exists format. split; [now left | exact H1].
      * right. exists f. split; [now right | exact Hf2].
    + congruence.
Qed.

(** Without workers nothing is done. *)
Lemma pass_step_no_worker P s s' : pass_step P s s' -> p_workers s <> [].
Proof.
  intros Hstep E.
  destruct Hstep as [w job rest this ws Hw Hq|w this ws Hw Hq
                    |w job outcome job' this this' ws Hv Hw Hp];
    cbn [p_workers] in E; subst ws; destruct w; discriminate Hw.
Qed.

Lemma pass_steps_no_worker P this s :
  pass_steps P (started 0 this) s -> s = started 0 this.
Proof.
  remember (started 0 this) as s0 eqn:E0.
  induction 1 as [s|s1 s2 s3 _ IH Hstep]; [reflexivity|].
  specialize (IH E0). subst s2 s1. now elim (pass_step_no_worker _ _ _ Hstep).
Qed.

(** With a worker, every pass leaves the queue empty. *)
Lemma _processFormats_drained workers urls ecommerceUrl rounds this result :
  _processFormats workers urls ecommerceUrl rounds this result ->
  (1 <= workers)%nat -> jobQueue this = [] -> jobQueue (fst result) = [].
Proof.
  induction 1 as [this|format e rest this|format rest this this' result Hpass _ IH];
    intros Hw Hq; cbn [fst]; try exact Hq.
  apply IH; [exact Hw|].
  destruct urls as [|u urls].
  - destruct Hpass as (ws & Hsteps & _).
    unfold numWorkers in Hsteps. rewrite Nat.min_0_r in Hsteps.
    apply pass_steps_no_worker in Hsteps. now inversion Hsteps.
  - apply (pass_drained _ _ _ _ _ Hpass). unfold numWorkers. cbn [List.length]. lia.
Qed.

Lemma in_generateFormats startFormat config formats f :
  generateFormats startFormat config = Some formats -> In f formats ->
  In (framework f) (framework startFormat :: frameworks config) /\
  In (version f) (version startFormat :: versions config) /\
  exists m, mode f = Some m /\ (mode startFormat = Some m \/ In m (modes config)).
Proof.
  unfold generateFormats. intros E H.
  destruct (first_mode (mode startFormat) config) as [m0|] eqn:E0; [|discriminate].
  injection E as <-.
  apply (Permutation_in _ (generate_perm _ _ _)) in H.
  apply in_grid in H as (Hfw & Hv & m & Em & Hm).
  split; [|split].
  - destruct Hfw as [<-|Hfw]; [now left|]. right. now apply filter_In in Hfw.
  - destruct Hv as [<-|Hv]; [now left|]. right. now apply filter_In in Hv.
  - exists m. split; [exact Em|]. destruct Hm as [<-|Hm].
    + unfold first_mode in E0. destruct (mode startFormat) as [sm|].
      * left. exact E0.
      * right. destruct (modes config); [discriminate|]. injection E0 as <-. now left.
    + right. now apply filter_In in Hm.
Qed.

End DownloadPassesFacts.

Module DownloadPassesSpec.
Import Errors JobType Downloader Worker TreeShape TreeWalk.
Import PageFunctions Authenticated AuthenticatedPass FormatManager.
Import DownloadPasses DownloadPassesFacts.
Local Open Scope Z_scope.

(** X21: the authenticated download stores snippets of the formats asked
    for and of no other, with any number of workers and however their
    steps fall. Start with no component data, take the formats
    [generateFormats] makes from the detected start format, and let
    [_processFormats] go through them, every extraction being a visit of
    a page for the format of its pass whose data is under names that no
    object inherits. Then, whether all passes run or [setFormat] throws on
    the way, the data is component data, every snippet in it is of the
    format of one of the passes, so that its framework and version are
    those of the start format or configured ones and its mode is none,
    that of the start format, or a configured one. With at least one
    worker no job is left in the queue: a pass is over when every worker
    has left its loop, and the last one to leave found the queue empty.
    On the way no report raises: whenever a worker waits for an
    extraction in a pass, the report of its job goes through. *)
Theorem authenticated_download_formats (workers : nat) (urls : list string)
    (startFormat : Format) (config : DownloadConfig) (formats : list Format)
    (rounds : list (Format * option Error)) (ecommerceUrl : string)
    (this final : Host) (err : option Error) :
  componentData this = [] -> jobQueue this = [] ->
  generateFormats startFormat config = Some formats ->
  map fst rounds = formats ->
  _processFormats workers urls ecommerceUrl rounds this (final, err) ->
  isComponentData (componentData final) = true /\
  (forall s, In s (all_snippets (Group (componentData final))) ->
     (exists f, In f formats /\ in_format f s) /\ asked_for startFormat config s) /\
  ((1 <= workers)%nat -> jobQueue final = []) /\
  (forall format before s w job outcome,
     isComponentData (componentData before) = true ->
     pass_steps (page_visit format ecommerceUrl)
                (started (numWorkers workers urls) (_populateJobQueue urls before)) s ->
     nth_error (p_workers s) w = Some (Extracting job) ->
     page_visit format ecommerceUrl outcome ->
     exists job' this',
       processJobResult (p_host s) (attempt outcome job) = Some (job', this')).
Proof.
  intros Hd Hq Hg Hr Hp.
  destruct (_processFormats_kept workers urls ecommerceUrl rounds this (final, err) Hp
              (fun _ => False)) as (Hs & Hin & _).
  { now rewrite Hd. }
  { rewrite Hd. intros s []. }
  cbn [fst] in *. split; [exact Hs|]. split; [|split].
  - intros s H. destruct (Hin s H) as [[]|(f & Hf1 & Hn & Hv & Hmode)].
    rewrite Hr in Hf1.
    destruct (in_generateFormats startFormat config formats f Hg Hf1)
      as (Gf & Gv & m & Em & Gm).
    split; [exists f; split; [exact Hf1 | repeat split; assumption]|].
    unfold asked_for. rewrite Hn, Hv. split; [exact Gf|]. split; [exact Gv|].
    destruct Hmode as [Hmode|Hmode]; [|now left].
    right. exists m. split; [now rewrite Hmode | exact Gm].
  - intros Hw.
    exact (_processFormats_drained workers urls ecommerceUrl rounds this (final, err)
             Hp Hw Hq).
  - intros format before s w job outcome Hb Hsteps Hw Hv.
    destruct (pass_steps_kept format ecommerceUrl (fun _ => True) _ _ Hsteps) as [Hk _].
    { split; [exact Hb|]. intros; now left. }
    destruct (report_kept format ecommerceUrl (fun _ => True) (p_host s) job outcome Hk Hv)
      as (job' & this' & E & _). eauto.
Qed.

Lemma authenticated_download_formats_witness :
  let url :=
    "https://tailwindcss.com/plus/ui-blocks/ecommerce/components/product-overviews"%string in
  let ecommerceUrl := "https://tailwindcss.com/plus/ui-blocks/ecommerce"%string in
  let startFormat := mkFormat "react" 4 (Some "light"%string) in
  let config := mkDownloadConfig ["react"%string] [4] ["light"%string] in
  let final := mkHost 3 [] (Samples.page "Split" [Samples.X]) in
  isComponentData (componentData final) = true /\
  (forall s, In s (all_snippets (Group (componentData final))) ->
     (exists f, In f [startFormat] /\ in_format f s) /\ asked_for startFormat config s) /\
  ((1 <= 15)%nat -> jobQueue final = []).
Proof.
  intros url ecommerceUrl startFormat config final.
  pose (visit :=
    mkVisit None
      (Polls [NoDataPage;
              PageData (Some (mkSubcategory "Product Overviews"
                [mkComponent "Split" "c0ffee" true "light" (mkRawSnippet Samples.X [])]
                "Components" "Ecommerce"))])).
  pose (outcome := Extracted (Samples.page "Split" [Samples.X])).
  destruct (authenticated_download_formats 15 [url] startFormat config [startFormat]
              [(startFormat, None)] ecommerceUrl (mkHost 3 [] []) final None)
    as (H1 & H2 & H3 & _); [reflexivity | reflexivity | reflexivity | reflexivity | |auto].
  apply (formats_pass 15 [url] ecommerceUrl startFormat [] (mkHost 3 [] []) final);
    [|apply formats_done].
  exists [Returned]. split; [|repeat constructor].
  eapply pass_steps_step; [eapply pass_steps_step; [eapply pass_steps_step;
    [apply pass_steps_refl|]|]|].
  - apply (pass_take _ 0 (mkJob url pending 0 None None) [] _ [AtLoopTest]); reflexivity.
  - cbn [with_queue Pool.set_nth maxRetries componentData JobType.url retryCount data error
         _populateJobQueue map].
    exact (pass_report (page_visit startFormat ecommerceUrl) 0
             (mkJob url processing 0 None None) outcome
             (mkJob url completed 0 (Some (Samples.page "Split" [Samples.X])) None)
             (mkHost 3 [] []) final [Extracting (mkJob url processing 0 None None)]
             (conj (ex_intro _ visit (ex_intro _ url eq_refl)) eq_refl) eq_refl eq_refl).
  - apply (pass_leave _ 0 final [AtLoopTest]); reflexivity.
Defined.

End DownloadPassesSpec.
